(** * MusicToy synthesis engine: envelope, timeline, node graph, analog voice

    A shallow embedding of the engine's core (ADSR envelope, note naming,
    track/piece event timeline, synthesis network ports and scheduler,
    analog voice node) together with the properties its specification
    states about them.

    Numbers.  JavaScript numbers are modelled by exact rationals [Q]; the
    comparisons [<], [>=], [===] on numbers become [Qltb], [Qle_bool],
    [Qeq_bool].  Rounding, NaN and signed zero are outside the model.  The
    one infinite value the sources rely on, an envelope segment of length
    [Infinity], is modelled by the type [duration].  Integer quantities
    (indices, note numbers, channel counts) are [Z] or [nat]. *)

From Stdlib Require Import QArith ZArith List Lia Lqa Qpower Bool.
From Stdlib Require Import String Ascii.
From Stdlib Require Import Sorted Permutation.
From Stdlib Require Import DecimalString Qabs Qround.
From Equations Require Import Equations.
Import ListNotations.

Set Implicit Arguments.

(* ===================================================================== *)
(** * Part I: the model *)
(* ===================================================================== *)

(** ** JavaScript numbers and exceptions *)

Module Js.

(** [x < y] on numbers. *)
Definition Qltb (x y : Q) : bool := negb (Qle_bool y x).

(** [Math.pow(x, e)] for a natural exponent. *)
Definition Math_pow (x : Q) (e : N) : Q := Qpower x (Z.of_N e).

(** [Math.max(x, y)]. *)
Definition Math_max (x y : Q) : Q := if Qle_bool x y then y else x.

(** The result of a call that may throw (util/misc [error] throws its
    message after alerting it). *)
Inductive outcome (A : Type) : Type :=
| Returned (v : A)
| Threw (msg : string).

Arguments Returned {A} v.
Arguments Threw {A} msg.

Definition bind {A B} (m : outcome A) (k : A -> outcome B) : outcome B :=
  match m with
  | Returned v => k v
  | Threw msg => Threw msg
  end.

(** util/misc [assert (condition, errorText)]. *)
Definition assert (condition : bool) (errorText : string) : outcome unit :=
  if condition then Returned tt else Threw errorText.

End Js.

Import Js.

Notation "x <- m ;; k" := (Js.bind m (fun x => k))
  (at level 61, m at next level, right associativity).
Notation "m ;;; k" := (Js.bind m (fun _ => k))
  (at level 61, right associativity).

(** ** envelope: [ADSREnv] *)

Module Envelope.

#[local] Open Scope Q_scope.

(** Length of an envelope segment: a number of seconds or [Infinity]
    (the default filter and pitch envelopes are built with
    [new ADSREnv(0, 0, 1, Infinity)]). *)
Inductive duration : Type :=
| Finite (q : Q)
| Infinity.

(** [t < dur] for a finite [t]. *)
Definition lt_dur (t : Q) (dur : duration) : bool :=
  match dur with
  | Finite q => Qltb t q
  | Infinity => true
  end.

(** [t / dur] for a finite [t]: a finite number over [Infinity] is 0. *)
Definition div_dur (t : Q) (dur : duration) : Q :=
  match dur with
  | Finite q => t / q
  | Infinity => 0
  end.

(** [a + d]. *)
Definition add_dur (x y : duration) : duration :=
  match x, y with
  | Finite p, Finite q => Finite (p + q)
  | _, _ => Infinity
  end.

(** [t - dur], only evaluated by [getValue] once [t < dur] is false, which
    excludes [Infinity]. *)
Definition sub_dur (t : Q) (dur : duration) : Q :=
  match dur with
  | Finite q => t - q
  | Infinity => 0
  end.

Record ADSREnv : Type := {
  a : duration;   (* attack time *)
  d : duration;   (* decay time *)
  s : Q;          (* sustain amplitude *)
  r : duration;   (* release time *)
  aExp : N;       (* attack curve exponent *)
  dExp : N;       (* decay curve exponent *)
  rExp : N        (* release curve exponent *)
}.

(** [new ADSREnv(a, d, s, r)]: the three exponents start at 2. *)
Definition new_ADSREnv (a d : duration) (s : Q) (r : duration) : ADSREnv :=
  {| a := a; d := d; s := s; r := r; aExp := 2; dExp := 2; rExp := 2 |}.

(** [ADSREnv.interp(x, yL, yR, exp)]. *)
Definition interp (x yL yR : Q) (exp : N) : Q :=
  if Qltb yL yR
  then yL + Math_pow x exp * (yR - yL)
  else yR + Math_pow (1 - x) exp * (yL - yR).

(** [ADSREnv.getValue(curTime, onTime, offTime, onAmp, offAmp)]. *)
Definition getValue (env : ADSREnv)
  (curTime onTime offTime onAmp offAmp : Q) : Q :=
  if Qeq_bool offTime 0 then
    let noteTime := curTime - onTime in
    if lt_dur noteTime (a env) then
      interp (div_dur noteTime (a env)) onAmp 1 (aExp env)
    else if lt_dur noteTime (add_dur (a env) (d env)) then
      interp (div_dur (sub_dur noteTime (a env)) (d env)) 1 (s env) (dExp env)
    else
      s env
  else
    let relTime := curTime - offTime in
    if lt_dur relTime (r env) then
      interp (div_dur relTime (r env)) offAmp 0 (rExp env)
    else
      0.

(** *** The specification's reference definition (section 4.1)

    Written from the specification's words, to be compared with
    [getValue]. *)

(** Interpolation rule: progress [x], exponent [e], from [start] to
    [target]. *)
Definition spec_interp (x : Q) (e : N) (start target : Q) : Q :=
  if Qltb start target
  then start + Math_pow x e * (target - start)
  else target + Math_pow (1 - x) e * (start - target).

(** [t] lies in the window [[lo, hi)]. *)
Definition in_window (t : Q) (lo : Q) (hi : duration) : bool :=
  Qle_bool lo t && lt_dur t hi.

(** [t] lies in the decay window [[a, a + d)]. *)
Definition in_decay_window (t : Q) (a d : duration) : bool :=
  match a with
  | Finite qa => in_window t qa (add_dur a d)
  | Infinity => false
  end.

Definition spec_getValue (env : ADSREnv)
  (curTime onTime offTime onAmp offAmp : Q) : Q :=
  if Qeq_bool offTime 0 then
    if in_window (curTime - onTime) 0 (a env) then
      spec_interp (div_dur (curTime - onTime) (a env)) (aExp env) onAmp 1
    else if in_decay_window (curTime - onTime) (a env) (d env) then
      spec_interp (div_dur (sub_dur (curTime - onTime) (a env)) (d env))
                  (dExp env) 1 (s env)
    else
      s env
  else
    if in_window (curTime - offTime) 0 (r env) then
      spec_interp (div_dur (curTime - offTime) (r env)) (rExp env) offAmp 0
    else
      0.

End Envelope.

(** ** music: note names and numbers *)

Module Music.

#[local] Open Scope string_scope.
#[local] Open Scope Z_scope.

(** Number of MIDI notes. *)
Definition NUM_NOTES : Z := 128.

(** Number of notes per octave. *)
Definition NOTES_PER_OCTAVE : Z := 12.

(** Mapping from note names to pitch classes; [None] is the [undefined]
    of a missing key. *)
Definition NOTE_NAME_PC (name : string) : option Z :=
  match name with
  | "C" => Some 0
  | "C#" => Some 1
  | "D" => Some 2
  | "D#" => Some 3
  | "E" => Some 4
  | "F" => Some 5
  | "F#" => Some 6
  | "G" => Some 7
  | "G#" => Some 8
  | "A" => Some 9
  | "A#" => Some 10
  | "B" => Some 11
  | _ => None
  end.

(** A note object is identified by its number: [Note.getNote] pools the
    objects in [notesByNo], so [===] on notes is equality of numbers. *)
Definition Note : Type := Z.

Definition in_range (lo hi c : ascii) : bool :=
  (nat_of_ascii lo <=? nat_of_ascii c)%nat &&
  (nat_of_ascii c <=? nat_of_ascii hi)%nat.

(** The class [[A-G]] under the [i] flag. *)
Definition is_A_G_i (c : ascii) : bool :=
  in_range "A" "G" c || in_range "a" "g" c.

(** The class [[0-9]]. *)
Definition is_digit (c : ascii) : bool := in_range "0" "9" c.

(** [parseInt] of one decimal digit. *)
Definition parseInt_digit (c : ascii) : Z :=
  Z.of_nat (nat_of_ascii c) - Z.of_nat (nat_of_ascii "0").

(** [name.match(/([A-G]#?)([0-9])/i)]: the leftmost match of the unanchored
    pattern, as its two groups; [None] is [null].  At a start position the
    letter is followed by a greedy optional sharp and then one digit; when
    a sharp is present and no digit follows it, the attempt without the
    sharp fails too (the next character is the sharp), and the search
    moves on. *)
Fixpoint regex_match (name : string) : option (string * ascii) :=
  match name with
  | EmptyString => None
  | String c rest =>
      if is_A_G_i c then
        match rest with
        | String "#" (String dg _) =>
            if is_digit dg then Some (String c "#", dg)
            else regex_match rest
        | String dg _ =>
            if is_digit dg then Some (String c "", dg)
            else regex_match rest
        | EmptyString => None
        end
      else regex_match rest
  end.

(** The condition of the last assertion of [nameToNo], as written:
    [noteNo >= 0 || noteNo < NUM_NOTES]. *)
Definition range_assertion (noteNo : Z) : bool :=
  (0 <=? noteNo) || (noteNo <? NUM_NOTES).

(** The double quote character, as a string. *)
Definition double_quote : string :=
  String (Ascii false true false false false true false false) EmptyString.

(** [Note.nameToNo(name)]. *)
Definition nameToNo (name : string) : outcome Z :=
  match regex_match name with
  | None =>
      Threw ("invalid note name: " ++ double_quote ++ name ++ double_quote)
  | Some (namePart, numPart) =>
      match NOTE_NAME_PC namePart with
      | None => Threw ("invalid note name: " ++ namePart)
      | Some pc =>
          let octNo := parseInt_digit numPart in
          let noteNo := (octNo + 1) * NOTES_PER_OCTAVE + pc in
          assert (range_assertion noteNo) "note parsing failed" ;;;
          Returned noteNo
      end
  end.

(** The MIDI-compatible range of the data model: 0 to 127 inclusive. *)
Definition midi_range (noteNo : Z) : Prop := 0 <= noteNo <= 127.

End Music.

(** ** piece: events, tracks, the piece and its audio handler *)

Module Timeline.

Import Music.
#[local] Open Scope Z_scope.
#[local] Open Scope Q_scope.

(** Buffer size used by the synthesis network. *)
Definition SYNTH_BUF_SIZE : Q := 256.

(** Synthesis events. *)
Inductive SynthEvt : Type :=
| NoteOnEvt (time : Q) (note : Note) (vel : Q)
| NoteOffEvt (time : Q) (note : Note)
| AllNotesOffEvt (time : Q).

(** The [time] field of an event. *)
Definition time (evt : SynthEvt) : Q :=
  match evt with
  | NoteOnEvt t _ _ => t
  | NoteOffEvt t _ => t
  | AllNotesOffEvt t => t
  end.

(** Synthesis nodes are referred to by an identifier. *)
Definition NodeId : Type := nat.

(** What the timeline does to the synthesis network, in order:
    [node.processEvent(evt, time)] and [synthNet.genOutput(time)]. *)
Inductive call : Type :=
| ProcessEvent (node : NodeId) (evt : SynthEvt) (time : Q)
| GenOutput (time : Q).

Record Track : Type := {
  events : list SynthEvt;
  target : option NodeId    (* [None] is [undefined] *)
}.

(** [new Track(target)]. *)
Definition new_Track (target : option NodeId) : Track :=
  {| events := []; target := target |}.

Section ArraySort.

Variable A : Type.
Variable compareFn : A -> A -> Q.

(** Insertion before the first element that does not compare below [x]. *)
Fixpoint sort_insert (x : A) (l : list A) : list A :=
  match l with
  | [] => [x]
  | y :: l' =>
      if Qle_bool (compareFn x y) 0 then x :: l else y :: sort_insert x l'
  end.

(** [Array.prototype.sort(compareFn)]: a stable sort. *)
Fixpoint Array_sort (l : list A) : list A :=
  match l with
  | [] => []
  | x :: l' => sort_insert x (Array_sort l')
  end.

End ArraySort.

(** The test of [Track.addEvent] that returns before sorting: the event
    was added at the end of the track.  [events] is the array after the
    push. *)
Definition added_at_end (events : list SynthEvt) (evt : SynthEvt) : bool :=
  (List.length events =? 1)%nat ||
  Qle_bool (time (nth (List.length events - 2) events evt)) (time evt).

(** The comparison function [addEvent] sorts with:
    [function (a, b) { return a.time - b.time; }]. *)
Definition by_time (a b : SynthEvt) : Q := time a - time b.

(** [Track.addEvent(evt)]. *)
Definition addEvent (evt : SynthEvt) (tr : Track) : Track :=
  let events := events tr ++ [evt] in
  if added_at_end events evt
  then {| events := events; target := target tr |}
  else {| events := Array_sort by_time events;
          target := target tr |}.

(** [Track.clear()]. *)
Definition clear (tr : Track) : Track :=
  {| events := []; target := target tr |}.

(** The track invariant of the data model: the events are sorted ascending
    by time. *)
Definition le_time (e1 e2 : SynthEvt) : Prop := time e1 <= time e2.

Definition sorted_by_time (events : list SynthEvt) : Prop :=
  Sorted le_time events.

(** [time] lies in the half-open interval [[prevTime, curTime)]. *)
Definition in_interval (prevTime curTime : Q) (evt : SynthEvt) : bool :=
  Qle_bool prevTime (time evt) && Qltb (time evt) curTime.

(** [this.events[idx].time]. *)
Definition time_at (events : list SynthEvt) (idx : Z) : Q :=
  time (nth (Z.to_nat idx) events (AllNotesOffEvt 0)).

(** The variables of the search loop of [Track.dispatch]. *)
Record search_state : Type := {
  minIdx : Z;
  maxIdx : Z;
  midIdx : Z
}.

(** The [while (minIdx <= maxIdx)] loop of [Track.dispatch]; [break]
    returns the state with the bounds untouched.  [leftTime] is
    [-Infinity] at index 0, below every [prevTime]. *)
Equations? search (events : list SynthEvt) (prevTime : Q) (st : search_state)
  : search_state by wf (Z.to_nat (maxIdx st - minIdx st + 1)) lt :=
search events prevTime st with Z_le_gt_dec (minIdx st) (maxIdx st) => {
  | right _ => st
  | left _ =>
      let mid := ((minIdx st + maxIdx st) / 2)%Z in
      let midTime := time_at events mid in
      let leftTime_lt_prevTime :=
        if (mid =? 0)%Z then true
        else Qltb (time_at events (mid - 1)) prevTime in
      if leftTime_lt_prevTime && Qle_bool prevTime midTime then
        {| minIdx := minIdx st; maxIdx := maxIdx st; midIdx := mid |}
      else if Qltb midTime prevTime then
        search events prevTime
          {| minIdx := mid + 1; maxIdx := maxIdx st; midIdx := mid |}
      else
        search events prevTime
          {| minIdx := minIdx st; maxIdx := mid - 1; midIdx := mid |} }.
Proof.
  all: cbn; subst mid.
  - assert (minIdx st <= (minIdx st + maxIdx st) / 2)%Z
      by (apply Z.div_le_lower_bound; lia).
    lia.
  - assert ((minIdx st + maxIdx st) / 2 <= maxIdx st)%Z
      by (apply Z.div_le_upper_bound; lia).
    lia.
Qed.

(** The final [for] loop of [Track.dispatch] over the events from
    [midIdx] on: stop at the first event at or after [curTime]. *)
Fixpoint dispatch_loop (events : list SynthEvt) (curTime : Q)
  : list SynthEvt :=
  match events with
  | [] => []
  | evt :: rest =>
      if Qle_bool curTime (time evt) then []
      else evt :: dispatch_loop rest curTime
  end.

(** [Track.dispatch(prevTime, curTime, realTime)], as the calls it makes on
    the target node. *)
Definition dispatch (tr : Track) (prevTime curTime realTime : Q)
  : list call :=
  match target tr with
  | None => []
  | Some node =>
      if (List.length (events tr) =? 0)%nat then []
      else
        let st := search (events tr) prevTime
                    {| minIdx := 0;
                       maxIdx := Z.of_nat (List.length (events tr)) - 1;
                       midIdx := 0 |} in
        if (maxIdx st <? minIdx st)%Z then []
        else
          map (fun evt => ProcessEvent node evt realTime)
              (dispatch_loop (skipn (Z.to_nat (midIdx st)) (events tr))
                             curTime)
  end.

(** The operations of a track. *)
Inductive track_op : Type :=
| AddEvent (evt : SynthEvt)
| Clear
| Dispatch (prevTime curTime realTime : Q).

(** A track after an operation; [dispatch] only reads the track. *)
Definition apply_op (tr : Track) (op : track_op) : Track :=
  match op with
  | AddEvent evt => addEvent evt tr
  | Clear => clear tr
  | Dispatch _ _ _ => tr
  end.

Record Piece : Type := {
  tracks : list Track;
  playTime : Q;       (* current playback time/position *)
  loopTime : Q;       (* loop time *)
  prevTime : Q;       (* previous update time *)
  beatsPerMin : Q     (* tempo in beats per minute *)
}.

(** [Piece.beatTime(beatNo)]. *)
Definition beatTime (p : Piece) (beatNo : Q) : Q :=
  let beatLen := 60 / beatsPerMin p in
  beatLen * beatNo.

Definition set_prevTime (t : Q) (p : Piece) : Piece :=
  {| tracks := tracks p; playTime := playTime p; loopTime := loopTime p;
     prevTime := t; beatsPerMin := beatsPerMin p |}.


(** [Piece.dispatch(curTime, realTime)]: the calls made, and the piece
    afterwards. *)
Definition Piece_dispatch (p : Piece) (curTime realTime : Q)
  : list call * Piece :=
  (flat_map (fun track => dispatch track (prevTime p) curTime realTime)
            (tracks p),
   set_prevTime curTime p).

(** The state [genAudio] keeps between calls: the piece and the variables
    [curTime], [realTime], [sampleRate] of the closure made by
    [Piece.makeHandler]. *)
Record Handler : Type := {
  piece : Piece;
  curTime : Q;
  realTime : Q;
  sampleRate : Q
}.

(** [Piece.makeHandler()]. *)
Definition makeHandler (p : Piece) (sampleRate : Q) : Handler :=
  {| piece := p; curTime := playTime p; realTime := playTime p;
     sampleRate := sampleRate |}.






End Timeline.

(** ** synth: ports, the synthesis network and its scheduler *)

Module Synth.

Import Timeline.
#[local] Open Scope Q_scope.

(** Ports are objects; they are referred to by an identifier. *)
Definition OutputId : Type := nat.
Definition InputId : Type := nat.

(** A [Float64Array] of samples. *)
Definition buffer : Type := list Q.

(** Buffer containing only zero data. *)
Definition SYNTH_ZERO_BUF : buffer := repeat 0 256.

(** Synthesis node output. *)
Record SynthOutput : Type := {
  out_node : NodeId;         (* parent synthesis node *)
  out_name : string;
  out_numChans : nat;
  buffers : list buffer;     (* output buffers, one per channel *)
  hasData : bool;            (* output was produced in the current iteration *)
  dsts : list InputId        (* connected destinations *)
}.

(** Synthesis node input. *)
Record SynthInput : Type := {
  in_node : NodeId;
  in_name : string;
  in_numChans : option nat;  (* [undefined] when the constructor got none *)
  src : option OutputId      (* [None] is [undefined] *)
}.

(** The objects of a network: the ports, the port properties of every node
    in the order [for (k in node)] enumerates them, and the [inEdges]
    property that [orderNodes] puts on nodes. *)
Record store : Type := {
  output : OutputId -> SynthOutput;
  input : InputId -> SynthInput;
  node_outputs : NodeId -> list OutputId;
  node_inputs : NodeId -> list InputId;
  inEdges : NodeId -> option (list OutputId)
}.

Definition set_hasData_field (b : bool) (out : SynthOutput) : SynthOutput :=
  {| out_node := out_node out; out_name := out_name out;
     out_numChans := out_numChans out; buffers := buffers out;
     hasData := b; dsts := dsts out |}.

(** [output.hasData = b] on the output [o]. *)
Definition set_hasData (o : OutputId) (b : bool) (st : store) : store :=
  {| output := fun o' => if (o' =? o)%nat
                         then set_hasData_field b (output st o')
                         else output st o';
     input := input st;
     node_outputs := node_outputs st;
     node_inputs := node_inputs st;
     inEdges := inEdges st |}.

Definition is_undefined {A} (x : option A) : bool :=
  match x with
  | None => true
  | Some _ => false
  end.

(** [SynthOutput.getBuffer(chanIdx)]: the buffer returned ([None] is
    [undefined]) and the store afterwards. *)
Definition SynthOutput_getBuffer (st : store) (o : OutputId)
  (chanIdx : option nat) : outcome (option buffer * store) :=
  assert (negb (is_undefined chanIdx && (1 <? out_numChans (output st o))%nat))
         "channel idx must be specified when more than 1 channel" ;;;
  let chanIdx := match chanIdx with Some c => c | None => 0%nat end in
  let st' := set_hasData o true st in
  Returned (nth_error (buffers (output st' o)) chanIdx, st').

(** [SynthInput.hasData()]. *)
Definition SynthInput_hasData (st : store) (i : InputId) : bool :=
  match src (input st i) with
  | None => false
  | Some o => hasData (output st o)
  end.

(** [chanIdx < numChans], false when [chanIdx] is [undefined]. *)
Definition chan_lt (chanIdx : option nat) (numChans : nat) : bool :=
  match chanIdx with
  | Some c => (c <? numChans)%nat
  | None => false
  end.

(** [numChans > 1], false when [numChans] is [undefined]. *)
Definition more_than_one (numChans : option nat) : bool :=
  match numChans with
  | Some n => (1 <? n)%nat
  | None => false
  end.

(** [chanIdx] as the text that ['invalid chan idx: ' + chanIdx] appends:
    the decimal digits of an index, [undefined] for none. *)
Definition chanIdx_text (chanIdx : option nat) : string :=
  match chanIdx with
  | Some c => NilZero.string_of_uint (Nat.to_uint c)
  | None => "undefined"
  end.

(** [SynthInput.getBuffer(chanIdx)]. *)
Definition SynthInput_getBuffer (st : store) (i : InputId)
  (chanIdx : option nat) : outcome (option buffer) :=
  match src (input st i) with
  | None => Threw "synth input not connected to any output"
  | Some o =>
      let source := output st o in
      assert (negb (is_undefined chanIdx &&
                    more_than_one (in_numChans (input st i))))
             "channel idx must be specified when more than 1 channel" ;;;
      assert (chan_lt chanIdx (out_numChans source) ||
              (out_numChans source =? 1)%nat)
             (String.append "invalid chan idx: " (chanIdx_text chanIdx)) ;;;
      if negb (hasData source) then Returned (Some SYNTH_ZERO_BUF)
      else
        let chanIdx := match chanIdx with Some c => c | None => 0%nat end in
        let chanIdx := if (out_numChans source <=? chanIdx)%nat
                       then 0%nat else chanIdx in
        Returned (nth_error (buffers source) chanIdx)
  end.

(** The synthesis network. *)
Record SynthNet : Type := {
  sampleRate : Q;
  nodes : list NodeId;
  outNode : option NodeId;
  order : option (list NodeId)   (* [None] is [undefined] *)
}.

Definition set_order (order : option (list NodeId)) (net : SynthNet)
  : SynthNet :=
  {| sampleRate := sampleRate net; nodes := nodes net;
     outNode := outNode net; order := order |}.

(** *** [SynthNet.orderNodes] *)

(** The variables of [orderNodes].  The stack [S] is kept with its last
    element first: [S.push(x)] is [x :: S_ os] and [S.pop()] takes the
    head.  [L] is in array order. *)
Record order_state : Type := {
  edges : NodeId -> option (list OutputId);   (* the [inEdges] of the nodes *)
  numEdges : Z;
  S_ : list NodeId;
  L_ : list NodeId
}.

Definition upd {A} (k : nat) (v : A) (f : nat -> A) : nat -> A :=
  fun k' => if (k' =? k)%nat then v else f k'.

(** The [inEdges] collected for one node: the sources of its connected
    inputs. *)
Definition collect_inEdges (st : store) (node : NodeId) : list OutputId :=
  flat_map (fun i => match src (input st i) with
                     | Some o => [o]
                     | None => []
                     end)
           (node_inputs st node).

(** One iteration of the first loop of [orderNodes]. *)
Definition visit_node (st : store) (os : order_state) (node : NodeId)
  : order_state :=
  let es := collect_inEdges st node in
  {| edges := upd node (Some es) (edges os);
     numEdges := numEdges os + Z.of_nat (List.length es);
     S_ := if (List.length es =? 0)%nat then node :: S_ os else S_ os;
     L_ := L_ os |}.

(** [array.indexOf(x)]; [None] is -1. *)
Fixpoint indexOf (x : nat) (l : list nat) : option nat :=
  match l with
  | [] => None
  | y :: l' =>
      if (y =? x)%nat then Some 0%nat
      else match indexOf x l' with
           | Some idx => Some (S idx)
           | None => None
           end
  end.

(** [array.splice(idx, 1)]. *)
Definition splice1 {A} (idx : nat) (l : list A) : list A :=
  firstn idx l ++ skipn (S idx) l.

(** A loop whose body may throw. *)
Fixpoint for_each {A B} (body : B -> A -> outcome B) (l : list A) (b : B)
  : outcome B :=
  match l with
  | [] => Returned b
  | x :: l' => b' <- body b x ;; for_each body l' b'
  end.

(** The body of the innermost loop: remove the edge from [synthOut] to
    the destination [dstIn]. *)
Definition remove_edge (st : store) (synthOut : OutputId)
  (os : order_state) (dstIn : InputId) : outcome order_state :=
  let dstNode := in_node (input st dstIn) in
  match edges os dstNode with
  | None => Threw "TypeError: dstNode.inEdges is undefined"
  | Some es =>
      match indexOf synthOut es with
      | None => Threw "input port not found"
      | Some idx =>
          let es' := splice1 idx es in
          Returned
            {| edges := upd dstNode (Some es') (edges os);
               numEdges := numEdges os - 1;
               S_ := if (List.length es' =? 0)%nat
                     then dstNode :: S_ os else S_ os;
               L_ := L_ os |}
      end
  end.

(** The body of the [while] loop after the pop: for each output port of
    the node, for each destination of this port. *)
Definition process_node (st : store) (os : order_state) (node : NodeId)
  : outcome order_state :=
  for_each (fun os synthOut =>
              for_each (remove_edge st synthOut)
                       (dsts (output st synthOut)) os)
           (node_outputs st node) os.

(** The [while (S.length > 0)] loop; [None] when the fuel runs out. *)
Fixpoint drain (fuel : nat) (st : store) (os : order_state)
  : option (outcome order_state) :=
  match S_ os with
  | [] => Some (Returned os)
  | node :: rest =>
      match fuel with
      | O => None
      | S fuel' =>
          match process_node st
                  {| edges := edges os; numEdges := numEdges os;
                     S_ := rest; L_ := L_ os ++ [node] |} node with
          | Threw msg => Some (Threw msg)
          | Returned os' => drain fuel' st os'
          end
      end
  end.

Definition set_inEdges (edges : NodeId -> option (list OutputId))
  (st : store) : store :=
  {| output := output st; input := input st;
     node_outputs := node_outputs st; node_inputs := node_inputs st;
     inEdges := edges |}.

(** [SynthNet.orderNodes()]: whether it returned or threw, and the network
    afterwards.  Every iteration of the [while] loop pops a node, and a
    node is pushed either by the first loop or when an edge is removed,
    so the fuel below is enough for the loop to end; [None] would mean
    that it was not. *)
Definition orderNodes (st : store) (net : SynthNet)
  : option (outcome store * SynthNet) :=
  let os0 := {| edges := inEdges st; numEdges := 0; S_ := []; L_ := [] |} in
  let os1 := fold_left (visit_node st) (nodes net) os0 in
  match drain (List.length (S_ os1) + Z.to_nat (numEdges os1)) st os1 with
  | None => None
  | Some (Threw msg) => Some (Threw msg, net)
  | Some (Returned os) =>
      if negb (numEdges os =? 0)%Z then
        Some (Threw "cycle in graph", net)
      else if negb (List.length (L_ os) =? List.length (nodes net))%nat then
        Some (Threw "invalid ordering length", net)
      else
        Some (Returned (set_inEdges (edges os) st),
              set_order (Some (L_ os)) net)
  end.

(** *** The port-connection graph of a network *)

(** An output of [u] is connected to an input of [v]. *)
Definition connected (st : store) (u v : NodeId) : Prop :=
  exists o i, In o (node_outputs st u) /\ In i (node_inputs st v) /\
              src (input st i) = Some o.

(** A path of at least one connection. *)
Inductive path (st : store) : NodeId -> NodeId -> Prop :=
| path_one (u v : NodeId) : connected st u v -> path st u v
| path_cons (u v w : NodeId) :
    connected st u v -> path st v w -> path st u w.

Definition acyclic (st : store) : Prop := forall u, ~ path st u u.

Definition has_cycle (st : store) (net : SynthNet) : Prop :=
  exists u, In u (nodes net) /\ path st u u.

(** [u] comes before [v] in the list [l]. *)
Definition before (l : list NodeId) (u v : NodeId) : Prop :=
  exists l1 l2 l3, l = l1 ++ u :: l2 ++ v :: l3.

(** The objects of a network as the constructors, [addNode] and [connect]
    leave them: a node is added once; a port is a property of its parent
    node, once; an input's source and an output's destinations mirror
    each other; and the connections of the network's nodes are to nodes of
    the network. *)
Record well_formed (st : store) (net : SynthNet) : Prop := {
  wf_nodes : NoDup (nodes net);
  wf_inputs : forall n, NoDup (node_inputs st n);
  wf_outputs : forall n, NoDup (node_outputs st n);
  wf_in_node : forall n i, In i (node_inputs st n) -> in_node (input st i) = n;
  wf_out_node : forall n o,
    In o (node_outputs st n) -> out_node (output st o) = n;
  wf_dsts : forall o, NoDup (dsts (output st o));
  wf_connect : forall o i,
    In i (dsts (output st o)) <-> src (input st i) = Some o;
  wf_src_closed : forall n i o,
    In n (nodes net) -> In i (node_inputs st n) ->
    src (input st i) = Some o ->
    In (out_node (output st o)) (nodes net) /\
    In o (node_outputs st (out_node (output st o)));
  wf_dst_closed : forall n o i,
    In n (nodes net) -> In o (node_outputs st n) ->
    In i (dsts (output st o)) ->
    In (in_node (input st i)) (nodes net) /\
    In i (node_inputs st (in_node (input st i)))
}.

(** *** The edges of the graph and the invariant of [orderNodes] *)

(** An edge: an output and an input it is connected to. *)
Definition edge : Type := (OutputId * InputId)%type.

(** The node an edge leaves and the node it enters. *)
Definition edge_src (st : store) (e : edge) : NodeId :=
  out_node (output st (fst e)).

Definition edge_dst (st : store) (e : edge) : NodeId :=
  in_node (input st (snd e)).

(** The edges into a node, read from its inputs as the first loop does. *)
Definition node_edges (st : store) (node : NodeId) : list edge :=
  flat_map (fun i => match src (input st i) with
                     | Some o => [(o, i)]
                     | None => []
                     end)
           (node_inputs st node).

Definition all_edges (st : store) (ns : list NodeId) : list edge :=
  flat_map (node_edges st) ns.

(** The edges out of a node, read from its outputs as the [while] loop
    does. *)
Definition out_edges (st : store) (node : NodeId) : list edge :=
  flat_map (fun o => map (pair o) (dsts (output st o)))
           (node_outputs st node).

Definition into (st : store) (v : NodeId) (e : edge) : bool :=
  (edge_dst st e =? v)%nat.

(** The sources of the edges of [R] into [v]. *)
Definition srcs_into (st : store) (v : NodeId) (R : list edge)
  : list OutputId :=
  map fst (filter (into st v) R).

(** The invariant of the loops of [orderNodes]: [R] is the list of the
    edges that are not removed yet, [pend] the edges of the node being
    processed that the inner loops still have to visit. *)
Record order_inv (st : store) (net : SynthNet) (os : order_state)
  (R pend : list edge) : Prop := {
  inv_R_nodup : NoDup R;
  inv_R_edges : forall e, In e R -> In e (all_edges st (nodes net));
  inv_edges : forall v, In v (nodes net) ->
    exists es, edges os v = Some es /\ Permutation es (srcs_into st v R);
  inv_num : numEdges os = Z.of_nat (List.length R);
  inv_nodup : NoDup (S_ os ++ L_ os);
  inv_ready : forall v, In v (S_ os ++ L_ os) <->
                        In v (nodes net) /\ srcs_into st v R = [];
  inv_removed : forall e, In e (all_edges st (nodes net)) ->
    (In e R <-> ~ In (edge_src st e) (L_ os) \/ In e pend);
  inv_pend_nodup : NoDup pend;
  inv_pend : forall e, In e pend ->
    In e (all_edges st (nodes net)) /\ In (edge_src st e) (L_ os);
  inv_topo : forall e, In e (all_edges st (nodes net)) ->
    In (edge_dst st e) (L_ os) ->
    before (L_ os) (edge_src st e) (edge_dst st e)
}.

(** *** [SynthNet.genOutput] *)

Section GenOutput.

(** [node.update(time, sampleRate)] is a method of each node class.  For
    the ports, an update is the sequence of [getBuffer(chanIdx)] calls
    that it makes on outputs; the sequence may depend on the time, the
    sample rate and the store it finds (an effect first reads
    [hasData()] of its input).  The samples an update writes and the
    internal state of the nodes are outside this part of the model. *)
Variable update_calls : NodeId -> Q -> Q -> store -> list (OutputId * option nat).

(** [node.update(time, sampleRate)] on the store. *)
Definition node_update (time sampleRate : Q) (st : store) (node : NodeId)
  : outcome store :=
  for_each (fun st call =>
              r <- SynthOutput_getBuffer st (fst call) (snd call) ;;
              Returned (snd r))
           (update_calls node time sampleRate st) st.

(** Reset the outputs for this node. *)
Definition reset_outputs (st : store) (node : NodeId) : store :=
  fold_left (fun st o => set_hasData o false st) (node_outputs st node) st.

(** One iteration of the loop of [genOutput]. *)
Definition update_node (time sampleRate : Q) (st : store) (node : NodeId)
  : outcome store :=
  node_update time sampleRate (reset_outputs st node) node.

(** [SynthNet.genOutput(time)]: the store afterwards and the output node
    returned. *)
Definition genOutput (st : store) (net : SynthNet) (time : Q)
  : outcome (store * option NodeId) :=
  assert (negb (is_undefined (order net))) "node ordering not found" ;;;
  assert (negb (is_undefined (outNode net)))
         "genSample: output node not found" ;;;
  st' <- for_each (update_node time (sampleRate net))
                  (match order net with Some l => l | None => [] end) st ;;
  Returned (st', outNode net).

End GenOutput.

(** *** An example network

    An instrument (node 0, output 0) feeds an effect (node 1, input 0 and
    output 1) that feeds the output node (node 2, input 1); the nodes
    were added to the network in the order 2, 1, 0. *)

Definition example_output (o : OutputId) : SynthOutput :=
  {| out_node := match o with 0%nat => 0%nat | _ => 1%nat end;
     out_name := "output";
     out_numChans := 1;
     buffers := [repeat 1 256];
     hasData := false;
     dsts := match o with
             | 0%nat => [0%nat]
             | 1%nat => [1%nat]
             | _ => []
             end |}.

Definition example_input (i : InputId) : SynthInput :=
  {| in_node := match i with 0%nat => 1%nat | _ => 2%nat end;
     in_name := match i with 0%nat => "input" | _ => "signal" end;
     in_numChans := match i with 0%nat => None | _ => Some 2%nat end;
     src := match i with
            | 0%nat => Some 0%nat
            | 1%nat => Some 1%nat
            | _ => None
            end |}.

Definition example_store : store :=
  {| output := example_output;
     input := example_input;
     node_outputs := fun n => match n with
                              | 0%nat => [0%nat]
                              | 1%nat => [1%nat]
                              | _ => []
                              end;
     node_inputs := fun n => match n with
                             | 1%nat => [0%nat]
                             | 2%nat => [1%nat]
                             | _ => []
                             end;
     inEdges := fun _ => None |}.

Definition example_net : SynthNet :=
  {| sampleRate := 44100; nodes := [2%nat; 1%nat; 0%nat];
     outNode := Some 2%nat; order := None |}.

(** A network with a cycle: two effects (nodes 0 and 1, each with the
    input and the output of its number) feed each other. *)
Definition cycle_store : store :=
  {| output := fun o =>
       {| out_node := o; out_name := "output"; out_numChans := 1;
          buffers := [SYNTH_ZERO_BUF]; hasData := false;
          dsts := match o with
                  | 0%nat => [1%nat]
                  | 1%nat => [0%nat]
                  | _ => []
                  end |};
     input := fun i =>
       {| in_node := i; in_name := "input"; in_numChans := None;
          src := match i with
                 | 0%nat => Some 1%nat
                 | 1%nat => Some 0%nat
                 | _ => None
                 end |};
     node_outputs := fun n => match n with
                              | 0%nat => [0%nat]
                              | 1%nat => [1%nat]
                              | _ => []
                              end;
     node_inputs := fun n => match n with
                             | 0%nat => [0%nat]
                             | 1%nat => [1%nat]
                             | _ => []
                             end;
     inEdges := fun _ => None |}.

Definition cycle_net : SynthNet :=
  {| sampleRate := 44100; nodes := [0%nat; 1%nat];
     outNode := None; order := None |}.

(** The updates of the example: the instrument has active notes and
    calls [output.getBuffer(0)]; the effect calls [output.getBuffer()]
    when [input.hasData()]; the output node does nothing. *)
Definition example_update_calls (node : NodeId) (time sampleRate : Q)
  (st : store) : list (OutputId * option nat) :=
  match node with
  | 0%nat => [(0%nat, Some 0%nat)]
  | 1%nat => if SynthInput_hasData st 0%nat then [(1%nat, None)] else []
  | _ => []
  end.

End Synth.

(** ** vanalog: the analog voice node *)

Module VAnalog.

Import Music Timeline Envelope.
#[local] Open Scope Q_scope.

(** Oscillator parameters. *)
Record OSC : Type := {
  osc_type : string;   (* waveform *)
  duty : Q;
  detune : Q;
  env : ADSREnv;       (* amplitude envelope *)
  volume : Q;          (* mixing volume *)
  sync : bool;
  syncDetune : Q
}.

Record OSCState : Type := {
  cyclePos : Q;
  syncCyclePos : Q;
  onAmp : Q;           (* envelope amplitude at note-on time *)
  offAmp : Q           (* envelope amplitude at note-off time *)
}.

(** The state of an active note. *)
Record VNote : Type := {
  note : Note;
  vel : Q;
  onTime : Q;
  offTime : Q;
  note_oscs : list OSCState;   (* the [oscs] of the note state *)
  filterSt : list Q;
  filterOnEnv : Q;
  filterOffEnv : Q;
  pitchOnEnv : Q;
  pitchOffEnv : Q
}.

Record VAnalog : Type := {
  oscs : list OSC;
  cutoff : Q;
  resonance : Q;
  filterEnv : ADSREnv;
  filterEnvAmt : Q;
  pitchEnv : ADSREnv;
  pitchEnvAmt : Q;
  actNotes : list VNote     (* active/on note array *)
}.

(** One oscillator as the constructor makes it. *)
Definition new_OSC : OSC :=
  {| osc_type := "sine"; duty := 1 # 2; detune := 0;
     env := new_ADSREnv (Finite (1 # 20)) (Finite (1 # 20)) (1 # 5)
                        (Finite (1 # 10));
     volume := 1; sync := false; syncDetune := 0 |}.

(** [new VAnalog(numOscs)]. *)
Definition new_VAnalog (numOscs : nat) : VAnalog :=
  {| oscs := repeat new_OSC numOscs;
     cutoff := 1; resonance := 0;
     filterEnv := new_ADSREnv (Finite 0) (Finite 0) 1 Infinity;
     filterEnvAmt := 1;
     pitchEnv := new_ADSREnv (Finite 0) (Finite 0) 1 Infinity;
     pitchEnvAmt := 0;
     actNotes := [] |}.

Definition set_actNotes (notes : list VNote) (va : VAnalog) : VAnalog :=
  {| oscs := oscs va; cutoff := cutoff va; resonance := resonance va;
     filterEnv := filterEnv va; filterEnvAmt := filterEnvAmt va;
     pitchEnv := pitchEnv va; pitchEnvAmt := pitchEnvAmt va;
     actNotes := notes |}.

Definition set_onAmp (amp : Q) (oscState : OSCState) : OSCState :=
  {| cyclePos := cyclePos oscState; syncCyclePos := syncCyclePos oscState;
     onAmp := amp; offAmp := offAmp oscState |}.

Definition set_offAmp (amp : Q) (oscState : OSCState) : OSCState :=
  {| cyclePos := cyclePos oscState; syncCyclePos := syncCyclePos oscState;
     onAmp := onAmp oscState; offAmp := amp |}.

(** *** [VAnalog.processEvent] *)

(** Try to find the note among the active list: the first state with
    [state.note === note], and its index. *)
Fixpoint find_note (n : Note) (l : list VNote) : option (nat * VNote) :=
  match l with
  | [] => None
  | state :: l' =>
      if (note state =? n)%Z then Some (0%nat, state)
      else match find_note n l' with
           | Some (idx, found) => Some (S idx, found)
           | None => None
           end
  end.

(** The state of a note that was not active before. *)
Definition new_VNote (va : VAnalog) (n : Note) (velocity time : Q) : VNote :=
  {| note := n; vel := velocity; onTime := time; offTime := 0;
     note_oscs := map (fun _ => {| cyclePos := 0; syncCyclePos := 0;
                                   onAmp := 0; offAmp := 0 |})
                      (oscs va);
     filterSt := repeat 0 8;
     filterOnEnv := 0; filterOffEnv := 0;
     pitchOnEnv := 0; pitchOffEnv := 0 |}.

(** The loop [for (i = 0; i < this.oscs.length; ++i)] over the oscillator
    states of a note, storing the envelope value at [time] with [store];
    reading a state that the note does not have throws. *)
Fixpoint store_amps (store : Q -> OSCState -> OSCState)
  (params : list OSC) (states : list OSCState) (time onT offT : Q)
  : outcome (list OSCState) :=
  match params, states with
  | [], _ => Returned states
  | _ :: _, [] => Threw "TypeError: oscState is undefined"
  | oscParams :: params', oscState :: states' =>
      let amp := getValue (env oscParams) time onT offT
                          (onAmp oscState) (offAmp oscState) in
      rest <- store_amps store params' states' time onT offT ;;
      Returned (store amp oscState :: rest)
  end.

(** Note-on for a note that was active before. *)
Definition note_on_again (va : VAnalog) (state : VNote) (velocity time : Q)
  : outcome VNote :=
  oscs' <- store_amps set_onAmp (oscs va) (note_oscs state) time
                      (onTime state) (offTime state) ;;
  Returned
    {| note := note state;
       vel := velocity;
       onTime := time;
       offTime := 0;
       note_oscs := oscs';
       filterSt := filterSt state;
       filterOnEnv := getValue (filterEnv va) time (onTime state)
                        (offTime state) (filterOnEnv state)
                        (filterOffEnv state);
       filterOffEnv := filterOffEnv state;
       pitchOnEnv := getValue (pitchEnv va) time (onTime state)
                       (offTime state) (pitchOnEnv state)
                       (pitchOffEnv state);
       pitchOffEnv := pitchOffEnv state |}.

(** Note-off for an active note. *)
Definition note_off (va : VAnalog) (state : VNote) (time : Q)
  : outcome VNote :=
  oscs' <- store_amps set_offAmp (oscs va) (note_oscs state) time
                      (onTime state) (offTime state) ;;
  Returned
    {| note := note state;
       vel := vel state;
       onTime := onTime state;
       offTime := time;
       note_oscs := oscs';
       filterSt := filterSt state;
       filterOnEnv := filterOnEnv state;
       filterOffEnv := getValue (filterEnv va) time (onTime state)
                         (offTime state) (filterOnEnv state)
                         (filterOffEnv state);
       pitchOnEnv := pitchOnEnv state;
       pitchOffEnv := getValue (pitchEnv va) time (onTime state)
                        (offTime state) (pitchOnEnv state)
                        (pitchOffEnv state) |}.

(** The note states are objects of the active list: a changed state
    replaces the old one at its index. *)
Definition replace_at {A} (idx : nat) (x : A) (l : list A) : list A :=
  firstn idx l ++ x :: skipn (S idx) l.

(** [VAnalog.processEvent(evt, time)].  The [time] argument, not the
    [time] field of the event, is the time used. *)
Definition processEvent (va : VAnalog) (evt : SynthEvt) (time : Q)
  : outcome VAnalog :=
  match evt with
  | NoteOnEvt _ n velocity =>
      match find_note n (actNotes va) with
      | None =>
          Returned (set_actNotes
                      (actNotes va ++ [new_VNote va n velocity time]) va)
      | Some (idx, state) =>
          state' <- note_on_again va state velocity time ;;
          Returned (set_actNotes (replace_at idx state' (actNotes va)) va)
      end
  | NoteOffEvt _ n =>
      match find_note n (actNotes va) with
      | None => Returned va
      | Some (idx, state) =>
          state' <- note_off va state time ;;
          Returned (set_actNotes (replace_at idx state' (actNotes va)) va)
      end
  | AllNotesOffEvt _ => Returned (set_actNotes [] va)
  end.

(** *** [VAnalog.update] *)

Definition set_positions (positions : Q * Q) (oscState : OSCState)
  : OSCState :=
  {| cyclePos := fst positions; syncCyclePos := snd positions;
     onAmp := onAmp oscState; offAmp := offAmp oscState |}.

(** [filterSt[0] = v0; filterSt[1] = v1]. *)
Definition set_filterSt (registers : Q * Q) (st : list Q) : list Q :=
  fst registers :: snd registers :: skipn 2 st.

Definition set_note_state (oscStates : list OSCState) (registers : Q * Q)
  (state : VNote) : VNote :=
  {| note := note state; vel := vel state; onTime := onTime state;
     offTime := offTime state; note_oscs := oscStates;
     filterSt := set_filterSt registers (filterSt state);
     filterOnEnv := filterOnEnv state; filterOffEnv := filterOffEnv state;
     pitchOnEnv := pitchOnEnv state; pitchOffEnv := pitchOffEnv state |}.

(** The amplitude of an oscillator of a note at the end of the buffer:
    [noteVol * oscParams.env.getValue(endTime, ...)] with
    [noteVol = noteState.vel * oscParams.volume]. *)
Definition ampEnd (state : VNote) (endTime : Q) (oscParams : OSC)
  (oscState : OSCState) : Q :=
  (vel state * volume oscParams) *
  getValue (env oscParams) endTime (onTime state) (offTime state)
           (onAmp oscState) (offAmp oscState).

(** The waveforms of the [switch] of [genOsc]. *)
Definition waveforms : list string :=
  ["sine"; "triangle"; "sawtooth"; "pulse"; "noise"]%string.

(** Whether the [switch] of [genOsc] has a case for the oscillator type;
    for any other type its [default] branch calls [error]. *)
Definition is_waveform (type : string) : bool :=
  existsb (String.eqb type) waveforms.

Section DSP.

(** The samples are computed with [Math.sin], [Math.random] and powers
    of 2 with real exponents; they are not modelled.  Of [genOsc] the
    model keeps the error of its [switch], which the first of the
    [SYNTH_BUF_SIZE] samples of the oscillator buffer reaches, and the
    cycle positions it leaves in the oscillator state; of [applyFilter]
    the assertions and the two filter registers it leaves in the note
    state.  Positions and registers are functions of what the methods
    read. *)
Variable genOsc_positions :
  VAnalog -> Q -> OSC -> OSCState -> VNote -> Q -> Q * Q.
Variable applyFilter_registers : VAnalog -> Q -> Q -> VNote -> Q * Q.

(** The loop over the oscillators of one note: the oscillator states
    afterwards and the maximum end amplitude. *)
Fixpoint oscs_loop (va : VAnalog) (time endTime sampleRate : Q)
  (state : VNote) (params : list OSC) (states : list OSCState)
  (maxEndAmp : Q) : outcome (list OSCState * Q) :=
  match params, states with
  | [], _ => Returned (states, maxEndAmp)
  | _ :: _, [] => Threw "TypeError: oscState is undefined"
  | oscParams :: params', oscState :: states' =>
      if is_waveform (osc_type oscParams) then
        let oscState' :=
          set_positions (genOsc_positions va time oscParams oscState state
                                          sampleRate) oscState in
        let maxEndAmp :=
          Math_max maxEndAmp (ampEnd state endTime oscParams oscState) in
        r <- oscs_loop va time endTime sampleRate state params' states'
                       maxEndAmp ;;
        Returned (oscState' :: fst r, snd r)
      else
        Threw (String.append "invalid waveform: " (osc_type oscParams))
  end.

(** The assertions of [applyFilter]. *)
Definition applyFilter_asserts (va : VAnalog) : outcome unit :=
  assert (Qle_bool 0 (cutoff va) && Qle_bool (cutoff va) 1)
         "invalid filter cutoff" ;;;
  assert (Qle_bool 0 (resonance va) && Qle_bool (resonance va) 1)
         "invalid filter resonance".

(** The body of the loop over the active notes: the note state afterwards
    and whether the note is removed ([maxEndAmp === 0]). *)
Definition update_note (va : VAnalog) (time endTime sampleRate : Q)
  (state : VNote) : outcome (VNote * bool) :=
  r <- oscs_loop va time endTime sampleRate state (oscs va)
                 (note_oscs state) 0 ;;
  applyFilter_asserts va ;;;
  Returned (set_note_state (fst r)
              (applyFilter_registers va time sampleRate state) state,
            Qeq_bool (snd r) 0).

(** The loop over the active notes, with its [splice(i, 1); i--]. *)
Fixpoint notes_loop (va : VAnalog) (time endTime sampleRate : Q)
  (notes : list VNote) : outcome (list VNote) :=
  match notes with
  | [] => Returned []
  | state :: notes' =>
      r <- update_note va time endTime sampleRate state ;;
      rest <- notes_loop va time endTime sampleRate notes' ;;
      Returned (if snd r then rest else fst r :: rest)
  end.

(** The time at the end of the buffer. *)
Definition endTime_of (time sampleRate : Q) : Q :=
  time + (SYNTH_BUF_SIZE - 1) / sampleRate.

(** [VAnalog.update(time, sampleRate)]; the call [output.getBuffer(0)] it
    makes when there are active notes is modelled with the ports. *)
Definition update (va : VAnalog) (time sampleRate : Q) : outcome VAnalog :=
  if (List.length (actNotes va) =? 0)%nat then Returned va
  else
    notes <- notes_loop va time (endTime_of time sampleRate) sampleRate
                        (actNotes va) ;;
    Returned (set_actNotes notes va).

(** The state of a note after the update of a block that keeps it. *)
Definition updated_note (va : VAnalog) (time sampleRate : Q) (state : VNote)
  : VNote :=
  set_note_state
    (map (fun ps => set_positions
                      (genOsc_positions va time (fst ps) (snd ps) state
                                        sampleRate) (snd ps))
         (combine (oscs va) (note_oscs state))
     ++ skipn (List.length (oscs va)) (note_oscs state))
    (applyFilter_registers va time sampleRate state) state.

End DSP.

(** The maximum, over the oscillators of a note, of the end amplitude,
    as [update] accumulates it from 0. *)
Definition maxEndAmp_of (va : VAnalog) (endTime : Q) (state : VNote) : Q :=
  fold_left (fun m ps => Math_max m (ampEnd state endTime (fst ps) (snd ps)))
            (combine (oscs va) (note_oscs state)) 0.

(** The maximum, over the oscillators of a note, of the envelope amplitude
    at the end of the block, accumulated from 0 as [maxEndAmp] is. *)
Definition max_end_envelope (va : VAnalog) (endTime : Q) (state : VNote)
  : Q :=
  fold_left (fun m ps =>
               Math_max m (getValue (env (fst ps)) endTime (onTime state)
                                    (offTime state) (onAmp (snd ps))
                                    (offAmp (snd ps))))
            (combine (oscs va) (note_oscs state)) 0.

(** The states of a retriggered note's oscillators: [onAmp] holds the
    envelope value at [time] under the previous on/off times and
    amplitudes. *)
Definition retriggered_oscs (va : VAnalog) (state : VNote) (time : Q)
  : list OSCState :=
  map (fun ps => set_onAmp
                   (getValue (env (fst ps)) time (onTime state)
                             (offTime state) (onAmp (snd ps))
                             (offAmp (snd ps)))
                   (snd ps))
      (combine (oscs va) (note_oscs state)).

(** Example DSP functions, for evaluating [update] on examples: they leave
    the positions and the registers at 0. *)
Definition example_positions (va : VAnalog) (time : Q) (oscParams : OSC)
  (oscState : OSCState) (state : VNote) (sampleRate : Q) : Q * Q := (0, 0).

Definition example_registers (va : VAnalog) (time sampleRate : Q)
  (state : VNote) : Q * Q := (0, 0).

End VAnalog.

(** ** music: note objects, names, scales *)

Module Notes.

Import Music.
#[local] Open Scope string_scope.
#[local] Open Scope Z_scope.

(** Mapping from pitch classes to note names; [None] is the [undefined]
    of a missing key. *)
Definition PC_NOTE_NAME (pc : Z) : option string :=
  match pc with
  | 0 => Some "C"
  | 1 => Some "C#"
  | 2 => Some "D"
  | 3 => Some "D#"
  | 4 => Some "E"
  | 5 => Some "F"
  | 6 => Some "F#"
  | 7 => Some "G"
  | 8 => Some "G#"
  | 9 => Some "A"
  | 10 => Some "A#"
  | 11 => Some "B"
  | _ => None
  end.

(** [Note.getPC()]: [noteNo % NOTES_PER_OCTAVE]; the remainder of [%]
    has the sign of the dividend. *)
Definition getPC (noteNo : Z) : Z := Z.rem noteNo NOTES_PER_OCTAVE.

(** [Note.getOctNo()]: [Math.floor(noteNo / NOTES_PER_OCTAVE) - 1]. *)
Definition getOctNo (noteNo : Z) : Z := noteNo / NOTES_PER_OCTAVE - 1.

(** [String(n)] for an integer. *)
Definition String_of (n : Z) : string := NilZero.string_of_int (Z.to_int n).

(** [Note.getName()]; appending to [undefined] gives a string that begins
    with "undefined". *)
Definition getName (noteNo : Z) : string :=
  let octNo := getOctNo noteNo in
  let pc := getPC noteNo in
  let name := match PC_NOTE_NAME pc with
              | Some name => name
              | None => "undefined"
              end in
  name ++ String_of octNo.

(** *** The note table

    Note objects are referred to by an identifier, the index at which
    [objects] holds their [noteNo]; [notesByNo] is the static table of
    the class. *)
Record NotePool : Type := {
  objects : list Z;
  notesByNo : Z -> option nat
}.

Definition empty_pool : NotePool :=
  {| objects := []; notesByNo := fun _ => None |}.

(** [Note.getNote(val)] for a number: the note object and the pool
    afterwards. *)
Definition getNote (val : Z) (p : NotePool) : nat * NotePool :=
  match notesByNo p val with
  | Some note => (note, p)
  | None =>
      let note := List.length (objects p) in
      (note,
       {| objects := objects p ++ [val];
          notesByNo := fun n => if n =? val then Some note
                                else notesByNo p n |})
  end.

(** [Note.getNote(name)] for a note name. *)
Definition getNote_of_name (name : string) (p : NotePool)
  : outcome (nat * NotePool) :=
  val <- nameToNo name ;;
  Returned (getNote val p).

(** The pool after a sequence of [getNote] calls. *)
Definition getNotes (vals : list Z) (p : NotePool) : NotePool :=
  fold_left (fun p val => snd (getNote val p)) vals p.

(** The table and the objects mirror each other. *)
Definition pool_ok (p : NotePool) : Prop :=
  forall n note, notesByNo p n = Some note <->
                 nth_error (objects p) note = Some n.

(** *** Offsets

    With the note table, a note object is identified by its number. *)

(** [Note.offset(numSemis)]. *)
Definition offset (noteNo numSemis : Z) : outcome Z :=
  let offNo := noteNo + numSemis in
  assert ((0 <=? offNo) && (offNo <? NUM_NOTES))
         "invalid note number after offset" ;;;
  Returned offNo.

(** [Note.shift(numOcts)]. *)
Definition shift (noteNo numOcts : Z) : outcome Z :=
  offset noteNo (numOcts * NOTES_PER_OCTAVE).

(** *** Consonance *)

(** Interval consonance table. *)
Definition intervCons (interv : Z) : option Z :=
  match interv with
  | 0 => Some 3
  | 1 => Some (-3)
  | 2 => Some (-1)
  | 3 => Some 3
  | 4 => Some 3
  | 5 => Some 1
  | 6 => Some (-1)
  | 7 => Some 3
  | 8 => Some 1
  | 9 => Some 2
  | 10 => Some (-1)
  | 11 => Some (-2)
  | _ => None
  end.

(** [consonance(n1, n2)] on the numbers of the two notes. *)
Definition consonance (no1 no2 : Z) : option Z :=
  let diff := Z.max (no1 - no2) (no2 - no1) in
  let interv := Z.rem diff 12 in
  intervCons interv.

(** *** Scale generation *)

(** Semitone intervals for different scales. *)
Definition scaleIntervs (scale : string) : option (list Z) :=
  match scale with
  | "major" => Some [2; 2; 1; 2; 2; 2]
  | "natural minor" => Some [2; 1; 2; 2; 1; 2]
  | "major pentatonic" => Some [2; 2; 3; 2]
  | "minor pentatonic" => Some [3; 2; 2; 3]
  | "blues" => Some [3; 2; 1; 1; 3]
  | "chromatic" => Some [1; 1; 1; 1; 1; 1; 1; 1; 1; 1]
  | _ => None
  end.

(** The inner loop of [genScale]: the notes pushed after [prevNote]. *)
Fixpoint scale_notes (prevNote : Z) (intervs : list Z) : outcome (list Z) :=
  match intervs with
  | [] => Returned []
  | interv :: intervs' =>
      n <- offset prevNote interv ;;
      rest <- scale_notes n intervs' ;;
      Returned (n :: rest)
  end.

(** The outer loop of [genScale], from the octave [octNo] on, for [count]
    octaves. *)
Fixpoint scale_octaves (rootNote : Z) (intervs : list Z) (octNo : Z)
  (count : nat) : outcome (list Z) :=
  match count with
  | O => Returned []
  | S count' =>
      octRoot <- shift rootNote octNo ;;
      notes <- scale_notes octRoot intervs ;;
      rest <- scale_octaves rootNote intervs (octNo + 1) count' ;;
      Returned (octRoot :: (notes ++ rest)%list)
  end.

(** [genScale(rootNote, scale, numOctaves)] for a note object and an
    integer number of octaves. *)
Definition genScale (rootNote : Z) (scale : string) (numOctaves : Z)
  : outcome (list Z) :=
  match scaleIntervs scale with
  | None => Threw ("invalid scale name: " ++ scale)
  | Some intervs =>
      notes <- scale_octaves rootNote intervs 0 (Z.to_nat numOctaves) ;;
      last <- shift rootNote numOctaves ;;
      Returned (notes ++ [last])%list
  end.

(** The semitones above the octave root of the notes of an octave: 0 and
    the running sums of the intervals. *)
Fixpoint degrees (start : Z) (intervs : list Z) : list Z :=
  match intervs with
  | [] => []
  | interv :: intervs' => start + interv :: degrees (start + interv) intervs'
  end.

(** The notes of the octave [octNo] of a scale. *)
Definition octave_notes (rootNote : Z) (intervs : list Z) (octNo : Z)
  : list Z :=
  let octRoot := rootNote + octNo * NOTES_PER_OCTAVE in
  octRoot :: degrees octRoot intervs.

(** The notes of a scale over [numOctaves] octaves, closed by the root of
    the next octave. *)
Definition scale_of (rootNote : Z) (intervs : list Z) (numOctaves : nat)
  : list Z :=
  (flat_map (octave_notes rootNote intervs) (map Z.of_nat (seq 0 numOctaves))
   ++ [rootNote + Z.of_nat numOctaves * NOTES_PER_OCTAVE])%list.

End Notes.

(** ** piece: writing notes into a track *)

Module Authoring.

Import Music Timeline.
#[local] Open Scope Q_scope.

(** The time signature of a piece: [beatsPerBar] and [noteVal]. *)
Record TimeSignature : Type := {
  beatsPerBar : Q;    (* time signature numerator, beats per bar *)
  noteVal : Q         (* time signature denominator, note value for each beat *)
}.

(** [Piece.noteLen(len)]; [None] is [undefined]. *)
Definition noteLen (p : Piece) (sig : TimeSignature) (len : option Q) : Q :=
  let len := match len with Some len => len | None => 1 end in
  let beatLen := 60 / beatsPerMin p in
  let barLen := beatLen * beatsPerBar sig in
  let noteLen := barLen / noteVal sig in
  len * noteLen * (99 # 100).

(** The two events [Piece.makeNote] creates. *)
Definition noteOn_of (p : Piece) (beatNo : Q) (note : Note) (vel : option Q)
  : SynthEvt :=
  NoteOnEvt (beatTime p beatNo) note
            (match vel with Some vel => vel | None => 1 end).

Definition noteOff_of (p : Piece) (sig : TimeSignature) (beatNo : Q)
  (note : Note) (len : option Q) : SynthEvt :=
  NoteOffEvt (beatTime p beatNo + noteLen p sig len) note.

(** [Piece.makeNote(track, beatNo, note, len, vel)] for a note object:
    the track afterwards. *)
Definition makeNote (p : Piece) (sig : TimeSignature) (track : Track)
  (beatNo : Q) (note : Note) (len vel : option Q) : Track :=
  addEvent (noteOff_of p sig beatNo note len)
           (addEvent (noteOn_of p beatNo note vel) track).

(** [Piece.makeNote] for a note name. *)
Definition makeNote_of_name (p : Piece) (sig : TimeSignature) (track : Track)
  (beatNo : Q) (name : string) (len vel : option Q) : outcome Track :=
  note <- nameToNo name ;;
  Returned (makeNote p sig track beatNo note len vel).

(** [Track.endTime()]; [None] is [undefined]. *)
Definition endTime (tr : Track) : option Q :=
  if (List.length (events tr) =? 0)%nat then None
  else Some (time (nth (List.length (events tr) - 1) (events tr)
                       (AllNotesOffEvt 0))).

(** The events that a list of calls delivers to nodes, in order. *)
Definition delivered_events (calls : list call) : list SynthEvt :=
  flat_map (fun c => match c with
                     | ProcessEvent _ evt _ => [evt]
                     | GenOutput _ => []
                     end)
           calls.





(** An event is not later than [evt], or is later. *)
Definition not_later (evt e : SynthEvt) : bool := Qle_bool (time e) (time evt).

Definition later (evt e : SynthEvt) : bool := Qltb (time evt) (time e).

End Authoring.

(** ** piece: MIDI file data of a track *)

Module Midi.

Import Music Timeline Authoring.
#[local] Open Scope Z_scope.

(** *** Bit operations on numbers

    The operands of [>>], [&] and [|] are converted to 32-bit integers:
    the fraction is dropped and the integer wraps around into
    [-2^31 .. 2^31 - 1]. *)

Definition ToInt32 (z : Z) : Z := (z + 2 ^ 31) mod 2 ^ 32 - 2 ^ 31.

(** The integer part of a number, toward zero. *)
Definition trunc (q : Q) : Z := Z.quot (Qnum q) (Z.pos (Qden q)).

(** [(val >> k) & 0xFF]. *)
Definition shifted_byte (val : Z) (k : Z) : Z :=
  Z.land (Z.shiftr (ToInt32 val) k) 255.

(** *** The byte array and the write index

    [data] is a JavaScript array: an entry is a number or a hole
    ([None]); [data[writeIdx++] = val] overwrites an entry, appends at the
    end of the array, or leaves holes before the new entry when the index
    is past the end. *)
Record writer_state : Type := {
  data : list (option Q);
  writeIdx : nat
}.

Definition array_set (idx : nat) (val : Q) (data : list (option Q))
  : list (option Q) :=
  if (idx <? List.length data)%nat
  then firstn idx data ++ Some val :: skipn (S idx) data
  else data ++ repeat None (idx - List.length data) ++ [Some val].

(** A step of [getMIDIData]: it may throw, and a [writeVarLen] loop may
    not end ([None]). *)
Definition writer (A : Type) : Type :=
  writer_state -> option (outcome (A * writer_state)).

Definition ret {A} (x : A) : writer A := fun ws => Some (Returned (x, ws)).

Definition and_then {A B} (m : writer A) (k : A -> writer B) : writer B :=
  fun ws =>
    match m ws with
    | None => None
    | Some (Threw msg) => Some (Threw msg)
    | Some (Returned (x, ws')) => k x ws'
    end.

Definition check (condition : bool) (errorText : string) : writer unit :=
  fun ws => if condition then Some (Returned (tt, ws))
            else Some (Threw errorText).

Notation "m1 ;> m2" := (and_then m1 (fun _ => m2))
  (at level 62, right associativity).

(** [writeByte(val)]. *)
Definition writeByte (val : Q) : writer unit :=
  check (Qle_bool val 255) "invalid value in writeByte" ;>
  fun ws => Some (Returned (tt, {| data := array_set (writeIdx ws) val (data ws);
                                   writeIdx := S (writeIdx ws) |})).

Definition writeByteZ (val : Z) : writer unit := writeByte (inject_Z val).

(** [writeWORD(val)] for an integer. *)
Definition writeWORD (val : Z) : writer unit :=
  check (val <=? 65535) "invalid value in writeWORD" ;>
  writeByteZ (shifted_byte val 8) ;>
  writeByteZ (shifted_byte val 0).

(** [writeDWORD(val)] for an integer; the error text of the source ends
    with the value. *)
Definition writeDWORD (val : Z) : writer unit :=
  check (val <=? 4294967295) "invalid value in writeDWORD" ;>
  writeByteZ (shifted_byte val 24) ;>
  writeByteZ (shifted_byte val 16) ;>
  writeByteZ (shifted_byte val 8) ;>
  writeByteZ (shifted_byte val 0).

(** The [do ... while (val !== 0)] loop of [writeVarLen] on the 32-bit
    integer [val]: the array [bytes]; [None] when the fuel runs out. *)
Fixpoint varLen_groups (fuel : nat) (val : Z) : option (list Z) :=
  match fuel with
  | O => None
  | S fuel' =>
      let bits := Z.land val 127 in
      let val' := Z.shiftr val 7 in
      if val' =? 0 then Some [bits]
      else match varLen_groups fuel' val' with
           | Some bytes => Some (bits :: bytes)
           | None => None
           end
  end.

(** The [for] loop of [writeVarLen] from the index [i] down, on
    [bytes[0..i]] given with [bytes[i]] first: higher bits are written
    first, every byte but [bytes[0]] with [0x80]. *)
Fixpoint varLen_write (rev_bytes : list Z) : writer unit :=
  match rev_bytes with
  | [] => ret tt
  | [bits] => writeByteZ bits
  | bits :: rest => writeByteZ (Z.lor 128 bits) ;> varLen_write rest
  end.

(** [writeVarLen(val)] for an integer.  A non-negative 32-bit integer has
    at most five groups of seven bits; a negative one stays negative
    under [>>], so its loop does not end, whatever the fuel. *)
Definition writeVarLen (val : Z) : writer unit :=
  fun ws =>
    match varLen_groups 5 (ToInt32 val) with
    | None => None
    | Some bytes => varLen_write (rev bytes) ws
    end.

(** The body of the loop over the track events. *)
Definition write_event (ticksPerSec : Q) (prevEvent : option SynthEvt)
  (event : SynthEvt) : writer unit :=
  let deltaTime := match prevEvent with
                   | Some prevEvent => (time event - time prevEvent)%Q
                   | None => 0%Q
                   end in
  let deltaTicks := Qceiling (ticksPerSec * deltaTime) in
  check (0 <=? deltaTicks) "invalid delta ticks" ;>
  writeVarLen deltaTicks ;>
  match event with
  | NoteOnEvt _ note vel =>
      writeByteZ 144 ;>
      writeByteZ note ;>
      writeByteZ (Z.min (Qfloor (vel * 127)) 127)
  | NoteOffEvt _ note =>
      writeByteZ 128 ;>
      writeByteZ note ;>
      writeByteZ 0
  | AllNotesOffEvt _ => ret tt
  end.

Fixpoint write_events (ticksPerSec : Q) (prevEvent : option SynthEvt)
  (events : list SynthEvt) : writer unit :=
  match events with
  | [] => ret tt
  | event :: events' =>
      write_event ticksPerSec prevEvent event ;>
      write_events ticksPerSec (Some event) events'
  end.

(** [Piece.getMIDIData(track)]: the array returned.  A note value of 0
    makes [num32Nds] infinite, which [writeByte] refuses. *)
Definition getMIDIData (p : Piece) (sig : TimeSignature) (track : Track)
  : option (outcome (list (option Q))) :=
  let ticksPerBeat := 500 in
  let ticksPerSec := ((beatsPerMin p / 60) * inject_Z ticksPerBeat)%Q in
  let usPerMin := 60000000%Q in
  let mpqn := trunc (usPerMin / beatsPerMin p) in
  let num32Nds := Qfloor (8 * (4 / noteVal sig)) in
  let header :=
    writeDWORD 1297377380 ;>          (* MThd *)
    writeDWORD 6 ;>                   (* chunk size *)
    writeWORD 0 ;>                    (* type 0 MIDI file (one track) *)
    writeWORD 1 ;>                    (* one track *)
    writeWORD ticksPerBeat ;>         (* time division *)
    writeDWORD 1297379947 ;>          (* MTrk *)
    writeDWORD 0 in                   (* chunk size, written later *)
  let body :=
    writeVarLen 0 ;> writeByteZ 255 ;> writeByteZ 81 ;> writeVarLen 3 ;>
    writeByteZ (shifted_byte mpqn 16) ;>
    writeByteZ (shifted_byte mpqn 8) ;>
    writeByteZ (shifted_byte mpqn 0) ;>
    writeVarLen 0 ;> writeByteZ 255 ;> writeByteZ 88 ;> writeVarLen 4 ;>
    writeByte (beatsPerBar sig) ;>
    writeByteZ 2 ;>
    writeByteZ 24 ;>
    (if Qeq_bool (noteVal sig) 0
     then check false "invalid value in writeByte"
     else writeByteZ num32Nds) ;>
    writeVarLen 0 ;> writeByteZ 192 ;> writeByteZ 0 ;>
    write_events ticksPerSec None (events track) ;>
    writeVarLen 0 ;> writeByteZ 255 ;> writeByteZ 47 ;> writeVarLen 0 in
  match header {| data := []; writeIdx := 0 |} with
  | None => None
  | Some (Threw msg) => Some (Threw msg)
  | Some (Returned (_, ws1)) =>
      let trackSizeIdx := (List.length (data ws1) - 4)%nat in
      match body ws1 with
      | None => None
      | Some (Threw msg) => Some (Threw msg)
      | Some (Returned (_, ws2)) =>
          let trackSize :=
            Z.of_nat (List.length (data ws2)) - Z.of_nat (trackSizeIdx + 4) in
          match writeDWORD trackSize
                  {| data := data ws2; writeIdx := trackSizeIdx |} with
          | None => None
          | Some (Threw msg) => Some (Threw msg)
          | Some (Returned (_, ws3)) => Some (Returned (data ws3))
          end
      end
  end.

(** *** Reading a variable-length quantity

    The reader of the Standard MIDI File format: seven bits per byte,
    most significant group first, the last byte is the one below
    [0x80].  It returns the quantity and the bytes that follow it. *)
Fixpoint readVarLen (acc : Z) (bytes : list Z) : option (Z * list Z) :=
  match bytes with
  | [] => None
  | b :: rest =>
      let acc' := acc * 128 + Z.land b 127 in
      if b <? 128 then Some (acc', rest) else readVarLen acc' rest
  end.

(** The bytes [writeVarLen] writes for the array [bytes] of its first
    loop. *)
Fixpoint varLen_bytes (rev_bytes : list Z) : list Z :=
  match rev_bytes with
  | [] => []
  | [bits] => [bits]
  | bits :: rest => Z.lor 128 bits :: varLen_bytes rest
  end.

(** The write index is at the end of the array: a write appends. *)
Definition appending (ws : writer_state) : Prop :=
  writeIdx ws = List.length (data ws).

(** The state after the bytes [bytes] were appended. *)
Definition appended (bytes : list Q) (ws : writer_state) : writer_state :=
  {| data := data ws ++ map Some bytes;
     writeIdx := writeIdx ws + List.length bytes |}.

(** A step that, at the end of the array, returns after appending
    [bytes]. *)
Definition appends (m : writer unit) (bytes : list Q) : Prop :=
  forall ws, appending ws -> m ws = Some (Returned (tt, appended bytes ws)).

(** The bytes of the file header and of the head of the track chunk:
    "MThd", the header size 6, type 0, one track, 500 ticks per beat,
    "MTrk". *)
Definition header_bytes : list Z :=
  [77; 84; 104; 100; 0; 0; 0; 6; 0; 0; 0; 1; 1; 244; 77; 84; 114; 107].

(** The four bytes of a 32-bit size, most significant byte first, and the
    size that four such bytes give. *)
Definition size_bytes (n : Z) : list Z :=
  [n / 2 ^ 24 mod 256; n / 2 ^ 16 mod 256; n / 2 ^ 8 mod 256; n mod 256].

Definition bytes_value (bytes : list Z) : Z :=
  fold_left (fun acc b => acc * 256 + b) bytes 0.

(** The ticks between two events. *)
Definition deltaTicks_of (p : Piece) (prevEvent event : SynthEvt) : Z :=
  Qceiling ((beatsPerMin p / 60 * 500) * (time event - time prevEvent))%Q.

(** The note number written for an event. *)
Definition note_of (event : SynthEvt) : Z :=
  match event with
  | NoteOnEvt _ note _ => note
  | NoteOffEvt _ note => note
  | AllNotesOffEvt _ => 0
  end.

(** The bytes of a variable-length quantity. *)
Definition varLen_encoding (val : Z) : list Z :=
  match varLen_groups 5 val with
  | Some bytes => varLen_bytes (rev bytes)
  | None => []
  end.

(** The bytes of a track event: the delta time and the message. *)
Definition event_bytes (p : Piece) (prevEvent : option SynthEvt)
  (event : SynthEvt) : list Z :=
  varLen_encoding (match prevEvent with
                   | Some prevEvent => deltaTicks_of p prevEvent event
                   | None => 0
                   end) ++
  match event with
  | NoteOnEvt _ note vel => [144; note; Z.min (Qfloor (vel * 127)) 127]
  | NoteOffEvt _ note => [128; note; 0]
  | AllNotesOffEvt _ => []
  end.

Fixpoint events_bytes (p : Piece) (prevEvent : option SynthEvt)
  (events : list SynthEvt) : list Z :=
  match events with
  | [] => []
  | event :: events' =>
      event_bytes p prevEvent event ++ events_bytes p (Some event) events'
  end.

(** The content of the track chunk: tempo, time signature, program,
    events, end of track. *)
Definition track_body (p : Piece) (sig : TimeSignature) (track : Track)
  : list Q :=
  let mpqn := trunc (60000000 / beatsPerMin p) in
  map inject_Z [0; 255; 81; 3; shifted_byte mpqn 16; shifted_byte mpqn 8;
                shifted_byte mpqn 0; 0; 255; 88; 4] ++
  [beatsPerBar sig] ++
  map inject_Z ([2; 24; Qfloor (8 * (4 / noteVal sig)); 0; 192; 0] ++
                events_bytes p None (events track) ++
                [0; 255; 47; 0]).

(** The value of seven-bit groups, least significant group first. *)
Definition groups_value (bytes : list Z) : Z :=
  fold_right (fun bits acc => bits + 128 * acc) 0 bytes.

End Midi.

(** ** synth: building a network *)

Module Wiring.

Import Timeline Synth.
#[local] Open Scope Q_scope.

Definition set_dsts_field (dsts : list InputId) (out : SynthOutput)
  : SynthOutput :=
  {| out_node := out_node out; out_name := out_name out;
     out_numChans := out_numChans out; buffers := buffers out;
     hasData := hasData out; dsts := dsts |}.

Definition set_src_field (src : option OutputId) (inp : SynthInput)
  : SynthInput :=
  {| in_node := in_node inp; in_name := in_name inp;
     in_numChans := in_numChans inp; src := src |}.

(** [numChans === dst.numChans], false when [dst.numChans] is
    [undefined]. *)
Definition same_chans (numChans : nat) (dstChans : option nat) : bool :=
  match dstChans with
  | Some n => (numChans =? n)%nat
  | None => false
  end.

(** [SynthOutput.connect(dst)] on the output [o], for a [dst] that is a
    synthesis input. *)
Definition connect (st : store) (o : OutputId) (dst : InputId)
  : outcome store :=
  assert (is_undefined (indexOf dst (dsts (output st o))))
         "already connected to input" ;;;
  assert (is_undefined (src (input st dst)))
         "dst already connected to an output" ;;;
  assert (same_chans (out_numChans (output st o)) (in_numChans (input st dst))
          || (out_numChans (output st o) =? 1)%nat)
         "mismatch in the channel count" ;;;
  Returned
    {| output := upd o (set_dsts_field (dsts (output st o) ++ [dst])
                                       (output st o))
                     (output st);
       input := upd dst (set_src_field (Some o) (input st dst)) (input st);
       node_outputs := node_outputs st;
       node_inputs := node_inputs st;
       inEdges := inEdges st |}.

(** The connections as [connect] keeps them: an output lists a
    destination once, and an input's source and an output's destinations
    mirror each other. *)
Definition ports_ok (st : store) : Prop :=
  (forall o, NoDup (dsts (output st o))) /\
  (forall o i, In i (dsts (output st o)) <-> src (input st i) = Some o).

(** [isPosInt(val)]. *)
Definition isPosInt (val : Q) : bool :=
  Qeq_bool (inject_Z (Qfloor val)) val && Qltb 0 val.

(** [new SynthNet(sampleRate)]: the field initialisers leave an empty
    array in [order]. *)
Definition new_SynthNet (sampleRate : Q) : outcome SynthNet :=
  assert (isPosInt sampleRate) "invalid sample rate" ;;;
  Returned {| sampleRate := sampleRate; nodes := []; outNode := None;
              order := Some [] |}.

Section AddNode.

(** Whether a node object is an [OutNode]. *)
Variable is_OutNode : NodeId -> bool.

(** [SynthNet.addNode(node)]. *)
Definition addNode (net : SynthNet) (node : NodeId) : outcome SynthNet :=
  assert (is_undefined (indexOf node (nodes net)))
         "node already in network" ;;;
  assert (negb (is_OutNode node && negb (is_undefined (outNode net))))
         "output node already in network" ;;;
  Returned {| sampleRate := sampleRate net;
              nodes := nodes net ++ [node];
              outNode := if is_OutNode node then Some node else outNode net;
              order := None |}.

(** The nodes of a network as [addNode] keeps them: a node is in the
    network once, and [outNode] is the one [OutNode] of the network, if
    there is one. *)
Definition nodes_ok (net : SynthNet) : Prop :=
  NoDup (nodes net) /\
  (forall n, outNode net = Some n <->
             In n (nodes net) /\ is_OutNode n = true).

End AddNode.

(** [OutNode.getBuffer(chanIdx)] for the output node whose [signal] input
    is [signal]. *)
Definition OutNode_getBuffer (st : store) (signal : InputId) (chanIdx : nat)
  : outcome (option buffer) :=
  SynthInput_getBuffer st signal (Some chanIdx).

(** Two states of [orderNodes] agree on the nodes of the network. *)
Definition agree (net : SynthNet) (os os' : order_state) : Prop :=
  (forall v, In v (nodes net) -> edges os v = edges os' v) /\
  numEdges os = numEdges os' /\ S_ os = S_ os' /\ L_ os = L_ os'.

(** Two outcomes of a loop of [orderNodes] agree. *)
Definition agree_outcome (net : SynthNet) (r r' : outcome order_state)
  : Prop :=
  match r, r' with
  | Returned os, Returned os' => agree net os os'
  | Threw msg, Threw msg' => msg = msg'
  | _, _ => False
  end.

End Wiring.

(** ** effects: overdrive *)

Module Effects.

Import Timeline Synth.
#[local] Open Scope Q_scope.

Record Overdrive : Type := {
  gain : Q;                 (* input gain *)
  threshold : Q;            (* clipping threshold *)
  factor : Q;               (* clipping factor (ratio is 1 / factor) *)
  od_input : InputId;       (* sound input *)
  od_output : OutputId      (* sound output *)
}.

(** [new Overdrive()], with the two ports the constructor makes. *)
Definition new_Overdrive (input : InputId) (output : OutputId) : Overdrive :=
  {| gain := 1; threshold := 7 # 10; factor := 1;
     od_input := input; od_output := output |}.

(** The body of the loop of [Overdrive.update]: the sample written for
    the input sample [x].  ([1 / factor] is [Infinity] for a factor of 0,
    which is outside the model.) *)
Definition clip (od : Overdrive) (x : Q) : Q :=
  let f := 1 / factor od in
  let s := x * gain od in
  let absS := Qabs s in
  let d := absS - threshold od in
  if Qltb 0 d then
    let absS := (absS - d) + (f * d) in
    if Qltb 0 s then absS else - absS
  else s.

(** [outBuf[i] = samples[i]] for every [i] below the length of [samples];
    a [Float64Array] keeps its length, a write past its end is ignored. *)
Definition write_samples (samples outBuf : buffer) : buffer :=
  firstn (List.length outBuf) samples ++ skipn (List.length samples) outBuf.

Definition set_buffers_field (buffers : list buffer) (out : SynthOutput)
  : SynthOutput :=
  {| out_node := out_node out; out_name := out_name out;
     out_numChans := out_numChans out; buffers := buffers;
     hasData := hasData out; dsts := dsts out |}.

(** The store after the samples of channel [chan] of the output [o] were
    written. *)
Definition set_channel (o : OutputId) (chan : nat) (buf : buffer)
  (st : store) : store :=
  {| output := upd o (set_buffers_field
                        (firstn chan (buffers (output st o)) ++
                         buf :: skipn (S chan) (buffers (output st o)))
                        (output st o))
                   (output st);
     input := input st;
     node_outputs := node_outputs st;
     node_inputs := node_inputs st;
     inEdges := inEdges st |}.

(** [Overdrive.update(time, sampleRate)]: the store afterwards.  Every
    iteration reads [inBuf[i]] before it writes [outBuf[i]], so the
    result is the same when the two are one array. *)
Definition update (od : Overdrive) (st : store) : outcome store :=
  if negb (SynthInput_hasData st (od_input od)) then Returned st
  else
    inBuf <- SynthInput_getBuffer st (od_input od) None ;;
    r <- SynthOutput_getBuffer st (od_output od) None ;;
    match inBuf, fst r with
    | None, _ => Threw "TypeError: inBuf is undefined"
    | Some inBuf, None =>
        if (List.length inBuf =? 0)%nat then Returned (snd r)
        else Threw "TypeError: outBuf is undefined"
    | Some inBuf, Some outBuf =>
        Returned (set_channel (od_output od) 0
                    (write_samples (map (clip od) inBuf) outBuf) (snd r))
    end.

End Effects.

(** ** sampling: the sample kit *)

Module Sampling.

Import Music Timeline Synth Effects.
#[local] Open Scope Z_scope.
#[local] Open Scope Q_scope.

(** Sample objects are referred to by an identifier; [Sample.buffer] of
    every sample object is [None] ([undefined]) until the sample is
    loaded. *)
Definition SampleId : Type := nat.

Definition sample_buffers : Type := SampleId -> option buffer.

(** A sample mapped to a note: [{data, volume}]. *)
Record MappedSample : Type := {
  data : SampleId;
  volume : Q
}.

(** An active (currently playing) sample: [{sample, pos}]. *)
Record ActSample : Type := {
  sample : MappedSample;
  pos : Z
}.

Record SampleKit : Type := {
  samples : Z -> option MappedSample;   (* indexed by MIDI note numbers *)
  actSamples : list ActSample;
  kit_output : OutputId                 (* sound output *)
}.

(** [new SampleKit()], with the output the constructor makes. *)
Definition new_SampleKit (output : OutputId) : SampleKit :=
  {| samples := fun _ => None; actSamples := []; kit_output := output |}.

Definition set_actSamples (acts : list ActSample) (kit : SampleKit)
  : SampleKit :=
  {| samples := samples kit; actSamples := acts;
     kit_output := kit_output kit |}.

(** The sample objects made so far, each with its [url] and its
    [buffer]; a sample object is referred to by its index. *)
Definition sample_heap : Type := list (string * option buffer).

(** [sample.buffer] of the sample objects of a heap. *)
Definition buffers_of (heap : sample_heap) : sample_buffers :=
  fun sample => match nth_error heap sample with
                | Some (_, buffer) => buffer
                | None => None
                end.

(** [new Sample(url)]: the new sample object and the heap afterwards.
    The buffer is [undefined]; the request that the constructor sends is
    answered later, see [decoded]. *)
Definition new_Sample (url : string) (heap : sample_heap)
  : SampleId * sample_heap :=
  (List.length heap, heap ++ [(url, None)]).

(** The callback that the constructor of a sample object gives to the
    decoder of its request: [that.buffer = f64buffer]. *)
Fixpoint decoded (sample : SampleId) (f64buffer : buffer)
  (heap : sample_heap) {struct heap} : sample_heap :=
  match heap, sample with
  | [], _ => []
  | (url, _) :: heap', O => (url, Some f64buffer) :: heap'
  | object :: heap', S sample' =>
      object :: decoded sample' f64buffer heap'
  end.

(** [SampleKit.mapSample(note, sample, volume)]: the kit and the heap
    afterwards.  The note is a note object or a note name, for which
    [Note.getNote(name)] gives the note object of the number that
    [Note.nameToNo] returns, or throws as it does; the sample is a sample
    object or a URL, for which a sample object is made. *)
Definition mapSample (kit : SampleKit) (note : Note + string)
  (sample : SampleId + string) (volume : option Q) (heap : sample_heap)
  : outcome (SampleKit * sample_heap) :=
  note <- match note with
          | inl note => Returned note
          | inr name => nameToNo name
          end ;;
  let made := match sample with
              | inl sample => (sample, heap)
              | inr url => new_Sample url heap
              end in
  let volume := match volume with Some v => v | None => 1 end in
  Returned
    ({| samples := fun n => if (n =? note)%Z
                            then Some {| data := fst made; volume := volume |}
                            else samples kit n;
        actSamples := actSamples kit;
        kit_output := kit_output kit |},
     snd made).

(** [SampleKit.processEvent(evt, time)]. *)
Definition processEvent (bufs : sample_buffers) (kit : SampleKit)
  (evt : SynthEvt) : SampleKit :=
  match evt with
  | NoteOnEvt _ note _ =>
      match samples kit note with
      | None => kit
      | Some sample =>
          match bufs (data sample) with
          | None => kit
          | Some _ =>
              set_actSamples
                (actSamples kit ++ [{| sample := sample; pos := 0 |}]) kit
          end
      end
  | NoteOffEvt _ _ => kit
  | AllNotesOffEvt _ => set_actSamples [] kit
  end.

(** The innermost loop of [SampleKit.update], from the output index
    [outIdx] on: [outBuf[outIdx] += inBuf[pos + outIdx] * volume] while
    [outIdx < playLen].  The position is never negative and [playLen]
    keeps [pos + outIdx] below the length of [inBuf], so the sample read
    exists. *)
Fixpoint add_samples (inBuf : buffer) (pos : Z) (volume : Q) (playLen : Z)
  (outBuf : buffer) (outIdx : Z) : buffer :=
  match outBuf with
  | [] => []
  | y :: outBuf' =>
      (if (outIdx <? playLen)%Z
       then y + nth (Z.to_nat (pos + outIdx)) inBuf 0 * volume
       else y)
      :: add_samples inBuf pos volume playLen outBuf' (outIdx + 1)
  end.

(** The loop over the active samples, with its [splice(i, 1); --i]: the
    active samples that remain and the output buffer. *)
Fixpoint play_loop (bufs : sample_buffers) (acts : list ActSample)
  (outBuf : buffer) : outcome (list ActSample * buffer) :=
  match acts with
  | [] => Returned ([], outBuf)
  | actSample :: acts' =>
      match bufs (data (sample actSample)) with
      | None => Threw "invalid input buffer"
      | Some inBuf =>
          let playLen := Z.min (Z.of_nat (List.length outBuf))
                               (Z.of_nat (List.length inBuf) - pos actSample) in
          let outBuf' := add_samples inBuf (pos actSample)
                           (volume (sample actSample)) playLen outBuf 0 in
          let pos' := (pos actSample + playLen)%Z in
          r <- play_loop bufs acts' outBuf' ;;
          Returned
            (if (pos' =? Z.of_nat (List.length inBuf))%Z then fst r
             else {| sample := sample actSample; pos := pos' |} :: fst r,
             snd r)
      end
  end.

(** [SampleKit.update(time, sampleRate)]: the kit and the store
    afterwards. *)
Definition update (bufs : sample_buffers) (kit : SampleKit) (st : store)
  : outcome (SampleKit * store) :=
  if (List.length (actSamples kit) =? 0)%nat then Returned (kit, st)
  else
    r <- SynthOutput_getBuffer st (kit_output kit) (Some 0%nat) ;;
    match fst r with
    | None => Threw "TypeError: outBuf is undefined"
    | Some outBuf =>
        played <- play_loop bufs (actSamples kit) (map (fun _ => 0) outBuf) ;;
        Returned (set_actSamples (fst played) kit,
                  set_channel (kit_output kit) 0 (snd played) (snd r))
    end.

(** The length of the buffer of an active sample, 0 when it is not
    loaded. *)
Definition buffer_length (bufs : sample_buffers) (act : ActSample) : Z :=
  match bufs (data (sample act)) with
  | Some inBuf => Z.of_nat (List.length inBuf)
  | None => 0
  end.

(** The sample of an active sample [k] positions after its position, 0
    past the end of its buffer, times its volume. *)
Definition sample_at (bufs : sample_buffers) (act : ActSample) (k : nat) : Q :=
  match bufs (data (sample act)) with
  | Some inBuf => nth (Z.to_nat (pos act) + k) inBuf 0 * volume (sample act)
  | None => 0
  end.

(** The sum of a list of numbers. *)
Definition Qsum (l : list Q) : Q := fold_right Qplus 0 l.

(** An active sample after a block in which it did not end. *)
Definition advance (blockLen : Z) (act : ActSample) : ActSample :=
  {| sample := sample act; pos := (pos act + blockLen)%Z |}.

(** The active samples are loaded and their positions are within their
    buffers. *)
Definition playing (bufs : sample_buffers) (kit : SampleKit) : Prop :=
  forall act, In act (actSamples kit) ->
    bufs (data (sample act)) <> None /\
    (0 <= pos act <= buffer_length bufs act)%Z.

(** What is done to a sample kit, in order: the calls of its methods,
    and the callbacks of the decoder for the samples whose requests are
    answered in between. *)
Inductive kit_call : Type :=
| MapSample (note : Note + string) (sample : SampleId + string)
            (volume : option Q)
| KitEvent (evt : SynthEvt)
| KitUpdate
| SampleDecoded (sample : SampleId) (f64buffer : buffer).

Definition kit_step (ks : SampleKit * store * sample_heap) (c : kit_call)
  : outcome (SampleKit * store * sample_heap) :=
  let kit := fst (fst ks) in
  let st := snd (fst ks) in
  let heap := snd ks in
  match c with
  | MapSample note sample volume =>
      r <- mapSample kit note sample volume heap ;;
      Returned (fst r, st, snd r)
  | KitEvent evt => Returned (processEvent (buffers_of heap) kit evt, st, heap)
  | KitUpdate =>
      r <- update (buffers_of heap) kit st ;;
      Returned (fst r, snd r, heap)
  | SampleDecoded sample f64buffer =>
      Returned (kit, st, decoded sample f64buffer heap)
  end.

(** The samples whose decoder callbacks are among the calls. *)
Definition decoded_samples (calls : list kit_call) : list SampleId :=
  flat_map (fun c => match c with
                     | SampleDecoded sample _ => [sample]
                     | _ => []
                     end) calls.

(** *** The pitch-shifting sample instrument *)

(** An active note of a [SampleInstr]: [{pos, freqRatio}]. *)
Record ActNote : Type := {
  note_pos : Q;
  freqRatio : Q
}.

Record SampleInstr : Type := {
  instr_sample : SampleId;
  centerNote : Note;
  instr_actNotes : list ActNote;
  instr_output : OutputId
}.

Definition set_instr_actNotes (notes : list ActNote) (instr : SampleInstr)
  : SampleInstr :=
  {| instr_sample := instr_sample instr; centerNote := centerNote instr;
     instr_actNotes := notes; instr_output := instr_output instr |}.

Section SampleInstr.

(** [Note.getFreq()] is a power of 2 with a real exponent; the model
    takes the frequency of every note as given. *)
Variable getFreq : Note -> Q.

(** [SampleInstr.processEvent(evt, time)]. *)
Definition instr_processEvent (bufs : sample_buffers) (instr : SampleInstr)
  (evt : SynthEvt) : SampleInstr :=
  match evt with
  | NoteOnEvt _ note _ =>
      match bufs (instr_sample instr) with
      | None => instr
      | Some _ =>
          let centerFreq := getFreq (centerNote instr) in
          let noteFreq := getFreq note in
          set_instr_actNotes
            (instr_actNotes instr ++
             [{| note_pos := 0; freqRatio := noteFreq / centerFreq |}])
            instr
      end
  | NoteOffEvt _ _ => instr
  | AllNotesOffEvt _ => set_instr_actNotes [] instr
  end.

End SampleInstr.

(** The loop over the output samples of one note, on the part of the
    output buffer from the current index on: the samples afterwards and
    the position reached.  [break] leaves the rest of the buffer as it
    is.  The position is never negative, so the two samples read
    exist. *)
Fixpoint shift_loop (inBuf : buffer) (disp : Q) (outBuf : buffer) (pos : Q)
  : buffer * Q :=
  match outBuf with
  | [] => ([], pos)
  | y :: outBuf' =>
      let lIdx := Qfloor pos in
      let rIdx := (lIdx + 1)%Z in
      if (Z.of_nat (List.length inBuf) <=? rIdx)%Z then (outBuf, pos)
      else
        let lVal := nth (Z.to_nat lIdx) inBuf 0 in
        let rVal := nth (Z.to_nat rIdx) inBuf 0 in
        let oVal := lVal * (inject_Z rIdx - pos) +
                    rVal * (pos - inject_Z lIdx) in
        let r := shift_loop inBuf disp outBuf' (pos + disp) in
        (oVal :: fst r, snd r)
  end.

(** The loop over the active notes, with its [splice(i, 1); --i]. *)
Fixpoint notes_loop (inBuf : buffer) (notes : list ActNote) (outBuf : buffer)
  : list ActNote * buffer :=
  match notes with
  | [] => ([], outBuf)
  | actNote :: notes' =>
      let played := shift_loop inBuf (freqRatio actNote) outBuf
                               (note_pos actNote) in
      let pos := snd played in
      let r := notes_loop inBuf notes' (fst played) in
      (if Qle_bool (inject_Z (Z.of_nat (List.length inBuf))) pos then fst r
       else {| note_pos := pos; freqRatio := freqRatio actNote |} :: fst r,
       snd r)
  end.

(** [SampleInstr.update(time, sampleRate)]: the instrument and the store
    afterwards.  The length of a buffer that is not loaded is read for
    the first active note, in the inner loop or in the test after it. *)
Definition instr_update (bufs : sample_buffers) (instr : SampleInstr)
  (st : store) : outcome (SampleInstr * store) :=
  if (List.length (instr_actNotes instr) =? 0)%nat then Returned (instr, st)
  else
    r <- SynthOutput_getBuffer st (instr_output instr) (Some 0%nat) ;;
    match fst r with
    | None => Threw "TypeError: outBuf is undefined"
    | Some outBuf =>
        match bufs (instr_sample instr) with
        | None => Threw "TypeError: inBuf is undefined"
        | Some inBuf =>
            let played := notes_loop inBuf (instr_actNotes instr)
                                     (map (fun _ => 0) outBuf) in
            Returned (set_instr_actNotes (fst played) instr,
                      set_channel (instr_output instr) 0 (snd played) (snd r))
        end
    end.

End Sampling.

(** ** vanalog: the calls a voice node receives *)

Module Voice.

Import Music Timeline Envelope Synth VAnalog.
#[local] Open Scope Q_scope.

(** What the timeline and the network do to a node, in order:
    [node.processEvent(evt, time)] and [node.update(time, sampleRate)]. *)
Inductive node_call : Type :=
| Event (evt : SynthEvt) (time : Q)
| Update (time sampleRate : Q).

Section Run.

Variable genOsc_positions :
  VAnalog -> Q -> OSC -> OSCState -> VNote -> Q -> Q * Q.
Variable applyFilter_registers : VAnalog -> Q -> Q -> VNote -> Q * Q.

Definition step (va : VAnalog) (c : node_call) : outcome VAnalog :=
  match c with
  | Event evt time => processEvent va evt time
  | Update time sampleRate =>
      update genOsc_positions applyFilter_registers va time sampleRate
  end.

(** A sequence of calls; it stops at the first one that throws. *)
Definition run (calls : list node_call) (va : VAnalog) : outcome VAnalog :=
  for_each step calls va.

End Run.

(** The active list as [processEvent] and [update] keep it: one voice per
    note, and in every voice one oscillator state per oscillator of the
    node. *)
Record voices_ok (va : VAnalog) : Prop := {
  one_voice_per_note : NoDup (map note (actNotes va));
  one_state_per_osc : forall s, In s (actNotes va) ->
    List.length (note_oscs s) = List.length (oscs va)
}.

(** The parameters of a node: everything but the active list. *)
Definition same_params (va va' : VAnalog) : Prop :=
  oscs va' = oscs va /\ cutoff va' = cutoff va /\
  resonance va' = resonance va /\ filterEnv va' = filterEnv va /\
  filterEnvAmt va' = filterEnvAmt va /\ pitchEnv va' = pitchEnv va /\
  pitchEnvAmt va' = pitchEnvAmt va.

(** The state of a released note: [offAmp] of every oscillator state holds
    the envelope value at [time] under the previous times and
    amplitudes. *)
Definition released_oscs (va : VAnalog) (state : VNote) (time : Q)
  : list OSCState :=
  map (fun ps => set_offAmp
                   (getValue (env (fst ps)) time (onTime state)
                             (offTime state) (onAmp (snd ps))
                             (offAmp (snd ps)))
                   (snd ps))
      (combine (oscs va) (note_oscs state)).

End Voice.

(** ** util/misc: random choices *)

Module Misc.

#[local] Open Scope Q_scope.

(** [isInt(val)]: [Math.floor(val) === val]. *)
Definition isInt (val : Q) : bool := Qeq_bool (inject_Z (Qfloor val)) val.

(** [randomInt(a, b)], for the number [r] that [Math.random()] returns. *)
Definition randomInt (a b : Q) (r : Q) : outcome Q :=
  assert (isInt a && isInt b && Qle_bool a b) "invalid params to randomInt" ;;;
  let range := b - a in
  Returned (a + inject_Z (Qfloor (r * (range + 1)))).

(** [randomBool()]. *)
Definition randomBool (r : Q) : outcome bool :=
  x <- randomInt 0 1 r ;;
  Returned (Qeq_bool x 1).

Section Choice.

Variable A : Type.

(** The first loop of [genChoiceFn], on the arguments taken two by two:
    the sum of the weights. *)
Definition weightSum_of (args : list (A * Q)) : Q :=
  fold_left (fun weightSum cw => weightSum + snd cw) args 0.

(** The second loop: the running sums of the normalised weights. *)
Fixpoint limits_from (limitSum : Q) (weights : list Q) (weightSum : Q)
  : list Q :=
  match weights with
  | [] => []
  | weight :: weights' =>
      let limitSum := limitSum + weight / weightSum in
      limitSum :: limits_from limitSum weights' weightSum
  end.

(** The loop of [choiceFn]: the choice it returns, [None] when it ends
    without returning. *)
Fixpoint choice_loop (r : Q) (choices : list A) (limits : list Q)
  : option A :=
  match choices, limits with
  | choice :: choices', limit :: limits' =>
      if Qltb r limit then Some choice else choice_loop r choices' limits'
  | _, _ => None
  end.

(** [choiceFn()], for the number [r] that [Math.random()] returns;
    [None] is [undefined]. *)
Definition choiceFn (choices : list A) (limits : list Q) (r : Q) : option A :=
  match choice_loop r choices limits with
  | Some choice => Some choice
  | None => nth_error choices (List.length choices - 1)
  end.

(** [genChoiceFn(choice, weight, ...)] for an even number of arguments,
    given two by two: the first assertion then fails for no argument
    only. *)
Definition genChoiceFn (args : list (A * Q)) : outcome (Q -> option A) :=
  assert (0 <? List.length args)%nat "invalid argument count: 0" ;;;
  let choices := map fst args in
  let weights := map snd args in
  let weightSum := weightSum_of args in
  assert (Qltb 0 weightSum) "weight sum must be positive" ;;;
  Returned (choiceFn choices (limits_from 0 weights weightSum)).

End Choice.

End Misc.

(* ===================================================================== *)
(** * Part II: properties *)
(* ===================================================================== *)

Module JsFacts.

Lemma Qltb_lt (x y : Q) : Qltb x y = true <-> (x < y)%Q.
Proof.
  unfold Qltb. rewrite negb_true_iff.
  split.
  - intros H. apply Qnot_le_lt. intros Hle.
    apply Qle_bool_iff in Hle. congruence.
  - intros H. destruct (Qle_bool y x) eqn:E; [|reflexivity].
    apply Qle_bool_iff in E. exfalso. apply (Qlt_not_le _ _ H E).
Qed.

Lemma Qltb_ge (x y : Q) : Qltb x y = false <-> (y <= x)%Q.
Proof.
  unfold Qltb. rewrite negb_false_iff. apply Qle_bool_iff.
Qed.

End JsFacts.

Module EnvelopeFacts.

Import Envelope JsFacts.
#[local] Open Scope Q_scope.

(** The two interpolation rules are the same function. *)
Lemma interp_spec_interp (x yL yR : Q) (e : N) :
  interp x yL yR e = spec_interp x e yL yR.
Proof. reflexivity. Qed.

(** Without a lower bound on the windows, [getValue] is the reference
    definition: this is the code's own case analysis. *)
Lemma getValue_unfold_held (env : ADSREnv) (curTime onTime onAmp offAmp : Q) :
  getValue env curTime onTime 0 onAmp offAmp =
  if lt_dur (curTime - onTime) (a env) then
    spec_interp (div_dur (curTime - onTime) (a env)) (aExp env) onAmp 1
  else if lt_dur (curTime - onTime) (add_dur (a env) (d env)) then
    spec_interp (div_dur (sub_dur (curTime - onTime) (a env)) (d env))
                (dExp env) 1 (s env)
  else s env.
Proof. reflexivity. Qed.

(** C1 (as stated) fails before the note-on time: one second before
    [onTime], an envelope with attack 1, decay 1 and sustain 1/5 returns 1
    from the attack branch, where the reference definition, whose attack
    window starts at 0, returns the sustain level. *)
Lemma getValue_before_onTime_differs :
  let env := new_ADSREnv (Finite 1) (Finite 1) (1 # 5) (Finite (1 # 10)) in
  getValue env 0 1 0 0 0 == 1 /\
  spec_getValue env 0 1 0 0 0 == 1 # 5 /\
  ~ getValue env 0 1 0 0 0 == spec_getValue env 0 1 0 0 0.
Proof.
  cbv zeta. repeat split; try reflexivity.
  vm_compute. discriminate.
Qed.

(** C1 (amended): from the note-on time onwards while the note is held, and
    from the note-off time onwards once it is released, [getValue] equals
    the reference definition of section 4.1. *)
Theorem getValue_refines_spec (env : ADSREnv)
  (curTime onTime offTime onAmp offAmp : Q)
  (Hon : offTime == 0 -> onTime <= curTime)
  (Hoff : ~ offTime == 0 -> offTime <= curTime) :
  getValue env curTime onTime offTime onAmp offAmp =
  spec_getValue env curTime onTime offTime onAmp offAmp.
Proof.
  unfold getValue, spec_getValue, in_window, in_decay_window.
  destruct (Qeq_bool offTime 0) eqn:Eoff.
  - apply Qeq_bool_eq in Eoff. specialize (Hon Eoff).
    assert (H0 : Qle_bool 0 (curTime - onTime) = true).
    { apply Qle_bool_iff. lra. }
    rewrite H0. cbn [andb].
    destruct (lt_dur (curTime - onTime) (a env)) eqn:Ea; [reflexivity|].
    destruct (a env) as [qa|] eqn:Eqa; [|discriminate].
    cbn [lt_dur] in Ea. apply Qltb_ge in Ea.
    assert (H1 : Qle_bool qa (curTime - onTime) = true).
    { apply Qle_bool_iff. exact Ea. }
    unfold in_window. rewrite H1. reflexivity.
  - assert (Hne : ~ offTime == 0).
    { intros Heq. apply Qeq_bool_iff in Heq. congruence. }
    specialize (Hoff Hne).
    assert (H0 : Qle_bool 0 (curTime - offTime) = true).
    { apply Qle_bool_iff. lra. }
    rewrite H0. reflexivity.
Qed.

Lemma getValue_refines_spec_witness :
  getValue (new_ADSREnv (Finite (1 # 20)) (Finite (1 # 20)) (1 # 5)
                        (Finite (1 # 10)))
           (1 # 100) 0 0 0 0 =
  spec_getValue (new_ADSREnv (Finite (1 # 20)) (Finite (1 # 20)) (1 # 5)
                             (Finite (1 # 10)))
                (1 # 100) 0 0 0 0.
Proof.
  apply getValue_refines_spec.
  - intros _. vm_compute. discriminate.
  - intros H. exfalso. apply H. reflexivity.
Defined.

End EnvelopeFacts.

Module MusicFacts.

Import Music.
#[local] Open Scope string_scope.
#[local] Open Scope Z_scope.

(** The assertion's condition is a disjunction that every integer
    satisfies, so its failure branch is unreachable whatever the result. *)
Lemma range_assertion_always (noteNo : Z) : range_assertion noteNo = true.
Proof.
  unfold range_assertion, NUM_NOTES.
  destruct (0 <=? noteNo) eqn:E; [reflexivity|].
  apply Z.leb_gt in E. cbn [orb]. apply Z.ltb_lt. lia.
Qed.

Lemma NOTE_NAME_PC_range (name : string) (pc : Z) :
  NOTE_NAME_PC name = Some pc -> 0 <= pc <= 11.
Proof.
  unfold NOTE_NAME_PC.
  repeat match goal with
         | |- context [match ?x with _ => _ end] => destruct x
         end;
  intros H; inversion H; lia.
Qed.

Lemma regex_match_digit (name namePart : string) (numPart : ascii) :
  regex_match name = Some (namePart, numPart) -> is_digit numPart = true.
Proof.
  induction name as [|c rest IH]; cbn; [discriminate|].
  destruct (is_A_G_i c); [|exact IH].
  destruct rest as [|c1 rest1]; [discriminate|].
  destruct (Ascii.eqb c1 "#") eqn:E1.
  - apply Ascii.eqb_eq in E1. subst c1.
    destruct rest1 as [|dg rest2].
    + cbn. intros H. exact (IH H).
    + destruct (is_digit dg) eqn:Ed.
      * intros H. inversion H. subst. exact Ed.
      * exact IH.
  - assert (Hgen : (if is_digit c1 then Some (String c EmptyString, c1)
                    else regex_match (String c1 rest1)) = Some (namePart, numPart) ->
                   is_digit numPart = true).
    { destruct (is_digit c1) eqn:Ed.
      - intros H. inversion H. subst. exact Ed.
      - exact IH. }
    destruct c1 as [[] [] [] [] [] [] [] []]; try exact Hgen; discriminate.
Qed.

Lemma parseInt_digit_range (c : ascii) :
  is_digit c = true -> 0 <= parseInt_digit c <= 9.
Proof.
  unfold is_digit, in_range, parseInt_digit. intros H.
  apply andb_true_iff in H. destruct H as [H1 H2].
  apply Nat.leb_le in H1, H2. cbn in *. lia.
Qed.

(** Every name the parser accepts gets a note number from 12 to 131. *)
Lemma nameToNo_range (name : string) (noteNo : Z) :
  nameToNo name = Returned noteNo -> 12 <= noteNo <= 131.
Proof.
  unfold nameToNo.
  destruct (regex_match name) as [[namePart numPart]|] eqn:Em; [|discriminate].
  destruct (NOTE_NAME_PC namePart) as [pc|] eqn:Ep; [|discriminate].
  cbv zeta. rewrite range_assertion_always. cbn.
  intros H. inversion H.
  apply regex_match_digit in Em. apply parseInt_digit_range in Em.
  apply NOTE_NAME_PC_range in Ep. unfold NOTES_PER_OCTAVE. lia.
Qed.
Example nameToNo_A4 : nameToNo "A4" = Returned 69.
Proof. reflexivity. Qed.

Example nameToNo_lower_case : nameToNo "c4" = Threw "invalid note name: c".
Proof. reflexivity. Qed.

(** C8: the parser accepts the name G#9 and returns note number 128, which
    is outside the MIDI range 0..127; the range assertion passes on it. *)
Theorem nameToNo_Gsharp9_out_of_range :
  nameToNo "G#9" = Returned 128 /\
  ~ midi_range 128 /\
  range_assertion 128 = true.
Proof.
  split; [reflexivity|]. split; [|reflexivity].
  unfold midi_range. lia.
Qed.

End MusicFacts.

Module TimelineFacts.

Import Music Timeline JsFacts.
#[local] Open Scope Q_scope.

(** *** Sorting *)

Lemma le_time_trans (e1 e2 e3 : SynthEvt) :
  le_time e1 e2 -> le_time e2 e3 -> le_time e1 e3.
Proof. unfold le_time. intros H1 H2. lra. Qed.

Lemma sorted_strongly (l : list SynthEvt) :
  sorted_by_time l <-> StronglySorted le_time l.
Proof.
  split.
  - apply Sorted_StronglySorted. intros x y z. apply le_time_trans.
  - apply StronglySorted_Sorted.
Qed.

Lemma sort_insert_In (x y : SynthEvt) (l : list SynthEvt) :
  In y (sort_insert by_time x l) <-> y = x \/ In y l.
Proof.
  induction l as [|z l IH]; cbn.
  - intuition.
  - destruct (Qle_bool (by_time x z) 0); cbn; intuition.
Qed.

Lemma sort_insert_sorted (x : SynthEvt) (l : list SynthEvt) :
  StronglySorted le_time l -> StronglySorted le_time (sort_insert by_time x l).
Proof.
  induction 1 as [|z l Hl IH Hz]; cbn.
  - constructor; constructor.
  - destruct (Qle_bool (by_time x z) 0) eqn:E.
    + apply Qle_bool_iff in E. unfold by_time in E.
      constructor; [constructor; assumption|].
      constructor; [unfold le_time; lra|].
      rewrite Forall_forall in *. intros y Hy.
      specialize (Hz y Hy). unfold le_time in *. lra.
    + assert (Hlt : time z <= time x).
      { destruct (Qlt_le_dec (time x) (time z)) as [Hc|Hc]; [|exact Hc].
        assert (Qle_bool (by_time x z) 0 = true)
          by (apply Qle_bool_iff; unfold by_time; lra).
        congruence. }
      constructor; [exact IH|].
      rewrite Forall_forall in *. intros y Hy.
      apply sort_insert_In in Hy. destruct Hy as [->|Hy]; [exact Hlt|].
      apply Hz, Hy.
Qed.

Lemma Array_sort_sorted (l : list SynthEvt) :
  sorted_by_time (Array_sort by_time l).
Proof.
  apply sorted_strongly.
  induction l as [|x l IH]; cbn; [constructor|].
  apply sort_insert_sorted, IH.
Qed.

Lemma sort_insert_perm (x : SynthEvt) (l : list SynthEvt) :
  Permutation (x :: l) (sort_insert by_time x l).
Proof.
  induction l as [|z l IH]; cbn; [reflexivity|].
  destruct (Qle_bool (by_time x z) 0); [reflexivity|].
  rewrite perm_swap. apply perm_skip, IH.
Qed.

Lemma Array_sort_perm (l : list SynthEvt) :
  Permutation l (Array_sort by_time l).
Proof.
  induction l as [|x l IH]; cbn; [reflexivity|].
  rewrite <- sort_insert_perm. apply perm_skip, IH.
Qed.

(** Appending an event that is not before the last one keeps the order. *)
Lemma sorted_snoc (prev : list SynthEvt) (last evt : SynthEvt) :
  sorted_by_time (prev ++ [last]) -> time last <= time evt ->
  sorted_by_time ((prev ++ [last]) ++ [evt]).
Proof.
  intros Hs Hle. apply sorted_strongly in Hs. apply sorted_strongly.
  induction prev as [|z prev IH]; cbn in *.
  - constructor; [constructor; constructor|].
    constructor; [exact Hle|constructor].
  - inversion Hs as [|? ? Hs' Hz]; subst.
    constructor; [apply IH, Hs'|].
    rewrite Forall_forall in *. intros y Hy.
    apply in_app_or in Hy. destruct Hy as [Hy|[->|[]]]; [apply Hz, Hy|].
    assert (Hzl : le_time z last) by (apply Hz, in_or_app; right; left; reflexivity).
    unfold le_time in *. lra.
Qed.

(** What the early-return test of [addEvent] reads after the push. *)
Lemma added_at_end_nil (evt : SynthEvt) : added_at_end ([] ++ [evt]) evt = true.
Proof. reflexivity. Qed.

Lemma added_at_end_snoc (prev : list SynthEvt) (last evt : SynthEvt) :
  added_at_end ((prev ++ [last]) ++ [evt]) evt = Qle_bool (time last) (time evt).
Proof.
  unfold added_at_end.
  rewrite !length_app. cbn [List.length].
  replace (List.length prev + 1 + 1 =? 1)%nat with false
    by (symmetry; apply Nat.eqb_neq; lia).
  cbn [orb].
  replace (List.length prev + 1 + 1 - 2)%nat with (List.length prev) by lia.
  rewrite <- app_assoc. cbn [app]. rewrite nth_middle. reflexivity.
Qed.

Lemma addEvent_sorted (evt : SynthEvt) (tr : Track) :
  sorted_by_time (events tr) -> sorted_by_time (events (addEvent evt tr)).
Proof.
  intros Hs. unfold addEvent.
  destruct (added_at_end (events tr ++ [evt]) evt) eqn:E; cbn [events].
  - destruct (events tr) as [|z l] eqn:El using rev_ind.
    + repeat constructor.
    + rewrite added_at_end_snoc in E. apply Qle_bool_iff in E.
      apply sorted_snoc; assumption.
  - apply Array_sort_sorted.
Qed.

Lemma addEvent_perm (evt : SynthEvt) (tr : Track) :
  Permutation (evt :: events tr) (events (addEvent evt tr)).
Proof.
  unfold addEvent.
  destruct (added_at_end (events tr ++ [evt]) evt); cbn [events].
  - apply Permutation_cons_append.
  - rewrite <- Array_sort_perm. apply Permutation_cons_append.
Qed.

Lemma apply_op_sorted (tr : Track) (op : track_op) :
  sorted_by_time (events tr) -> sorted_by_time (events (apply_op tr op)).
Proof.
  intros Hs. destruct op; cbn.
  - apply addEvent_sorted, Hs.
  - constructor.
  - exact Hs.
Qed.

(** C9: starting from an empty track, after any sequence of track
    operations (additions in arbitrary time order, clearing, dispatching)
    the events are sorted ascending by time; and [addEvent] returns without
    sorting exactly when the track was empty or the new event's time is at
    or after the time of the previously last event. *)
Theorem addEvent_keeps_sorted :
  (forall (target : option NodeId) (ops : list track_op),
     sorted_by_time (events (fold_left apply_op ops (new_Track target)))) /\
  (forall evt : SynthEvt, added_at_end ([] ++ [evt]) evt = true) /\
  (forall (prev : list SynthEvt) (last evt : SynthEvt),
     added_at_end ((prev ++ [last]) ++ [evt]) evt = true <->
     time last <= time evt).
Proof.
  split; [|split].
  - intros target ops.
    assert (H : forall tr, sorted_by_time (events tr) ->
                sorted_by_time (events (fold_left apply_op ops tr))).
    { induction ops as [|op ops IH]; intros tr Hs; cbn; [exact Hs|].
      apply IH, apply_op_sorted, Hs. }
    apply H. constructor.
  - intros evt. reflexivity.
  - intros prev last evt. rewrite added_at_end_snoc. apply Qle_bool_iff.
Qed.


(** *** Dispatch *)

Lemma search_unfold (evs : list SynthEvt) (prevTime : Q) (st : search_state) :
  search evs prevTime st =
  if Z_le_gt_dec (minIdx st) (maxIdx st) then
    let mid := ((minIdx st + maxIdx st) / 2)%Z in
    if (if (mid =? 0)%Z then true
        else Qltb (time_at evs (mid - 1)) prevTime)
       && Qle_bool prevTime (time_at evs mid)
    then {| minIdx := minIdx st; maxIdx := maxIdx st; midIdx := mid |}
    else if Qltb (time_at evs mid) prevTime then
      search evs prevTime
        {| minIdx := mid + 1; maxIdx := maxIdx st; midIdx := mid |}
    else
      search evs prevTime
        {| minIdx := minIdx st; maxIdx := mid - 1; midIdx := mid |}
  else st.
Proof.
  simp search. destruct (Z_le_gt_dec (minIdx st) (maxIdx st)); reflexivity.
Qed.

Section Split.

Variables (lo hi : list SynthEvt) (prevTime : Q).
Hypothesis Hlo : Forall (fun e => time e < prevTime) lo.
Hypothesis Hhi : Forall (fun e => prevTime <= time e) hi.

Lemma time_at_lo (i : Z) :
  (0 <= i < Z.of_nat (List.length lo))%Z -> time_at (lo ++ hi) i < prevTime.
Proof.
  intros Hi. unfold time_at.
  rewrite app_nth1 by lia.
  rewrite Forall_forall in Hlo. apply Hlo, nth_In. lia.
Qed.

Lemma time_at_hi (i : Z) :
  (Z.of_nat (List.length lo) <= i < Z.of_nat (List.length (lo ++ hi)))%Z ->
  prevTime <= time_at (lo ++ hi) i.
Proof.
  rewrite length_app. intros Hi. unfold time_at.
  rewrite app_nth2 by lia.
  rewrite Forall_forall in Hhi. apply Hhi, nth_In. lia.
Qed.

Lemma search_spec (n : nat) (st : search_state) :
  Z.to_nat (maxIdx st - minIdx st + 1) = n ->
  (0 <= minIdx st <= Z.of_nat (List.length lo))%Z ->
  (maxIdx st <= Z.of_nat (List.length (lo ++ hi)) - 1)%Z ->
  (hi <> [] -> (Z.of_nat (List.length lo) <= maxIdx st)%Z) ->
  let st' := search (lo ++ hi) prevTime st in
  if (maxIdx st' <? minIdx st')%Z then hi = []
  else midIdx st' = Z.of_nat (List.length lo).
Proof.
  revert st. induction n as [n IH] using lt_wf_ind.
  intros st En Hmin Hmax Hk. cbv zeta.
  rewrite search_unfold.
  destruct (Z_le_gt_dec (minIdx st) (maxIdx st)) as [Hle|Hgt].
  2:{ replace (maxIdx st <? minIdx st)%Z with true
        by (symmetry; apply Z.ltb_lt; lia).
      destruct hi as [|e hi']; [reflexivity|].
      assert (Z.of_nat (List.length lo) <= maxIdx st)%Z
        by (apply Hk; discriminate).
      lia. }
  cbv zeta.
  set (mid := ((minIdx st + maxIdx st) / 2)%Z).
  assert (Hmid1 : (minIdx st <= mid)%Z)
    by (apply Z.div_le_lower_bound; lia).
  assert (Hmid2 : (mid <= maxIdx st)%Z)
    by (apply Z.div_le_upper_bound; lia).
  destruct (Z_lt_le_dec mid (Z.of_nat (List.length lo))) as [Hbelow|Habove].
  - (* the middle event is before [prevTime] *)
    assert (Ht : time_at (lo ++ hi) mid < prevTime)
      by (apply time_at_lo; lia).
    replace (Qle_bool prevTime (time_at (lo ++ hi) mid)) with false.
    2:{ symmetry. destruct (Qle_bool _ _) eqn:E; [|reflexivity].
        apply Qle_bool_iff in E. lra. }
    rewrite andb_false_r.
    replace (Qltb (time_at (lo ++ hi) mid) prevTime) with true
      by (symmetry; apply Qltb_lt; exact Ht).
    eapply (IH _ _ _ eq_refl); cbn [minIdx maxIdx]; try lia; auto.
  - assert (Ht : prevTime <= time_at (lo ++ hi) mid)
      by (apply time_at_hi; lia).
    replace (Qle_bool prevTime (time_at (lo ++ hi) mid)) with true
      by (symmetry; apply Qle_bool_iff; exact Ht).
    rewrite andb_true_r.
    destruct (Z.eq_dec mid (Z.of_nat (List.length lo))) as [Heq|Hne].
    + (* the middle event is the first one at or after [prevTime] *)
      replace (if (mid =? 0)%Z then true
               else Qltb (time_at (lo ++ hi) (mid - 1)) prevTime) with true.
      2:{ symmetry. destruct (mid =? 0)%Z eqn:E0; [reflexivity|].
          apply Z.eqb_neq in E0. apply Qltb_lt, time_at_lo. lia. }
      cbn [minIdx maxIdx midIdx].
      replace (maxIdx st <? minIdx st)%Z with false
        by (symmetry; apply Z.ltb_ge; lia).
      exact Heq.
    + (* the event on its left is at or after [prevTime] too *)
      replace (if (mid =? 0)%Z then true
               else Qltb (time_at (lo ++ hi) (mid - 1)) prevTime) with false.
      2:{ symmetry. replace (mid =? 0)%Z with false
            by (symmetry; apply Z.eqb_neq; lia).
          apply Qltb_ge, time_at_hi. lia. }
      replace (Qltb (time_at (lo ++ hi) mid) prevTime) with false
        by (symmetry; apply Qltb_ge; exact Ht).
      eapply (IH _ _ _ eq_refl); cbn [minIdx maxIdx]; try lia; auto.
  Unshelve. all: cbn [minIdx maxIdx]; lia.
Qed.

End Split.

Lemma sorted_split (evs : list SynthEvt) (prevTime : Q) :
  sorted_by_time evs ->
  exists lo hi, evs = lo ++ hi /\
    Forall (fun e => time e < prevTime) lo /\
    Forall (fun e => prevTime <= time e) hi.
Proof.
  intros Hs. apply sorted_strongly in Hs.
  induction Hs as [|x l Hl IH Hx].
  - exists [], []. repeat split; constructor.
  - destruct (Qlt_le_dec (time x) prevTime) as [Hlt|Hge].
    + destruct IH as (lo & hi & -> & Hlo & Hhi).
      exists (x :: lo), hi. repeat split; [constructor|]; assumption.
    + exists [], (x :: l). repeat split; [constructor|].
      constructor; [exact Hge|].
      eapply Forall_impl; [|exact Hx].
      intros e He. unfold le_time in He. cbn beta. lra.
Qed.

Lemma in_interval_true (prevTime curTime : Q) (evt : SynthEvt) :
  in_interval prevTime curTime evt = true <->
  prevTime <= time evt /\ time evt < curTime.
Proof.
  unfold in_interval. rewrite andb_true_iff, Qle_bool_iff, Qltb_lt.
  reflexivity.
Qed.

Lemma filter_interval_before (prevTime curTime : Q) (lo : list SynthEvt) :
  Forall (fun e => time e < prevTime) lo ->
  filter (in_interval prevTime curTime) lo = [].
Proof.
  induction 1 as [|x l Hx Hl IH]; cbn; [reflexivity|].
  destruct (in_interval prevTime curTime x) eqn:E; [|exact IH].
  apply in_interval_true in E. lra.
Qed.

Lemma filter_interval_after (prevTime curTime : Q) (l : list SynthEvt) :
  Forall (fun e => curTime <= time e) l ->
  filter (in_interval prevTime curTime) l = [].
Proof.
  induction 1 as [|x l Hx Hl IH]; cbn; [reflexivity|].
  destruct (in_interval prevTime curTime x) eqn:E; [|exact IH].
  apply in_interval_true in E. lra.
Qed.

(** On sorted events that are all at or after [prevTime], the forward walk
    of [dispatch] selects the events of the interval. *)
Lemma dispatch_loop_filter (prevTime curTime : Q) (hi : list SynthEvt) :
  StronglySorted le_time hi ->
  Forall (fun e => prevTime <= time e) hi ->
  dispatch_loop hi curTime = filter (in_interval prevTime curTime) hi.
Proof.
  induction 1 as [|x l Hl IH Hx]; intros Hge; cbn; [reflexivity|].
  inversion Hge as [|? ? Hgx Hgl]; subst.
  destruct (Qle_bool curTime (time x)) eqn:E.
  - apply Qle_bool_iff in E.
    replace (in_interval prevTime curTime x) with false.
    2:{ symmetry. destruct (in_interval _ _ x) eqn:E'; [|reflexivity].
        apply in_interval_true in E'. lra. }
    symmetry. apply filter_interval_after.
    eapply Forall_impl; [|exact Hx].
    intros e He. unfold le_time in He. cbn beta. lra.
  - replace (in_interval prevTime curTime x) with true.
    2:{ symmetry. apply in_interval_true. split; [exact Hgx|].
        apply Qltb_lt. unfold Qltb. rewrite E. reflexivity. }
    f_equal. apply IH, Hgl.
Qed.

Lemma StronglySorted_app_r (A : Type) (R : A -> A -> Prop) (l1 l2 : list A) :
  StronglySorted R (l1 ++ l2) -> StronglySorted R l2.
Proof.
  induction l1 as [|x l1 IH]; cbn; [auto|].
  intros H. inversion H; subst. auto.
Qed.

(** [Track.dispatch] on a sorted track with a target: the calls are the
    events of [[prevTime, curTime)], in the order of the track. *)
Lemma dispatch_filter (tr : Track) (node : NodeId) (prevTime curTime realTime : Q) :
  sorted_by_time (events tr) -> target tr = Some node ->
  dispatch tr prevTime curTime realTime =
  map (fun evt => ProcessEvent node evt realTime)
      (filter (in_interval prevTime curTime) (events tr)).
Proof.
  intros Hs Ht. unfold dispatch. rewrite Ht.
  destruct (List.length (events tr) =? 0)%nat eqn:El.
  - apply Nat.eqb_eq in El. apply length_zero_iff_nil in El.
    rewrite El. reflexivity.
  - apply Nat.eqb_neq in El.
    destruct (sorted_split prevTime Hs) as (lo & hi & E & Hlo & Hhi).
    rewrite E in *.
    pose proof (@search_spec lo hi prevTime Hlo Hhi _
                  {| minIdx := 0;
                     maxIdx := Z.of_nat (List.length (lo ++ hi)) - 1;
                     midIdx := 0 |} eq_refl) as Hsearch.
    cbn [minIdx maxIdx] in Hsearch. cbv zeta in Hsearch.
    rewrite filter_app, (filter_interval_before _ Hlo). cbn [app].
    match type of Hsearch with
    | ?A -> ?B -> ?C -> _ =>
        assert (HA : A) by lia; assert (HB : B) by lia;
        assert (HC : C) by (rewrite length_app; intros Hne;
                            destruct hi; [congruence|cbn; lia])
    end.
    specialize (Hsearch HA HB HC).
    destruct (maxIdx _ <? minIdx _)%Z.
    + subst hi. reflexivity.
    + rewrite Hsearch, Nat2Z.id.
      rewrite skipn_app, skipn_all, Nat.sub_diag. cbn [app skipn].
      f_equal. apply dispatch_loop_filter; [|exact Hhi].
      apply sorted_strongly in Hs. eapply StronglySorted_app_r, Hs.
Qed.


Lemma filter_sorted (f : SynthEvt -> bool) (l : list SynthEvt) :
  sorted_by_time l -> sorted_by_time (filter f l).
Proof.
  intros Hs. apply sorted_strongly in Hs. apply sorted_strongly.
  induction Hs as [|x l Hl IH Hx]; cbn; [constructor|].
  destruct (f x); [|exact IH].
  constructor; [exact IH|].
  rewrite Forall_forall in *. intros y Hy.
  apply filter_In in Hy. apply Hx, Hy.
Qed.

(** C2: on a track whose events are sorted ascending by time and whose
    target node is defined, [dispatch (prevTime, curTime, realTime)] calls
    [processEvent (event, realTime)] on the target for exactly the events
    whose time lies in [[prevTime, curTime)], in ascending time order. *)
Theorem dispatch_delivers_interval (tr : Track) (node : NodeId)
  (prevTime curTime realTime : Q)
  (Hsorted : sorted_by_time (events tr))
  (Htarget : target tr = Some node) :
  dispatch tr prevTime curTime realTime =
    map (fun evt => ProcessEvent node evt realTime)
        (filter (in_interval prevTime curTime) (events tr)) /\
  sorted_by_time (filter (in_interval prevTime curTime) (events tr)).
Proof.
  split.
  - apply dispatch_filter; assumption.
  - apply filter_sorted, Hsorted.
Qed.

(** For events at times 0.0, 0.5 and 1.0 and the window from 0.4 to 0.9,
    exactly the event at 0.5 is delivered. *)
Lemma dispatch_delivers_interval_witness :
  let tr := {| events := [NoteOnEvt 0 60%Z 1; NoteOffEvt (1 # 2) 60%Z;
                          NoteOnEvt 1 62%Z 1];
               target := Some 7%nat |} in
  dispatch tr (4 # 10) (9 # 10) 3 =
    [ProcessEvent 7%nat (NoteOffEvt (1 # 2) 60%Z) 3].
Proof.
  intros tr.
  refine (eq_trans (proj1 (@dispatch_delivers_interval tr 7%nat (4 # 10)
                             (9 # 10) 3 _ _)) _).
  - repeat constructor; unfold le_time; cbn; discriminate.
  - reflexivity.
  - reflexivity.
Defined.


(** *** The audio handler and looping *)











End TimelineFacts.

Module SynthFacts.

Import Timeline Synth JsFacts.

(** *** Lists, loops and arrays *)

Lemma for_each_app (A B : Type) (body : B -> A -> outcome B)
  (l1 l2 : list A) (b : B) :
  for_each body (l1 ++ l2) b = (b' <- for_each body l1 b ;; for_each body l2 b').
Proof.
  revert b. induction l1 as [|x l1 IH]; intros b; cbn; [reflexivity|].
  destruct (body b x) as [b'|msg]; cbn; [apply IH|reflexivity].
Qed.

Lemma for_each_map (A B C : Type) (f : C -> A) (body : B -> A -> outcome B)
  (l : list C) (b : B) :
  for_each body (map f l) b = for_each (fun b x => body b (f x)) l b.
Proof.
  revert b. induction l as [|x l IH]; intros b; cbn; [reflexivity|].
  destruct (body b (f x)); cbn; [apply IH|reflexivity].
Qed.

(** The nested loops over the outputs and their destinations visit the
    out-edges of the node in order. *)
Lemma process_node_out_edges (st : store) (os : order_state) (node : NodeId) :
  process_node st os node =
  for_each (fun os e => remove_edge st (fst e) os (snd e))
           (out_edges st node) os.
Proof.
  unfold process_node, out_edges. revert os.
  induction (node_outputs st node) as [|o outs IH]; intros os; cbn;
    [reflexivity|].
  rewrite for_each_app, for_each_map. cbn [fst snd].
  destruct (for_each _ (dsts (output st o)) os); cbn; [apply IH|reflexivity].
Qed.

Lemma indexOf_In (x : nat) (l : list nat) :
  In x l -> exists idx, indexOf x l = Some idx.
Proof.
  induction l as [|y l IH]; cbn; [intros []|].
  intros H. destruct (y =? x)%nat eqn:E; [eauto|].
  apply Nat.eqb_neq in E. destruct H as [H|H]; [congruence|].
  destruct (IH H) as [idx ->]. eauto.
Qed.

Lemma indexOf_splice1 (x : nat) (l : list nat) (idx : nat) :
  indexOf x l = Some idx -> Permutation l (x :: splice1 idx l).
Proof.
  revert idx. induction l as [|y l IH]; cbn; intros idx H; [discriminate|].
  destruct (y =? x)%nat eqn:E.
  - apply Nat.eqb_eq in E. inversion H; subst. unfold splice1. cbn.
    reflexivity.
  - destruct (indexOf x l) as [idx'|]; [|discriminate].
    inversion H; subst. unfold splice1. cbn.
    rewrite perm_swap. apply perm_skip. apply (IH idx' eq_refl).
Qed.

Lemma length_zero_nil (A : Type) (l : list A) :
  (List.length l =? 0)%nat = true <-> l = [].
Proof.
  rewrite Nat.eqb_eq. apply length_zero_iff_nil.
Qed.

(** A position in a duplicate-free list determines the split. *)
Lemma NoDup_split_unique (A : Type) (x : A) (a b a' b' : list A) :
  NoDup (a ++ x :: b) -> a ++ x :: b = a' ++ x :: b' -> a = a' /\ b = b'.
Proof.
  revert a'. induction a as [|y a IH]; intros a' Hnd Heq.
  - destruct a' as [|z a']; cbn in *.
    + inversion Heq. auto.
    + inversion Heq; subst. inversion Hnd; subst.
      exfalso. apply H1. apply in_or_app. right. left. reflexivity.
  - destruct a' as [|z a']; cbn in *.
    + inversion Heq; subst. inversion Hnd; subst.
      exfalso. apply H1. apply in_or_app. right. left. reflexivity.
    + inversion Heq; subst. inversion Hnd; subst.
      destruct (IH a' H3 H1) as [-> ->]. auto.
Qed.

Lemma before_irrefl (l : list NodeId) (u : NodeId) :
  NoDup l -> ~ before l u u.
Proof.
  intros Hnd (l1 & l2 & l3 & ->).
  apply NoDup_remove_2 in Hnd. apply Hnd.
  apply in_or_app. right. apply in_or_app. right. left. reflexivity.
Qed.

Lemma before_trans (l : list NodeId) (u v w : NodeId) :
  NoDup l -> before l u v -> before l v w -> before l u w.
Proof.
  intros Hnd (l1 & l2 & l3 & E1) (m1 & m2 & m3 & E2).
  assert (E : (l1 ++ u :: l2) ++ v :: l3 = m1 ++ v :: m2 ++ w :: m3).
  { rewrite <- E2, E1, <- app_assoc. reflexivity. }
  apply NoDup_split_unique in E.
  - destruct E as [E3 E4]. exists l1, (l2 ++ v :: m2), m3.
    rewrite E1, E4, <- !app_assoc. cbn. reflexivity.
  - rewrite <- app_assoc. cbn. rewrite <- E1. exact Hnd.
Qed.

Lemma before_In_l (l : list NodeId) (u v : NodeId) : before l u v -> In u l.
Proof.
  intros (l1 & l2 & l3 & ->). apply in_or_app. right. left. reflexivity.
Qed.

Lemma before_In_r (l : list NodeId) (u v : NodeId) : before l u v -> In v l.
Proof.
  intros (l1 & l2 & l3 & ->). apply in_or_app. right. right.
  apply in_or_app. right. left. reflexivity.
Qed.

Lemma before_snoc (l : list NodeId) (u v w : NodeId) :
  before l u v -> before (l ++ [w]) u v.
Proof.
  intros (l1 & l2 & l3 & ->). exists l1, l2, (l3 ++ [w]).
  rewrite <- !app_assoc. cbn. rewrite <- app_assoc. reflexivity.
Qed.

Lemma before_last (l : list NodeId) (u w : NodeId) :
  In u l -> before (l ++ [w]) u w.
Proof.
  intros H. apply in_split in H. destruct H as (l1 & l2 & ->).
  exists l1, l2, []. rewrite <- app_assoc. reflexivity.
Qed.


Lemma NoDup_flat_map_tag (A B : Type) (f : A -> list B) (tag : B -> A)
  (l : list A) :
  NoDup l -> (forall x, NoDup (f x)) ->
  (forall x e, In e (f x) -> tag e = x) ->
  NoDup (flat_map f l).
Proof.
  intros Hl Hf Htag. induction Hl as [|x l Hx Hl IH]; cbn; [constructor|].
  apply NoDup_app; [apply Hf|exact IH|].
  intros e He He'. apply in_flat_map in He'. destruct He' as (y & Hy & Hey).
  apply Htag in He. apply Htag in Hey. congruence.
Qed.

Lemma filter_nil_tag (A : Type) (f : A -> bool) (l : list A) :
  (forall x, In x l -> f x = false) -> filter f l = [].
Proof.
  induction l as [|x l IH]; cbn; intros H; [reflexivity|].
  rewrite (H x (or_introl eq_refl)). apply IH. intros y Hy. apply H. right.
  exact Hy.
Qed.

Lemma filter_all_tag (A : Type) (f : A -> bool) (l : list A) :
  (forall x, In x l -> f x = true) -> filter f l = l.
Proof.
  induction l as [|x l IH]; cbn; intros H; [reflexivity|].
  rewrite (H x (or_introl eq_refl)). f_equal. apply IH. intros y Hy.
  apply H. right. exact Hy.
Qed.

(** *** The edges of a well-formed network *)

Section Graph.

Variables (st : store) (net : SynthNet).
Hypothesis wf : well_formed st net.

Lemma In_node_edges (o : OutputId) (i : InputId) (n : NodeId) :
  In (o, i) (node_edges st n) <->
  In i (node_inputs st n) /\ src (input st i) = Some o.
Proof.
  unfold node_edges. rewrite in_flat_map. split.
  - intros (i' & Hi' & He). destruct (src (input st i')) as [o'|] eqn:E;
      [|destruct He].
    destruct He as [He|[]]. inversion He; subst. auto.
  - intros [Hi Hs]. exists i. split; [exact Hi|]. rewrite Hs. left.
    reflexivity.
Qed.

Lemma node_edges_dst (n : NodeId) (e : edge) :
  In e (node_edges st n) -> edge_dst st e = n.
Proof.
  destruct e as [o i]. intros H. apply In_node_edges in H.
  unfold edge_dst. cbn. apply (wf_in_node wf), H.
Qed.

Lemma In_all_edges (e : edge) (ns : list NodeId) :
  In e (all_edges st ns) <->
  In (edge_dst st e) ns /\ In e (node_edges st (edge_dst st e)).
Proof.
  unfold all_edges. rewrite in_flat_map. split.
  - intros (n & Hn & He). rewrite (node_edges_dst _ _ He). auto.
  - intros [Hn He]. eauto.
Qed.

Lemma In_out_edges (o : OutputId) (i : InputId) (u : NodeId) :
  In (o, i) (out_edges st u) <->
  In o (node_outputs st u) /\ In i (dsts (output st o)).
Proof.
  unfold out_edges. rewrite in_flat_map. split.
  - intros (o' & Ho' & He). apply in_map_iff in He.
    destruct He as (i' & He & Hi'). inversion He; subst. auto.
  - intros [Ho Hi]. exists o. split; [exact Ho|].
    apply in_map_iff. exists i. auto.
Qed.

(** The out-edges of a node of the network are the edges that leave it. *)
Lemma out_edges_all_edges (u : NodeId) (e : edge) :
  In u (nodes net) ->
  (In e (out_edges st u) <->
   In e (all_edges st (nodes net)) /\ edge_src st e = u).
Proof.
  intros Hu. destruct e as [o i]. rewrite In_out_edges, In_all_edges.
  unfold edge_src, edge_dst. cbn [fst snd]. rewrite In_node_edges.
  split.
  - intros [Ho Hi].
    destruct (wf_dst_closed wf _ _ _ Hu Ho Hi) as [Hn Hin].
    repeat split; try assumption.
    + apply (wf_connect wf), Hi.
    + apply (wf_out_node wf), Ho.
  - intros [(Hn & Hin & Hs) Hsrc].
    destruct (wf_src_closed wf _ _ Hn Hin Hs) as [_ Ho].
    rewrite Hsrc in Ho. split; [exact Ho|].
    apply (wf_connect wf), Hs.
Qed.

Lemma NoDup_node_edges (n : NodeId) : NoDup (node_edges st n).
Proof.
  unfold node_edges.
  apply NoDup_flat_map_tag with (tag := snd).
  - apply (wf_inputs wf).
  - intros i. destruct (src (input st i)); repeat constructor. intros [].
  - intros i e He. destruct (src (input st i)); [|destruct He].
    destruct He as [<-|[]]. reflexivity.
Qed.

Lemma NoDup_all_edges (ns : list NodeId) :
  NoDup ns -> NoDup (all_edges st ns).
Proof.
  intros Hns. unfold all_edges.
  apply NoDup_flat_map_tag with (tag := edge_dst st).
  - exact Hns.
  - apply NoDup_node_edges.
  - intros n e. apply node_edges_dst.
Qed.

Lemma NoDup_out_edges (u : NodeId) : NoDup (out_edges st u).
Proof.
  unfold out_edges.
  apply NoDup_flat_map_tag with (tag := fst).
  - apply (wf_outputs wf).
  - intros o. apply Finite.Injective_map_NoDup; [|apply (wf_dsts wf)].
    intros x y H. inversion H. reflexivity.
  - intros o e He. apply in_map_iff in He. destruct He as (i & <- & _).
    reflexivity.
Qed.

Lemma collect_inEdges_node_edges (n : NodeId) :
  collect_inEdges st n = map fst (node_edges st n).
Proof.
  unfold collect_inEdges, node_edges.
  induction (node_inputs st n) as [|i l IH]; cbn; [reflexivity|].
  rewrite map_app, IH. destruct (src (input st i)); reflexivity.
Qed.

Lemma filter_into_node_edges (v n : NodeId) :
  filter (into st v) (node_edges st n) =
  if (n =? v)%nat then node_edges st n else [].
Proof.
  destruct (n =? v)%nat eqn:E.
  - apply Nat.eqb_eq in E. subst. apply filter_all_tag.
    intros e He. unfold into. rewrite (node_edges_dst _ _ He).
    apply Nat.eqb_refl.
  - apply filter_nil_tag. intros e He. unfold into.
    rewrite (node_edges_dst _ _ He). exact E.
Qed.

Lemma srcs_into_all_edges (v : NodeId) (ns : list NodeId) :
  NoDup ns -> In v ns ->
  srcs_into st v (all_edges st ns) = collect_inEdges st v.
Proof.
  intros Hnd Hv. rewrite collect_inEdges_node_edges. unfold srcs_into.
  f_equal. unfold all_edges.
  induction Hnd as [|n ns Hn Hnd IH]; [destruct Hv|].
  cbn. rewrite filter_app, filter_into_node_edges.
  destruct (n =? v)%nat eqn:E.
  - apply Nat.eqb_eq in E. subst n.
    rewrite filter_nil_tag; [apply app_nil_r|].
    intros e He. apply in_flat_map in He. destruct He as (n & Hn' & He).
    unfold into. rewrite (node_edges_dst _ _ He).
    apply Nat.eqb_neq. intros ->. contradiction.
  - apply Nat.eqb_neq in E. destruct Hv as [Hv|Hv]; [contradiction|].
    apply IH, Hv.
Qed.


(** *** The first loop *)

Lemma fold_visit (ns : list NodeId) (os : order_state) :
  let os' := fold_left (visit_node st) ns os in
  L_ os' = L_ os /\
  numEdges os' = (numEdges os + Z.of_nat (List.length (all_edges st ns)))%Z /\
  (forall v, In v ns -> edges os' v = Some (collect_inEdges st v)) /\
  (forall v, ~ In v ns -> edges os' v = edges os v) /\
  S_ os' =
    rev (filter (fun n => (List.length (collect_inEdges st n) =? 0)%nat) ns)
    ++ S_ os.
Proof.
  revert os. induction ns as [|n ns IH]; intros os; cbn.
  - repeat split; try reflexivity; try lia; intros v [].
  - specialize (IH (visit_node st os n)). cbv zeta in IH.
    destruct IH as (HL & Hnum & Hin & Hout & HS).
    repeat split.
    + rewrite HL. reflexivity.
    + rewrite Hnum. cbn [numEdges visit_node]. unfold all_edges. cbn.
      rewrite length_app, collect_inEdges_node_edges, length_map.
      unfold edge. lia.
    + intros v [->|Hv].
      * destruct (in_dec Nat.eq_dec v ns) as [Hi|Hi]; [apply Hin, Hi|].
        rewrite (Hout v Hi). cbn. unfold upd. rewrite Nat.eqb_refl.
        reflexivity.
      * apply Hin, Hv.
    + intros v Hv. rewrite Hout by tauto. cbn. unfold upd.
      destruct (v =? n)%nat eqn:E; [|reflexivity].
      apply Nat.eqb_eq in E. subst. tauto.
    + rewrite HS. cbn [S_ visit_node].
      destruct (List.length (collect_inEdges st n) =? 0)%nat; cbn.
      * rewrite <- app_assoc. reflexivity.
      * reflexivity.
Qed.

Lemma phase1_inv (edges0 : NodeId -> option (list OutputId)) :
  let os1 := fold_left (visit_node st) (nodes net)
               {| edges := edges0; numEdges := 0; S_ := []; L_ := [] |} in
  order_inv st net os1 (all_edges st (nodes net)) [].
Proof.
  cbv zeta.
  destruct (fold_visit (nodes net)
              {| edges := edges0; numEdges := 0; S_ := []; L_ := [] |})
    as (HL & Hnum & Hin & _ & HS).
  cbv zeta in *. cbn [L_ numEdges S_] in *. rewrite app_nil_r in HS.
  constructor.
  - apply NoDup_all_edges, (wf_nodes wf).
  - auto.
  - intros v Hv. exists (collect_inEdges st v). split; [apply Hin, Hv|].
    rewrite srcs_into_all_edges by (try apply (wf_nodes wf); assumption).
    reflexivity.
  - rewrite Hnum. lia.
  - rewrite HL, app_nil_r, HS. apply NoDup_rev, NoDup_filter, (wf_nodes wf).
  - intros v. rewrite HL, app_nil_r, HS, <- in_rev, filter_In.
    split; intros [Hv H]; (split; [exact Hv|]).
    + rewrite srcs_into_all_edges by (try apply (wf_nodes wf); assumption).
      apply length_zero_nil, H.
    + rewrite srcs_into_all_edges in H
        by (try apply (wf_nodes wf); assumption).
      apply length_zero_nil, H.
  - intros e He. rewrite HL. cbn. tauto.
  - constructor.
  - intros e [].
  - intros e _. rewrite HL. intros [].
Qed.


(** *** Removing one edge *)

Lemma edge_eq_dec (e1 e2 : edge) : {e1 = e2} + {e1 <> e2}.
Proof. unfold edge, OutputId, InputId. decide equality; apply Nat.eq_dec. Qed.

Lemma srcs_into_remove_same (v : NodeId) (R1 R2 : list edge) (e : edge) :
  edge_dst st e = v ->
  Permutation (srcs_into st v (R1 ++ e :: R2))
              (fst e :: srcs_into st v (R1 ++ R2)).
Proof.
  intros Hv. unfold srcs_into. rewrite !filter_app, !map_app. cbn [filter].
  unfold into at 2. rewrite Hv, Nat.eqb_refl. cbn [map].
  symmetry. apply Permutation_middle.
Qed.

Lemma srcs_into_remove_other (v : NodeId) (R1 R2 : list edge) (e : edge) :
  edge_dst st e <> v ->
  srcs_into st v (R1 ++ e :: R2) = srcs_into st v (R1 ++ R2).
Proof.
  intros Hv. unfold srcs_into. rewrite !filter_app. cbn [filter].
  unfold into at 2. apply Nat.eqb_neq in Hv. rewrite Hv. reflexivity.
Qed.

Lemma In_srcs_into (v : NodeId) (R : list edge) (e : edge) :
  In e R -> edge_dst st e = v -> In (fst e) (srcs_into st v R).
Proof.
  intros He Hv. unfold srcs_into. apply in_map, filter_In.
  split; [exact He|]. unfold into. rewrite Hv. apply Nat.eqb_refl.
Qed.

Lemma srcs_into_nil (v : NodeId) (R : list edge) (e : edge) :
  srcs_into st v R = [] -> In e R -> edge_dst st e <> v.
Proof.
  intros Hnil He Hv. pose proof (In_srcs_into _ _ He Hv) as H.
  rewrite Hnil in H. destruct H.
Qed.

Lemma remove_edge_inv (os : order_state) (R pend : list edge) (e : edge) :
  order_inv st net os R (e :: pend) ->
  exists os' R',
    remove_edge st (fst e) os (snd e) = Returned os' /\
    order_inv st net os' R' pend /\
    L_ os' = L_ os /\
    (List.length (S_ os') + List.length R' <=
     List.length (S_ os) + List.length R)%nat.
Proof.
  intros H.
  destruct (inv_pend H e (or_introl eq_refl)) as [Hall HsrcL].
  assert (HinR : In e R).
  { apply (inv_removed H e Hall). right. left. reflexivity. }
  set (v := edge_dst st e).
  assert (Hv : In v (nodes net)) by (apply In_all_edges in Hall; apply Hall).
  destruct (inv_edges H v Hv) as (es & Hes & Hperm).
  assert (Ho : In (fst e) es).
  { apply (Permutation_in _ (Permutation_sym Hperm)).
    apply In_srcs_into; [exact HinR|reflexivity]. }
  destruct (indexOf_In _ _ Ho) as [idx Hidx].
  pose proof (indexOf_splice1 _ _ Hidx) as Hsplice.
  destruct (in_split _ _ HinR) as (R1 & R2 & ER).
  pose proof (inv_R_nodup H) as HndR. rewrite ER in HndR.
  assert (Hes' : Permutation (splice1 idx es) (srcs_into st v (R1 ++ R2))).
  { apply Permutation_cons_inv with (a := fst e).
    rewrite <- Hsplice, Hperm, ER. apply srcs_into_remove_same. reflexivity. }
  assert (HnotSL : ~ In v (S_ os ++ L_ os)).
  { intros Hin. apply (inv_ready H) in Hin. destruct Hin as [_ Hnil].
    apply (srcs_into_nil _ _ Hnil HinR). reflexivity. }
  assert (HinR' : forall e', In e' (R1 ++ R2) <-> In e' R /\ e' <> e).
  { intros e'. rewrite ER. split.
    - intros Hi. split.
      + apply in_app_or in Hi. apply in_or_app. cbn. tauto.
      + intros ->. apply NoDup_remove_2 in HndR. contradiction.
    - intros [Hi Hne]. apply in_app_or in Hi. apply in_or_app.
      cbn in Hi. destruct Hi as [Hi|[Hi|Hi]]; [tauto|congruence|tauto]. }
  unfold remove_edge. fold (edge_dst st e). fold v. rewrite Hes, Hidx.
  eexists. exists (R1 ++ R2). split; [reflexivity|].
  split; [|split; [reflexivity|]].
  - constructor; cbn [edges numEdges S_ L_].
    + apply NoDup_remove_1 in HndR. exact HndR.
    + intros e' He'. apply HinR' in He'. apply (inv_R_edges H), He'.
    + intros v' Hv'. unfold upd. destruct (v' =? v)%nat eqn:E.
      * apply Nat.eqb_eq in E. subst v'. eauto.
      * apply Nat.eqb_neq in E. destruct (inv_edges H v' Hv') as (es0 & E0 & P0).
        exists es0. split; [exact E0|]. rewrite P0, ER.
        rewrite srcs_into_remove_other; [reflexivity|]. fold v. congruence.
    + rewrite (inv_num H), ER, !length_app. cbn [List.length]. lia.
    + destruct (List.length (splice1 idx es) =? 0)%nat.
      * cbn. constructor; [exact HnotSL|apply (inv_nodup H)].
      * apply (inv_nodup H).
    + intros v'.
      destruct (Nat.eq_dec v' v) as [->|Hne].
      * destruct (List.length (splice1 idx es) =? 0)%nat eqn:El.
        -- apply length_zero_nil in El. rewrite El in Hes'.
           apply Permutation_nil in Hes'. cbn. tauto.
        -- split; [intros Hin; contradiction|].
           intros [_ Hnil]. rewrite Hnil in Hes'.
           apply Permutation_sym, Permutation_nil in Hes'.
           apply length_zero_nil in Hes'. congruence.
      * rewrite <- (@srcs_into_remove_other v' R1 R2 e)
          by (fold v; congruence).
        rewrite <- ER, <- (inv_ready H v').
        destruct (List.length (splice1 idx es) =? 0)%nat; cbn; [|tauto].
        split; [intros [Heq|Hin]; [congruence|exact Hin]|tauto].
    + intros e' He'. rewrite HinR'.
      pose proof (inv_removed H e' He') as Hrem. cbn [In] in Hrem.
      destruct (edge_eq_dec e' e) as [->|Hne].
      * split; [tauto|]. intros [Hn|Hp]; [contradiction|].
        pose proof (inv_pend_nodup H) as Hnd. inversion Hnd. contradiction.
      * split.
        -- intros [Hi _]. apply Hrem in Hi.
           destruct Hi as [Hi|[Hi|Hi]]; [tauto|congruence|tauto].
        -- intros Hi. split; [|exact Hne]. apply Hrem. tauto.
    + pose proof (inv_pend_nodup H) as Hnd. inversion Hnd. assumption.
    + intros e' He'. apply (inv_pend H). right. exact He'.
    + apply (inv_topo H).
  - cbn [S_]. rewrite ER, !length_app. cbn [List.length].
    destruct (List.length (splice1 idx es) =? 0)%nat; cbn [List.length]; lia.
Qed.


(** *** Processing a node and draining the stack *)

Lemma for_each_remove_inv (pend : list edge) (os : order_state)
  (R : list edge) :
  order_inv st net os R pend ->
  exists os' R',
    for_each (fun os e => remove_edge st (fst e) os (snd e)) pend os =
      Returned os' /\
    order_inv st net os' R' [] /\
    L_ os' = L_ os /\
    (List.length (S_ os') + List.length R' <=
     List.length (S_ os) + List.length R)%nat.
Proof.
  revert os R. induction pend as [|e pend IH]; intros os R H.
  - exists os, R. cbn. auto.
  - destruct (remove_edge_inv H) as (os1 & R1 & E1 & H1 & HL1 & Hm1).
    destruct (IH os1 R1 H1) as (os2 & R2 & E2 & H2 & HL2 & Hm2).
    exists os2, R2. cbn [for_each]. rewrite E1. unfold bind.
    split; [exact E2|]. split; [exact H2|].
    split; [rewrite HL2; exact HL1|lia].
Qed.

(** After the pop, the edges out of the popped node are pending. *)
Lemma pop_inv (os : order_state) (R : list edge) (u : NodeId)
  (rest : list NodeId) :
  order_inv st net os R [] -> S_ os = u :: rest ->
  order_inv st net
    {| edges := edges os; numEdges := numEdges os;
       S_ := rest; L_ := L_ os ++ [u] |}
    R (out_edges st u).
Proof.
  intros H HS.
  pose proof (inv_nodup H) as Hnd. rewrite HS in Hnd. cbn in Hnd.
  assert (HuL : ~ In u (L_ os)).
  { inversion Hnd as [|? ? Hn _]; subst. intros Hin. apply Hn.
    apply in_or_app. right. exact Hin. }
  assert (Hu : In u (nodes net) /\ srcs_into st u R = []).
  { apply (inv_ready H). rewrite HS. left. reflexivity. }
  destruct Hu as [Hu Hnil].
  constructor; cbn [edges numEdges S_ L_].
  - apply (inv_R_nodup H).
  - apply (inv_R_edges H).
  - apply (inv_edges H).
  - apply (inv_num H).
  - apply Permutation_NoDup with (l := u :: rest ++ L_ os); [|exact Hnd].
    rewrite app_assoc. apply Permutation_cons_append.
  - intros v. rewrite <- (inv_ready H v), HS.
    rewrite !in_app_iff. cbn. tauto.
  - intros e He. rewrite (inv_removed H e He), (@out_edges_all_edges u e Hu).
    rewrite in_app_iff. cbn.
    destruct (Nat.eq_dec (edge_src st e) u) as [E|E].
    + rewrite E. tauto.
    + split; [intros [Hn|[]]; left; intros [Hi|[Hi|[]]]; auto; congruence|].
      intros [Hn|[_ Hi]]; [left; tauto|congruence].
  - apply NoDup_out_edges.
  - intros e He. apply (@out_edges_all_edges u e Hu) in He.
    destruct He as [He Hs]. split; [exact He|].
    apply in_or_app. right. left. symmetry. exact Hs.
  - intros e He Hd. apply in_app_or in Hd. destruct Hd as [Hd|[Hd|[]]].
    + apply before_snoc, (inv_topo H e He Hd).
    + rewrite <- Hd. apply before_last.
      destruct (in_dec Nat.eq_dec (edge_src st e) (L_ os)) as [Hi|Hi];
        [exact Hi|].
      exfalso. assert (HeR : In e R) by (apply (inv_removed H e He); tauto).
      apply (srcs_into_nil _ _ Hnil HeR). symmetry. exact Hd.
Qed.

Lemma drain_spec (fuel : nat) (os : order_state) (R : list edge) :
  order_inv st net os R [] ->
  (List.length (S_ os) + List.length R <= fuel)%nat ->
  exists os' R',
    drain fuel st os = Some (Returned os') /\
    order_inv st net os' R' [] /\ S_ os' = [].
Proof.
  revert os R. induction fuel as [|fuel IH]; intros os R H Hm.
  - destruct (S_ os) as [|u rest] eqn:HS; [|cbn in Hm; lia].
    exists os, R. cbn. rewrite HS. auto.
  - destruct (S_ os) as [|u rest] eqn:HS.
    + exists os, R. cbn. rewrite HS. auto.
    + pose proof (pop_inv H HS) as Hpop.
      destruct (for_each_remove_inv Hpop) as (os1 & R1 & E1 & H1 & _ & Hm1).
      cbn [S_] in Hm1. cbn in Hm.
      destruct (IH os1 R1 H1) as (os2 & R2 & E2 & H2 & HS2); [lia|].
      exists os2, R2. cbn [drain]. rewrite HS.
      rewrite process_node_out_edges, E1. auto.
Qed.


(** *** The result of [orderNodes] *)

(** With a well-formed network the loop ends within its fuel, and the
    result depends on whether edges remain. *)
Lemma orderNodes_result :
  exists os R,
    order_inv st net os R [] /\ S_ os = [] /\
    (R = [] ->
     orderNodes st net =
       Some (Returned (set_inEdges (edges os) st),
             set_order (Some (L_ os)) net) /\
     Permutation (L_ os) (nodes net)) /\
    (R <> [] -> orderNodes st net = Some (Threw "cycle in graph", net)).
Proof.
  pose proof (phase1_inv (inEdges st)) as H1. cbv zeta in H1.
  unfold orderNodes. cbv zeta.
  set (os1 := fold_left (visit_node st) (nodes net) _) in *.
  destruct (@drain_spec (List.length (S_ os1) + Z.to_nat (numEdges os1))
              os1 _ H1) as (os & R & E & H & HS).
  { rewrite (inv_num H1), Nat2Z.id. lia. }
  exists os, R. rewrite E. split; [exact H|]. split; [exact HS|].
  rewrite (inv_num H). split.
  - intros ->. cbn [List.length Z.of_nat Z.eqb negb].
    assert (HP : Permutation (L_ os) (nodes net)).
    { apply NoDup_Permutation.
      - pose proof (inv_nodup H) as Hnd. rewrite HS in Hnd. exact Hnd.
      - apply (wf_nodes wf).
      - intros v. rewrite <- (app_nil_l (L_ os)), <- HS, (inv_ready H v).
        unfold srcs_into. cbn. tauto. }
    rewrite (Permutation_length HP), Nat.eqb_refl. cbn [negb]. auto.
  - intros Hne. destruct R as [|e R]; [congruence|]. reflexivity.
Qed.

Section Final.

Variables (os : order_state).
Hypothesis Hinv : order_inv st net os [] [].
Hypothesis HS : S_ os = [].

Lemma final_In_L (v : NodeId) : In v (L_ os) <-> In v (nodes net).
Proof.
  rewrite <- (app_nil_l (L_ os)), <- HS, (inv_ready Hinv v).
  unfold srcs_into. cbn. tauto.
Qed.

Lemma final_NoDup_L : NoDup (L_ os).
Proof. pose proof (inv_nodup Hinv) as H. rewrite HS in H. exact H. Qed.

Lemma final_connected_before (u v : NodeId) :
  In v (nodes net) -> connected st u v -> before (L_ os) u v.
Proof.
  intros Hv (o & i & Ho & Hi & Hs).
  assert (Hd : edge_dst st (o, i) = v) by (apply (wf_in_node wf), Hi).
  assert (He : In (o, i) (all_edges st (nodes net))).
  { apply In_all_edges. rewrite Hd. split; [exact Hv|].
    apply In_node_edges. auto. }
  pose proof (inv_topo Hinv _ He) as Hb. rewrite Hd in Hb.
  replace (edge_src st (o, i)) with u in Hb
    by (symmetry; apply (wf_out_node wf), Ho).
  apply Hb, final_In_L, Hv.
Qed.

Lemma final_path_before (u v : NodeId) :
  path st u v -> In v (nodes net) -> before (L_ os) u v.
Proof.
  induction 1 as [u v Hc|u v w Hc Hp IH]; intros Hv.
  - apply final_connected_before; assumption.
  - specialize (IH Hv).
    apply before_trans with (v := v); [apply final_NoDup_L| |exact IH].
    apply final_connected_before; [|exact Hc].
    apply final_In_L. apply (before_In_l IH).
Qed.

End Final.

Lemma path_trans (u v w : NodeId) : path st u v -> path st v w -> path st u w.
Proof.
  induction 1 as [u v Hc|u v x Hc Hp IH]; intros Hw.
  - apply path_cons with (v := v); assumption.
  - apply path_cons with (v := v); [exact Hc|]. apply IH, Hw.
Qed.

(** A non-empty finite set of nodes of an acyclic graph has an element
    that no element of the set reaches. *)
Lemma minimal_node (X : list NodeId) :
  acyclic st -> X <> [] ->
  ~ ~ exists m, In m X /\ forall y, In y X -> ~ path st y m.
Proof.
  intros Hac. induction X as [|x X IH]; intros Hne; [congruence|].
  destruct X as [|x' X].
  - intros Hno. apply Hno. exists x. split; [left; reflexivity|].
    intros y [<-|[]]. apply Hac.
  - intros Hno. apply IH; [discriminate|]. intros (m & Hm & Hmin).
    assert (Hnp : ~ path st x m).
    { intros Hp. apply Hno. exists x. split; [left; reflexivity|].
      intros y [<-|Hy] Hyx; [exact (Hac _ Hyx)|].
      exact (Hmin y Hy (path_trans Hyx Hp)). }
    apply Hno. exists m. split; [right; exact Hm|].
    intros y [<-|Hy]; [exact Hnp|apply Hmin, Hy].
Qed.

(** In an acyclic graph the loop removes every edge. *)
Lemma acyclic_no_edge_left (os : order_state) (R : list edge) :
  order_inv st net os R [] -> S_ os = [] -> acyclic st -> R = [].
Proof.
  intros H HS Hac. destruct R as [|e0 R0]; [reflexivity|]. exfalso.
  set (R := e0 :: R0) in *.
  set (X := filter (fun n => if in_dec Nat.eq_dec n (L_ os)
                             then false else true) (nodes net)).
  assert (HX : forall x, In x X <-> In x (nodes net) /\ ~ In x (L_ os)).
  { intros x. unfold X. rewrite filter_In.
    destruct (in_dec Nat.eq_dec x (L_ os)); intuition congruence. }
  assert (Hpred : forall x, In x X -> exists y, In y X /\ path st y x).
  { intros x Hx. apply HX in Hx. destruct Hx as [Hx HxL].
    assert (Hsrcs : srcs_into st x R <> []).
    { intros Hnil. apply HxL. rewrite <- (app_nil_l (L_ os)), <- HS.
      apply (inv_ready H). auto. }
    destruct (srcs_into st x R) as [|o l] eqn:Es; [congruence|].
    assert (Ho : In o (srcs_into st x R)) by (rewrite Es; left; reflexivity).
    unfold srcs_into in Ho. apply in_map_iff in Ho.
    destruct Ho as (e & _ & He). apply filter_In in He.
    destruct He as [HeR Hd]. unfold into in Hd. apply Nat.eqb_eq in Hd.
    pose proof (inv_R_edges H e HeR) as Hall.
    assert (HsL : ~ In (edge_src st e) (L_ os)).
    { apply (inv_removed H e Hall) in HeR. destruct HeR as [Hn|[]]. exact Hn. }
    destruct e as [o' i']. apply In_all_edges in Hall.
    destruct Hall as [Hn Hne]. apply In_node_edges in Hne.
    destruct Hne as [Hi Hs].
    destruct (wf_src_closed wf _ _ Hn Hi Hs) as [Hsn Hso].
    exists (edge_src st (o', i')). split; [apply HX; auto|].
    apply path_one. exists o', i'. rewrite <- Hd. auto. }
  assert (HXne : X <> []).
  { assert (Hin : In (edge_dst st e0) X).
    { apply HX. pose proof (inv_R_edges H e0 (or_introl eq_refl)) as Hall.
      apply In_all_edges in Hall. split; [apply Hall|].
      intros HL. rewrite <- (app_nil_l (L_ os)), <- HS in HL.
      apply (inv_ready H) in HL. destruct HL as [_ Hnil].
      apply (@srcs_into_nil _ _ e0 Hnil); [left|]; reflexivity. }
    intros E. rewrite E in Hin. destruct Hin. }
  apply (minimal_node Hac HXne). intros (m & Hm & Hmin).
  destruct (Hpred m Hm) as (y & Hy & Hp). exact (Hmin y Hy Hp).
Qed.

End Graph.

(** C3 (amended): on a network whose objects are as the constructors,
    [addNode] and [connect] leave them and that is closed, every
    connection of a node of the network being to a node of the network:
    if the port-connection graph is acyclic, [orderNodes] returns and
    stores an ordering that contains every node of the network exactly
    once and in which every node comes after all nodes whose outputs are
    connected to one of its inputs; if the graph has a cycle,
    [orderNodes] throws the error "cycle in graph" and leaves the
    network, and so its stored ordering, as it was. *)
Theorem orderNodes_topological (st : store) (net : SynthNet)
  (wf : well_formed st net) :
  (acyclic st ->
   exists L st',
     orderNodes st net = Some (Returned st', set_order (Some L) net) /\
     NoDup L /\ Permutation L (nodes net) /\
     forall u v, In v (nodes net) -> connected st u v -> before L u v) /\
  (has_cycle st net ->
   orderNodes st net = Some (Threw "cycle in graph", net)).
Proof.
  destruct (orderNodes_result wf) as (os & R & H & HS & Hnil & Hcons).
  split.
  - intros Hac. pose proof (acyclic_no_edge_left wf H HS Hac) as ->.
    destruct (Hnil eq_refl) as [E HP].
    exists (L_ os), (set_inEdges (edges os) st).
    split; [exact E|]. split; [apply (final_NoDup_L H HS)|].
    split; [exact HP|]. intros u v. apply (final_connected_before wf H HS).
  - intros (u & Hu & Hp). apply Hcons. intros ->.
    apply (before_irrefl (final_NoDup_L H HS) (u := u)).
    apply (final_path_before wf H HS Hp Hu).
Qed.

(** *** The example network *)

Lemma example_well_formed : well_formed example_store example_net.
Proof.
  constructor; cbn.
  - repeat constructor; cbn; intuition discriminate.
  - intros [|[|[|n]]]; repeat constructor; cbn; intuition.
  - intros [|[|n]]; repeat constructor; cbn; intuition.
  - intros [|[|[|n]]] i; cbn; intuition; subst; reflexivity.
  - intros [|[|n]] o; cbn; intuition; subst; reflexivity.
  - intros [|[|o]]; repeat constructor; cbn; intuition.
  - intros [|[|o]] [|[|i]]; cbn; intuition; try discriminate.
  - intros [|[|[|n]]] i o; cbn; intuition; subst; cbn in *;
      match goal with H : Some _ = Some _ |- _ => inversion H; subst end;
      cbn; auto.
  - intros [|[|[|n]]] o i; cbn; intuition; subst; cbn in *; intuition;
      subst; cbn; auto.
Qed.

Lemma example_connected (u v : NodeId) :
  connected example_store u v -> (u < v)%nat.
Proof.
  intros (o & i & Ho & Hi & Hs).
  destruct u as [|[|u]]; cbn in Ho; try (destruct Ho; fail);
    destruct Ho as [<-|[]];
    destruct v as [|[|[|v]]]; cbn in Hi; try (destruct Hi; fail);
    destruct Hi as [<-|[]]; cbn in Hs; try discriminate; lia.
Qed.

Lemma example_acyclic : acyclic example_store.
Proof.
  assert (H : forall u v, path example_store u v -> (u < v)%nat).
  { induction 1 as [u v Hc|u v w Hc Hp IH].
    - apply example_connected, Hc.
    - apply example_connected in Hc. lia. }
  intros u Hp. apply H in Hp. lia.
Qed.

(** The example is ordered instrument, effect, output node. *)
Lemma orderNodes_topological_witness :
  exists st',
    orderNodes example_store example_net =
      Some (Returned st', set_order (Some [0; 1; 2]%nat) example_net) /\
    before [0; 1; 2]%nat 0%nat 1%nat /\ before [0; 1; 2]%nat 1%nat 2%nat.
Proof.
  destruct (proj1 (orderNodes_topological example_well_formed)
                  example_acyclic) as (L & st' & E & _ & _ & Hb).
  assert (EL : L = [0; 1; 2]%nat).
  { vm_compute in E. inversion E. reflexivity. }
  subst L. exists st'. split; [exact E|]. split.
  - apply Hb; [cbn; auto|]. exists 0%nat, 0%nat. cbn. auto.
  - apply Hb; [cbn; auto|]. exists 1%nat, 1%nat. cbn. auto.
Defined.


(** C3 (as stated) fails for a network that is not closed.  The example
    instrument, effect and output node are connected in a row, which is
    acyclic, but the instrument was never added to the network: the first
    loop counts the edge from the instrument into the effect, no node is
    without input edges, the [while] loop removes nothing, and
    [orderNodes] throws "cycle in graph" and stores no ordering. *)
Lemma orderNodes_source_not_added :
  let net := {| sampleRate := 44100; nodes := [2%nat; 1%nat];
                outNode := Some 2%nat; order := None |} in
  acyclic example_store /\
  ~ has_cycle example_store net /\
  NoDup (nodes net) /\
  src (input example_store 0%nat) = Some 0%nat /\
  In 0%nat (node_inputs example_store 1%nat) /\
  In 0%nat (node_outputs example_store 0%nat) /\
  ~ In 0%nat (nodes net) /\
  orderNodes example_store net = Some (Threw "cycle in graph", net).
Proof.
  cbv zeta. split; [exact example_acyclic|].
  split; [intros (u & _ & Hp); exact (example_acyclic Hp)|].
  split; [repeat constructor; cbn; intuition discriminate|].
  split; [reflexivity|]. split; [left; reflexivity|].
  split; [left; reflexivity|].
  split; [cbn; intuition discriminate | reflexivity].
Qed.

(** The network with a cycle is well formed, and [orderNodes] throws. *)
Lemma cycle_well_formed : well_formed cycle_store cycle_net.
Proof.
  constructor; cbn.
  - repeat constructor; cbn; intuition discriminate.
  - intros [|[|n]]; repeat constructor; cbn; intuition.
  - intros [|[|n]]; repeat constructor; cbn; intuition.
  - intros [|[|n]] i; cbn; intuition; subst; reflexivity.
  - intros [|[|n]] o; cbn; intuition; subst; reflexivity.
  - intros [|[|o]]; repeat constructor; cbn; intuition.
  - intros [|[|o]] [|[|i]]; cbn; intuition; try discriminate.
  - intros [|[|n]] i o; cbn; intuition; subst; cbn in *;
      match goal with H : Some _ = Some _ |- _ => inversion H; subst end;
      cbn; auto.
  - intros [|[|n]] o i; cbn; intuition; subst; cbn in *; intuition;
      subst; cbn; auto.
Qed.

Lemma cycle_has_cycle : has_cycle cycle_store cycle_net.
Proof.
  exists 0%nat. split; [left; reflexivity|].
  apply path_cons with (v := 1%nat).
  - exists 0%nat, 1%nat. cbn. auto.
  - apply path_one. exists 1%nat, 0%nat. cbn. auto.
Qed.

Example orderNodes_cycle :
  orderNodes cycle_store cycle_net = Some (Threw "cycle in graph", cycle_net).
Proof. reflexivity. Qed.

(** *** Reading an input port *)

(** C6 (as stated) fails for an input without a source: [getBuffer] throws
    on its first assertion. *)
Lemma getBuffer_unconnected_throws :
  let st := {| output := example_output;
               input := fun _ => {| in_node := 1%nat; in_name := "input";
                                    in_numChans := None; src := None |};
               node_outputs := fun _ => [];
               node_inputs := fun _ => [];
               inEdges := fun _ => None |} in
  SynthInput_hasData st 0%nat = false /\
  SynthInput_getBuffer st 0%nat None =
    Threw "synth input not connected to any output" /\
  SynthInput_getBuffer st 0%nat None <> Returned (Some SYNTH_ZERO_BUF).
Proof.
  cbv zeta. repeat split. discriminate.
Qed.

Lemma getBuffer_unconnected (st : store) (i : InputId) (chanIdx : option nat) :
  src (input st i) = None ->
  SynthInput_hasData st i = false /\
  SynthInput_getBuffer st i chanIdx =
    Threw "synth input not connected to any output".
Proof.
  intros H. unfold SynthInput_hasData, SynthInput_getBuffer. rewrite H. auto.
Qed.

(** C6 (amended): when an input is connected to a source whose [hasData]
    flag is false, [hasData()] is false and [getBuffer] returns the
    constant all-zero buffer whenever its channel assertions pass (the
    channel index is given or the input has at most one channel; the
    channel index is below the source's channel count or the source is
    mono), and otherwise throws; it never returns anything but the zero
    buffer.  (Without a source, [hasData()] is false and [getBuffer]
    throws.) *)
Theorem getBuffer_no_data_is_silence (st : store) (i : InputId)
  (o : OutputId) (chanIdx : option nat)
  (Hsrc : src (input st i) = Some o)
  (Hflag : hasData (output st o) = false) :
  SynthInput_hasData st i = false /\
  (negb (is_undefined chanIdx && more_than_one (in_numChans (input st i)))
   && (chan_lt chanIdx (out_numChans (output st o))
       || (out_numChans (output st o) =? 1)%nat) = true ->
   SynthInput_getBuffer st i chanIdx = Returned (Some SYNTH_ZERO_BUF)) /\
  (forall buf, SynthInput_getBuffer st i chanIdx = Returned buf ->
               buf = Some SYNTH_ZERO_BUF) /\
  Forall (fun x => x = 0%Q) SYNTH_ZERO_BUF /\
  List.length SYNTH_ZERO_BUF = 256%nat.
Proof.
  unfold SynthInput_hasData, SynthInput_getBuffer. rewrite Hsrc, Hflag.
  split; [reflexivity|]. split; [|split; [|split]].
  - intros H. apply andb_true_iff in H. destruct H as [H1 H2].
    rewrite H1, H2. reflexivity.
  - intros buf.
    destruct (negb (is_undefined chanIdx && _)); cbn; [|discriminate].
    destruct (chan_lt chanIdx _ || _); cbn; [|discriminate].
    intros H. inversion H. reflexivity.
  - apply Forall_forall. intros x Hx. apply repeat_spec in Hx. exact Hx.
  - apply repeat_length.
Qed.

(** The effect's input of the example network, before any update. *)
Lemma getBuffer_no_data_is_silence_witness :
  SynthInput_hasData example_store 0%nat = false /\
  SynthInput_getBuffer example_store 0%nat None =
    Returned (Some SYNTH_ZERO_BUF).
Proof.
  destruct (@getBuffer_no_data_is_silence example_store 0%nat 0%nat None
              eq_refl eq_refl) as (H1 & H2 & _).
  split; [exact H1|]. apply H2. reflexivity.
Defined.


(** *** Output flags *)

Lemma hasData_set_hasData (st : store) (o o' : OutputId) (b : bool) :
  hasData (output (set_hasData o b st) o') =
  if (o' =? o)%nat then b else hasData (output st o').
Proof. cbn. destruct (o' =? o)%nat; reflexivity. Qed.

Lemma getBuffer_returns (st : store) (o : OutputId) (chanIdx : option nat)
  (buf : option buffer) (st' : store) :
  SynthOutput_getBuffer st o chanIdx = Returned (buf, st') ->
  st' = set_hasData o true st.
Proof.
  unfold SynthOutput_getBuffer.
  destruct (negb (is_undefined chanIdx && _)); cbn; [|discriminate].
  intros H. inversion H. reflexivity.
Qed.

(** The flags after a sequence of [getBuffer] calls that all return. *)
Lemma calls_flags (calls : list (OutputId * option nat)) (st st' : store) :
  for_each (fun st call =>
              r <- SynthOutput_getBuffer st (fst call) (snd call) ;;
              Returned (snd r)) calls st = Returned st' ->
  node_outputs st' = node_outputs st /\
  input st' = input st /\
  (forall o, out_node (output st' o) = out_node (output st o)) /\
  forall o, hasData (output st' o) = true <->
            hasData (output st o) = true \/ In o (map fst calls).
Proof.
  revert st. induction calls as [|[o c] calls IH]; intros st; cbn.
  - intros H. inversion H. subst. repeat split; auto.
    intros [Hh|[]]. exact Hh.
  - destruct (SynthOutput_getBuffer st o c) as [[buf st1]|msg] eqn:E; cbn;
      [|discriminate].
    intros H. apply getBuffer_returns in E. subst st1.
    destruct (IH _ H) as (H1 & H2 & H3 & H4).
    split; [exact H1|]. split; [exact H2|]. split.
    + intros o'. rewrite H3. cbn. destruct (o' =? o)%nat; reflexivity.
    + intros o'. rewrite H4, hasData_set_hasData.
      destruct (o' =? o)%nat eqn:Eo.
      * apply Nat.eqb_eq in Eo. subst. tauto.
      * apply Nat.eqb_neq in Eo. split; [tauto|].
        intros [Hh|[He|Hi]]; [tauto|congruence|tauto].
Qed.

Lemma reset_flags (outs : list OutputId) (st : store) :
  let st' := fold_left (fun st o => set_hasData o false st) outs st in
  node_outputs st' = node_outputs st /\
  input st' = input st /\
  (forall o, out_node (output st' o) = out_node (output st o)) /\
  (forall o, In o outs -> hasData (output st' o) = false) /\
  (forall o, ~ In o outs -> hasData (output st' o) = hasData (output st o)).
Proof.
  revert st. induction outs as [|o1 outs IH]; intros st; cbn.
  - repeat split; auto. intros o [].
  - destruct (IH (set_hasData o1 false st)) as (H1 & H2 & H3 & H4 & H5).
    cbv zeta in *.
    split; [exact H1|]. split; [exact H2|]. split; [|split].
    + intros o. rewrite H3. cbn. destruct (o =? o1)%nat; reflexivity.
    + intros o Ho. destruct (in_dec Nat.eq_dec o outs) as [Hi|Hi];
        [apply H4, Hi|].
      rewrite (H5 o Hi), hasData_set_hasData.
      destruct Ho as [->|Ho]; [|contradiction].
      rewrite Nat.eqb_refl. reflexivity.
    + intros o Ho. rewrite H5 by tauto. rewrite hasData_set_hasData.
      replace (o =? o1)%nat with false; [reflexivity|].
      symmetry. apply Nat.eqb_neq. intros ->. apply Ho. left. reflexivity.
Qed.

Section Updates.

Variable update_calls :
  NodeId -> Q -> Q -> store -> list (OutputId * option nat).
Variables (time sampleRate : Q).

(** The updates call [getBuffer] on outputs of their own node only;
    [outs] is the layout of the output ports. *)
Variable outs : NodeId -> list OutputId.
Hypothesis own_outputs : forall node t r st o c,
  In (o, c) (update_calls node t r st) -> In o (outs node).

(** One iteration of [genOutput] on a node: afterwards an output of the
    node has its flag set exactly when the update called [getBuffer] on
    it, and the flags of the other outputs are as before. *)
Lemma update_node_flags (st st' : store) (node : NodeId) :
  node_outputs st = outs ->
  update_node update_calls time sampleRate st node = Returned st' ->
  node_outputs st' = node_outputs st /\
  input st' = input st /\
  (forall o, out_node (output st' o) = out_node (output st o)) /\
  (forall o, In o (node_outputs st node) ->
     (hasData (output st' o) = true <->
      exists c, In (o, c) (update_calls node time sampleRate
                                        (reset_outputs st node)))) /\
  (forall o, ~ In o (node_outputs st node) ->
     hasData (output st' o) = hasData (output st o)).
Proof.
  unfold update_node, node_update. intros Houts H.
  destruct (calls_flags _ _ H) as (H1 & H2 & H3 & H4).
  destruct (reset_flags (node_outputs st node) st)
    as (R1 & R2 & R3 & R4 & R5).
  cbv zeta in *. fold (reset_outputs st node) in *.
  split; [congruence|]. split; [congruence|].
  split; [intros o; rewrite H3; apply R3|].
  split.
  - intros o Ho. rewrite H4, (R4 o Ho), in_map_iff. split.
    + intros [Hf|((o' & c) & <- & Hin)]; [discriminate|]. eauto.
    + intros (c & Hin). right. exists (o, c). auto.
  - intros o Ho.
    assert (Hcalls : ~ In o (map fst (update_calls node time sampleRate
                                        (reset_outputs st node)))).
    { intros E. apply in_map_iff in E. destruct E as ((o' & c) & <- & Hin).
      apply own_outputs in Hin. rewrite <- Houts in Hin. contradiction. }
    specialize (H4 o). rewrite (R5 o Ho) in H4.
    destruct (hasData (output st' o)), (hasData (output st o)); try reflexivity.
    + destruct (proj1 H4 eq_refl) as [E|E]; [discriminate|contradiction].
    + pose proof (proj2 H4 (or_introl eq_refl)) as E. discriminate.
Qed.

(** The updates of nodes that do not own an output leave its flag. *)
Lemma update_nodes_flags (l : list NodeId) (st st' : store) :
  node_outputs st = outs ->
  for_each (update_node update_calls time sampleRate) l st = Returned st' ->
  node_outputs st' = node_outputs st /\
  input st' = input st /\
  (forall o, out_node (output st' o) = out_node (output st o)) /\
  (forall o, (forall n, In n l -> ~ In o (node_outputs st n)) ->
     hasData (output st' o) = hasData (output st o)).
Proof.
  revert st. induction l as [|n l IH]; intros st Houts; cbn.
  - intros H. inversion H. auto.
  - destruct (update_node update_calls time sampleRate st n) as [st1|msg]
      eqn:E; cbn; [|discriminate].
    intros H.
    destruct (@update_node_flags st st1 n Houts E) as (U1 & U2 & U3 & _ & U5).
    destruct (IH st1 (eq_trans U1 Houts) H) as (H1 & H2 & H3 & H4).
    split; [congruence|]. split; [congruence|].
    split; [intros o; rewrite H3; apply U3|].
    intros o Ho. rewrite H4, U5; [reflexivity|apply Ho; left; reflexivity|].
    intros n' Hn'. rewrite U1. apply Ho. right. exact Hn'.
Qed.

Lemma for_each_app_returned (A B : Type) (body : B -> A -> outcome B)
  (l1 l2 : list A) (b b' : B) :
  for_each body (l1 ++ l2) b = Returned b' ->
  exists b1, for_each body l1 b = Returned b1 /\
             for_each body l2 b1 = Returned b'.
Proof.
  rewrite for_each_app. destruct (for_each body l1 b) as [b1|msg]; cbn;
    [eauto|discriminate].
Qed.

End Updates.

(** C10: [SynthOutput.getBuffer] sets the [hasData] flag of the output and
    changes nothing else, whether or not samples are written afterwards;
    in [genOutput] a flag that was set is cleared only by the reset of the
    outputs of the node being updated; and so, within a block, an input
    of a node downstream of [U] in the ordering finds [hasData] set
    exactly when the update of [U] for this block called [getBuffer] on
    the source output. *)
Theorem getBuffer_marks_output
  (update_calls : NodeId -> Q -> Q -> store -> list (OutputId * option nat))
  (st : store)
  (Hown : forall node t r st' o c,
     In (o, c) (update_calls node t r st') -> In o (node_outputs st node))
  (Hports : forall n o,
     In o (node_outputs st n) -> out_node (output st o) = n) :
  (forall o chanIdx,
     is_undefined chanIdx && (1 <? out_numChans (output st o))%nat = false ->
     exists st',
       SynthOutput_getBuffer st o chanIdx =
         Returned (nth_error (buffers (output st o))
                             (match chanIdx with Some c => c | None => 0 end),
                   st') /\
       output st' o = set_hasData_field true (output st o) /\
       hasData (output st' o) = true /\
       buffers (output st' o) = buffers (output st o) /\
       (forall o', o' <> o -> output st' o' = output st o') /\
       input st' = input st /\ node_outputs st' = node_outputs st /\
       node_inputs st' = node_inputs st /\ inEdges st' = inEdges st) /\
  (forall time sampleRate node st' o,
     update_node update_calls time sampleRate st node = Returned st' ->
     hasData (output st o) = true -> hasData (output st' o) = false ->
     In o (node_outputs st node)) /\
  (forall net time pre U mid D post st_end out,
     order net = Some (pre ++ U :: mid ++ D :: post) ->
     NoDup (pre ++ U :: mid ++ D :: post) ->
     genOutput update_calls st net time = Returned (st_end, out) ->
     exists st_pre st_mid,
       for_each (update_node update_calls time (sampleRate net)) pre st =
         Returned st_pre /\
       for_each (update_node update_calls time (sampleRate net))
                (pre ++ U :: mid) st = Returned st_mid /\
       forall i o,
         In i (node_inputs st D) -> src (input st i) = Some o ->
         In o (node_outputs st U) ->
         (SynthInput_hasData (reset_outputs st_mid D) i = true <->
          exists c, In (o, c) (update_calls U time (sampleRate net)
                                            (reset_outputs st_pre U)))).
Proof.
  split; [|split].
  - intros o chanIdx Hc. exists (set_hasData o true st).
    unfold SynthOutput_getBuffer. rewrite Hc. cbn.
    rewrite Nat.eqb_refl. cbn. repeat split; try reflexivity.
    intros o' Hne. apply Nat.eqb_neq in Hne. rewrite Hne. reflexivity.
  - intros time sampleRate node st' o Hu Ht Hf.
    destruct (in_dec Nat.eq_dec o (node_outputs st node)) as [Hi|Hi];
      [exact Hi|].
    destruct (@update_node_flags update_calls time sampleRate
                (node_outputs st) Hown st st' node eq_refl Hu)
      as (_ & _ & _ & _ & H5).
    rewrite (H5 o Hi) in Hf. congruence.
  - intros net time pre U mid D post st_end out Hord Hnd Hgen.
    unfold genOutput in Hgen. rewrite Hord in Hgen. cbn [is_undefined negb
      assert bind] in Hgen.
    destruct (outNode net) as [outN|]; cbn in Hgen; [|discriminate].
    set (upd := update_node update_calls time (sampleRate net)) in *.
    destruct (for_each upd (pre ++ U :: mid ++ D :: post) st)
      as [st_all|msg] eqn:Eall; cbn in Hgen; [|discriminate].
    apply for_each_app_returned in Eall.
    destruct Eall as (st_pre & Epre & Erest). cbn [for_each] in Erest.
    destruct (upd st_pre U) as [st_U|msg] eqn:EU; cbn in Erest;
      [|discriminate].
    apply for_each_app_returned in Erest.
    destruct Erest as (st_mid & Emid & _).
    exists st_pre, st_mid. split; [exact Epre|]. split.
    { rewrite for_each_app, Epre. cbn [bind for_each]. rewrite EU. exact Emid. }
    intros i o Hi Hs Ho.
    destruct (@update_nodes_flags update_calls time (sampleRate net)
                (node_outputs st) Hown pre st st_pre eq_refl Epre)
      as (P1 & P2 & P3 & _).
    destruct (@update_node_flags update_calls time (sampleRate net)
                (node_outputs st) Hown st_pre st_U U P1 EU)
      as (U1 & U2 & U3 & U4 & _).
    destruct (@update_nodes_flags update_calls time (sampleRate net)
                (node_outputs st) Hown mid st_U st_mid
                (eq_trans U1 P1) Emid)
      as (M1 & M2 & M3 & M4).
    destruct (reset_flags (node_outputs st_mid D) st_mid)
      as (R1 & R2 & _ & _ & R5).
    cbv zeta in *. fold (reset_outputs st_mid D) in *.
    assert (HUD : U <> D).
    { intros ->. apply NoDup_remove_2 in Hnd. apply Hnd.
      apply in_or_app. right. apply in_or_app. right. left. reflexivity. }
    assert (HUmid : ~ In U mid).
    { intros Hin. apply NoDup_remove_2 in Hnd. apply Hnd.
      apply in_or_app. right. apply in_or_app. left. exact Hin. }
    assert (Hother : forall n, n <> U -> ~ In o (node_outputs st n)).
    { intros n Hn Hin. apply Hports in Hin. apply Hports in Ho. congruence. }
    unfold SynthInput_hasData. rewrite R2, M2, U2, P2, Hs.
    rewrite R5.
    2:{ rewrite M1, U1, P1. apply Hother. congruence. }
    rewrite M4.
    2:{ intros n Hn. rewrite U1, P1. apply Hother. intros ->. contradiction. }
    rewrite <- (U4 o); [reflexivity|]. rewrite P1. exact Ho.
Qed.

(** In the example network the instrument calls [getBuffer], so the
    effect's input finds data. *)
Lemma getBuffer_marks_output_witness :
  exists st_pre st_mid,
    for_each (update_node example_update_calls 0 44100) [] example_store =
      Returned st_pre /\
    for_each (update_node example_update_calls 0 44100) [0%nat] example_store =
      Returned st_mid /\
    SynthInput_hasData (reset_outputs st_mid 1%nat) 0%nat = true.
Proof.
  assert (Hown : forall node t r st' o c,
            In (o, c) (example_update_calls node t r st') ->
            In o (node_outputs example_store node)).
  { intros [|[|node]] t r st' o c; cbn.
    - intros [H|[]]. inversion H. auto.
    - destruct (SynthInput_hasData st' 0%nat); cbn; [|tauto].
      intros [H|[]]. inversion H. auto.
    - tauto. }
  assert (Hports : forall n o, In o (node_outputs example_store n) ->
                               out_node (output example_store o) = n).
  { intros [|[|n]] o; cbn; intuition; subst; reflexivity. }
  assert (Hgen : exists st_end,
            genOutput example_update_calls example_store
                      (set_order (Some [0; 1; 2]%nat) example_net) 0 =
            Returned (st_end, Some 2%nat)).
  { eexists. reflexivity. }
  destruct Hgen as [st_end Hgen].
  destruct (proj2 (proj2 (getBuffer_marks_output example_update_calls
                            example_store Hown Hports))
              (set_order (Some [0; 1; 2]%nat) example_net) 0
              [] 0%nat [] 1%nat [2%nat] st_end (Some 2%nat))
    as (st_pre & st_mid & Epre & Emid & Hobs).
  - reflexivity.
  - repeat constructor; cbn; intuition discriminate.
  - exact Hgen.
  - exists st_pre, st_mid. split; [exact Epre|]. split; [exact Emid|].
    apply (Hobs 0%nat 0%nat); cbn; auto.
    exists (Some 0%nat). left. reflexivity.
Defined.

End SynthFacts.

Module VAnalogFacts.

Import Music Timeline Envelope VAnalog JsFacts.
#[local] Open Scope Q_scope.

(** *** Note-on for an active note *)

Lemma find_note_app (n : Note) (pre post : list VNote) (state : VNote) :
  (forall s, In s pre -> note s <> n) -> note state = n ->
  find_note n (pre ++ state :: post) = Some (List.length pre, state).
Proof.
  intros Hpre Hn. induction pre as [|s pre IH]; cbn.
  - rewrite Hn, Z.eqb_refl. reflexivity.
  - replace (note s =? n)%Z with false.
    2:{ symmetry. apply Z.eqb_neq. apply Hpre. left. reflexivity. }
    rewrite IH; [reflexivity|]. intros s' Hs'. apply Hpre. right. exact Hs'.
Qed.

Lemma replace_at_app (A : Type) (pre post : list A) (x y : A) :
  replace_at (List.length pre) y (pre ++ x :: post) = pre ++ y :: post.
Proof.
  unfold replace_at.
  rewrite firstn_app, firstn_all, Nat.sub_diag. cbn [firstn].
  rewrite app_nil_r.
  replace (S (List.length pre)) with (List.length pre + 1)%nat by lia.
  rewrite skipn_app, skipn_all2 by lia.
  replace (List.length pre + 1 - List.length pre)%nat with 1%nat by lia.
  reflexivity.
Qed.

Lemma store_amps_set_onAmp (params : list OSC) (states : list OSCState)
  (time onT offT : Q) :
  List.length states = List.length params ->
  store_amps set_onAmp params states time onT offT =
  Returned (map (fun ps => set_onAmp
                             (getValue (env (fst ps)) time onT offT
                                       (onAmp (snd ps)) (offAmp (snd ps)))
                             (snd ps))
                (combine params states)).
Proof.
  revert states. induction params as [|p params IH]; intros [|s states] Hl;
    cbn in *; try discriminate; try reflexivity.
  rewrite IH by lia. reflexivity.
Qed.

(** The envelope evaluated at the note-on time itself returns the stored
    on-amplitude when the attack takes time and its curve exponent is not
    0: the attack starts from that amplitude. *)
Lemma getValue_at_onTime (e : ADSREnv) (time amp offA : Q) :
  lt_dur 0 (a e) = true -> (0 < aExp e)%N ->
  getValue e time time 0 amp offA == amp.
Proof.
  intros Ha He. unfold getValue.
  replace (Qeq_bool 0 0) with true by reflexivity.
  assert (H0 : time - time == 0) by ring.
  assert (Hlt : lt_dur (time - time) (a e) = true).
  { destruct (a e) as [qa|]; [|reflexivity]. cbn in *.
    apply Qltb_lt. apply Qltb_lt in Ha. lra. }
  rewrite Hlt.
  assert (Hx : div_dur (time - time) (a e) == 0).
  { destruct (a e) as [qa|]; cbn; [|reflexivity]. rewrite H0.
    unfold Qdiv. ring. }
  unfold interp, Math_pow.
  destruct (Qltb amp 1).
  - rewrite Hx. rewrite Qpower_0 by lia. ring.
  - rewrite Hx. setoid_replace (1 - 0) with 1 by ring.
    rewrite Qpower_1. ring.
Qed.

(** C4: a NoteOn for a note that already has an active voice stores, in
    the on-amplitude of every oscillator state, the oscillator's amplitude
    envelope at the time [time] at which the event is processed, under
    the voice's previous on-time, off-time and amplitudes, and likewise
    the filter and pitch envelope values; it then sets the on-time to
    [time], the off-time to 0 and the velocity to the event's velocity.
    Evaluated at [time] under the new state, an oscillator's envelope
    is the stored on-amplitude, so the new attack resumes from the
    amplitude reached at the retrigger. *)
Theorem processEvent_retrigger (va : VAnalog) (pre post : list VNote)
  (state : VNote) (evtTime velocity time : Q) (n : Note)
  (Hnotes : actNotes va = pre ++ state :: post)
  (Hpre : forall s, In s pre -> note s <> n)
  (Hnote : note state = n)
  (Hoscs : List.length (note_oscs state) = List.length (oscs va)) :
  let state' :=
    {| note := note state;
       vel := velocity;
       onTime := time;
       offTime := 0;
       note_oscs := retriggered_oscs va state time;
       filterSt := filterSt state;
       filterOnEnv := getValue (filterEnv va) time (onTime state)
                        (offTime state) (filterOnEnv state)
                        (filterOffEnv state);
       filterOffEnv := filterOffEnv state;
       pitchOnEnv := getValue (pitchEnv va) time (onTime state)
                       (offTime state) (pitchOnEnv state)
                       (pitchOffEnv state);
       pitchOffEnv := pitchOffEnv state |} in
  processEvent va (NoteOnEvt evtTime n velocity) time =
    Returned (set_actNotes (pre ++ state' :: post) va) /\
  (forall k oscParams oscState,
     nth_error (oscs va) k = Some oscParams ->
     nth_error (note_oscs state) k = Some oscState ->
     exists oscState',
       nth_error (note_oscs state') k = Some oscState' /\
       onAmp oscState' =
         getValue (env oscParams) time (onTime state) (offTime state)
                  (onAmp oscState) (offAmp oscState) /\
       offAmp oscState' = offAmp oscState /\
       (lt_dur 0 (a (env oscParams)) = true ->
        (0 < aExp (env oscParams))%N ->
        getValue (env oscParams) time (onTime state') (offTime state')
                 (onAmp oscState') (offAmp oscState') == onAmp oscState')).
Proof.
  cbv zeta. split.
  - unfold processEvent. rewrite Hnotes, (@find_note_app n pre post state Hpre Hnote).
    unfold note_on_again. rewrite store_amps_set_onAmp by exact Hoscs.
    cbn [bind]. rewrite replace_at_app. reflexivity.
  - intros k oscParams oscState Hp Hs. cbn [note_oscs onTime offTime].
    unfold retriggered_oscs.
    eexists. split.
    + apply map_nth_error. 
      assert (Hc : nth_error (combine (oscs va) (note_oscs state)) k =
                   Some (oscParams, oscState)).
      { clear - Hp Hs. revert k Hp Hs.
        generalize (oscs va) (note_oscs state).
        induction l as [|p l IH]; intros [|s l0] [|k]; cbn; intros Hp Hs;
          try discriminate.
        - inversion Hp. inversion Hs. reflexivity.
        - apply IH; assumption. }
      exact Hc.
    + cbn [fst snd set_onAmp onAmp offAmp]. split; [reflexivity|].
      split; [reflexivity|]. intros Ha He.
      apply getValue_at_onTime; assumption.
Qed.

(** A voice with an attack of 0.1 s and a release of 1 s, released at
    amplitude 0.4 and retriggered 0.01 s into its release, resumes from
    0.4 * 0.99^2 = 0.39204. *)
Lemma processEvent_retrigger_witness :
  let osc :=
    {| osc_type := "sine"; duty := 1 # 2; detune := 0;
       env := new_ADSREnv (Finite (1 # 10)) (Finite (1 # 20)) (1 # 5)
                          (Finite 1);
       volume := 1; sync := false; syncDetune := 0 |} in
  let state :=
    {| note := 60%Z; vel := 1; onTime := 0; offTime := 1;
       note_oscs := [{| cyclePos := 0; syncCyclePos := 0;
                        onAmp := 0; offAmp := 4 # 10 |}];
       filterSt := repeat 0 8;
       filterOnEnv := 0; filterOffEnv := 1;
       pitchOnEnv := 0; pitchOffEnv := 1 |} in
  let va :=
    {| oscs := [osc]; cutoff := 1; resonance := 0;
       filterEnv := new_ADSREnv (Finite 0) (Finite 0) 1 Infinity;
       filterEnvAmt := 1;
       pitchEnv := new_ADSREnv (Finite 0) (Finite 0) 1 Infinity;
       pitchEnvAmt := 0;
       actNotes := [state] |} in
  exists state' oscState',
    processEvent va (NoteOnEvt 2 60%Z (1 # 2)) (101 # 100) =
      Returned (set_actNotes [state'] va) /\
    onTime state' = 101 # 100 /\ offTime state' = 0 /\
    vel state' = 1 # 2 /\
    note_oscs state' = [oscState'] /\ onAmp oscState' == 9801 # 25000.
Proof.
  intros osc state va.
  assert (Hpre : forall s : VNote, In s [] -> note s <> 60%Z)
    by (intros s []).
  destruct (@processEvent_retrigger va [] [] state 2 (1 # 2) (101 # 100)
              60%Z eq_refl Hpre eq_refl eq_refl) as [H _].
  eexists. eexists. split; [exact H|].
  cbn [onTime offTime vel note_oscs]. repeat split.
Defined.

(** *** The update of a block *)

Lemma oscs_loop_spec
  (gp : VAnalog -> Q -> OSC -> OSCState -> VNote -> Q -> Q * Q)
  (va : VAnalog) (time endTime sampleRate : Q) (state : VNote)
  (params : list OSC) (states : list OSCState) (m : Q) :
  List.length states = List.length params ->
  (forall p, In p params -> is_waveform (osc_type p) = true) ->
  oscs_loop gp va time endTime sampleRate state params states m =
  Returned
    (map (fun ps => set_positions
                      (gp va time (fst ps) (snd ps) state sampleRate) (snd ps))
         (combine params states)
     ++ skipn (List.length params) states,
     fold_left (fun m ps => Math_max m (ampEnd state endTime (fst ps) (snd ps)))
               (combine params states) m).
Proof.
  revert states m. induction params as [|p params IH];
    intros [|s states] m Hl Hw; cbn [List.length] in *;
    try discriminate; try reflexivity.
  cbn [oscs_loop]. rewrite (Hw p) by (left; reflexivity).
  rewrite IH; [reflexivity | lia | intros q Hq; apply Hw; right; exact Hq].
Qed.

(** An oscillator whose type is not a waveform stops the loop with the
    error of [genOsc], when the oscillators before it are sound. *)
Lemma oscs_loop_invalid_waveform
  (gp : VAnalog -> Q -> OSC -> OSCState -> VNote -> Q -> Q * Q)
  (va : VAnalog) (time endTime sampleRate : Q) (state : VNote)
  (pre post : list OSC) (p : OSC) (states : list OSCState) (m : Q) :
  List.length states = List.length (pre ++ p :: post) ->
  (forall q, In q pre -> is_waveform (osc_type q) = true) ->
  is_waveform (osc_type p) = false ->
  oscs_loop gp va time endTime sampleRate state (pre ++ p :: post) states m =
  Threw (String.append "invalid waveform: " (osc_type p)).
Proof.
  revert states m. induction pre as [|q pre IH]; intros [|s states] m Hl Hw Hp;
    cbn [List.length app] in *; try discriminate.
  - cbn [oscs_loop]. rewrite Hp. reflexivity.
  - cbn [oscs_loop]. rewrite (Hw q) by (left; reflexivity).
    rewrite IH; [reflexivity | lia | intros q' Hq'; apply Hw; right; exact Hq'
                | exact Hp].
Qed.

Section Update.

Variable gp : VAnalog -> Q -> OSC -> OSCState -> VNote -> Q -> Q * Q.
Variable ar : VAnalog -> Q -> Q -> VNote -> Q * Q.
Variables (va : VAnalog) (time sampleRate : Q).
Hypothesis Hcutoff : 0 <= cutoff va /\ cutoff va <= 1.
Hypothesis Hresonance : 0 <= resonance va /\ resonance va <= 1.
Hypothesis Hwaveforms :
  forall p, In p (oscs va) -> is_waveform (osc_type p) = true.

Lemma applyFilter_asserts_pass : applyFilter_asserts va = Returned tt.
Proof.
  unfold applyFilter_asserts.
  destruct Hcutoff as [H1 H2], Hresonance as [H3 H4].
  apply Qle_bool_iff in H1, H2, H3, H4. rewrite H1, H2, H3, H4. reflexivity.
Qed.

Lemma update_note_spec (state : VNote) :
  List.length (note_oscs state) = List.length (oscs va) ->
  update_note gp ar va time (endTime_of time sampleRate) sampleRate state =
  Returned (updated_note gp ar va time sampleRate state,
            Qeq_bool (maxEndAmp_of va (endTime_of time sampleRate) state) 0).
Proof.
  intros Hl. unfold update_note.
  rewrite oscs_loop_spec by (exact Hl || exact Hwaveforms).
  cbn [bind]. rewrite applyFilter_asserts_pass. reflexivity.
Qed.

Lemma notes_loop_spec (notes : list VNote) :
  (forall s, In s notes ->
             List.length (note_oscs s) = List.length (oscs va)) ->
  notes_loop gp ar va time (endTime_of time sampleRate) sampleRate notes =
  Returned
    (map (updated_note gp ar va time sampleRate)
         (filter (fun s => negb (Qeq_bool
                   (maxEndAmp_of va (endTime_of time sampleRate) s) 0))
                 notes)).
Proof.
  induction notes as [|s notes IH]; intros Hl; cbn [notes_loop];
    [reflexivity|].
  rewrite update_note_spec by (apply Hl; left; reflexivity).
  cbn [bind]. rewrite IH by (intros s' Hs'; apply Hl; right; exact Hs').
  cbn [bind fst snd filter].
  destruct (Qeq_bool _ 0); reflexivity.
Qed.

End Update.

(** The maximum accumulated from a non-negative start is 0 exactly when
    the start is 0 and no value is positive. *)
Lemma fold_max_zero (A : Type) (f : A -> Q) (l : list A) (m : Q) :
  0 <= m ->
  (fold_left (fun m x => Math_max m (f x)) l m == 0 <->
   m == 0 /\ Forall (fun x => f x <= 0) l).
Proof.
  revert m. induction l as [|x l IH]; intros m Hm; cbn.
  - split; [intros H; split; [exact H|constructor]|tauto].
  - assert (Hmax : 0 <= Math_max m (f x)).
    { unfold Math_max. destruct (Qle_bool m (f x)) eqn:E; [|exact Hm].
      apply Qle_bool_iff in E. lra. }
    rewrite (IH _ Hmax). unfold Math_max.
    destruct (Qle_bool m (f x)) eqn:E.
    + apply Qle_bool_iff in E. split.
      * intros [H0 HF]. split; [lra|]. constructor; [lra|exact HF].
      * intros [H0 HF]. inversion HF; subst. split; [lra|assumption].
    + assert (Hlt : f x < m).
      { apply Qnot_le_lt. intros Hle. apply Qle_bool_iff in Hle. congruence. }
      split.
      * intros [H0 HF]. split; [exact H0|]. constructor; [lra|exact HF].
      * intros [H0 HF]. inversion HF; subst. split; assumption.
Qed.

Lemma maxEndAmp_zero_iff (va : VAnalog) (endTime : Q) (state : VNote) :
  0 < vel state -> (forall p, In p (oscs va) -> 0 < volume p) ->
  (maxEndAmp_of va endTime state == 0 <->
   max_end_envelope va endTime state == 0).
Proof.
  intros Hv Hvol. unfold maxEndAmp_of, max_end_envelope.
  rewrite (@fold_max_zero _ (fun ps => ampEnd state endTime (fst ps) (snd ps)))
    by lra.
  rewrite (@fold_max_zero _
             (fun ps => getValue (env (fst ps)) endTime (onTime state)
                                 (offTime state) (onAmp (snd ps))
                                 (offAmp (snd ps)))) by lra.
  rewrite !Forall_forall.
  split; intros [H0 H]; (split; [exact H0|]); intros ps Hps;
    specialize (H ps Hps); unfold ampEnd in *;
    assert (Hc : 0 < vel state * volume (fst ps))
      by (apply Qmult_lt_0_compat;
          [exact Hv|apply Hvol; destruct ps; apply (in_combine_l _ _ _ _ Hps)]);
    nra.
Qed.

(** C7 (as stated) fails for a note played with velocity 0: at the end of
    its first block the envelope of its oscillator is in its attack,
    above 0, yet the end amplitude, scaled by the velocity, is 0 and the
    voice is removed. *)
Lemma update_removes_zero_velocity_note :
  let state := new_VNote (new_VAnalog 1) 60%Z 0 0 in
  let va := set_actNotes [state] (new_VAnalog 1) in
  update example_positions example_registers va 0 44100 =
    Returned (set_actNotes [] va) /\
  0 < max_end_envelope va (endTime_of 0 44100) state /\
  ~ max_end_envelope va (endTime_of 0 44100) state == 0.
Proof.
  cbv zeta. split; [reflexivity|]. split.
  - reflexivity.
  - vm_compute. discriminate.
Qed.

(** C7 (amended): on a node whose oscillator types are waveforms, whose
    filter cutoff and resonance are between 0 and 1 and whose voices have
    one state per oscillator, at a sample rate that is not 0, the update
    of a block keeps, in order, the voices whose maximum end-of-block
    amplitude, velocity times volume times envelope accumulated from 0
    over the oscillators, is not 0, and removes the others; for a voice
    with positive velocity, when the oscillator volumes are positive,
    that amplitude is 0 exactly when no oscillator of the voice has an
    envelope amplitude above 0 at the end of the block. *)
Theorem update_removes_silent_notes
  (genOsc_positions : VAnalog -> Q -> OSC -> OSCState -> VNote -> Q -> Q * Q)
  (applyFilter_registers : VAnalog -> Q -> Q -> VNote -> Q * Q)
  (va : VAnalog) (time sampleRate : Q)
  (Hrate : ~ sampleRate == 0)
  (Hcutoff : 0 <= cutoff va /\ cutoff va <= 1)
  (Hresonance : 0 <= resonance va /\ resonance va <= 1)
  (Hwaveforms : forall p, In p (oscs va) -> is_waveform (osc_type p) = true)
  (Hsized : forall s, In s (actNotes va) ->
              List.length (note_oscs s) = List.length (oscs va)) :
  let endTime := endTime_of time sampleRate in
  update genOsc_positions applyFilter_registers va time sampleRate =
    Returned
      (set_actNotes
         (map (updated_note genOsc_positions applyFilter_registers va time
                            sampleRate)
              (filter (fun s => negb (Qeq_bool (maxEndAmp_of va endTime s) 0))
                      (actNotes va)))
         va) /\
  (forall s, Qeq_bool (maxEndAmp_of va endTime s) 0 = true <->
             maxEndAmp_of va endTime s == 0) /\
  (forall s, 0 < vel s -> (forall p, In p (oscs va) -> 0 < volume p) ->
     (maxEndAmp_of va endTime s == 0 <->
      forall oscParams oscState,
        In (oscParams, oscState) (combine (oscs va) (note_oscs s)) ->
        getValue (env oscParams) endTime (onTime s) (offTime s)
                 (onAmp oscState) (offAmp oscState) <= 0)).
Proof.
  cbv zeta. split; [|split].
  - unfold update. destruct (actNotes va) as [|s notes] eqn:E.
    + cbn. destruct va; cbn in *. subst. reflexivity.
    + cbn [List.length Nat.eqb].
      rewrite (@notes_loop_spec genOsc_positions applyFilter_registers va
                 time sampleRate Hcutoff Hresonance Hwaveforms (s :: notes)).
      * reflexivity.
      * exact Hsized.
  - intros s. apply Qeq_bool_iff.
  - intros s Hv Hvol.
    rewrite (@maxEndAmp_zero_iff va _ s Hv Hvol). unfold max_end_envelope.
    rewrite (@fold_max_zero _
               (fun ps => getValue (env (fst ps)) (endTime_of time sampleRate)
                                   (onTime s) (offTime s) (onAmp (snd ps))
                                   (offAmp (snd ps)))) by lra.
    rewrite Forall_forall. split.
    + intros [_ H] oscParams oscState Hin. exact (H _ Hin).
    + intros H. split; [reflexivity|]. intros [oscParams oscState] Hin.
      exact (H _ _ Hin).
Qed.

(** A held voice in its attack is kept and a voice whose release ended
    is removed. *)
Lemma update_removes_silent_notes_witness :
  let held := new_VNote (new_VAnalog 1) 60%Z 1 0 in
  let released :=
    {| note := 62%Z; vel := 1; onTime := 0; offTime := 1;
       note_oscs := [{| cyclePos := 0; syncCyclePos := 0;
                        onAmp := 0; offAmp := 1 # 5 |}];
       filterSt := repeat 0 8;
       filterOnEnv := 0; filterOffEnv := 1;
       pitchOnEnv := 0; pitchOffEnv := 1 |} in
  let va := set_actNotes [released; held] (new_VAnalog 1) in
  exists va',
    update example_positions example_registers va 2 44100 = Returned va' /\
    map note (actNotes va') = [60%Z] /\
    getValue (env new_OSC) (endTime_of 2 44100) 0 1 0 (1 # 5) <= 0.
Proof.
  intros held released va.
  assert (Hrate : ~ 44100 == 0) by discriminate.
  assert (Hcutoff : 0 <= cutoff va /\ cutoff va <= 1)
    by (split; cbn; discriminate).
  assert (Hresonance : 0 <= resonance va /\ resonance va <= 1)
    by (split; cbn; discriminate).
  assert (Hwaveforms : forall p, In p (oscs va) ->
            is_waveform (osc_type p) = true).
  { intros p [<-|[]]. reflexivity. }
  assert (Hsized : forall s, In s (actNotes va) ->
            List.length (note_oscs s) = List.length (oscs va)).
  { intros s [<-|[<-|[]]]; reflexivity. }
  destruct (@update_removes_silent_notes example_positions example_registers
              va 2 44100 Hrate Hcutoff Hresonance Hwaveforms Hsized)
    as (Hu & _ & Hiff).
  cbv zeta in *. eexists. split; [exact Hu|]. split; [reflexivity|].
  assert (Hvel : 0 < vel released) by reflexivity.
  assert (Hvol : forall p, In p (oscs va) -> 0 < volume p).
  { intros p [<-|[]]. reflexivity. }
  assert (Hzero : maxEndAmp_of va (endTime_of 2 44100) released == 0)
    by reflexivity.
  apply (proj1 (Hiff released Hvel Hvol) Hzero new_OSC
               {| cyclePos := 0; syncCyclePos := 0;
                  onAmp := 0; offAmp := 1 # 5 |}).
  left. reflexivity.
Defined.

End VAnalogFacts.

(** ** envelope: range and continuity *)

Module EnvelopeRange.

Import Envelope JsFacts.
#[local] Open Scope Q_scope.

(** A power of a number of the unit interval is in the unit interval. *)
Lemma Math_pow_unit (x : Q) (e : N) :
  0 <= x <= 1 -> 0 <= Math_pow x e <= 1.
Proof.
  intros [H0 H1]. unfold Math_pow. split.
  - apply Qpower_0_le. exact H0.
  - induction e as [|e IH] using N.peano_ind.
    + cbn. lra.
    + rewrite N2Z.inj_succ. unfold Z.succ.
      rewrite Qpower_plus' by lia.
      assert (Hp : 0 <= x ^ Z.of_N e) by (apply Qpower_0_le; exact H0).
      change (x ^ 1) with x. nra.
Qed.

(** [interp] stays between its two end values when [x] is in the unit
    interval. *)
Lemma interp_between (x yL yR : Q) (e : N) :
  0 <= x <= 1 ->
  (yL <= yR -> yL <= interp x yL yR e <= yR) /\
  (yR <= yL -> yR <= interp x yL yR e <= yL).
Proof.
  intros Hx. unfold interp.
  destruct (Qltb yL yR) eqn:E.
  - apply Qltb_lt in E.
    pose proof (Math_pow_unit e Hx) as [Hp0 Hp1].
    split; intros H; split; nra.
  - apply Qltb_ge in E.
    assert (Hx' : 0 <= 1 - x <= 1) by (split; lra).
    pose proof (Math_pow_unit e Hx') as [Hp0 Hp1].
    split; intros H; split; nra.
Qed.

(** The progress through a segment that has begun and is not over is in
    the unit interval. *)
Lemma div_dur_unit (t : Q) (dur : duration) :
  0 <= t -> lt_dur t dur = true -> 0 <= div_dur t dur <= 1.
Proof.
  intros Ht Hlt. destruct dur as [q|]; cbn in *.
  - apply Qltb_lt in Hlt.
    assert (Hq : 0 < q) by lra.
    split.
    + apply Qle_shift_div_l; [exact Hq | lra].
    + apply Qle_shift_div_r; [exact Hq | lra].
  - lra.
Qed.

(** Once the attack is over and the decay is not, the time into the decay
    is below its length. *)
Lemma decay_progress (t : Q) (a d : duration) :
  lt_dur t a = false -> lt_dur t (add_dur a d) = true ->
  0 <= sub_dur t a /\ lt_dur (sub_dur t a) d = true.
Proof.
  intros Ha Hd. destruct a as [qa|]; cbn in *; [|discriminate].
  apply Qltb_ge in Ha.
  destruct d as [qd|]; cbn in *.
  - apply Qltb_lt in Hd. split; [lra|]. apply Qltb_lt. lra.
  - split; [lra | reflexivity].
Qed.

(** X1.  The envelope value is an amplitude between 0 and 1: for curve
    exponents that are whole numbers and not negative, when the sustain
    level and the amplitudes stored at the last note-on and note-off are
    between 0 and 1, and the time asked for is not before the note-on
    (held note) or the note-off (released note), [getValue] returns a
    number between 0 and 1, whatever the segment lengths are and
    whichever such exponents are used. *)
Theorem getValue_unit_range (env : ADSREnv)
  (curTime onTime offTime onAmp offAmp : Q)
  (Hs : 0 <= s env <= 1)
  (HonAmp : 0 <= onAmp <= 1)
  (HoffAmp : 0 <= offAmp <= 1)
  (Hheld : offTime == 0 -> onTime <= curTime)
  (Hreleased : ~ offTime == 0 -> offTime <= curTime) :
  0 <= getValue env curTime onTime offTime onAmp offAmp <= 1.
Proof.
  unfold getValue.
  destruct (Qeq_bool offTime 0) eqn:Eoff.
  - apply Qeq_bool_iff in Eoff. specialize (Hheld Eoff).
    assert (Hnt : 0 <= curTime - onTime) by lra.
    destruct (lt_dur (curTime - onTime) (a env)) eqn:Ea.
    + pose proof (div_dur_unit _ Hnt Ea) as Hx.
      destruct (interp_between onAmp 1 (aExp env) Hx) as [Hup _].
      specialize (Hup (proj2 HonAmp)). lra.
    + destruct (lt_dur (curTime - onTime) (add_dur (a env) (d env))) eqn:Ed.
      * destruct (decay_progress _ _ _ Ea Ed) as [Hsub Hlt].
        pose proof (div_dur_unit _ Hsub Hlt) as Hx.
        destruct (interp_between 1 (s env) (dExp env) Hx) as [_ Hdown].
        specialize (Hdown (proj2 Hs)). lra.
      * exact Hs.
  - assert (Hne : ~ offTime == 0).
    { intros H. apply Qeq_bool_iff in H. congruence. }
    specialize (Hreleased Hne).
    assert (Hrt : 0 <= curTime - offTime) by lra.
    destruct (lt_dur (curTime - offTime) (r env)) eqn:Er.
    + pose proof (div_dur_unit _ Hrt Er) as Hx.
      destruct (interp_between offAmp 0 (rExp env) Hx) as [_ Hdown].
      specialize (Hdown (proj1 HoffAmp)). lra.
    + lra.
Qed.

Lemma getValue_unit_range_witness :
  0 <= getValue (new_ADSREnv (Finite (1 # 20)) (Finite (1 # 20)) (1 # 5)
                             (Finite (1 # 10)))
                (7 # 100) 0 0 0 0 <= 1.
Proof.
  apply getValue_unit_range; cbn; lra.
Defined.

(** *** The segments meet *)

Lemma interp_at_0 (x yL yR : Q) (e : N) :
  x == 0 -> (0 < e)%N -> interp x yL yR e == yL.
Proof.
  intros Hx He. unfold interp, Math_pow.
  destruct (Qltb yL yR).
  - rewrite Hx. rewrite Qpower_0 by lia. ring.
  - setoid_replace (1 - x) with 1 by (rewrite Hx; ring).
    rewrite Qpower_1. ring.
Qed.

Lemma interp_at_1 (x yL yR : Q) (e : N) :
  x == 1 -> (0 < e)%N -> interp x yL yR e == yR.
Proof.
  intros Hx He. unfold interp, Math_pow.
  destruct (Qltb yL yR).
  - rewrite Hx. rewrite Qpower_1. ring.
  - setoid_replace (1 - x) with 0 by (rewrite Hx; ring).
    rewrite Qpower_0 by lia. ring.
Qed.

Lemma Qltb_false_intro (x y : Q) : y <= x -> Qltb x y = false.
Proof. intros H. apply Qltb_ge. exact H. Qed.

Lemma Qltb_true_intro (x y : Q) : x < y -> Qltb x y = true.
Proof. intros H. apply Qltb_lt. exact H. Qed.

(** X2.  The envelope has no jump where its segments meet.  For
    an envelope whose attack, decay and release take a positive finite
    time and whose curve exponents are not 0: the attack starts at the
    stored on-amplitude and ends at 1, where the decay starts; the decay
    ends at the sustain level, which is the value from then on; the
    release starts at the stored off-amplitude and ends at 0, which is
    the value from then on. *)
Theorem getValue_segments_meet (env : ADSREnv) (qa qd qr : Q)
  (onTime offTime onAmp offAmp : Q)
  (Ha : a env = Finite qa) (Hd : d env = Finite qd) (Hr : r env = Finite qr)
  (Hqa : 0 < qa) (Hqd : 0 < qd) (Hqr : 0 < qr)
  (HaExp : (0 < aExp env)%N) (HdExp : (0 < dExp env)%N)
  (HrExp : (0 < rExp env)%N)
  (Hoff : ~ offTime == 0) :
  getValue env onTime onTime 0 onAmp offAmp == onAmp /\
  interp 1 onAmp 1 (aExp env) == 1 /\
  getValue env (onTime + qa) onTime 0 onAmp offAmp == 1 /\
  interp 1 1 (s env) (dExp env) == s env /\
  getValue env (onTime + qa + qd) onTime 0 onAmp offAmp == s env /\
  getValue env offTime onTime offTime onAmp offAmp == offAmp /\
  interp 1 offAmp 0 (rExp env) == 0 /\
  getValue env (offTime + qr) onTime offTime onAmp offAmp == 0.
Proof.
  assert (Hne : Qeq_bool offTime 0 = false).
  { destruct (Qeq_bool offTime 0) eqn:E; [|reflexivity].
    apply Qeq_bool_iff in E. contradiction. }
  repeat split.
  - unfold getValue. replace (Qeq_bool 0 0) with true by reflexivity.
    rewrite Ha. cbn [lt_dur div_dur].
    rewrite Qltb_true_intro by lra.
    apply interp_at_0; [field; lra | exact HaExp].
  - apply interp_at_1; [reflexivity | exact HaExp].
  - unfold getValue. replace (Qeq_bool 0 0) with true by reflexivity.
    rewrite Ha, Hd. cbn [lt_dur div_dur add_dur sub_dur].
    rewrite Qltb_false_intro by lra.
    rewrite Qltb_true_intro by lra.
    apply interp_at_0; [field; lra | exact HdExp].
  - apply interp_at_1; [reflexivity | exact HdExp].
  - unfold getValue. replace (Qeq_bool 0 0) with true by reflexivity.
    rewrite Ha, Hd. cbn [lt_dur div_dur add_dur sub_dur].
    rewrite Qltb_false_intro by lra.
    rewrite Qltb_false_intro by lra.
    reflexivity.
  - unfold getValue. rewrite Hne, Hr. cbn [lt_dur div_dur].
    rewrite Qltb_true_intro by lra.
    apply interp_at_0; [field; lra | exact HrExp].
  - apply interp_at_1; [reflexivity | exact HrExp].
  - unfold getValue. rewrite Hne, Hr. cbn [lt_dur div_dur].
    rewrite Qltb_false_intro by lra.
    reflexivity.
Qed.

Lemma getValue_segments_meet_witness :
  let env := new_ADSREnv (Finite (1 # 20)) (Finite (1 # 20)) (1 # 5)
                         (Finite (1 # 10)) in
  getValue env ((1 # 2) + (1 # 20)) (1 # 2) 0 (3 # 10) 0 == 1 /\
  getValue env 2 (1 # 2) 2 0 (1 # 5) == 1 # 5.
Proof.
  cbv zeta. split.
  - apply (@getValue_segments_meet
             (new_ADSREnv (Finite (1 # 20)) (Finite (1 # 20)) (1 # 5)
                          (Finite (1 # 10)))
             (1 # 20) (1 # 20) (1 # 10) (1 # 2) 2 (3 # 10) 0
             eq_refl eq_refl eq_refl); (reflexivity || (cbn; lra)).
  - apply (@getValue_segments_meet
             (new_ADSREnv (Finite (1 # 20)) (Finite (1 # 20)) (1 # 5)
                          (Finite (1 # 10)))
             (1 # 20) (1 # 20) (1 # 10) (1 # 2) 2 0 (1 # 5)
             eq_refl eq_refl eq_refl); (reflexivity || (cbn; lra)).
Defined.

End EnvelopeRange.

(** ** music: names, the note table, consonance, scales *)

Module NotesFacts.

Import Music Notes MusicFacts.
#[local] Open Scope string_scope.
#[local] Open Scope Z_scope.

(** *** Names *)

Lemma getName_parsed_in_range :
  forallb (fun k => match nameToNo (getName (12 + Z.of_nat k)) with
                    | Returned m => m =? 12 + Z.of_nat k
                    | Threw _ => false
                    end)
          (seq 0 120) = true.
Proof. vm_compute. reflexivity. Qed.

(** X3.  The name of a note is parsed back to its number
    exactly for the numbers 12 to 131: [nameToNo (getName n)] returns [n]
    if and only if [12 <= n <= 131].  (Below 12 the octave number is
    negative and the name has no digit after the letter; from 132 on the
    octave number has two digits and only the first is read.) *)
Theorem getName_nameToNo (n : Z) :
  nameToNo (getName n) = Returned n <-> 12 <= n <= 131.
Proof.
  split.
  - apply nameToNo_range.
  - intros Hn.
    pose proof getName_parsed_in_range as H.
    rewrite forallb_forall in H.
    specialize (H (Z.to_nat (n - 12))).
    replace (12 + Z.of_nat (Z.to_nat (n - 12))) with n in H by lia.
    assert (Hin : In (Z.to_nat (n - 12)) (seq 0 120)).
    { apply in_seq. lia. }
    specialize (H Hin).
    destruct (nameToNo (getName n)) as [m|msg]; [|discriminate].
    apply Z.eqb_eq in H. congruence.
Qed.

(** *** The note table *)

Lemma empty_pool_ok : pool_ok empty_pool.
Proof.
  intros n note. cbn. split; [discriminate|].
  destruct note; discriminate.
Qed.

Lemma getNote_spec (val : Z) (p : NotePool) :
  pool_ok p ->
  pool_ok (snd (getNote val p)) /\
  notesByNo (snd (getNote val p)) val = Some (fst (getNote val p)) /\
  forall n note, notesByNo p n = Some note ->
                 notesByNo (snd (getNote val p)) n = Some note.
Proof.
  intros Hok. unfold getNote.
  destruct (notesByNo p val) as [note|] eqn:E; cbn [fst snd].
  - split; [exact Hok|]. split; [exact E | auto].
  - split; [|split].
    + intros n note. cbn [notesByNo objects].
      destruct (n =? val) eqn:En.
      * apply Z.eqb_eq in En. subst n. split.
        -- intros H. inversion H; subst.
           rewrite nth_error_app2 by lia. rewrite Nat.sub_diag. reflexivity.
        -- intros H.
           destruct (Nat.lt_ge_cases note (List.length (objects p)))
             as [Hlt|Hge].
           ++ rewrite nth_error_app1 in H by exact Hlt.
              apply Hok in H. congruence.
           ++ assert (Hlen : (note < List.length (objects p ++ [val]))%nat).
              { apply nth_error_Some. congruence. }
              rewrite length_app in Hlen. cbn in Hlen.
              f_equal. lia.
      * apply Z.eqb_neq in En. split.
        -- intros H. apply Hok in H.
           rewrite nth_error_app1; [exact H|].
           apply nth_error_Some. congruence.
        -- intros H.
           destruct (Nat.lt_ge_cases note (List.length (objects p)))
             as [Hlt|Hge].
           ++ rewrite nth_error_app1 in H by exact Hlt. apply Hok. exact H.
           ++ rewrite nth_error_app2 in H by exact Hge.
              destruct (note - List.length (objects p))%nat as [|k];
                cbn in H; [congruence|].
              destruct k; discriminate.
    + cbn [notesByNo]. rewrite Z.eqb_refl. reflexivity.
    + intros n note H. cbn [notesByNo].
      destruct (n =? val) eqn:En; [|exact H].
      apply Z.eqb_eq in En. congruence.
Qed.

Lemma getNotes_spec (vals : list Z) (p : NotePool) :
  pool_ok p ->
  pool_ok (getNotes vals p) /\
  forall n note, notesByNo p n = Some note ->
                 notesByNo (getNotes vals p) n = Some note.
Proof.
  revert p. induction vals as [|val vals IH]; intros p Hok; cbn.
  - split; [exact Hok | auto].
  - destruct (getNote_spec val Hok) as (Hok1 & _ & Hgrow1).
    destruct (IH _ Hok1) as (Hok2 & Hgrow2).
    split; [exact Hok2|]. intros n note H. apply Hgrow2, Hgrow1, H.
Qed.

(** X4.  Note objects are pooled by number.  On a note table
    that mirrors the note objects, two calls of [Note.getNote], with any
    calls in between, return the same object if and only if they were
    given the same number, the object returned has this number as its
    [noteNo], and the table still mirrors the objects: identity of note
    objects got from [getNote] is equality of note numbers. *)
Theorem getNote_same_object (p : NotePool) (n1 n2 : Z) (vals : list Z)
  (Hok : pool_ok p) :
  let r1 := getNote n1 p in
  let r2 := getNote n2 (getNotes vals (snd r1)) in
  (fst r1 = fst r2 <-> n1 = n2) /\
  nth_error (objects (snd r2)) (fst r1) = Some n1 /\
  nth_error (objects (snd r2)) (fst r2) = Some n2 /\
  pool_ok (snd r2).
Proof.
  cbv zeta.
  destruct (getNote_spec n1 Hok) as (Hok1 & Hmine1 & _).
  destruct (getNotes_spec vals Hok1) as (Hok2 & Hgrow2).
  destruct (getNote_spec n2 Hok2) as (Hok3 & Hmine3 & Hgrow3).
  pose proof (Hgrow3 _ _ (Hgrow2 _ _ Hmine1)) as H1.
  assert (Ho1 : nth_error (objects (snd (getNote n2
                  (getNotes vals (snd (getNote n1 p))))))
                  (fst (getNote n1 p)) = Some n1) by (apply Hok3; exact H1).
  assert (Ho2 : nth_error (objects (snd (getNote n2
                  (getNotes vals (snd (getNote n1 p))))))
                  (fst (getNote n2 (getNotes vals (snd (getNote n1 p)))))
                = Some n2) by (apply Hok3; exact Hmine3).
  split; [split|].
  - intros Heq. rewrite Heq in Ho1. congruence.
  - intros ->. congruence.
  - split; [exact Ho1|]. split; [exact Ho2 | exact Hok3].
Qed.

Lemma getNote_same_object_witness :
  let r1 := getNote 60 empty_pool in
  let r2 := getNote 60 (getNotes [62; 64] (snd r1)) in
  fst r1 = fst r2 <-> 60 = 60.
Proof.
  apply (@getNote_same_object empty_pool 60 60 [62; 64] empty_pool_ok).
Defined.

(** *** Consonance *)

Lemma rem_12_cases (x : Z) :
  0 <= x ->
  Z.rem x 12 = 0 \/ Z.rem x 12 = 1 \/ Z.rem x 12 = 2 \/ Z.rem x 12 = 3 \/
  Z.rem x 12 = 4 \/ Z.rem x 12 = 5 \/ Z.rem x 12 = 6 \/ Z.rem x 12 = 7 \/
  Z.rem x 12 = 8 \/ Z.rem x 12 = 9 \/ Z.rem x 12 = 10 \/ Z.rem x 12 = 11.
Proof.
  intros Hx. pose proof (Z.rem_bound_pos x 12 Hx). lia.
Qed.

(** X5.  The consonance rating is defined for every pair of
    notes, lies between -3 and 3, does not depend on the order of the two
    notes, and is 3 for two notes a whole number of octaves apart. *)
Theorem consonance_rating (no1 no2 : Z) :
  (exists c, consonance no1 no2 = Some c /\ -3 <= c <= 3) /\
  consonance no1 no2 = consonance no2 no1 /\
  (forall k, consonance no1 (no1 + 12 * k) = Some 3).
Proof.
  split; [|split].
  - unfold consonance. cbv zeta.
    assert (H : 0 <= Z.max (no1 - no2) (no2 - no1)) by lia.
    destruct (rem_12_cases H) as
      [E|[E|[E|[E|[E|[E|[E|[E|[E|[E|[E|E]]]]]]]]]]];
      rewrite E; cbn; eexists; (split; [reflexivity | lia]).
  - unfold consonance. rewrite Z.max_comm. reflexivity.
  - intros k. unfold consonance. cbv zeta.
    assert (E : Z.rem (Z.max (no1 - (no1 + 12 * k)) (no1 + 12 * k - no1)) 12
                = 0).
    { destruct (Z.le_gt_cases 0 k) as [Hk|Hk].
      - rewrite Z.max_r by lia.
        replace (no1 + 12 * k - no1) with (k * 12) by lia.
        apply Z.rem_mul. lia.
      - rewrite Z.max_l by lia.
        replace (no1 - (no1 + 12 * k)) with ((- k) * 12) by lia.
        apply Z.rem_mul. lia. }
    rewrite E. reflexivity.
Qed.

(** *** Scales *)

Lemma scaleIntervs_table (scale : string) (intervs : list Z) :
  scaleIntervs scale = Some intervs ->
  Forall (fun i => 0 < i) intervs /\ fold_right Z.add 0 intervs < 12.
Proof.
  unfold scaleIntervs.
  repeat match goal with
         | |- context [match ?x with _ => _ end] => destruct x
         end;
  intros H; inversion H; split; try (cbn; lia);
  repeat constructor.
Qed.

Lemma offset_in_range (noteNo numSemis : Z) :
  0 <= noteNo + numSemis <= 127 ->
  offset noteNo numSemis = Returned (noteNo + numSemis).
Proof.
  intros H. unfold offset, NUM_NOTES. cbv zeta.
  replace (0 <=? noteNo + numSemis) with true by (symmetry; apply Z.leb_le; lia).
  replace (noteNo + numSemis <? 128) with true by (symmetry; apply Z.ltb_lt; lia).
  reflexivity.
Qed.

Lemma offset_returned (noteNo numSemis offNo : Z) :
  offset noteNo numSemis = Returned offNo ->
  offNo = noteNo + numSemis /\ 0 <= offNo <= 127.
Proof.
  unfold offset, NUM_NOTES. cbv zeta.
  destruct (0 <=? noteNo + numSemis) eqn:E1; [|discriminate].
  destruct (noteNo + numSemis <? 128) eqn:E2; [|discriminate].
  cbn. intros H. inversion H; subst.
  apply Z.leb_le in E1. apply Z.ltb_lt in E2. lia.
Qed.

Lemma degrees_bounds (start : Z) (intervs : list Z) (x : Z) :
  Forall (fun i => 0 < i) intervs -> In x (degrees start intervs) ->
  start < x <= start + fold_right Z.add 0 intervs.
Proof.
  revert start. induction intervs as [|i l IH]; intros start Hpos Hin;
    cbn in *; [contradiction|].
  inversion Hpos as [|? ? Hi Hl]; subst.
  assert (Hsum : 0 <= fold_right Z.add 0 l).
  { clear - Hl. induction Hl; cbn; lia. }
  destruct Hin as [<-|Hin]; [lia|].
  specialize (IH _ Hl Hin). lia.
Qed.

Lemma degrees_sorted (start : Z) (intervs : list Z) :
  Forall (fun i => 0 < i) intervs ->
  StronglySorted Z.lt (start :: degrees start intervs).
Proof.
  revert start. induction intervs as [|i l IH]; intros start Hpos; cbn.
  - repeat constructor.
  - inversion Hpos as [|? ? Hi Hl]; subst.
    constructor; [apply IH; exact Hl|].
    constructor; [lia|].
    apply Forall_forall. intros x Hx.
    pose proof (@degrees_bounds _ _ _ Hl Hx). lia.
Qed.

Lemma scale_notes_degrees (prevNote : Z) (intervs : list Z) :
  Forall (fun i => 0 < i) intervs ->
  0 <= prevNote -> prevNote + fold_right Z.add 0 intervs <= 127 ->
  scale_notes prevNote intervs = Returned (degrees prevNote intervs).
Proof.
  revert prevNote. induction intervs as [|i l IH]; intros prevNote Hpos H0 H1;
    cbn in *; [reflexivity|].
  inversion Hpos as [|? ? Hi Hl]; subst.
  assert (Hsum : 0 <= fold_right Z.add 0 l).
  { clear - Hl. induction Hl; cbn; lia. }
  rewrite offset_in_range by lia. cbn [bind].
  rewrite IH by (try assumption; lia). reflexivity.
Qed.

Lemma StronglySorted_app (A : Type) (R : A -> A -> Prop) (l1 l2 : list A) :
  StronglySorted R l1 -> StronglySorted R l2 ->
  (forall x y, In x l1 -> In y l2 -> R x y) ->
  StronglySorted R (l1 ++ l2).
Proof.
  induction l1 as [|a l1 IH]; intros H1 H2 H12; cbn; [exact H2|].
  inversion H1 as [|? ? Hs Hf]; subst.
  constructor.
  - apply IH; [exact Hs | exact H2 |].
    intros x y Hx Hy. apply H12; [right; exact Hx | exact Hy].
  - apply Forall_app. split; [exact Hf|].
    apply Forall_forall. intros y Hy. apply H12; [left; reflexivity | exact Hy].
Qed.

Lemma octave_notes_bounds (rootNote : Z) (intervs : list Z) (octNo x : Z) :
  Forall (fun i => 0 < i) intervs -> fold_right Z.add 0 intervs < 12 ->
  In x (octave_notes rootNote intervs octNo) ->
  rootNote + octNo * 12 <= x < rootNote + (octNo + 1) * 12.
Proof.
  intros Hpos Hsum [<-|Hin]; unfold NOTES_PER_OCTAVE in *; [lia|].
  pose proof (@degrees_bounds _ _ _ Hpos Hin). lia.
Qed.

Lemma octaves_bounds (rootNote : Z) (intervs : list Z) (j count : nat)
  (x : Z) :
  Forall (fun i => 0 < i) intervs -> fold_right Z.add 0 intervs < 12 ->
  In x (flat_map (octave_notes rootNote intervs)
                 (map Z.of_nat (seq j count))) ->
  rootNote + Z.of_nat j * 12 <= x < rootNote + Z.of_nat (j + count) * 12.
Proof.
  intros Hpos Hsum Hin. apply in_flat_map in Hin.
  destruct Hin as (o & Ho & Hx). apply in_map_iff in Ho.
  destruct Ho as (k & <- & Hk). apply in_seq in Hk.
  pose proof (@octave_notes_bounds _ _ _ _ Hpos Hsum Hx). lia.
Qed.

Lemma octaves_sorted (rootNote : Z) (intervs : list Z) (j count : nat) :
  Forall (fun i => 0 < i) intervs -> fold_right Z.add 0 intervs < 12 ->
  StronglySorted Z.lt (flat_map (octave_notes rootNote intervs)
                                (map Z.of_nat (seq j count))).
Proof.
  intros Hpos Hsum. revert j. induction count as [|c IH]; intros j;
    cbn [seq map flat_map]; [constructor|].
  apply StronglySorted_app.
  - apply degrees_sorted. exact Hpos.
  - apply IH.
  - intros x y Hx Hy.
    pose proof (@octave_notes_bounds _ _ _ _ Hpos Hsum Hx).
    pose proof (@octaves_bounds _ _ _ _ _ Hpos Hsum Hy). lia.
Qed.

Lemma scale_octaves_spec (rootNote : Z) (intervs : list Z) (j count : nat) :
  Forall (fun i => 0 < i) intervs -> fold_right Z.add 0 intervs < 12 ->
  0 <= rootNote -> rootNote + Z.of_nat (j + count) * 12 <= 127 ->
  scale_octaves rootNote intervs (Z.of_nat j) count =
  Returned (flat_map (octave_notes rootNote intervs)
                     (map Z.of_nat (seq j count))).
Proof.
  intros Hpos Hsum H0. revert j. induction count as [|c IH]; intros j H1;
    cbn [scale_octaves seq map flat_map]; [reflexivity|].
  unfold shift, NOTES_PER_OCTAVE. rewrite offset_in_range by lia.
  cbn [bind]. rewrite scale_notes_degrees by (try assumption; lia).
  cbn [bind].
  replace (Z.of_nat j + 1) with (Z.of_nat (S j)) by lia.
  rewrite IH by lia. reflexivity.
Qed.

Lemma scale_octaves_returned (rootNote : Z) (intervs : list Z) (octNo : Z)
  (count : nat) (notes : list Z) :
  scale_octaves rootNote intervs octNo (S count) = Returned notes ->
  0 <= rootNote + octNo * 12.
Proof.
  cbn [scale_octaves]. unfold shift, NOTES_PER_OCTAVE.
  destruct (offset rootNote (octNo * 12)) as [m|msg] eqn:E; [|discriminate].
  apply offset_returned in E. lia.
Qed.

(** X6.  For a scale of the table, a root note and a number of
    octaves that is not negative, [genScale] returns if and only if the
    root is not negative and the root of the octave that closes the scale
    is at most 127.  The notes it returns are, octave by octave, the
    octave root followed by the running sums of the scale's intervals
    above it, closed by the root [12 * numOctaves] semitones above the
    root note; they are in strictly ascending order, within 0 to 127, and
    there are [numOctaves * (intervals + 1) + 1] of them. *)
Theorem genScale_notes (scale : string) (intervs : list Z)
  (rootNote numOctaves : Z)
  (Hscale : scaleIntervs scale = Some intervs)
  (Hoct : 0 <= numOctaves) :
  let notes := scale_of rootNote intervs (Z.to_nat numOctaves) in
  (0 <= rootNote /\ rootNote + 12 * numOctaves <= 127 ->
   genScale rootNote scale numOctaves = Returned notes) /\
  (forall notes', genScale rootNote scale numOctaves = Returned notes' ->
     0 <= rootNote /\ rootNote + 12 * numOctaves <= 127) /\
  StronglySorted Z.lt notes /\
  (0 <= rootNote /\ rootNote + 12 * numOctaves <= 127 ->
   Forall midi_range notes) /\
  List.length notes =
    (Z.to_nat numOctaves * (List.length intervs + 1) + 1)%nat.
Proof.
  destruct (@scaleIntervs_table _ _ Hscale) as [Hpos Hsum].
  cbv zeta. unfold scale_of, NOTES_PER_OCTAVE.
  assert (Hk : Z.of_nat (Z.to_nat numOctaves) = numOctaves) by lia.
  split; [|split; [|split; [|split]]].
  - intros [H0 H1]. unfold genScale. rewrite Hscale.
    pose proof (@scale_octaves_spec rootNote intervs 0%nat
                  (Z.to_nat numOctaves) Hpos Hsum H0) as Hs.
    change (Z.of_nat 0) with 0 in Hs. rewrite Hs by (cbn [Nat.add]; lia).
    cbn [bind]. unfold shift, NOTES_PER_OCTAVE.
    rewrite offset_in_range by lia. cbn [bind]. rewrite Hk. reflexivity.
  - intros notes'. unfold genScale. rewrite Hscale.
    destruct (scale_octaves rootNote intervs 0 (Z.to_nat numOctaves))
      as [l|msg] eqn:El; [|discriminate].
    cbn [bind]. unfold shift, NOTES_PER_OCTAVE.
    destruct (offset rootNote (numOctaves * 12)) as [m|msg] eqn:Em;
      [|discriminate].
    intros _. apply offset_returned in Em.
    destruct (Z.to_nat numOctaves) as [|c] eqn:Ec.
    + assert (numOctaves = 0) by lia. lia.
    + apply scale_octaves_returned in El. lia.
  - apply StronglySorted_app.
    + apply octaves_sorted; assumption.
    + repeat constructor.
    + intros x y Hx [<-|[]].
      pose proof (@octaves_bounds _ _ _ _ _ Hpos Hsum Hx). lia.
  - intros [H0 H1]. apply Forall_app. split.
    + apply Forall_forall. intros x Hx.
      pose proof (@octaves_bounds _ _ _ _ _ Hpos Hsum Hx).
      unfold midi_range. lia.
    + constructor; [|constructor]. unfold midi_range. lia.
  - rewrite length_app. cbn [List.length].
    assert (Hlen : forall j count,
              List.length (flat_map (octave_notes rootNote intervs)
                                    (map Z.of_nat (seq j count))) =
              (count * (List.length intervs + 1))%nat).
    { assert (Hdeg : forall start, List.length (degrees start intervs) =
                                   List.length intervs).
      { clear. induction intervs as [|i l IH]; intros start; cbn;
          [reflexivity | rewrite IH; reflexivity]. }
      intros j count. revert j. induction count as [|c IH]; intros j;
        cbn [seq map flat_map]; [reflexivity|].
      rewrite length_app, IH. cbn [octave_notes List.length].
      rewrite Hdeg. lia. }
    rewrite Hlen. lia.
Qed.

(** The two-octave A minor pentatonic scale. *)
Lemma genScale_notes_witness :
  genScale 57 "minor pentatonic" 2 =
    Returned [57; 60; 62; 64; 67; 69; 72; 74; 76; 79; 81].
Proof.
  apply (@genScale_notes "minor pentatonic" [3; 2; 2; 3] 57 2 eq_refl);
    lia.
Defined.

End NotesFacts.

(** ** piece: adding events, writing notes, successive dispatch windows *)

Module AuthoringFacts.

Import Music Timeline Authoring JsFacts TimelineFacts.
#[local] Open Scope Q_scope.

(** *** Where [addEvent] puts an event *)

Lemma sort_insert_head (x : SynthEvt) (l : list SynthEvt) :
  (forall h, hd_error l = Some h -> time x <= time h) ->
  sort_insert by_time x l = x :: l.
Proof.
  destruct l as [|h l]; cbn; intros H; [reflexivity|].
  unfold by_time.
  replace (Qle_bool (time x - time h) 0) with true; [reflexivity|].
  symmetry. apply Qle_bool_iff. specialize (H h eq_refl). lra.
Qed.

Lemma filter_not_later_all (evt : SynthEvt) (l : list SynthEvt) :
  Forall (fun e => time e <= time evt) l ->
  filter (not_later evt) l = l /\ filter (later evt) l = [].
Proof.
  induction 1 as [|e l He Hl [IH1 IH2]]; cbn; [split; reflexivity|].
  unfold not_later at 1, later at 1.
  replace (Qle_bool (time e) (time evt)) with true
    by (symmetry; apply Qle_bool_iff; exact He).
  replace (Qltb (time evt) (time e)) with false
    by (symmetry; apply Qltb_ge; exact He).
  rewrite IH1, IH2. split; reflexivity.
Qed.

Lemma filter_later_all (evt : SynthEvt) (l : list SynthEvt) :
  Forall (fun e => time evt < time e) l ->
  filter (not_later evt) l = [] /\ filter (later evt) l = l.
Proof.
  induction 1 as [|e l He Hl [IH1 IH2]]; cbn; [split; reflexivity|].
  unfold not_later at 1, later at 1.
  replace (Qle_bool (time e) (time evt)) with false.
  2:{ symmetry. destruct (Qle_bool (time e) (time evt)) eqn:E; [|reflexivity].
      apply Qle_bool_iff in E. lra. }
  replace (Qltb (time evt) (time e)) with true
    by (symmetry; apply Qltb_lt; exact He).
  rewrite IH1, IH2. split; reflexivity.
Qed.

(** Sorting a sorted array to which an event was pushed puts the event
    after the events that are not later and before the later ones. *)
Lemma Array_sort_pushed (evt : SynthEvt) (l : list SynthEvt) :
  StronglySorted le_time l ->
  Array_sort by_time (l ++ [evt]) =
  filter (not_later evt) l ++ evt :: filter (later evt) l.
Proof.
  induction 1 as [|x l Hs IH Hx]; [reflexivity|].
  cbn [app Array_sort]. rewrite IH.
  destruct (Qlt_le_dec (time evt) (time x)) as [Hlt|Hle].
  - assert (Hall : Forall (fun e => time evt < time e) (x :: l)).
    { constructor; [exact Hlt|].
      eapply Forall_impl; [|exact Hx]. unfold le_time. cbn. intros e He. lra. }
    destruct (@filter_later_all _ _ Hall) as [E1 E2]. rewrite E1, E2.
    inversion Hall as [|? ? _ Hall']; subst.
    destruct (@filter_later_all _ _ Hall') as [E1' E2']. rewrite E1', E2'.
    cbn [app sort_insert]. unfold by_time at 1.
    replace (Qle_bool (time x - time evt) 0) with false.
    2:{ symmetry. destruct (Qle_bool (time x - time evt) 0) eqn:E;
          [|reflexivity]. apply Qle_bool_iff in E. lra. }
    rewrite sort_insert_head; [reflexivity|].
    intros h Hh. destruct l as [|h' l']; [discriminate|].
    inversion Hh; subst. inversion Hx; subst. assumption.
  - cbn [filter]. unfold not_later at 2, later at 2.
    replace (Qle_bool (time x) (time evt)) with true
      by (symmetry; apply Qle_bool_iff; exact Hle).
    replace (Qltb (time evt) (time x)) with false
      by (symmetry; apply Qltb_ge; exact Hle).
    cbn [app]. apply sort_insert_head.
    intros h Hh.
    destruct (filter (not_later evt) l) as [|h' l'] eqn:Ef.
    + cbn in Hh. inversion Hh; subst. exact Hle.
    + cbn in Hh. inversion Hh; subst.
      assert (Hin : In h (filter (not_later evt) l))
        by (rewrite Ef; left; reflexivity).
      apply filter_In in Hin. rewrite Forall_forall in Hx.
      apply Hx. tauto.
Qed.

Lemma sorted_last_max (prev : list SynthEvt) (last : SynthEvt) :
  StronglySorted le_time (prev ++ [last]) ->
  Forall (fun e => time e <= time last) (prev ++ [last]).
Proof.
  induction prev as [|x prev IH]; cbn; intros H.
  - constructor; [lra | constructor].
  - inversion H as [|? ? Hs Hx]; subst.
    constructor; [|exact (IH Hs)].
    rewrite Forall_forall in Hx. apply (Hx last).
    apply in_app_iff. right. left. reflexivity.
Qed.

(** The events of a sorted track after [addEvent]. *)
Lemma addEvent_splits (evt : SynthEvt) (tr : Track)
  (Hsorted : sorted_by_time (events tr)) :
  events (addEvent evt tr) =
  filter (not_later evt) (events tr) ++ evt :: filter (later evt) (events tr).
Proof.
  apply sorted_strongly in Hsorted.
  unfold addEvent.
  destruct (events tr) as [|e0 l0] eqn:Eev.
  - reflexivity.
  - destruct (@exists_last _ (e0 :: l0)) as (prev & last & Hlast);
      [discriminate|].
    rewrite Hlast in *. clear Hlast e0 l0.
    rewrite added_at_end_snoc.
    destruct (Qle_bool (time last) (time evt)) eqn:E; cbn [events].
    + apply Qle_bool_iff in E.
      assert (Hall : Forall (fun e => time e <= time evt) (prev ++ [last])).
      { eapply Forall_impl; [|apply sorted_last_max; exact Hsorted].
        cbn. intros e He. lra. }
      destruct (@filter_not_later_all _ _ Hall) as [E1 E2]. rewrite E1, E2.
      reflexivity.
    + apply Array_sort_pushed. exact Hsorted.
Qed.

(** X7.  [addEvent] on a sorted track puts the event after the
    events that are not later than it and before the events that are
    later, whether it returns early or sorts: events with the same time
    stay in the order in which they were added. *)
Theorem addEvent_position (evt : SynthEvt) (tr : Track)
  (Hsorted : sorted_by_time (events tr)) :
  events (addEvent evt tr) =
  filter (not_later evt) (events tr) ++ evt :: filter (later evt) (events tr).
Proof.
  exact (@addEvent_splits evt tr Hsorted).
Qed.

Lemma addEvent_position_witness :
  let tr := {| events := [NoteOnEvt 0 60%Z 1; NoteOffEvt 1 60%Z;
                          NoteOnEvt 1 62%Z 1; NoteOffEvt 2 62%Z];
               target := None |} in
  events (addEvent (NoteOnEvt 1 64%Z 1) tr) =
    [NoteOnEvt 0 60%Z 1; NoteOffEvt 1 60%Z; NoteOnEvt 1 62%Z 1;
     NoteOnEvt 1 64%Z 1; NoteOffEvt 2 62%Z].
Proof.
  intros tr. apply (@addEvent_position (NoteOnEvt 1 64%Z 1) tr).
  repeat constructor; unfold le_time; cbn; lra.
Defined.

(** *** Writing a note *)

Lemma noteLen_nonneg (p : Piece) (sig : TimeSignature) (len : option Q) :
  0 < beatsPerMin p -> 0 <= beatsPerBar sig -> 0 < noteVal sig ->
  match len with Some len => 0 <= len | None => True end ->
  0 <= noteLen p sig len.
Proof.
  intros Hbpm Hbar Hval Hlen. unfold noteLen. cbv zeta.
  assert (Hbeat : 0 < 60 / beatsPerMin p).
  { apply Qlt_shift_div_l; [exact Hbpm | lra]. }
  assert (Hnote : 0 <= 60 / beatsPerMin p * beatsPerBar sig / noteVal sig).
  { apply Qle_shift_div_l; [exact Hval|].
    rewrite Qmult_0_l. apply Qmult_le_0_compat; lra. }
  assert (Hl : 0 <= match len with Some len => len | None => 1 end).
  { destruct len; [exact Hlen | lra]. }
  apply Qmult_le_0_compat; [|lra].
  apply Qmult_le_0_compat; assumption.
Qed.

(** X8.  [makeNote] on a sorted track, for a tempo and a note
    value that are positive and a number of beats per bar and a length
    that are not negative: the track stays sorted and holds the note-on
    and the note-off beside the events it had; the note-off is at the
    note-on time plus the note length, not before the note-on; and in the
    track the note-on comes before its note-off, also when the length is
    0 and both have the same time. *)
Theorem makeNote_events (p : Piece) (sig : TimeSignature) (track : Track)
  (beatNo : Q) (note : Note) (len vel : option Q)
  (Hsorted : sorted_by_time (events track))
  (Htempo : 0 < beatsPerMin p)
  (Hbar : 0 <= beatsPerBar sig)
  (Hval : 0 < noteVal sig)
  (Hlen : match len with Some len => 0 <= len | None => True end) :
  let noteOn := noteOn_of p beatNo note vel in
  let noteOff := noteOff_of p sig beatNo note len in
  let track' := makeNote p sig track beatNo note len vel in
  sorted_by_time (events track') /\
  Permutation (noteOff :: noteOn :: events track) (events track') /\
  time noteOff == time noteOn + noteLen p sig len /\
  time noteOn <= time noteOff /\
  (exists l1 l2 l3, events track' = l1 ++ noteOn :: l2 ++ noteOff :: l3) /\
  target track' = target track.
Proof.
  cbv zeta.
  pose proof (noteLen_nonneg p sig len Htempo Hbar Hval Hlen) as Hnn.
  set (noteOn := noteOn_of p beatNo note vel).
  set (noteOff := noteOff_of p sig beatNo note len).
  assert (Hle : time noteOn <= time noteOff).
  { subst noteOn noteOff. cbn. lra. }
  pose proof (addEvent_sorted noteOn _ Hsorted) as Hs1.
  unfold makeNote. fold noteOn noteOff.
  split; [apply addEvent_sorted; exact Hs1|].
  split.
  { eapply Permutation_trans; [|apply addEvent_perm].
    constructor. apply addEvent_perm. }
  split; [subst noteOn noteOff; cbn; lra|].
  split; [exact Hle|].
  split.
  - rewrite (@addEvent_splits noteOff _ Hs1).
    rewrite (@addEvent_splits noteOn _ Hsorted).
    assert (Hnl : not_later noteOff noteOn = true)
      by (apply Qle_bool_iff; exact Hle).
    rewrite filter_app. cbn [filter]. rewrite Hnl.
    rewrite <- app_assoc. cbn [app].
    eexists. eexists. eexists. reflexivity.
  - unfold addEvent.
    repeat match goal with
           | |- context [if ?b then _ else _] => destruct b
           end; reflexivity.
Qed.

(** A quarter note on beat 2 at 120 beats per minute, written into a
    track that has a later event. *)
Lemma makeNote_events_witness :
  let p := {| tracks := []; playTime := 0; loopTime := 0; prevTime := 0;
              beatsPerMin := 120 |} in
  let sig := {| beatsPerBar := 4; noteVal := 4 |} in
  let track := {| events := [NoteOnEvt 5 72%Z 1]; target := None |} in
  exists l1 l2 l3,
    events (makeNote p sig track 2 60%Z (Some 1) None) =
    l1 ++ noteOn_of p 2 60%Z None :: l2 ++
    noteOff_of p sig 2 60%Z (Some 1) :: l3.
Proof.
  intros p sig track.
  apply (@makeNote_events p sig track 2 60%Z (Some 1) None);
    try (cbn; lra).
  repeat constructor.
Defined.

(** *** The end of a track *)

(** X9.  [Track.endTime] is undefined exactly for a track
    without events; on a sorted track it is the time of an event of the
    track, and no event of the track is later. *)
Theorem endTime_latest (tr : Track)
  (Hsorted : sorted_by_time (events tr)) :
  (endTime tr = None <-> events tr = []) /\
  (forall t, endTime tr = Some t ->
     (exists e, In e (events tr) /\ time e = t) /\
     forall e, In e (events tr) -> time e <= t).
Proof.
  apply sorted_strongly in Hsorted. unfold endTime.
  destruct (events tr) as [|e0 l0] eqn:Eev.
  - cbn. split; [tauto | discriminate].
  - destruct (@exists_last _ (e0 :: l0)) as (prev & last & Hlast);
      [discriminate|].
    rewrite Hlast in *. clear Hlast e0 l0.
    rewrite length_app. cbn [List.length].
    replace (List.length prev + 1 =? 0)%nat with false
      by (symmetry; apply Nat.eqb_neq; lia).
    replace (List.length prev + 1 - 1)%nat with (List.length prev) by lia.
    rewrite nth_middle.
    split.
    + split; [discriminate|]. intros H. destruct prev; discriminate.
    + intros t Ht. inversion Ht; subst. split.
      * exists last. split; [|reflexivity].
        apply in_app_iff. right. left. reflexivity.
      * intros e He. pose proof (sorted_last_max _ _ Hsorted) as Hall.
        rewrite Forall_forall in Hall. exact (Hall e He).
Qed.

Lemma endTime_latest_witness :
  let tr := {| events := [NoteOnEvt 0 60%Z 1; NoteOffEvt 1 60%Z];
               target := None |} in
  exists e, In e (events tr) /\ time e = 1.
Proof.
  intros tr.
  assert (Hs : sorted_by_time (events tr)).
  { repeat constructor; unfold le_time; cbn; lra. }
  destruct (@endTime_latest tr Hs) as [_ H].
  exact (proj1 (H 1 eq_refl)).
Defined.

(** *** Successive dispatch windows *)

Lemma delivered_events_map (node : NodeId) (realTime : Q)
  (l : list SynthEvt) :
  delivered_events (map (fun evt => ProcessEvent node evt realTime) l) = l.
Proof.
  induction l as [|e l IH]; cbn; [reflexivity|].
  unfold delivered_events in IH. rewrite IH. reflexivity.
Qed.

Lemma delivered_events_app (c1 c2 : list call) :
  delivered_events (c1 ++ c2) = delivered_events c1 ++ delivered_events c2.
Proof. unfold delivered_events. apply flat_map_app. Qed.

Lemma in_interval_false_early (a b : Q) (e : SynthEvt) :
  time e < a -> in_interval a b e = false.
Proof.
  intros H. unfold in_interval.
  destruct (Qle_bool a (time e)) eqn:E; [|reflexivity].
  apply Qle_bool_iff in E. lra.
Qed.

Lemma in_interval_false_late (a b : Q) (e : SynthEvt) :
  b <= time e -> in_interval a b e = false.
Proof.
  intros H. unfold in_interval.
  replace (Qltb (time e) b) with false by (symmetry; apply Qltb_ge; exact H).
  apply andb_false_r.
Qed.

Lemma in_interval_true_intro (a b : Q) (e : SynthEvt) :
  a <= time e -> time e < b -> in_interval a b e = true.
Proof. intros H1 H2. apply in_interval_true. split; assumption. Qed.

(** Two adjoining intervals select, one after the other, what their union
    selects from a sorted list. *)
Lemma filter_windows (a b c : Q) (l : list SynthEvt) :
  StronglySorted le_time l -> a <= b -> b <= c ->
  filter (in_interval a b) l ++ filter (in_interval b c) l =
  filter (in_interval a c) l.
Proof.
  intros Hs Hab Hbc. induction Hs as [|x l Hs IH Hx]; [reflexivity|].
  cbn [filter].
  destruct (Qlt_le_dec (time x) a) as [H1|H1].
  - rewrite !in_interval_false_early by lra. exact IH.
  - destruct (Qlt_le_dec (time x) b) as [H2|H2].
    + rewrite (@in_interval_true_intro a b x) by lra.
      rewrite (@in_interval_false_early b c x) by lra.
      rewrite (@in_interval_true_intro a c x) by lra.
      cbn [app]. rewrite IH. reflexivity.
    + rewrite (@in_interval_false_late a b x) by lra.
      assert (Hnone : filter (in_interval a b) l = []).
      { apply filter_interval_after.
        eapply Forall_impl; [|exact Hx]. unfold le_time. cbn.
        intros e He. lra. }
      rewrite Hnone in *. cbn [app] in *.
      destruct (Qlt_le_dec (time x) c) as [H3|H3].
      * rewrite (@in_interval_true_intro b c x) by lra.
        rewrite (@in_interval_true_intro a c x) by lra.
        rewrite IH. reflexivity.
      * rewrite (@in_interval_false_late b c x) by lra.
        rewrite (@in_interval_false_late a c x) by lra.
        exact IH.
Qed.

(** X10.  Successive dispatch windows lose no event and deliver
    none twice.  [Piece.dispatch] leaves the current time as the previous
    time, so the next call takes the window that starts where the last
    one ended; and for a sorted track with a target, the events delivered
    by the windows [[t0, t1)] and then [[t1, t2)], with [t0 <= t1 <= t2],
    are, in order, the events of the track with a time in [[t0, t2)],
    each once: what a single window [[t0, t2)] delivers. *)
Theorem dispatch_windows (p : Piece) (tr : Track) (node : NodeId)
  (t1 t2 r1 r2 r : Q)
  (Hsorted : sorted_by_time (events tr))
  (Htarget : target tr = Some node)
  (H01 : prevTime p <= t1)
  (H12 : t1 <= t2) :
  let p1 := snd (Piece_dispatch p t1 r1) in
  prevTime p1 = t1 /\ tracks p1 = tracks p /\
  fst (Piece_dispatch p1 t2 r2) =
    flat_map (fun track => dispatch track t1 t2 r2) (tracks p) /\
  delivered_events (dispatch tr (prevTime p) t1 r1 ++ dispatch tr t1 t2 r2) =
    filter (in_interval (prevTime p) t2) (events tr) /\
  delivered_events (dispatch tr (prevTime p) t2 r) =
    filter (in_interval (prevTime p) t2) (events tr).
Proof.
  cbv zeta. split; [reflexivity|]. split; [reflexivity|].
  split; [reflexivity|].
  rewrite delivered_events_app.
  rewrite !(@dispatch_filter tr node) by assumption.
  rewrite !delivered_events_map.
  split; [|reflexivity].
  apply filter_windows; [|assumption|assumption].
  apply sorted_strongly. exact Hsorted.
Qed.

Lemma dispatch_windows_witness :
  let tr := {| events := [NoteOnEvt 0 60%Z 1; NoteOffEvt (1 # 2) 60%Z;
                          NoteOnEvt 1 62%Z 1];
               target := Some 7%nat |} in
  let p := {| tracks := [tr]; playTime := 0; loopTime := 4; prevTime := 0;
              beatsPerMin := 140 |} in
  delivered_events (dispatch tr (prevTime p) (1 # 2) 10 ++
                    dispatch tr (1 # 2) 1 11) =
    filter (in_interval (prevTime p) 1) (events tr).
Proof.
  intros tr p.
  apply (@dispatch_windows p tr 7%nat (1 # 2) 1 10 11 0);
    try reflexivity; try (cbn; lra).
  repeat constructor; unfold le_time; cbn; lra.
Defined.

(** *** Real time and playback time *)






(** *** Seeking *)



(** *** Two notes in a row *)

Lemma sorted_before (l : list SynthEvt) (e1 e2 : SynthEvt) :
  StronglySorted le_time l -> In e1 l -> In e2 l -> time e1 < time e2 ->
  exists l1 l2 l3, l = l1 ++ e1 :: l2 ++ e2 :: l3.
Proof.
  intros Hs H1 H2 Hlt.
  apply in_split in H1. destruct H1 as (l1 & r & ->).
  apply in_app_iff in H2. destruct H2 as [H2|[H2|H2]].
  - exfalso. apply in_split in H2. destruct H2 as (a & b & ->).
    rewrite <- app_assoc in Hs. cbn in Hs.
    apply StronglySorted_app_r in Hs.
    inversion Hs as [|? ? _ Hall]; subst.
    rewrite Forall_forall in Hall.
    assert (Hle : le_time e2 e1).
    { apply Hall. apply in_app_iff. right. left. reflexivity. }
    unfold le_time in Hle. lra.
  - subst. lra.
  - apply in_split in H2. destruct H2 as (l2 & l3 & ->).
    exists l1, l2, l3. reflexivity.
Qed.

(** X13.  The factor 0.99 of [noteLen] keeps a note-off ahead of
    the next note-on.  The length of a note is 0.99 times its nominal
    length, [len * beatsPerBar / noteVal] beats; so when a second note is
    written at the beat where the first one nominally ends, the first
    note-off is strictly earlier than the second note-on, and comes
    before it in the track. *)
Theorem makeNote_twice (p : Piece) (sig : TimeSignature) (track : Track)
  (beatNo len : Q) (note1 note2 : Note) (len2 vel1 vel2 : option Q)
  (Hsorted : sorted_by_time (events track))
  (Htempo : 0 < beatsPerMin p)
  (Hbar : 0 < beatsPerBar sig)
  (Hval : 0 < noteVal sig)
  (Hlen : 0 < len) :
  let nextBeat := beatNo + len * beatsPerBar sig / noteVal sig in
  let noteOff1 := noteOff_of p sig beatNo note1 (Some len) in
  let noteOn2 := noteOn_of p nextBeat note2 vel2 in
  let track' :=
    makeNote p sig (makeNote p sig track beatNo note1 (Some len) vel1)
             nextBeat note2 len2 vel2 in
  noteLen p sig (Some len) ==
    (99 # 100) * (beatTime p nextBeat - beatTime p beatNo) /\
  time noteOff1 < time noteOn2 /\
  exists l1 l2 l3, events track' = l1 ++ noteOff1 :: l2 ++ noteOn2 :: l3.
Proof.
  cbv zeta.
  assert (Hnl : noteLen p sig (Some len) ==
                (99 # 100) * (beatTime p (beatNo + len * beatsPerBar sig
                                                   / noteVal sig)
                              - beatTime p beatNo)).
  { unfold noteLen, beatTime. field. split; lra. }
  assert (Hnominal : 0 < beatTime p (beatNo + len * beatsPerBar sig
                                              / noteVal sig)
                         - beatTime p beatNo).
  { unfold beatTime.
    setoid_replace (60 / beatsPerMin p
                    * (beatNo + len * beatsPerBar sig / noteVal sig)
                    - 60 / beatsPerMin p * beatNo)
      with ((60 / beatsPerMin p) * (len * beatsPerBar sig / noteVal sig))
      by (field; split; lra).
    apply Qmult_lt_0_compat.
    - apply Qlt_shift_div_l; lra.
    - apply Qlt_shift_div_l; [lra|]. rewrite Qmult_0_l.
      apply Qmult_lt_0_compat; lra. }
  assert (Hlt : time (noteOff_of p sig beatNo note1 (Some len)) <
                time (noteOn_of p (beatNo + len * beatsPerBar sig
                                            / noteVal sig) note2 vel2)).
  { cbn [time noteOff_of noteOn_of]. rewrite Hnl. lra. }
  split; [exact Hnl|]. split; [exact Hlt|].
  set (track1 := makeNote p sig track beatNo note1 (Some len) vel1).
  assert (Hs1 : sorted_by_time (events track1)).
  { unfold track1, makeNote. apply addEvent_sorted, addEvent_sorted.
    exact Hsorted. }
  assert (Hoff1 : In (noteOff_of p sig beatNo note1 (Some len))
                     (events track1)).
  { unfold track1, makeNote.
    eapply Permutation_in; [apply addEvent_perm|]. left. reflexivity. }
  apply sorted_before.
  - apply sorted_strongly. unfold makeNote.
    apply addEvent_sorted, addEvent_sorted. exact Hs1.
  - unfold makeNote.
    eapply Permutation_in; [apply addEvent_perm|]. right.
    eapply Permutation_in; [apply addEvent_perm|]. right. exact Hoff1.
  - unfold makeNote.
    eapply Permutation_in; [apply addEvent_perm|]. right.
    eapply Permutation_in; [apply addEvent_perm|]. left. reflexivity.
  - exact Hlt.
Qed.

(** Two quarter notes of the same pitch on beats 0 and 1. *)
Lemma makeNote_twice_witness :
  let p := {| tracks := []; playTime := 0; loopTime := 0; prevTime := 0;
              beatsPerMin := 120 |} in
  let sig := {| beatsPerBar := 4; noteVal := 4 |} in
  time (noteOff_of p sig 0 60%Z (Some 1)) <
  time (noteOn_of p (0 + 1 * beatsPerBar sig / noteVal sig) 60%Z None).
Proof.
  intros p sig.
  apply (@makeNote_twice p sig (new_Track None) 0 1 60%Z 60%Z None None None);
    try (cbn; lra).
  constructor.
Defined.

End AuthoringFacts.

(** ** piece: MIDI file data *)

Module MidiFacts.

Import Music Timeline Authoring Midi JsFacts TimelineFacts.
#[local] Open Scope Z_scope.

(** *** Variable-length quantities *)

Lemma land_127 (v : Z) : Z.land v 127 = v mod 128.
Proof. change 127 with (Z.ones 7). rewrite Z.land_ones by lia. reflexivity. Qed.

Lemma shiftr_7 (v : Z) : Z.shiftr v 7 = v / 128.
Proof. rewrite Z.shiftr_div_pow2 by lia. reflexivity. Qed.

(** The first loop of [writeVarLen] ends on a non-negative integer, within
    as many iterations as the integer has groups of seven bits. *)
Lemma varLen_groups_nonneg (fuel : nat) (v : Z) :
  0 <= v < 128 ^ Z.of_nat fuel -> (0 < fuel)%nat ->
  exists bytes,
    varLen_groups fuel v = Some bytes /\
    Forall (fun b => 0 <= b < 128) bytes /\
    (1 <= List.length bytes <= fuel)%nat /\
    groups_value bytes = v.
Proof.
  revert v. induction fuel as [|fuel IH]; intros v Hv Hf; [lia|].
  cbn [varLen_groups]. cbv zeta. rewrite land_127, shiftr_7.
  assert (Hmod : 0 <= v mod 128 < 128) by (apply Z.mod_pos_bound; lia).
  destruct (v / 128 =? 0) eqn:E.
  - apply Z.eqb_eq in E. exists [v mod 128].
    split; [reflexivity|]. split; [repeat constructor; lia|].
    split; [cbn; lia|]. cbn.
    pose proof (Z.div_mod v 128). lia.
  - apply Z.eqb_neq in E.
    assert (Hdiv : 0 <= v / 128 < 128 ^ Z.of_nat fuel).
    { split; [apply Z.div_pos; lia|].
      apply Z.div_lt_upper_bound; [lia|].
      rewrite Nat2Z.inj_succ, Z.pow_succ_r in Hv by lia. lia. }
    assert (Hfuel : (0 < fuel)%nat).
    { destruct fuel; [|lia]. cbn in Hdiv. lia. }
    destruct (IH (v / 128) Hdiv Hfuel) as (bytes & Hg & Hall & Hlen & Hval).
    rewrite Hg. exists (v mod 128 :: bytes).
    split; [reflexivity|]. split; [constructor; assumption|].
    split; [cbn; lia|]. cbn [groups_value fold_right].
    fold (groups_value bytes). rewrite Hval.
    pose proof (Z.div_mod v 128). lia.
Qed.

(** On a negative integer it does not end: [>>] keeps the sign. *)
Lemma varLen_groups_negative (fuel : nat) (v : Z) :
  v < 0 -> varLen_groups fuel v = None.
Proof.
  revert v. induction fuel as [|fuel IH]; intros v Hv; [reflexivity|].
  cbn [varLen_groups]. cbv zeta.
  assert (Hs : Z.shiftr v 7 < 0) by (apply Z.shiftr_neg; exact Hv).
  replace (Z.shiftr v 7 =? 0) with false by (symmetry; apply Z.eqb_neq; lia).
  rewrite IH by exact Hs. reflexivity.
Qed.

Lemma lor_128 (b : Z) : 0 <= b < 128 -> Z.lor 128 b = 128 + b.
Proof.
  intros Hb.
  assert (Hland : Z.land 128 b = 0); [|
    rewrite <- Z.lxor_lor by exact Hland;
    rewrite <- Z.add_nocarry_lxor by exact Hland; reflexivity].
  apply Z.bits_inj'. intros n Hn. rewrite Z.land_spec, Z.bits_0.
  destruct (Z.eq_dec n 7) as [->|Hne].
  - replace (Z.testbit b 7) with false; [apply andb_false_r|].
    symmetry. apply Z.bits_above_log2; [lia|].
    destruct (Z.eq_dec b 0) as [->|Hb0]; [cbn; lia|].
    apply Z.log2_lt_pow2; lia.
  - replace (Z.testbit 128 n) with false; [reflexivity|].
    symmetry. change 128 with (2 ^ 7). apply Z.pow2_bits_false. lia.
Qed.

(** The value of seven-bit groups, most significant group first, on top
    of [acc]. *)
Lemma groups_value_rev (bytes : list Z) (acc : Z) :
  fold_left (fun a b => a * 128 + b) (rev bytes) acc =
  acc * 128 ^ Z.of_nat (List.length bytes) + groups_value bytes.
Proof.
  revert acc. induction bytes as [|b bytes IH]; intros acc; cbn [rev].
  - cbn. lia.
  - rewrite fold_left_app. cbn [fold_left]. rewrite IH.
    cbn [List.length groups_value fold_right]. fold (groups_value bytes).
    rewrite Nat2Z.inj_succ, Z.pow_succ_r by lia. ring.
Qed.

Lemma readVarLen_varLen_bytes (l rest : list Z) (acc : Z) :
  l <> [] -> Forall (fun b => 0 <= b < 128) l ->
  readVarLen acc (varLen_bytes l ++ rest) =
  Some (fold_left (fun a b => a * 128 + b) l acc, rest).
Proof.
  revert acc. induction l as [|b l IH]; intros acc Hne Hall; [congruence|].
  inversion Hall as [|? ? Hb Hl]; subst.
  destruct l as [|b' l'].
  - cbn. rewrite land_127, Z.mod_small by lia.
    replace (b <? 128) with true by (symmetry; apply Z.ltb_lt; lia).
    reflexivity.
  - cbn [varLen_bytes app readVarLen]. cbv zeta.
    rewrite lor_128 by lia.
    replace (128 + b <? 128) with false by (symmetry; apply Z.ltb_ge; lia).
    rewrite land_127.
    replace ((128 + b) mod 128) with b.
    2:{ rewrite <- (Z.mod_small b 128) at 1 by lia.
        replace (128 + b) with (b + 1 * 128) by lia.
        rewrite Z.mod_add by lia. reflexivity. }
    rewrite IH by (try discriminate; assumption). reflexivity.
Qed.

Lemma varLen_bytes_range (l : list Z) :
  Forall (fun b => 0 <= b < 128) l ->
  Forall (fun b => 0 <= b <= 255) (varLen_bytes l) /\
  List.length (varLen_bytes l) = List.length l.
Proof.
  induction 1 as [|b l Hb Hl [IH1 IH2]]; [split; [constructor | reflexivity]|].
  destruct l as [|b' l'].
  - split; [repeat constructor; lia | reflexivity].
  - cbn [varLen_bytes]. split.
    + constructor; [rewrite lor_128 by lia; lia | exact IH1].
    + change (S (List.length (varLen_bytes (b' :: l'))) =
              S (List.length (b' :: l'))).
      rewrite IH2. reflexivity.
Qed.

(** *** Writes at the end of the array *)

Lemma Qle_bool_inject (b : Z) : b <= 255 -> Qle_bool (inject_Z b) 255 = true.
Proof.
  intros H. apply Qle_bool_iff. change 255%Q with (inject_Z 255).
  rewrite <- Zle_Qle. exact H.
Qed.

Lemma appended_appending (bytes : list Q) (ws : writer_state) :
  appending ws -> appending (appended bytes ws).
Proof.
  unfold appending, appended. cbn. intros H.
  rewrite length_app, length_map, H. reflexivity.
Qed.

Lemma appended_app (b1 b2 : list Q) (ws : writer_state) :
  appended b2 (appended b1 ws) = appended (b1 ++ b2) ws.
Proof.
  unfold appended. cbn. rewrite map_app, app_assoc, length_app, Nat.add_assoc.
  reflexivity.
Qed.

Lemma writeByte_append (val : Q) (ws : writer_state) :
  appending ws -> Qle_bool val 255 = true ->
  writeByte val ws = Some (Returned (tt, appended [val] ws)).
Proof.
  unfold appending, writeByte, and_then, check, appended, array_set.
  intros Ha Hle. rewrite Hle, Ha. cbn [data writeIdx].
  rewrite Nat.ltb_irrefl, Nat.sub_diag. cbn [repeat app map List.length].
  rewrite Nat.add_1_r. reflexivity.
Qed.

Lemma writeByteZ_append (b : Z) (ws : writer_state) :
  appending ws -> b <= 255 ->
  writeByteZ b ws = Some (Returned (tt, appended [inject_Z b] ws)).
Proof.
  intros Ha Hb. apply writeByte_append; [exact Ha|].
  apply Qle_bool_inject. exact Hb.
Qed.

Lemma varLen_write_append (l : list Z) (ws : writer_state) :
  appending ws -> Forall (fun b => 0 <= b < 128) l ->
  varLen_write l ws =
  Some (Returned (tt, appended (map inject_Z (varLen_bytes l)) ws)).
Proof.
  intros Ha Hall. revert ws Ha.
  induction Hall as [|b l Hb Hl IH]; intros ws Ha.
  - cbn. unfold ret, appended. cbn. rewrite app_nil_r, Nat.add_0_r.
    destruct ws; reflexivity.
  - destruct l as [|b' l'].
    + cbn [varLen_write varLen_bytes map]. apply writeByteZ_append; [exact Ha | lia].
    + cbn [varLen_write varLen_bytes map]. unfold and_then.
      rewrite writeByteZ_append by (try exact Ha; rewrite lor_128; lia).
      rewrite IH by (apply appended_appending; exact Ha).
      rewrite appended_app. reflexivity.
Qed.

Lemma ToInt32_small (v : Z) : 0 <= v < 2 ^ 31 -> ToInt32 v = v.
Proof.
  intros H. unfold ToInt32.
  rewrite Z.mod_small by (change (2 ^ 32) with (2 * 2 ^ 31); lia). lia.
Qed.

(** X14.  [writeVarLen] and the variable-length quantities of the
    MIDI file format.  For an integer from 0 to [2^31 - 1], written at
    the end of the array, [writeVarLen] returns after appending one to
    five bytes, each from 0 to 255, and a reader of the format that is
    given these bytes, followed by any others, reads the integer back
    and stops at the bytes that follow.  For an integer whose 32-bit
    conversion is negative, such as [2^31], the first loop of
    [writeVarLen] does not end, whatever the number of iterations
    allowed. *)
Theorem writeVarLen_round_trip (val : Z) (ws : writer_state)
  (Hend : appending ws)
  (Hval : 0 <= val < 2 ^ 31) :
  (exists bytes,
     writeVarLen val ws =
       Some (Returned (tt, appended (map inject_Z bytes) ws)) /\
     (1 <= List.length bytes <= 5)%nat /\
     Forall (fun b => 0 <= b <= 255) bytes /\
     forall rest, readVarLen 0 (bytes ++ rest) = Some (val, rest)) /\
  (forall val' fuel, ToInt32 val' < 0 ->
     varLen_groups fuel (ToInt32 val') = None) /\
  ToInt32 (2 ^ 31) < 0.
Proof.
  split; [|split].
  - unfold writeVarLen. rewrite ToInt32_small by exact Hval.
    destruct (@varLen_groups_nonneg 5 val) as (groups & Hg & Hall & Hlen & Hv).
    { change (128 ^ Z.of_nat 5) with (2 ^ 31 * 16). lia. }
    { lia. }
    rewrite Hg.
    assert (Hrev : Forall (fun b => 0 <= b < 128) (rev groups)).
    { apply Forall_rev. exact Hall. }
    destruct (varLen_bytes_range Hrev) as [Hrange Hlen'].
    exists (varLen_bytes (rev groups)).
    split; [apply varLen_write_append; assumption|].
    split; [rewrite Hlen', length_rev; exact Hlen|].
    split; [exact Hrange|].
    intros rest. rewrite readVarLen_varLen_bytes.
    + rewrite groups_value_rev, Hv. reflexivity.
    + intros Hnil. apply (f_equal (@List.length Z)) in Hnil.
      rewrite length_rev in Hnil. cbn in Hnil. lia.
    + exact Hrev.
  - intros val' fuel Hneg. apply varLen_groups_negative. exact Hneg.
  - vm_compute. reflexivity.
Qed.

(** 200 ticks are written as the two bytes [0x81 0x48]. *)
Lemma writeVarLen_round_trip_witness :
  exists bytes,
    writeVarLen 200 {| data := []; writeIdx := 0 |} =
      Some (Returned (tt, appended (map inject_Z bytes)
                                   {| data := []; writeIdx := 0 |})) /\
    readVarLen 0 (bytes ++ [144; 60; 127]) = Some (200, [144; 60; 127]).
Proof.
  destruct (@writeVarLen_round_trip 200 {| data := []; writeIdx := 0 |}
              eq_refl) as [(bytes & Hw & _ & _ & Hr) _].
  - lia.
  - exists bytes. split; [exact Hw | apply Hr].
Defined.

(** *** The file *)

Lemma appended_nil (ws : writer_state) : appended [] ws = ws.
Proof.
  destruct ws. unfold appended. cbn. rewrite app_nil_r, Nat.add_0_r.
  reflexivity.
Qed.

Lemma appends_seq (m1 m2 : writer unit) (b1 b2 : list Q) :
  appends m1 b1 -> appends m2 b2 -> appends (m1 ;> m2) (b1 ++ b2).
Proof.
  intros H1 H2 ws Ha. unfold and_then. rewrite (H1 ws Ha).
  rewrite (H2 _ (appended_appending b1 Ha)). rewrite appended_app.
  reflexivity.
Qed.

Lemma appends_ret : appends (ret tt) [].
Proof. intros ws _. unfold ret. rewrite appended_nil. reflexivity. Qed.

Lemma appends_check (msg : string) : appends (check true msg) [].
Proof. intros ws _. unfold check. rewrite appended_nil. reflexivity. Qed.

Lemma appends_writeByte (val : Q) :
  Qle_bool val 255 = true -> appends (writeByte val) [val].
Proof. intros H ws Ha. apply writeByte_append; assumption. Qed.

Lemma appends_writeByteZ (b : Z) :
  b <= 255 -> appends (writeByteZ b) [inject_Z b].
Proof. intros H ws Ha. apply writeByteZ_append; assumption. Qed.

Lemma appends_writeVarLen (val : Z) :
  0 <= val < 2 ^ 31 ->
  appends (writeVarLen val) (map inject_Z (varLen_encoding val)).
Proof.
  intros Hval ws Ha. unfold writeVarLen, varLen_encoding.
  rewrite ToInt32_small by exact Hval.
  destruct (@varLen_groups_nonneg 5 val) as (groups & Hg & Hall & _).
  { change (128 ^ Z.of_nat 5) with (2 ^ 31 * 16). lia. }
  { lia. }
  rewrite Hg. apply varLen_write_append; [exact Ha|].
  apply Forall_rev. exact Hall.
Qed.

Lemma appends_cons (m1 m2 : writer unit) (b : Q) (bytes : list Q) :
  appends m1 [b] -> appends m2 bytes -> appends (m1 ;> m2) (b :: bytes).
Proof. intros H1 H2. apply (@appends_seq m1 m2 [b] bytes H1 H2). Qed.

Lemma appends_map_app (m1 m2 : writer unit) (b1 b2 : list Z) :
  appends m1 (map inject_Z b1) -> appends m2 (map inject_Z b2) ->
  appends (m1 ;> m2) (map inject_Z (b1 ++ b2)).
Proof. intros H1 H2. rewrite map_app. apply appends_seq; assumption. Qed.

Lemma deltaTicks_nonneg (p : Piece) (prevEvent event : SynthEvt) :
  (0 <= beatsPerMin p)%Q -> (time prevEvent <= time event)%Q ->
  0 <= deltaTicks_of p prevEvent event.
Proof.
  intros Hbpm Hle. unfold deltaTicks_of.
  assert (H : (0 <= beatsPerMin p / 60 * 500
                    * (time event - time prevEvent))%Q).
  { apply Qmult_le_0_compat; [|lra].
    apply Qmult_le_0_compat; [|lra].
    apply Qle_shift_div_l; lra. }
  pose proof (Qle_ceiling (beatsPerMin p / 60 * 500
                           * (time event - time prevEvent))) as Hc.
  assert (Hz : (inject_Z 0 <= inject_Z (Qceiling (beatsPerMin p / 60 * 500
                           * (time event - time prevEvent))))%Q).
  { change (inject_Z 0) with 0%Q. lra. }
  rewrite <- Zle_Qle in Hz. exact Hz.
Qed.

Lemma appends_write_event (p : Piece) (prevEvent : option SynthEvt)
  (event : SynthEvt) :
  match prevEvent with
  | Some pe => 0 <= deltaTicks_of p pe event < 2 ^ 31
  | None => True
  end ->
  note_of event <= 255 ->
  appends (write_event (beatsPerMin p / 60 * inject_Z 500)%Q prevEvent event)
          (map inject_Z (event_bytes p prevEvent event)).
Proof.
  intros Hdelta Hnote. unfold write_event, event_bytes. cbv zeta.
  set (deltaTicks := Qceiling _).
  assert (Hd : deltaTicks = match prevEvent with
                            | Some pe => deltaTicks_of p pe event
                            | None => 0
                            end).
  { subst deltaTicks. destruct prevEvent as [pe|]; [reflexivity|].
    rewrite Qmult_0_r. reflexivity. }
  rewrite Hd.
  assert (Hrange : 0 <= match prevEvent with
                        | Some pe => deltaTicks_of p pe event
                        | None => 0
                        end < 2 ^ 31).
  { destruct prevEvent; [exact Hdelta | lia]. }
  replace (0 <=? _) with true by (symmetry; apply Z.leb_le; lia).
  change (map inject_Z (?a ++ ?b)) with (map inject_Z (a ++ b)).
  rewrite <- (app_nil_l (map inject_Z _)).
  apply appends_seq; [apply appends_check|].
  apply appends_map_app; [apply appends_writeVarLen; exact Hrange|].
  destruct event as [t note vel | t note | t]; cbn [note_of] in Hnote.
  - apply (@appends_map_app _ _ [144] [note; _]);
      [apply appends_writeByteZ; lia|].
    apply (@appends_map_app _ _ [note] [_]);
      [apply appends_writeByteZ; exact Hnote|].
    apply appends_writeByteZ. lia.
  - apply (@appends_map_app _ _ [128] [note; 0]);
      [apply appends_writeByteZ; lia|].
    apply (@appends_map_app _ _ [note] [0]);
      [apply appends_writeByteZ; exact Hnote|].
    apply appends_writeByteZ. lia.
  - apply appends_ret.
Qed.

Lemma appends_write_events (p : Piece) (all : list SynthEvt)
  (events : list SynthEvt) (prevEvent : option SynthEvt) :
  (0 <= beatsPerMin p)%Q ->
  (forall e1 e2, In e1 all -> In e2 all -> deltaTicks_of p e1 e2 < 2 ^ 31) ->
  (forall e, In e all -> note_of e <= 255) ->
  incl events all ->
  StronglySorted le_time events ->
  match prevEvent with
  | Some pe => In pe all /\ Forall (le_time pe) events
  | None => True
  end ->
  appends (write_events (beatsPerMin p / 60 * inject_Z 500)%Q prevEvent events)
          (map inject_Z (events_bytes p prevEvent events)).
Proof.
  intros Hbpm Hdelta Hnotes. revert prevEvent.
  induction events as [|e events IH]; intros prevEvent Hincl Hs Hprev.
  - apply appends_ret.
  - cbn [write_events events_bytes].
    assert (He : In e all) by (apply Hincl; left; reflexivity).
    inversion Hs as [|? ? Hs' Hle]; subst.
    apply appends_map_app.
    + apply appends_write_event; [|apply Hnotes; exact He].
      destruct prevEvent as [pe|]; [|exact I].
      destruct Hprev as [Hpe Hall]. inversion Hall; subst.
      split; [apply deltaTicks_nonneg; assumption | apply Hdelta; assumption].
    + apply IH; [intros x Hx; apply Hincl; right; exact Hx | exact Hs' |].
      split; assumption.
Qed.

(** The bytes of [(val >> k) & 0xFF] for a 32-bit size. *)
Lemma shifted_byte_size (n : Z) (k : Z) :
  0 <= n < 2 ^ 32 -> 0 <= k <= 24 ->
  shifted_byte n k = n / 2 ^ k mod 256.
Proof.
  intros Hn Hk. unfold shifted_byte, ToInt32.
  change 255 with (Z.ones 8). rewrite Z.land_ones by lia.
  rewrite Z.shiftr_div_pow2 by lia.
  change (2 ^ 8) with 256.
  assert (E31 : 2 ^ 31 = 2147483648) by reflexivity.
  assert (E32 : 2 ^ 32 = 4294967296) by reflexivity.
  assert (E : 4294967296 = 2 ^ (24 - k) * 256 * 2 ^ k).
  { rewrite <- E32. change 256 with (2 ^ 8).
    rewrite <- !Z.pow_add_r by lia. f_equal. lia. }
  rewrite E31, E32 in *.
  destruct (Z.lt_ge_cases n 2147483648) as [Hlt|Hge].
  - clear E. rewrite (Z.mod_small (n + 2147483648) 4294967296) by lia.
    replace (n + 2147483648 - 2147483648) with n by lia. reflexivity.
  - replace ((n + 2147483648) mod 4294967296)
      with (n + 2147483648 - 4294967296).
    2:{ clear E. apply Z.mod_unique with (q := 1); lia. }
    replace (n + 2147483648 - 4294967296 - 2147483648)
      with (n - 4294967296) by (clear E; lia).
    rewrite E.
    replace (n - 2 ^ (24 - k) * 256 * 2 ^ k)
      with (n + (- (2 ^ (24 - k) * 256)) * 2 ^ k) by lia.
    rewrite Z.div_add by (apply Z.pow_nonzero; lia).
    replace (n / 2 ^ k + - (2 ^ (24 - k) * 256))
      with (n / 2 ^ k + (- 2 ^ (24 - k)) * 256) by lia.
    apply Z.mod_add. lia.
Qed.

Lemma bytes_value_size_bytes (n : Z) :
  0 <= n < 2 ^ 32 -> bytes_value (size_bytes n) = n.
Proof.
  intros Hn. unfold bytes_value, size_bytes. cbn [fold_left].
  change (2 ^ 24) with 16777216. change (2 ^ 16) with 65536.
  change (2 ^ 8) with 256. change (2 ^ 32) with 4294967296 in Hn.
  pose proof (Z.div_mod n 256).
  pose proof (Z.div_mod (n / 256) 256).
  pose proof (Z.div_mod (n / 256 / 256) 256).
  replace (n / 65536) with (n / 256 / 256)
    by (rewrite Z.div_div by lia; reflexivity).
  replace (n / 16777216) with (n / 256 / 256 / 256)
    by (rewrite !Z.div_div by lia; reflexivity).
  assert (n / 256 / 256 / 256 < 256).
  { rewrite !Z.div_div by lia. apply Z.div_lt_upper_bound; lia. }
  assert (0 <= n / 256 / 256 / 256).
  { rewrite !Z.div_div by lia. apply Z.div_pos; lia. }
  rewrite (Z.mod_small (n / 256 / 256 / 256)) by lia.
  lia.
Qed.

Lemma header_written :
  (writeDWORD 1297377380 ;> writeDWORD 6 ;> writeWORD 0 ;> writeWORD 1 ;>
   writeWORD 500 ;> writeDWORD 1297379947 ;> writeDWORD 0)
    {| data := []; writeIdx := 0 |} =
  Some (Returned
          (tt, {| data := map Some (map inject_Z header_bytes) ++
                          [Some 0%Q; Some 0%Q; Some 0%Q; Some 0%Q];
                  writeIdx := 22 |})).
Proof. vm_compute. reflexivity. Qed.

Lemma appends_small_varLen (val : Z) :
  (val = 0 \/ val = 3 \/ val = 4) ->
  appends (writeVarLen val) [inject_Z val].
Proof.
  intros H ws Ha.
  destruct H as [-> | [-> | ->]]; unfold writeVarLen;
    cbn [varLen_groups ToInt32]; apply writeByteZ_append;
    try exact Ha; lia.
Qed.

Lemma body_appends (p : Piece) (sig : TimeSignature) (track : Track) :
  sorted_by_time (events track) ->
  (0 <= beatsPerMin p)%Q ->
  Qle_bool (beatsPerBar sig) 255 = true ->
  Qfloor (8 * (4 / noteVal sig)) <= 255 ->
  (forall e, In e (events track) -> note_of e <= 255) ->
  (forall e1 e2, In e1 (events track) -> In e2 (events track) ->
     deltaTicks_of p e1 e2 < 2 ^ 31) ->
  appends
    (writeVarLen 0 ;> writeByteZ 255 ;> writeByteZ 81 ;> writeVarLen 3 ;>
     writeByteZ (shifted_byte (trunc (60000000 / beatsPerMin p)) 16) ;>
     writeByteZ (shifted_byte (trunc (60000000 / beatsPerMin p)) 8) ;>
     writeByteZ (shifted_byte (trunc (60000000 / beatsPerMin p)) 0) ;>
     writeVarLen 0 ;> writeByteZ 255 ;> writeByteZ 88 ;> writeVarLen 4 ;>
     writeByte (beatsPerBar sig) ;>
     writeByteZ 2 ;>
     writeByteZ 24 ;>
     writeByteZ (Qfloor (8 * (4 / noteVal sig))) ;>
     writeVarLen 0 ;> writeByteZ 192 ;> writeByteZ 0 ;>
     write_events (beatsPerMin p / 60 * inject_Z 500)%Q None (events track) ;>
     writeVarLen 0 ;> writeByteZ 255 ;> writeByteZ 47 ;> writeVarLen 0)
    (track_body p sig track).
Proof.
  intros Hsorted Hbpm Hbar H32 Hnotes Hdelta.
  assert (Hbyte : forall v k, shifted_byte v k <= 255).
  { intros v k. unfold shifted_byte. change 255 with (Z.ones 8) at 1.
    rewrite Z.land_ones by lia.
    pose proof (Z.mod_pos_bound (Z.shiftr (ToInt32 v) k) (2 ^ 8)). lia. }
  unfold track_body. cbv zeta. cbn [map app].
  repeat match goal with
         | |- appends (writeByteZ _ ;> _) (_ :: _) =>
             apply appends_cons;
             [apply appends_writeByteZ; first [lia | apply Hbyte | exact H32]|]
         | |- appends (writeVarLen _ ;> _) (_ :: _) =>
             apply appends_cons; [apply appends_small_varLen; tauto|]
         | |- appends (writeByte _ ;> _) (_ :: _) =>
             apply appends_cons; [apply appends_writeByte; exact Hbar|]
         end.
  apply appends_map_app.
  - apply (@appends_write_events p (events track));
      try assumption; try exact I.
    + intros e He. exact He.
    + apply sorted_strongly. exact Hsorted.
  - cbn [map].
    repeat match goal with
           | |- appends (writeByteZ _ ;> _) (_ :: _) =>
               apply appends_cons; [apply appends_writeByteZ; lia|]
           | |- appends (writeVarLen _ ;> _) (_ :: _) =>
               apply appends_cons; [apply appends_small_varLen; tauto|]
           end.
    apply appends_small_varLen. tauto.
Qed.


Lemma array_set_middle (pre rest : list (option Q)) (old : option Q)
  (val : Q) :
  array_set (List.length pre) val (pre ++ old :: rest) =
  pre ++ Some val :: rest.
Proof.
  unfold array_set.
  replace (List.length pre <? List.length (pre ++ old :: rest))%nat with true
    by (symmetry; apply Nat.ltb_lt; rewrite length_app; cbn; lia).
  rewrite firstn_app, firstn_all, Nat.sub_diag. cbn [firstn].
  rewrite app_nil_r.
  replace (S (List.length pre)) with (List.length (pre ++ [old]))
    by (rewrite length_app; cbn; lia).
  replace (pre ++ old :: rest) with ((pre ++ [old]) ++ rest)
    by (rewrite <- app_assoc; reflexivity).
  rewrite skipn_app, skipn_all, Nat.sub_diag. reflexivity.
Qed.

Lemma writeByteZ_middle (pre rest : list (option Q)) (old : option Q)
  (b : Z) :
  b <= 255 ->
  writeByteZ b {| data := pre ++ old :: rest; writeIdx := List.length pre |} =
  Some (Returned (tt, {| data := (pre ++ [Some (inject_Z b)]) ++ rest;
                         writeIdx := List.length (pre ++ [Some (inject_Z b)]) |})).
Proof.
  intros Hb. unfold writeByteZ, writeByte, and_then, check.
  rewrite Qle_bool_inject by exact Hb. cbn [data writeIdx].
  rewrite array_set_middle, <- app_assoc, length_app. cbn [app List.length].
  rewrite Nat.add_1_r. reflexivity.
Qed.

(** Writing the size over the four bytes kept for it. *)
Lemma size_written (pre rest : list (option Q)) (z1 z2 z3 z4 : option Q)
  (n : Z) :
  0 <= n < 2 ^ 32 ->
  exists idx,
    writeDWORD n {| data := pre ++ z1 :: z2 :: z3 :: z4 :: rest;
                    writeIdx := List.length pre |} =
    Some (Returned (tt, {| data := pre ++ map Some (map inject_Z (size_bytes n))
                                       ++ rest;
                           writeIdx := idx |})).
Proof.
  intros Hn.
  assert (Hb : forall k, 0 <= k <= 24 -> shifted_byte n k <= 255).
  { intros k Hk. rewrite shifted_byte_size by assumption.
    pose proof (Z.mod_pos_bound (n / 2 ^ k) 256). lia. }
  unfold writeDWORD. unfold and_then at 1. unfold check.
  replace (n <=? 4294967295) with true
    by (symmetry; apply Z.leb_le; change (2 ^ 32) with 4294967296 in Hn; lia).
  unfold and_then.
  rewrite writeByteZ_middle by (apply Hb; lia).
  rewrite writeByteZ_middle by (apply Hb; lia).
  rewrite writeByteZ_middle by (apply Hb; lia).
  rewrite writeByteZ_middle by (apply Hb; lia).
  rewrite <- !app_assoc. cbn [app].
  rewrite !shifted_byte_size by (try assumption; lia).
  unfold size_bytes. cbn [map]. change (2 ^ 0) with 1. rewrite Z.div_1_r.
  eexists. reflexivity.
Qed.

(** X15.  The MIDI file of a track.  For a sorted track, a tempo
    that is not negative, a number of beats per bar of at most 255, a
    note value that is not 0 and gives at most 255 thirty-second notes
    per quarter, note numbers of at most 255, delta times below [2^31]
    ticks and a track chunk shorter than [2^32] bytes, [getMIDIData]
    returns: no assertion fails and every loop ends.  The array it
    returns has no hole; it is the header "MThd" and the head of the
    track chunk "MTrk", then the four bytes of the size of the track
    chunk, which written over the zeros kept for them give the number of
    bytes that follow, then the content of the track chunk, which ends
    with the end-of-track event [00 FF 2F 00]. *)
Theorem getMIDIData_file (p : Piece) (sig : TimeSignature) (track : Track)
  (Hsorted : sorted_by_time (events track))
  (Hbpm : (0 <= beatsPerMin p)%Q)
  (Hbar : (beatsPerBar sig <= 255)%Q)
  (Hval : ~ (noteVal sig == 0)%Q)
  (H32 : Qfloor (8 * (4 / noteVal sig)) <= 255)
  (Hnotes : forall e, In e (events track) -> note_of e <= 255)
  (Hdelta : forall e1 e2, In e1 (events track) -> In e2 (events track) ->
     deltaTicks_of p e1 e2 < 2 ^ 31)
  (Hsize : Z.of_nat (List.length (track_body p sig track)) < 2 ^ 32) :
  let body := track_body p sig track in
  let size := Z.of_nat (List.length body) in
  getMIDIData p sig track =
    Some (Returned (map Some (map inject_Z header_bytes ++
                              map inject_Z (size_bytes size) ++ body))) /\
  bytes_value (size_bytes size) = size /\
  Forall (fun b => 0 <= b <= 255) (size_bytes size) /\
  exists pre, body = pre ++ map inject_Z [0; 255; 47; 0].
Proof.
  cbv zeta.
  assert (Hn : 0 <= Z.of_nat (List.length (track_body p sig track)) < 2 ^ 32)
    by lia.
  split; [|split; [|split]].
  - unfold getMIDIData. cbv zeta. rewrite header_written.
    replace (Qeq_bool (noteVal sig) 0) with false.
    2:{ symmetry. destruct (Qeq_bool (noteVal sig) 0) eqn:E; [|reflexivity].
        apply Qeq_bool_iff in E. contradiction. }
    set (ws1 := {| data := map Some (map inject_Z header_bytes) ++
                           [Some 0%Q; Some 0%Q; Some 0%Q; Some 0%Q];
                   writeIdx := 22 |}).
    assert (Hws1 : appending ws1) by reflexivity.
    assert (Hbar' : Qle_bool (beatsPerBar sig) 255 = true)
      by (apply Qle_bool_iff; exact Hbar).
    rewrite (@body_appends p sig track Hsorted Hbpm Hbar' H32 Hnotes Hdelta
               ws1 Hws1).
    replace (List.length (data ws1) - 4)%nat with 18%nat by reflexivity.
    cbn [data appended].
    replace (Z.of_nat (List.length (data ws1 ++
                                    map Some (track_body p sig track)))
             - Z.of_nat (18 + 4))
      with (Z.of_nat (List.length (track_body p sig track))).
    2:{ rewrite length_app, length_map.
        replace (List.length (data ws1)) with 22%nat by reflexivity. lia. }
    subst ws1. cbn [data]. rewrite <- app_assoc. cbn [app].
    change 18%nat with (List.length (map Some (map inject_Z header_bytes))).
    destruct (@size_written (map Some (map inject_Z header_bytes))
                (map Some (track_body p sig track))
                (Some 0%Q) (Some 0%Q) (Some 0%Q) (Some 0%Q) _ Hn)
      as (idx & Hw).
    rewrite Hw. cbn [data]. rewrite !map_app. reflexivity.
  - apply bytes_value_size_bytes. exact Hn.
  - unfold size_bytes.
    repeat constructor;
      match goal with
      | |- _ <= ?x mod 256 => pose proof (Z.mod_pos_bound x 256); lia
      | |- ?x mod 256 <= _ => pose proof (Z.mod_pos_bound x 256); lia
      end.
  - unfold track_body. cbv zeta.
    eexists. rewrite !map_app, !app_assoc. reflexivity.
Qed.

(** One note of half a second at 120 beats per minute: 500 ticks, written
    as [0x83 0x74]; the track chunk has 31 bytes. *)
Lemma getMIDIData_file_witness :
  let p := {| tracks := []; playTime := 0; loopTime := 0; prevTime := 0;
              beatsPerMin := 120 |} in
  let sig := {| beatsPerBar := 4; noteVal := 4 |} in
  let track := {| events := [NoteOnEvt 0 60 1; NoteOffEvt (1 # 2) 60];
                  target := None |} in
  getMIDIData p sig track =
    Some (Returned
            (map Some
               (map inject_Z
                  (header_bytes ++ [0; 0; 0; 31] ++
                   [0; 255; 81; 3; 7; 161; 32; 0; 255; 88; 4; 4; 2; 24; 8;
                    0; 192; 0;
                    0; 144; 60; 127; 131; 116; 128; 60; 0;
                    0; 255; 47; 0])))).
Proof.
  intros p sig track.
  destruct (@getMIDIData_file p sig track) as [H _].
  - repeat constructor. unfold le_time. cbn. lra.
  - cbn. lra.
  - cbn. lra.
  - cbn. intros H. discriminate H.
  - vm_compute. discriminate.
  - intros e [<-|[<-|[]]]; cbn; lia.
  - intros e1 e2 [<-|[<-|[]]] [<-|[<-|[]]]; vm_compute; reflexivity.
  - vm_compute. reflexivity.
  - rewrite H. vm_compute. reflexivity.
Defined.

End MidiFacts.

(** ** synth: connections, nodes, channels, re-ordering *)

Module WiringFacts.

Import Timeline Synth Wiring JsFacts SynthFacts.

(** *** [connect] *)

Lemma indexOf_None (x : nat) (l : list nat) :
  indexOf x l = None <-> ~ In x l.
Proof.
  induction l as [|y l IH]; cbn.
  - split; [intros _ [] | reflexivity].
  - destruct (y =? x)%nat eqn:E.
    + apply Nat.eqb_eq in E. split; [discriminate | intros H; exfalso; auto].
    + apply Nat.eqb_neq in E.
      destruct (indexOf x l) as [idx|].
      * split; [discriminate|]. intros H. exfalso. apply H. right.
        destruct (in_dec Nat.eq_dec x l) as [Hin|Hin]; [exact Hin|].
        apply IH in Hin. discriminate.
      * split; [|reflexivity]. intros _ [H|H]; [congruence|].
        apply IH in H; [exact H | reflexivity].
Qed.

Lemma connect_returned (st st' : store) (o : OutputId) (dst : InputId) :
  connect st o dst = Returned st' ->
  ~ In dst (dsts (output st o)) /\ src (input st dst) = None /\
  (same_chans (out_numChans (output st o)) (in_numChans (input st dst))
   || (out_numChans (output st o) =? 1)%nat) = true /\
  st' = {| output := upd o (set_dsts_field (dsts (output st o) ++ [dst])
                                           (output st o))
                         (output st);
           input := upd dst (set_src_field (Some o) (input st dst))
                        (input st);
           node_outputs := node_outputs st;
           node_inputs := node_inputs st;
           inEdges := inEdges st |}.
Proof.
  unfold connect.
  destruct (indexOf dst (dsts (output st o))) as [idx|] eqn:E1;
    [discriminate|].
  destruct (src (input st dst)) as [o'|] eqn:E2; [discriminate|].
  cbn [is_undefined assert bind].
  destruct (same_chans _ _ || _) eqn:E3; [|discriminate].
  cbn [assert bind]. intros H. inversion H; subst.
  apply indexOf_None in E1. repeat split; assumption.
Qed.

(** X16.  [connect] and the connection invariant.  On a store in
    which sources and destinations mirror each other, [connect] returns
    exactly when the input has no source and the channel counts agree or
    the output is mono.  When it returns, the input's source is the
    output, the input is the last destination of the output, no other
    port has changed, and sources and destinations still mirror each
    other.  Afterwards every [connect] to the same input throws, from
    any output: an input has at most one source. *)
Theorem connect_mirror (st : store) (o : OutputId) (dst : InputId)
  (Hok : ports_ok st) :
  ((exists st', connect st o dst = Returned st') <->
   src (input st dst) = None /\
   (same_chans (out_numChans (output st o)) (in_numChans (input st dst))
    || (out_numChans (output st o) =? 1)%nat) = true) /\
  forall st', connect st o dst = Returned st' ->
    src (input st' dst) = Some o /\
    dsts (output st' o) = dsts (output st o) ++ [dst] /\
    (forall i, i <> dst -> input st' i = input st i) /\
    (forall o', o' <> o -> output st' o' = output st o') /\
    node_outputs st' = node_outputs st /\
    node_inputs st' = node_inputs st /\
    ports_ok st' /\
    forall o', exists msg, connect st' o' dst = Threw msg.
Proof.
  destruct Hok as [Hnd Hmirror]. split.
  - split.
    + intros [st' H]. apply connect_returned in H. tauto.
    + intros [Hsrc Hch]. unfold connect.
      assert (Hnin : indexOf dst (dsts (output st o)) = None).
      { apply indexOf_None. intros Hin. apply Hmirror in Hin. congruence. }
      rewrite Hnin, Hsrc. cbn [is_undefined assert bind].
      rewrite Hch. cbn [assert bind]. eexists. reflexivity.
  - intros st' H. apply connect_returned in H.
    destruct H as (Hnin & Hsrc & Hch & ->). cbn [input output node_outputs
      node_inputs].
    assert (Hsrc' : src (upd dst (set_src_field (Some o) (input st dst))
                             (input st) dst) = Some o).
    { unfold upd. rewrite Nat.eqb_refl. reflexivity. }
    assert (Hdsts' : dsts (upd o (set_dsts_field (dsts (output st o) ++ [dst])
                                                 (output st o))
                               (output st) o) = dsts (output st o) ++ [dst]).
    { unfold upd. rewrite Nat.eqb_refl. reflexivity. }
    split; [exact Hsrc'|]. split; [exact Hdsts'|].
    split.
    { intros i Hi. unfold upd.
      destruct (i =? dst)%nat eqn:E; [|reflexivity].
      apply Nat.eqb_eq in E. contradiction. }
    split.
    { intros o' Ho'. unfold upd.
      destruct (o' =? o)%nat eqn:E; [|reflexivity].
      apply Nat.eqb_eq in E. contradiction. }
    split; [reflexivity|]. split; [reflexivity|].
    split.
    + split; cbn [input output].
      * intros o'. unfold upd. destruct (o' =? o)%nat eqn:E.
        -- cbn. apply NoDup_app; [apply Hnd | repeat constructor; intros [] |].
           intros x Hx [<-|[]]. contradiction.
        -- apply Hnd.
      * intros o' i. unfold upd.
        destruct (Nat.eqb_spec o' o) as [->|Eo],
                 (Nat.eqb_spec i dst) as [->|Ei]; cbn.
        -- split; [reflexivity|]. intros _. apply in_app_iff. right. left.
           reflexivity.
        -- rewrite in_app_iff. rewrite <- Hmirror. cbn. split.
           ++ intros [H|[H|[]]]; [exact H | congruence].
           ++ intros H. left. exact H.
        -- split.
           ++ intros Hin. apply Hmirror in Hin. congruence.
           ++ intros H. inversion H. congruence.
        -- apply Hmirror.
    + intros o'. unfold connect. cbn [input output].
      destruct (indexOf dst _) as [idx|]; cbn [is_undefined assert bind];
        [eexists; reflexivity|].
      rewrite Hsrc'. cbn [is_undefined assert bind]. eexists. reflexivity.
Qed.

Lemma connect_mirror_witness :
  let st := {| output := fun o =>
                 {| out_node := 0%nat; out_name := "output";
                    out_numChans := 1%nat;
                    buffers := [SYNTH_ZERO_BUF]; hasData := false;
                    dsts := [] |};
               input := fun i =>
                 {| in_node := 1%nat; in_name := "signal";
                    in_numChans := Some 2%nat; src := None |};
               node_outputs := fun n => match n with 0%nat => [0%nat] | _ => [] end;
               node_inputs := fun n => match n with 1%nat => [0%nat] | _ => [] end;
               inEdges := fun _ => None |} in
  exists st', connect st 0%nat 0%nat = Returned st'.
Proof.
  intros st.
  assert (Hok : ports_ok st).
  { split.
    - intros o. constructor.
    - intros o i. cbn. split; [intros [] | discriminate]. }
  apply (@connect_mirror st 0%nat 0%nat Hok).
  split; reflexivity.
Defined.

(** *** [addNode] *)

Lemma new_SynthNet_ok (is_OutNode : NodeId -> bool) (sampleRate : Q)
  (net : SynthNet) :
  new_SynthNet sampleRate = Returned net ->
  nodes_ok is_OutNode net /\ order net = Some [].
Proof.
  unfold new_SynthNet. destruct (isPosInt sampleRate); [|discriminate].
  cbn. intros H. inversion H; subst. cbn. split; [|reflexivity].
  split; [constructor|]. intros n. cbn. split; [discriminate | tauto].
Qed.

(** X17.  [addNode] and the node invariant.  On a network in
    which a node is listed once and [outNode] is the one [OutNode] among
    the nodes, [addNode] returns exactly when the node is not in the
    network and is not a second [OutNode]; a node that is in the network
    is refused with 'node already in network'.  When it returns, the node
    is the last of the nodes, the invariant holds again, and the ordering
    is invalidated: [genOutput] throws 'node ordering not found' on every
    store, until [orderNodes] is run again. *)
Theorem addNode_invalidates_order (is_OutNode : NodeId -> bool)
  (net : SynthNet) (node : NodeId)
  (Hok : nodes_ok is_OutNode net) :
  ((exists net', addNode is_OutNode net node = Returned net') <->
   ~ In node (nodes net) /\
   (is_OutNode node = true -> outNode net = None)) /\
  (In node (nodes net) ->
   addNode is_OutNode net node = Threw "node already in network") /\
  forall net', addNode is_OutNode net node = Returned net' ->
    nodes net' = nodes net ++ [node] /\
    sampleRate net' = sampleRate net /\
    nodes_ok is_OutNode net' /\
    order net' = None /\
    forall update_calls st time,
      genOutput update_calls st net' time = Threw "node ordering not found".
Proof.
  destruct Hok as [Hnd Hout].
  assert (Hret : forall net', addNode is_OutNode net node = Returned net' ->
            ~ In node (nodes net) /\
            (is_OutNode node = true -> outNode net = None) /\
            net' = {| sampleRate := sampleRate net;
                      nodes := nodes net ++ [node];
                      outNode := if is_OutNode node then Some node
                                 else outNode net;
                      order := None |}).
  { intros net'. unfold addNode.
    destruct (indexOf node (nodes net)) as [idx|] eqn:E1; [discriminate|].
    cbn [is_undefined assert bind].
    destruct (is_OutNode node) eqn:E2; cbn [andb negb].
    - destruct (outNode net) as [n|] eqn:E3; cbn; [discriminate|].
      intros H. inversion H; subst. apply indexOf_None in E1. tauto.
    - cbn. intros H. inversion H; subst. apply indexOf_None in E1.
      split; [exact E1|]. split; [discriminate | reflexivity]. }
  split; [split|split].
  - intros [net' H]. apply Hret in H. tauto.
  - intros [Hnin Hone]. unfold addNode.
    apply indexOf_None in Hnin. rewrite Hnin.
    cbn [is_undefined assert bind].
    destruct (is_OutNode node) eqn:E2; cbn [andb negb].
    + rewrite (Hone eq_refl). cbn. eexists. reflexivity.
    + cbn. eexists. reflexivity.
  - intros Hin. unfold addNode.
    destruct (indexOf_In _ _ Hin) as [idx Hidx]. rewrite Hidx. reflexivity.
  - intros net' H. apply Hret in H. destruct H as (Hnin & Hone & ->).
    cbn [nodes sampleRate order outNode].
    split; [reflexivity|]. split; [reflexivity|].
    split; [|split; [reflexivity | reflexivity]].
    split; cbn [nodes outNode].
    + apply NoDup_app; [exact Hnd | repeat constructor; intros [] |].
      intros x Hx [<-|[]]. contradiction.
    + intros n. rewrite in_app_iff. cbn [In].
      destruct (is_OutNode node) eqn:E2.
      * specialize (Hone eq_refl). split.
        -- intros H. inversion H; subst. tauto.
        -- intros [[Hin|[<-|[]]] Hn]; [|reflexivity].
           exfalso. assert (Hsome : outNode net = Some n) by (apply Hout; tauto).
           congruence.
      * rewrite Hout. split.
        -- intros [Hin Hn]. tauto.
        -- intros [[Hin|[<-|[]]] Hn]; [tauto | congruence].
Qed.

Lemma addNode_invalidates_order_witness :
  exists net',
    addNode (fun n => (n =? 2)%nat) example_net 3%nat = Returned net' /\
    nodes net' = [2; 1; 0; 3]%nat /\
    genOutput example_update_calls example_store net' 0 =
      Threw "node ordering not found".
Proof.
  assert (Hok : nodes_ok (fun n => (n =? 2)%nat) example_net).
  { split; cbn.
    - repeat constructor; cbn; intuition discriminate.
    - intros n. split.
      + intros Hn. inversion Hn; subst. split; [left|]; reflexivity.
      + intros [_ Hn]. apply Nat.eqb_eq in Hn. subst. reflexivity. }
  destruct (@addNode_invalidates_order (fun n => (n =? 2)%nat) example_net
              3%nat Hok) as (Hiff & _ & Hadd).
  destruct (proj2 Hiff) as [net' Hnet'].
  { split; [cbn; intuition discriminate | discriminate]. }
  destruct (Hadd net' Hnet') as (Hnodes & _ & _ & _ & Hgen).
  exists net'. split; [exact Hnet'|]. split; [exact Hnodes | apply Hgen].
Defined.

(** *** Channels *)

(** X18.  Channels of a connected input whose source has data.
    A mono source feeds every channel asked for: [getBuffer(c)] returns
    the source's only buffer, whatever [c] is.  A channel below the
    source's channel count gets the source's buffer of that channel.  A
    channel at or above the channel count of a source that is not mono
    is refused with 'invalid chan idx: ' followed by the channel index.
    [OutNode.getBuffer] is [getBuffer] on its [signal] input, so a mono
    instrument reaches both channels of the stereo output node. *)
Theorem getBuffer_channels (st : store) (i : InputId) (o : OutputId)
  (c : nat)
  (Hsrc : src (input st i) = Some o)
  (Hdata : hasData (output st o) = true) :
  (out_numChans (output st o) = 1%nat ->
   SynthInput_getBuffer st i (Some c) =
     Returned (nth_error (buffers (output st o)) 0)) /\
  ((c < out_numChans (output st o))%nat ->
   SynthInput_getBuffer st i (Some c) =
     Returned (nth_error (buffers (output st o)) c)) /\
  (out_numChans (output st o) <> 1%nat ->
   (out_numChans (output st o) <= c)%nat ->
   SynthInput_getBuffer st i (Some c) =
     Threw (String.append "invalid chan idx: " (chanIdx_text (Some c)))) /\
  OutNode_getBuffer st i c = SynthInput_getBuffer st i (Some c).
Proof.
  unfold OutNode_getBuffer, SynthInput_getBuffer. rewrite Hsrc, Hdata.
  cbn [is_undefined andb negb assert bind chan_lt].
  split; [|split; [|split]].
  - intros H1. rewrite H1. rewrite Nat.eqb_refl, orb_true_r.
    cbn [assert bind].
    destruct c as [|c]; [reflexivity|]. cbn. reflexivity.
  - intros Hlt.
    replace (c <? out_numChans (output st o))%nat with true
      by (symmetry; apply Nat.ltb_lt; exact Hlt).
    cbn [orb assert bind].
    replace (out_numChans (output st o) <=? c)%nat with false
      by (symmetry; apply Nat.leb_gt; exact Hlt).
    reflexivity.
  - intros Hne Hle.
    replace (c <? out_numChans (output st o))%nat with false
      by (symmetry; apply Nat.ltb_ge; exact Hle).
    replace (out_numChans (output st o) =? 1)%nat with false
      by (symmetry; apply Nat.eqb_neq; exact Hne).
    reflexivity.
  - reflexivity.
Qed.

(** The mono effect of the example network read on the second channel
    of the output node; and a stereo source asked for a third channel. *)
Lemma getBuffer_channels_witness :
  let st := set_hasData 1%nat true example_store in
  OutNode_getBuffer st 1%nat 1%nat = Returned (Some (repeat 1 256)) /\
  let stereo :=
    {| output := fun _ =>
         {| out_node := 1%nat; out_name := "output"; out_numChans := 2%nat;
            buffers := [repeat 1 256; repeat 1 256]; hasData := true;
            dsts := [1%nat] |};
       input := example_input;
       node_outputs := node_outputs example_store;
       node_inputs := node_inputs example_store;
       inEdges := fun _ => None |} in
  SynthInput_getBuffer stereo 1%nat (Some 2%nat) =
    Threw "invalid chan idx: 2".
Proof.
  split.
  - destruct (@getBuffer_channels (set_hasData 1%nat true example_store)
                1%nat 1%nat 1%nat eq_refl eq_refl)
      as (Hmono & _ & _ & Hout).
    rewrite Hout. rewrite (Hmono eq_refl). reflexivity.
  - intros stereo.
    destruct (@getBuffer_channels stereo 1%nat 1%nat 2%nat eq_refl eq_refl)
      as (_ & _ & Hrefused & _).
    apply Hrefused; cbn; [discriminate | lia].
Defined.

(** *** Running [orderNodes] again *)

Section Again.

Variables (st : store) (net : SynthNet).
Hypothesis wf : well_formed st net.

Lemma order_inv_agree (os os' : order_state) (R pend : list edge) :
  agree net os os' -> order_inv st net os R pend ->
  order_inv st net os' R pend.
Proof.
  intros (He & Hn & HS & HL) H.
  constructor; try rewrite <- HS; try rewrite <- HL; try rewrite <- Hn;
    try apply H.
  intros v Hv. rewrite <- (He v Hv). apply (inv_edges H v Hv).
Qed.

Lemma agree_refl (os : order_state) : agree net os os.
Proof. repeat split. Qed.

Lemma remove_edge_agree (os os' : order_state) (e : edge) :
  agree net os os' -> In (edge_dst st e) (nodes net) ->
  agree_outcome net (remove_edge st (fst e) os (snd e))
                    (remove_edge st (fst e) os' (snd e)).
Proof.
  intros (He & Hn & HS & HL) Hdst. unfold remove_edge, edge_dst in *.
  rewrite <- (He _ Hdst).
  destruct (edges os (in_node (input st (snd e)))) as [es|]; [|reflexivity].
  destruct (indexOf (fst e) es) as [idx|]; [|reflexivity].
  cbn. unfold agree. cbn. rewrite HS, HL, Hn.
  split; [|repeat split].
  intros v Hv. unfold upd. destruct (v =? _)%nat; [reflexivity | apply He, Hv].
Qed.

Lemma for_each_remove_agree (pend : list edge) (os os' : order_state) :
  (forall e, In e pend -> In (edge_dst st e) (nodes net)) ->
  agree net os os' ->
  agree_outcome net
    (for_each (fun os e => remove_edge st (fst e) os (snd e)) pend os)
    (for_each (fun os e => remove_edge st (fst e) os (snd e)) pend os').
Proof.
  revert os os'. induction pend as [|e pend IH]; intros os os' Hdst Hag.
  - exact Hag.
  - cbn [for_each].
    pose proof (@remove_edge_agree os os' e Hag (Hdst e (or_introl eq_refl)))
      as H1.
    destruct (remove_edge st (fst e) os (snd e)) as [os1|msg],
             (remove_edge st (fst e) os' (snd e)) as [os1'|msg'];
      cbn in H1; try contradiction; cbn [bind].
    + apply IH; [|exact H1]. intros e' He'. apply Hdst. right. exact He'.
    + exact H1.
Qed.

Lemma out_edges_dst (u : NodeId) (e : edge) :
  In u (nodes net) -> In e (out_edges st u) ->
  In (edge_dst st e) (nodes net).
Proof.
  intros Hu He. apply (@out_edges_all_edges st net wf u e Hu) in He.
  destruct He as [He _]. apply (@In_all_edges st net wf) in He. tauto.
Qed.

Lemma drain_agree (fuel : nat) (os os' : order_state) (R : list edge) :
  agree net os os' -> order_inv st net os R [] ->
  match drain fuel st os, drain fuel st os' with
  | Some r, Some r' => agree_outcome net r r'
  | None, None => True
  | _, _ => False
  end.
Proof.
  revert os os' R. induction fuel as [|fuel IH]; intros os os' R Hag H.
  - cbn. pose proof Hag as (He & Hn & HS & HL). rewrite <- HS.
    destruct (S_ os); [|exact I]. cbn. exact Hag.
  - cbn [drain]. pose proof Hag as (He & Hn & HS & HL). rewrite <- HS.
    destruct (S_ os) as [|u rest] eqn:HSu.
    + cbn. exact Hag.
    + pose proof (@pop_inv st net wf os R u rest H HSu) as Hpop.
      assert (Hu : In u (nodes net)).
      { apply (inv_ready H). rewrite HSu. left. reflexivity. }
      destruct (@for_each_remove_inv st net wf _ _ _ Hpop)
        as (os1 & R1 & E1 & H1 & _ & _).
      rewrite !process_node_out_edges.
      assert (Hag' : agree net
                {| edges := edges os; numEdges := numEdges os;
                   S_ := rest; L_ := L_ os ++ [u] |}
                {| edges := edges os'; numEdges := numEdges os';
                   S_ := rest; L_ := L_ os' ++ [u] |}).
      { unfold agree. cbn. rewrite HL, Hn. repeat split. exact He. }
      pose proof (@for_each_remove_agree (out_edges st u) _ _
                    (fun e He => @out_edges_dst u e Hu He) Hag') as Hfe.
      rewrite E1 in *.
      destruct (for_each (fun os e => remove_edge st (fst e) os (snd e))
                  (out_edges st u)
                  {| edges := edges os'; numEdges := numEdges os';
                     S_ := rest; L_ := L_ os' ++ [u] |}) as [os1'|msg];
        cbn in Hfe; [|contradiction].
      apply (IH os1 os1' R1 Hfe H1).
Qed.

Lemma drain_set_inEdges (e : NodeId -> option (list OutputId)) (fuel : nat)
  (os : order_state) :
  drain fuel (set_inEdges e st) os = drain fuel st os.
Proof.
  revert os. induction fuel as [|fuel IH]; intros os; cbn [drain].
  - reflexivity.
  - destruct (S_ os) as [|u rest]; [reflexivity|].
    change (process_node (set_inEdges e st)) with (process_node st).
    destruct (process_node st _ u); [apply IH | reflexivity].
Qed.

Lemma orderNodes_stale (e : NodeId -> option (list OutputId))
  (st1 : store) (net1 : SynthNet) :
  orderNodes st net = Some (Returned st1, net1) ->
  exists st2, orderNodes (set_inEdges e st) net = Some (Returned st2, net1).
Proof.
  unfold orderNodes. cbv zeta.
  change (visit_node (set_inEdges e st)) with (visit_node st).
  change (inEdges (set_inEdges e st)) with e.
  pose proof (@phase1_inv st net wf (inEdges st)) as H1. cbv zeta in H1.
  pose proof (@phase1_inv st net wf e) as H1'. cbv zeta in H1'.
  set (os1 := fold_left (visit_node st) (nodes net)
                {| edges := inEdges st; numEdges := 0; S_ := []; L_ := [] |})
    in *.
  set (os1' := fold_left (visit_node st) (nodes net)
                 {| edges := e; numEdges := 0; S_ := []; L_ := [] |}) in *.
  assert (Hag : agree net os1 os1').
  { destruct (@fold_visit st (nodes net)
                {| edges := inEdges st; numEdges := 0; S_ := []; L_ := [] |})
      as (HL & Hn & He & _ & HS).
    destruct (@fold_visit st (nodes net)
                {| edges := e; numEdges := 0; S_ := []; L_ := [] |})
      as (HL' & Hn' & He' & _ & HS').
    fold os1 in HL, Hn, He, HS. fold os1' in HL', Hn', He', HS'.
    unfold agree. rewrite HL, HL', Hn, Hn', HS, HS'. cbn.
    repeat split. intros v Hv. rewrite (He v Hv), (He' v Hv). reflexivity. }
  pose proof Hag as (_ & Hn & HS & _).
  rewrite drain_set_inEdges. rewrite <- Hn, <- HS.
  pose proof (@drain_agree (List.length (S_ os1) + Z.to_nat (numEdges os1))
                os1 os1' _ Hag H1) as Hd.
  destruct (drain _ st os1) as [[os|msg]|]; try discriminate;
    destruct (drain _ st os1') as [[os'|msg']|]; cbn in Hd;
      try contradiction.
  destruct Hd as (_ & Hn2 & _ & HL2). rewrite <- Hn2, <- HL2.
  destruct (negb (numEdges os =? 0)%Z); [discriminate|].
  destruct (negb (List.length (L_ os) =? List.length (nodes net))%nat);
    [discriminate|].
  intros H. inversion H; subst. eexists. reflexivity.
Qed.

Lemma orderNodes_empties (st1 : store) (net1 : SynthNet) :
  orderNodes st net = Some (Returned st1, net1) ->
  (forall v, In v (nodes net) -> inEdges st1 v = Some []) /\
  exists L, net1 = set_order (Some L) net /\
            output st1 = output st /\ input st1 = input st /\
            node_outputs st1 = node_outputs st /\
            node_inputs st1 = node_inputs st.
Proof.
  intros Hrun.
  destruct (@orderNodes_result st net wf) as (os & R & Hinv & HS & Hnil & Hcyc).
  destruct R as [|e0 R].
  - destruct (Hnil eq_refl) as [Hres _]. rewrite Hres in Hrun.
    inversion Hrun; subst. split.
    + intros v Hv. cbn.
      destruct (inv_edges Hinv v Hv) as (es & Hes & Hperm).
      rewrite Hes. apply Permutation_sym, Permutation_nil in Hperm.
      rewrite Hperm. reflexivity.
    + exists (L_ os). repeat split.
  - rewrite Hcyc in Hrun by discriminate. discriminate.
Qed.

End Again.

Lemma well_formed_set (st : store) (net : SynthNet)
  (e : NodeId -> option (list OutputId)) (order : option (list NodeId)) :
  well_formed st net -> well_formed (set_inEdges e st) (set_order order net).
Proof.
  intros wf. constructor; cbn; apply wf.
Qed.

(** X19.  Running [orderNodes] again.  After a run that returned
    on a well-formed network, the [inEdges] array of every node of the
    network is empty.  The order computed does not depend on what the
    nodes hold in [inEdges] before the run, so a second run, on the
    objects the first one left, returns and finds the same order. *)
Theorem orderNodes_again (st st1 : store) (net net1 : SynthNet)
  (wf : well_formed st net)
  (Hrun : orderNodes st net = Some (Returned st1, net1)) :
  (forall v, In v (nodes net) -> inEdges st1 v = Some []) /\
  (forall e, exists st2,
     orderNodes (set_inEdges e st) net = Some (Returned st2, net1)) /\
  exists st2,
    orderNodes st1 net1 = Some (Returned st2, net1) /\
    forall v, In v (nodes net) -> inEdges st2 v = Some [].
Proof.
  destruct (@orderNodes_empties st net wf st1 net1 Hrun)
    as (Hempty & L & Hnet1 & Ho & Hi & Hno & Hni).
  split; [exact Hempty|]. split.
  - intros e. apply (@orderNodes_stale st net wf e st1 net1 Hrun).
  - assert (Hst1 : st1 = set_inEdges (inEdges st1) st).
    { destruct st1. cbn in *. subst. reflexivity. }
    assert (wf1 : well_formed st1 net1).
    { rewrite Hst1, Hnet1. apply well_formed_set. exact wf. }
    destruct (@orderNodes_stale st net wf (inEdges st1) st1 net1 Hrun)
      as (st2 & H2).
    rewrite <- Hst1 in H2.
    assert (H2' : orderNodes st1 net1 = Some (Returned st2, net1)).
    { rewrite Hnet1 in *. clear - H2. revert H2. unfold orderNodes.
      cbv zeta. cbn [nodes set_order].
      destruct (drain _ st1 _) as [[os|msg]|]; try discriminate.
      destruct (negb (numEdges os =? 0)%Z); [discriminate|].
      destruct (negb (List.length (L_ os) =? List.length (nodes net))%nat);
        [discriminate|].
      intros H. inversion H. reflexivity. }
    exists st2. split; [exact H2'|].
    destruct (@orderNodes_empties st1 net1 wf1 st2 net1 H2') as (He2 & _).
    intros v Hv. apply He2. rewrite Hnet1. exact Hv.
Qed.

Lemma orderNodes_again_witness :
  exists st1 st2,
    orderNodes example_store example_net =
      Some (Returned st1, set_order (Some [0; 1; 2]%nat) example_net) /\
    orderNodes st1 (set_order (Some [0; 1; 2]%nat) example_net) =
      Some (Returned st2, set_order (Some [0; 1; 2]%nat) example_net).
Proof.
  assert (Hrun : exists st1,
            orderNodes example_store example_net =
              Some (Returned st1, set_order (Some [0; 1; 2]%nat) example_net)).
  { eexists. vm_compute. reflexivity. }
  destruct Hrun as (st1 & Hrun).
  destruct (@orderNodes_again example_store st1 example_net _
              example_well_formed Hrun) as (_ & _ & st2 & H2 & _).
  exists st1, st2. split; assumption.
Defined.

End WiringFacts.

(** ** effects: the overdrive *)

Module EffectsFacts.

Import Timeline Synth Effects JsFacts SynthFacts.
#[local] Open Scope Q_scope.

Lemma Qabs_cases (s : Q) :
  (0 <= s /\ Qabs s == s) \/ (s < 0 /\ Qabs s == - s).
Proof.
  destruct (Qlt_le_dec s 0) as [H|H].
  - right. split; [exact H|]. apply Qabs_neg. lra.
  - left. split; [exact H|]. apply Qabs_pos. exact H.
Qed.

Lemma Qabs_opp_cases (s : Q) : Qabs (- s) == Qabs s.
Proof. apply Qabs_opp. Qed.

(** The clipped magnitude, above the threshold. *)
Lemma clip_above (od : Overdrive) (x : Q) :
  threshold od < Qabs (x * gain od) ->
  clip od x =
  if Qltb 0 (x * gain od)
  then Qabs (x * gain od) - (Qabs (x * gain od) - threshold od)
       + 1 / factor od * (Qabs (x * gain od) - threshold od)
  else - (Qabs (x * gain od) - (Qabs (x * gain od) - threshold od)
          + 1 / factor od * (Qabs (x * gain od) - threshold od)).
Proof.
  intros H. unfold clip. cbv zeta.
  replace (Qltb 0 (Qabs (x * gain od) - threshold od)) with true
    by (symmetry; apply Qltb_lt; lra).
  reflexivity.
Qed.

Lemma clip_below (od : Overdrive) (x : Q) :
  Qabs (x * gain od) <= threshold od -> clip od x = x * gain od.
Proof.
  intros H. unfold clip. cbv zeta.
  replace (Qltb 0 (Qabs (x * gain od) - threshold od)) with false
    by (symmetry; apply Qltb_ge; lra).
  reflexivity.
Qed.

(** X20.  The overdrive is a soft clipper.  With a threshold that is
    not negative and a factor of at least 1: a sample whose magnitude
    after the gain is at most the threshold is passed with the gain
    applied; above the threshold the excess is divided by the factor and
    the sign is kept; the output is never louder than the input after
    the gain; the curve is odd; and with the factor of 1 that the
    constructor sets, nothing is clipped. *)
Theorem clip_soft (od : Overdrive) (x : Q)
  (Hthreshold : 0 <= threshold od)
  (Hfactor : 1 <= factor od) :
  (Qabs (x * gain od) <= threshold od -> clip od x == x * gain od) /\
  (threshold od < Qabs (x * gain od) ->
   Qabs (clip od x) ==
     threshold od + (Qabs (x * gain od) - threshold od) / factor od /\
   (0 < x * gain od <-> 0 < clip od x)) /\
  Qabs (clip od x) <= Qabs (x * gain od) /\
  clip od (- x) == - clip od x /\
  (factor od == 1 -> clip od x == x * gain od).
Proof.
  assert (Hinv : 0 < 1 / factor od <= 1).
  { split.
    - apply Qlt_shift_div_l; lra.
    - apply Qle_shift_div_r; lra. }
  set (f := 1 / factor od) in *.
  assert (Hdiv : forall y, y / factor od == f * y).
  { intros y. subst f. field. lra. }
  assert (Habove : threshold od < Qabs (x * gain od) ->
            Qabs (clip od x) == threshold od + f * (Qabs (x * gain od)
                                                    - threshold od) /\
            (0 < x * gain od <-> 0 < clip od x)).
  { intros H. rewrite (@clip_above od x H). fold f.
    destruct (Qabs_cases (x * gain od)) as [[Hs Ha]|[Hs Ha]].
    - rewrite Ha in H.
      replace (Qltb 0 (x * gain od)) with true
        by (symmetry; apply Qltb_lt; lra).
      rewrite Ha.
      assert (Hpos : 0 <= x * gain od - (x * gain od - threshold od)
                          + f * (x * gain od - threshold od)) by nra.
      rewrite (Qabs_pos _ Hpos). split; [ring|].
      split; intros _; nra.
    - rewrite Ha in H.
      replace (Qltb 0 (x * gain od)) with false
        by (symmetry; apply Qltb_ge; lra).
      rewrite Qabs_opp, Ha.
      assert (Hpos : 0 <= - (x * gain od) - (- (x * gain od) - threshold od)
                          + f * (- (x * gain od) - threshold od)) by nra.
      rewrite (Qabs_pos _ Hpos). split; [ring|].
      split; intros H'; nra. }
  split; [|split; [|split; [|split]]].
  - intros H. rewrite (@clip_below od x H). reflexivity.
  - intros H. destruct (Habove H) as [H1 H2].
    split; [|exact H2]. rewrite H1, Hdiv. reflexivity.
  - destruct (Qlt_le_dec (threshold od) (Qabs (x * gain od))) as [H|H].
    + destruct (Habove H) as [H1 _]. rewrite H1. nra.
    + rewrite (@clip_below od x H). lra.
  - assert (Hs : - x * gain od == - (x * gain od)) by ring.
    assert (Ha : Qabs (- x * gain od) == Qabs (x * gain od)).
    { rewrite Hs. apply Qabs_opp. }
    destruct (Qlt_le_dec (threshold od) (Qabs (x * gain od))) as [H|H].
    + assert (H' : threshold od < Qabs (- x * gain od)) by (rewrite Ha; exact H).
      rewrite (@clip_above od x H), (@clip_above od (- x) H').
      fold f.
      destruct (Qabs_cases (x * gain od)) as [[Hx Hax]|[Hx Hax]].
      * rewrite Hax in H.
        replace (Qltb 0 (x * gain od)) with true
          by (symmetry; apply Qltb_lt; lra).
        replace (Qltb 0 (- x * gain od)) with false
          by (symmetry; apply Qltb_ge; lra).
        rewrite Ha. reflexivity.
      * replace (Qltb 0 (x * gain od)) with false
          by (symmetry; apply Qltb_ge; lra).
        replace (Qltb 0 (- x * gain od)) with true
          by (symmetry; apply Qltb_lt; lra).
        rewrite Ha. ring.
    + assert (H' : Qabs (- x * gain od) <= threshold od) by (rewrite Ha; exact H).
      rewrite (@clip_below od x H), (@clip_below od (- x) H'). ring.
  - intros H1.
    assert (Hf1 : f == 1) by (subst f; rewrite H1; reflexivity).
    destruct (Qlt_le_dec (threshold od) (Qabs (x * gain od))) as [H|H].
    + rewrite (@clip_above od x H). fold f.
      destruct (Qabs_cases (x * gain od)) as [[Hx Hax]|[Hx Hax]].
      * rewrite Hax in H.
        replace (Qltb 0 (x * gain od)) with true
          by (symmetry; apply Qltb_lt; lra).
        rewrite Hf1, Hax. ring.
      * replace (Qltb 0 (x * gain od)) with false
          by (symmetry; apply Qltb_ge; lra).
        rewrite Hf1, Hax. ring.
    + rewrite (@clip_below od x H). reflexivity.
Qed.

Lemma clip_soft_witness :
  let od := {| gain := 2; threshold := 7 # 10; factor := 4;
               od_input := 0%nat; od_output := 1%nat |} in
  Qabs (clip od 1) == (7 # 10) + (Qabs (1 * 2) - (7 # 10)) / 4.
Proof.
  intros od.
  apply (@clip_soft od 1); cbn; lra.
Defined.

(** *** The update *)

Lemma write_samples_same_length (samples outBuf : buffer) :
  List.length samples = List.length outBuf ->
  write_samples samples outBuf = samples.
Proof.
  intros H. unfold write_samples.
  rewrite <- H, firstn_all, H, skipn_all, app_nil_r. reflexivity.
Qed.

(** X21.  The update of the overdrive.  Without data on its
    input the effect does nothing: the store is unchanged, so its output
    stays without data and the nodes after it read silence.  With data
    from a mono source, the first channel of its output receives the
    clipped samples of the source, sample by sample, and the output is
    marked as having data; no other output and no input changes.  With
    data from a source that is not mono, the update throws 'invalid chan
    idx: undefined': the input buffer is asked for without a channel. *)
Theorem update_overdrive (od : Overdrive) (st : store) (o : OutputId)
  (Hsrc : src (input st (od_input od)) = Some o) :
  (hasData (output st o) = false -> update od st = Returned st) /\
  (forall inBuf ins outBuf outs,
     hasData (output st o) = true ->
     out_numChans (output st o) = 1%nat ->
     more_than_one (in_numChans (input st (od_input od))) = false ->
     (out_numChans (output st (od_output od)) <= 1)%nat ->
     buffers (output st o) = inBuf :: ins ->
     buffers (output st (od_output od)) = outBuf :: outs ->
     List.length inBuf = List.length outBuf ->
     exists st',
       update od st = Returned st' /\
       buffers (output st' (od_output od)) = map (clip od) inBuf :: outs /\
       hasData (output st' (od_output od)) = true /\
       (forall o', o' <> od_output od -> output st' o' = output st o') /\
       input st' = input st) /\
  (hasData (output st o) = true ->
   out_numChans (output st o) <> 1%nat ->
   more_than_one (in_numChans (input st (od_input od))) = false ->
   update od st = Threw "invalid chan idx: undefined").
Proof.
  unfold update, SynthInput_hasData, SynthInput_getBuffer. rewrite Hsrc.
  split; [|split].
  - intros ->. reflexivity.
  - intros inBuf ins outBuf outs Hdata Hmono Hin Hout Hib Hob Hlen.
    rewrite Hdata, Hin, Hmono, Hib.
    cbn [negb is_undefined andb assert bind chan_lt orb Nat.eqb Nat.leb
         nth_error].
    unfold SynthOutput_getBuffer.
    replace (1 <? out_numChans (output st (od_output od)))%nat with false
      by (symmetry; apply Nat.ltb_ge; exact Hout).
    cbn [is_undefined andb negb assert bind fst snd].
    assert (Hbuf : buffers (output (set_hasData (od_output od) true st)
                                   (od_output od)) = outBuf :: outs).
    { cbn. rewrite Nat.eqb_refl. cbn. exact Hob. }
    rewrite Hbuf. cbn [nth_error].
    eexists. split; [reflexivity|].
    cbn [set_channel output input]. unfold upd at 1 2.
    rewrite Nat.eqb_refl. cbn [set_buffers_field buffers hasData].
    rewrite Hbuf. cbn [firstn skipn app].
    rewrite write_samples_same_length by (rewrite length_map; exact Hlen).
    split; [reflexivity|]. split.
    { cbn. rewrite Nat.eqb_refl. reflexivity. }
    split; [|reflexivity].
    intros o' Ho'. unfold upd.
    destruct (Nat.eqb_spec o' (od_output od)) as [E|E]; [contradiction|].
    cbn. destruct (Nat.eqb_spec o' (od_output od)); [contradiction|].
    reflexivity.
  - intros Hdata Hne Hin. rewrite Hdata, Hin.
    replace (out_numChans (output st o) =? 1)%nat with false
      by (symmetry; apply Nat.eqb_neq; exact Hne).
    reflexivity.
Qed.

(** The effect of the example network with a gain of 2 and a factor of
    4, when the instrument has produced a block of ones. *)
Lemma update_overdrive_witness :
  let od := {| gain := 2; threshold := 7 # 10; factor := 4;
               od_input := 0%nat; od_output := 1%nat |} in
  let st := set_hasData 0%nat true example_store in
  exists st',
    update od st = Returned st' /\
    buffers (output st' 1%nat) = [map (clip od) (repeat 1 256)] /\
    hasData (output st' 1%nat) = true.
Proof.
  intros od st.
  destruct (@update_overdrive od st 0%nat eq_refl) as (_ & H & _).
  destruct (H (repeat 1 256) [] (repeat 1 256) []) as (st' & H1 & H2 & H3 & _);
    try reflexivity.
  exists st'. repeat split; assumption.
Defined.

End EffectsFacts.

(** ** sampling: the sample kit *)

Module SamplingFacts.

Import Music Timeline Synth Effects Sampling JsFacts SynthFacts.
#[local] Open Scope Z_scope.
#[local] Open Scope Q_scope.

Lemma add_samples_length (inBuf : buffer) (p : Z) (vol : Q) (playLen : Z)
  (outBuf : buffer) (outIdx : Z) :
  List.length (add_samples inBuf p vol playLen outBuf outIdx) =
  List.length outBuf.
Proof.
  revert outIdx. induction outBuf as [|y outBuf IH]; intros outIdx; cbn;
    [reflexivity | rewrite IH; reflexivity].
Qed.

Lemma add_samples_nth (inBuf : buffer) (p : Z) (vol : Q) (playLen : Z)
  (outBuf : buffer) (outIdx : Z) (k : nat) :
  (k < List.length outBuf)%nat ->
  nth k (add_samples inBuf p vol playLen outBuf outIdx) 0 =
  if (outIdx + Z.of_nat k <? playLen)%Z
  then nth k outBuf 0 +
       nth (Z.to_nat (p + (outIdx + Z.of_nat k))) inBuf 0 * vol
  else nth k outBuf 0.
Proof.
  revert outIdx k. induction outBuf as [|y outBuf IH]; intros outIdx k Hk;
    cbn in Hk; [lia|].
  destruct k as [|k]; cbn [add_samples nth].
  - replace (outIdx + Z.of_nat 0)%Z with outIdx by lia. reflexivity.
  - rewrite IH by lia.
    replace (outIdx + 1 + Z.of_nat k)%Z with (outIdx + Z.of_nat (S k))%Z
      by lia.
    reflexivity.
Qed.

(** One active sample adds its samples, 0 past its end, to the block. *)
Lemma add_samples_sample_at (bufs : sample_buffers) (act : ActSample)
  (inBuf outBuf : buffer) (k : nat) :
  bufs (data (sample act)) = Some inBuf ->
  (0 <= pos act <= Z.of_nat (List.length inBuf))%Z ->
  (k < List.length outBuf)%nat ->
  nth k (add_samples inBuf (pos act) (volume (sample act))
           (Z.min (Z.of_nat (List.length outBuf))
                  (Z.of_nat (List.length inBuf) - pos act))
           outBuf 0) 0 ==
  nth k outBuf 0 + sample_at bufs act k.
Proof.
  intros Hb Hp Hk. rewrite add_samples_nth by exact Hk.
  unfold sample_at. rewrite Hb.
  replace (Z.to_nat (pos act + (0 + Z.of_nat k)))
    with (Z.to_nat (pos act) + k)%nat by lia.
  destruct (0 + Z.of_nat k <? _)%Z eqn:E; [reflexivity|].
  apply Z.ltb_ge in E.
  rewrite (nth_overflow inBuf) by lia. ring.
Qed.

Lemma Qsum_cons (x : Q) (l : list Q) : Qsum (x :: l) = x + Qsum l.
Proof. reflexivity. Qed.

Lemma play_loop_spec (bufs : sample_buffers) (acts : list ActSample)
  (outBuf : buffer) :
  (forall act, In act acts ->
     bufs (data (sample act)) <> None /\
     (0 <= pos act <= buffer_length bufs act)%Z) ->
  exists outBuf',
    play_loop bufs acts outBuf =
      Returned
        (map (advance (Z.of_nat (List.length outBuf)))
             (filter (fun act => (Z.of_nat (List.length outBuf) <?
                                  buffer_length bufs act - pos act)%Z)
                     acts),
         outBuf') /\
    List.length outBuf' = List.length outBuf /\
    forall k, (k < List.length outBuf)%nat ->
      nth k outBuf' 0 ==
      nth k outBuf 0 + Qsum (map (fun act => sample_at bufs act k) acts).
Proof.
  revert outBuf. induction acts as [|act acts IH]; intros outBuf Hok.
  - exists outBuf. cbn. split; [reflexivity|]. split; [reflexivity|].
    intros k _. ring.
  - destruct (Hok act (or_introl eq_refl)) as [Hloaded Hpos].
    unfold buffer_length in Hpos.
    destruct (bufs (data (sample act))) as [inBuf|] eqn:Hb; [|congruence].
    cbn [play_loop]. rewrite Hb. cbv zeta.
    set (playLen := Z.min (Z.of_nat (List.length outBuf))
                          (Z.of_nat (List.length inBuf) - pos act)).
    set (outBuf1 := add_samples inBuf (pos act) (volume (sample act))
                      playLen outBuf 0).
    assert (Hlen1 : List.length outBuf1 = List.length outBuf)
      by apply add_samples_length.
    destruct (IH outBuf1) as (outBuf' & Hrun & Hlen & Hnth).
    { intros a Ha. apply Hok. right. exact Ha. }
    exists outBuf'. rewrite Hrun. cbn [bind fst snd].
    rewrite Hlen1 in *.
    split; [|split; [exact Hlen|]].
    + assert (Hbl : buffer_length bufs act = Z.of_nat (List.length inBuf))
        by (unfold buffer_length; rewrite Hb; reflexivity).
      cbn [filter]. rewrite Hbl.
      destruct (Z.of_nat (List.length outBuf) <?
                Z.of_nat (List.length inBuf) - pos act)%Z eqn:E.
      * apply Z.ltb_lt in E.
        replace (pos act + playLen =? Z.of_nat (List.length inBuf))%Z
          with false by (symmetry; apply Z.eqb_neq; subst playLen; lia).
        cbn [map]. unfold advance at 2.
        replace (pos act + playLen)%Z
          with (pos act + Z.of_nat (List.length outBuf))%Z
          by (subst playLen; lia).
        reflexivity.
      * apply Z.ltb_ge in E.
        replace (pos act + playLen =? Z.of_nat (List.length inBuf))%Z
          with true by (symmetry; apply Z.eqb_eq; subst playLen; lia).
        reflexivity.
    + intros k Hk. rewrite (Hnth k Hk). cbn [map]. rewrite Qsum_cons.
      subst outBuf1 playLen.
      rewrite (@add_samples_sample_at bufs act inBuf outBuf k Hb Hpos Hk).
      ring.
Qed.

(** One call of [update] of the sample kit. *)
Lemma update_block (bufs : sample_buffers) (kit : SampleKit) (st : store)
  (outBuf : buffer) (outs : list buffer)
  (Hplaying : playing bufs kit)
  (Hbuf : buffers (output st (kit_output kit)) = outBuf :: outs) :
  (actSamples kit = [] -> update bufs kit st = Returned (kit, st)) /\
  (actSamples kit <> [] ->
   exists outBuf' st',
     update bufs kit st =
       Returned
         (set_actSamples
            (map (advance (Z.of_nat (List.length outBuf)))
                 (filter (fun act => (Z.of_nat (List.length outBuf) <?
                                      buffer_length bufs act - pos act)%Z)
                         (actSamples kit)))
            kit,
          st') /\
     buffers (output st' (kit_output kit)) = outBuf' :: outs /\
     hasData (output st' (kit_output kit)) = true /\
     List.length outBuf' = List.length outBuf /\
     forall k, (k < List.length outBuf)%nat ->
       nth k outBuf' 0 ==
       Qsum (map (fun act => sample_at bufs act k) (actSamples kit))).
Proof.
  unfold update. split.
  - intros ->. reflexivity.
  - intros Hne.
    destruct (actSamples kit) as [|a0 acts0] eqn:Eacts; [congruence|].
    cbn [List.length Nat.eqb]. rewrite <- Eacts in *.
    unfold SynthOutput_getBuffer.
    cbn [is_undefined andb negb assert bind fst snd].
    assert (Hb : buffers (output (set_hasData (kit_output kit) true st)
                                 (kit_output kit)) = outBuf :: outs).
    { cbn. rewrite Nat.eqb_refl. cbn. exact Hbuf. }
    rewrite Hb. cbn [nth_error].
    destruct (@play_loop_spec bufs (actSamples kit) (map (fun _ => 0) outBuf)
                Hplaying) as (outBuf' & Hrun & Hlen & Hnth).
    rewrite length_map in *.
    exists outBuf'. eexists. rewrite Hrun. cbn [bind fst snd].
    split; [reflexivity|].
    cbn [set_channel output]. unfold upd. rewrite Nat.eqb_refl.
    cbn [set_buffers_field buffers hasData]. rewrite Hb.
    cbn [firstn skipn app].
    split; [reflexivity|]. split.
    { cbn. rewrite Nat.eqb_refl. reflexivity. }
    split; [exact Hlen|].
    intros k Hk. rewrite (Hnth k Hk).
    assert (H0 : nth k (map (fun _ : Q => 0) outBuf) 0 = 0).
    { clear. revert k. induction outBuf as [|y l IH]; intros [|k]; cbn;
        auto. }
    rewrite H0. ring.
Qed.

(** X22.  One block of the sample kit.  Without active samples
    the update does nothing.  With active samples that are loaded and
    positioned within their buffers, the update returns; every sample of
    the first channel of the output is the sum, over the active samples,
    of the sample at the active sample's position plus the index, times
    its volume, and 0 past the end of its buffer; an active sample with
    more than a block left moves on by a block, the others are removed,
    in place; and the output is marked as having data. *)
Theorem update_plays (bufs : sample_buffers) (kit : SampleKit) (st : store)
  (outBuf : buffer) (outs : list buffer)
  (Hplaying : playing bufs kit)
  (Hbuf : buffers (output st (kit_output kit)) = outBuf :: outs) :
  (actSamples kit = [] -> update bufs kit st = Returned (kit, st)) /\
  (actSamples kit <> [] ->
   exists outBuf' st',
     update bufs kit st =
       Returned
         (set_actSamples
            (map (advance (Z.of_nat (List.length outBuf)))
                 (filter (fun act => (Z.of_nat (List.length outBuf) <?
                                      buffer_length bufs act - pos act)%Z)
                         (actSamples kit)))
            kit,
          st') /\
     buffers (output st' (kit_output kit)) = outBuf' :: outs /\
     hasData (output st' (kit_output kit)) = true /\
     List.length outBuf' = List.length outBuf /\
     forall k, (k < List.length outBuf)%nat ->
       nth k outBuf' 0 ==
       Qsum (map (fun act => sample_at bufs act k) (actSamples kit))).
Proof.
  exact (@update_block bufs kit st outBuf outs Hplaying Hbuf).
Qed.

(** A sample of three frames, triggered and played into a block of two:
    the block holds the first two frames and the sample stays active at
    position 2. *)
Lemma update_plays_witness :
  let bufs := fun _ : SampleId => Some [1; 2; 3] in
  let act := {| sample := {| data := 0%nat; volume := 1 # 2 |};
                pos := 0 |} in
  let kit := {| samples := fun _ => None; actSamples := [act];
                kit_output := 0%nat |} in
  let st := {| output := fun _ =>
                 {| out_node := 0%nat; out_name := "output";
                    out_numChans := 1%nat; buffers := [[7; 7]];
                    hasData := false; dsts := [] |};
               input := example_input;
               node_outputs := fun _ => [0%nat];
               node_inputs := fun _ => [];
               inEdges := fun _ => None |} in
  exists outBuf' st',
    update bufs kit st =
      Returned (set_actSamples [{| sample := sample act; pos := 2 |}] kit,
                st') /\
    buffers (output st' 0%nat) = [outBuf'] /\
    nth 1 outBuf' 0 == 1.
Proof.
  intros bufs act kit st.
  assert (Hplaying : playing bufs kit).
  { intros a [<-|[]]. split; [discriminate|]. cbn. lia. }
  destruct (@update_plays bufs kit st [7; 7] [] Hplaying eq_refl)
    as (_ & H).
  destruct H as (outBuf' & st' & Hrun & Hb & _ & _ & Hnth); [discriminate|].
  exists outBuf', st'. split; [exact Hrun|]. split; [exact Hb|].
  rewrite (Hnth 1%nat) by (cbn; lia). reflexivity.
Defined.

(** *** Sequences of calls *)

Lemma playing_after_update (bufs : sample_buffers) (kit : SampleKit)
  (blockLen : Z) :
  (0 <= blockLen)%Z -> playing bufs kit ->
  playing bufs
    (set_actSamples
       (map (advance blockLen)
            (filter (fun act => (blockLen <?
                                 buffer_length bufs act - pos act)%Z)
                    (actSamples kit)))
       kit).
Proof.
  intros Hlen Hplaying a Ha. cbn in Ha. apply in_map_iff in Ha.
  destruct Ha as (a0 & <- & Ha0). apply filter_In in Ha0.
  destruct Ha0 as [Hin Hlt]. apply Z.ltb_lt in Hlt.
  destruct (Hplaying a0 Hin) as [Hl Hp].
  unfold buffer_length, advance in *. cbn [sample pos]. split; [exact Hl|].
  destruct (bufs (data (sample a0))); lia.
Qed.

Lemma playing_after_event (bufs : sample_buffers) (kit : SampleKit)
  (evt : SynthEvt) :
  playing bufs kit -> playing bufs (processEvent bufs kit evt).
Proof.
  intros Hplaying. destruct evt as [t n v | t n | t]; cbn [processEvent].
  - destruct (samples kit n) as [s|]; [|exact Hplaying].
    destruct (bufs (data s)) as [inBuf|] eqn:Hb; [|exact Hplaying].
    intros a Ha. cbn in Ha. apply in_app_iff in Ha.
    destruct Ha as [Ha|[<-|[]]]; [exact (Hplaying a Ha)|].
    unfold buffer_length. cbn [sample pos data]. rewrite Hb.
    split; [discriminate | lia].
  - exact Hplaying.
  - intros a [].
Qed.

Lemma buffers_of_new_Sample (url : string) (heap : sample_heap)
  (s : SampleId) :
  buffers_of (snd (new_Sample url heap)) s = buffers_of heap s.
Proof.
  unfold buffers_of, new_Sample. cbn [snd].
  destruct (Nat.lt_ge_cases s (List.length heap)) as [Hlt|Hge].
  - rewrite nth_error_app1 by exact Hlt. reflexivity.
  - rewrite nth_error_app2 by exact Hge.
    rewrite (proj2 (nth_error_None heap s) Hge).
    destruct (s - List.length heap)%nat as [|k]; cbn; [reflexivity|].
    destruct k; reflexivity.
Qed.

Lemma buffers_of_decoded (s : SampleId) (b : buffer) (heap : sample_heap)
  (s' : SampleId) :
  s' <> s -> buffers_of (decoded s b heap) s' = buffers_of heap s'.
Proof.
  unfold buffers_of. revert s s'.
  induction heap as [|[url old] heap IH]; intros s s' Hne; [reflexivity|].
  destruct s as [|s], s' as [|s']; cbn [decoded nth_error];
    try reflexivity; try congruence.
  apply IH. congruence.
Qed.

Lemma playing_same_buffers (bufs bufs' : sample_buffers) (kit : SampleKit) :
  (forall act, In act (actSamples kit) ->
     bufs' (data (sample act)) = bufs (data (sample act))) ->
  playing bufs kit -> playing bufs' kit.
Proof.
  intros Hsame Hplaying act Hact. unfold buffer_length.
  rewrite (Hsame act Hact). exact (Hplaying act Hact).
Qed.

Lemma processEvent_output (bufs : sample_buffers) (kit : SampleKit)
  (evt : SynthEvt) :
  kit_output (processEvent bufs kit evt) = kit_output kit.
Proof.
  destruct evt as [t n v | t n | t]; cbn; try reflexivity.
  destruct (samples kit n) as [s|]; [|reflexivity].
  destruct (bufs (data s)); reflexivity.
Qed.

(** One call on a sample kit returns and keeps what the next call
    needs. *)
Lemma kit_step_returns (c : kit_call) (calls : list kit_call)
  (kit : SampleKit) (st : store) (heap : sample_heap) :
  playing (buffers_of heap) kit ->
  buffers (output st (kit_output kit)) <> [] ->
  (forall name sample volume, c = MapSample (inr name) sample volume ->
     exists n, nameToNo name = Returned n) ->
  NoDup (decoded_samples (c :: calls)) ->
  (forall s, In s (decoded_samples (c :: calls)) ->
     buffers_of heap s = None) ->
  exists kit1 st1 heap1,
    kit_step (kit, st, heap) c = Returned (kit1, st1, heap1) /\
    playing (buffers_of heap1) kit1 /\
    kit_output kit1 = kit_output kit /\
    buffers (output st1 (kit_output kit1)) <> [] /\
    (forall s, In s (decoded_samples calls) -> buffers_of heap1 s = None).
Proof.
  intros Hplaying Hbuf Hname Honce Hnew.
  destruct c as [note smp vol | evt | | s b]; cbn [kit_step fst snd].
  - assert (Hnote : exists n,
              match note with
              | inl note => Returned note
              | inr name => nameToNo name
              end = Returned n).
    { destruct note as [n|name]; [exists n; reflexivity|].
      apply (Hname name smp vol eq_refl). }
    destruct Hnote as (n & Hn). unfold mapSample. rewrite Hn.
    cbn [bind fst snd].
    eexists. exists st. eexists. split; [reflexivity|].
    assert (Hsame : forall s,
              buffers_of (snd match smp with
                              | inl sample => (sample, heap)
                              | inr url => new_Sample url heap
                              end) s = buffers_of heap s).
    { intros s. destruct smp as [sample|url]; [reflexivity|].
      apply buffers_of_new_Sample. }
    split.
    { apply (@playing_same_buffers (buffers_of heap)).
      - intros act _. apply Hsame.
      - exact Hplaying. }
    split; [reflexivity|]. split; [exact Hbuf|].
    intros s Hs. rewrite Hsame. apply Hnew. exact Hs.
  - eexists. exists st, heap. split; [reflexivity|].
    split; [apply playing_after_event; exact Hplaying|].
    rewrite processEvent_output.
    split; [reflexivity|]. split; [exact Hbuf|].
    intros s Hs. apply Hnew. exact Hs.
  - destruct (buffers (output st (kit_output kit)))
      as [|outBuf outs] eqn:Eb; [congruence|].
    destruct (@update_block (buffers_of heap) kit st outBuf outs Hplaying Eb)
      as [Hnone Hsome].
    destruct (actSamples kit) as [|a0 acts0] eqn:Eacts.
    + rewrite (Hnone eq_refl). cbn [bind fst snd]. exists kit, st, heap.
      split; [reflexivity|]. split; [exact Hplaying|].
      split; [reflexivity|]. split; [rewrite Eb; discriminate|].
      intros s Hs. apply Hnew. exact Hs.
    + destruct Hsome as (outBuf' & st' & Hrun & Hb' & _); [discriminate|].
      rewrite Hrun. cbn [bind fst snd]. eexists. exists st', heap.
      split; [reflexivity|]. split.
      * rewrite <- Eacts. apply playing_after_update; [lia|].
        exact Hplaying.
      * split; [reflexivity|]. cbn [kit_output set_actSamples].
        split; [rewrite Hb'; discriminate|].
        intros s Hs. apply Hnew. exact Hs.
  - cbn [decoded_samples flat_map app] in Honce, Hnew.
    fold (decoded_samples calls) in Honce, Hnew.
    inversion Honce as [|? ? Hnotin _]; subst.
    exists kit, st, (decoded s b heap). split; [reflexivity|].
    split.
    { apply (@playing_same_buffers (buffers_of heap)); [|exact Hplaying].
      intros act Hact. apply buffers_of_decoded.
      intros E. destruct (Hplaying act Hact) as [Hloaded _].
      apply Hloaded. rewrite E. apply Hnew. left. reflexivity. }
    split; [reflexivity|]. split; [exact Hbuf|].
    intros s' Hs'. rewrite buffers_of_decoded.
    + apply Hnew. right. exact Hs'.
    + intros E. subst s'. contradiction.
Qed.

(** X23.  Calls on a sample kit throw only for a note name that is not
    one.  From a kit whose active samples are loaded and positioned
    within their buffers, and whose output has a first channel, every
    sequence of [mapSample], [processEvent] and [update] calls, with the
    decoder callbacks of the samples in between, returns and leaves such
    a kit, when every note name given to [mapSample] is one that
    [Note.nameToNo] accepts and every sample is decoded at most once: the
    assertion 'invalid input buffer' cannot be reached.  [mapSample] with
    a note name that [Note.nameToNo] refuses throws what [Note.nameToNo]
    throws.  A NoteOn for a note without a mapped sample, or whose sample
    is not loaded yet, is skipped: it leaves the kit as it is. *)
Theorem kit_calls_return (calls : list kit_call)
  (kit : SampleKit) (st : store) (heap : sample_heap)
  (Hplaying : playing (buffers_of heap) kit)
  (Hbuf : buffers (output st (kit_output kit)) <> [])
  (Hnames : forall name sample volume,
     In (MapSample (inr name) sample volume) calls ->
     exists n, nameToNo name = Returned n)
  (Honce : NoDup (decoded_samples calls))
  (Hnew : forall s, In s (decoded_samples calls) ->
     buffers_of heap s = None) :
  (exists kit' st' heap',
     for_each kit_step calls (kit, st, heap) = Returned (kit', st', heap') /\
     playing (buffers_of heap') kit' /\
     kit_output kit' = kit_output kit /\
     buffers (output st' (kit_output kit')) <> []) /\
  (forall name sample volume msg,
     nameToNo name = Threw msg ->
     mapSample kit (inr name) sample volume heap = Threw msg) /\
  (forall t n v,
     samples kit n = None \/
     (exists s, samples kit n = Some s /\ buffers_of heap (data s) = None) ->
     processEvent (buffers_of heap) kit (NoteOnEvt t n v) = kit).
Proof.
  split; [|split].
  - revert kit st heap Hplaying Hbuf Hnames Honce Hnew.
    induction calls as [|c calls IH];
      intros kit st heap Hplaying Hbuf Hnames Honce Hnew.
    + exists kit, st, heap. split; [reflexivity|]. split; [exact Hplaying|].
      split; [reflexivity | exact Hbuf].
    + cbn [for_each].
      destruct (@kit_step_returns c calls kit st heap Hplaying Hbuf)
        as (kit1 & st1 & heap1 & Hs & Hp1 & Ho1 & Hb1 & Hnew1);
        [| exact Honce | exact Hnew |].
      { intros name sample volume ->. apply (Hnames name sample volume).
        left. reflexivity. }
      rewrite Hs. cbn [bind].
      destruct (IH kit1 st1 heap1 Hp1 Hb1)
        as (kit' & st' & heap' & Hrun & Hp' & Ho' & Hb').
      * intros name sample volume Hin. apply (Hnames name sample volume).
        right. exact Hin.
      * cbn [decoded_samples flat_map] in Honce.
        apply NoDup_app_remove_l in Honce. exact Honce.
      * exact Hnew1.
      * exists kit', st', heap'. split; [exact Hrun|]. split; [exact Hp'|].
        split; [congruence | exact Hb'].
  - intros name sample volume msg Hthrew. unfold mapSample.
    rewrite Hthrew. reflexivity.
  - intros t n v [Hnone|(s & Hs & Hb)]; cbn [processEvent].
    + rewrite Hnone. reflexivity.
    + rewrite Hs, Hb. reflexivity.
Qed.

(** The drum kit of the program: two of its samples mapped by note name
    and URL, the first one decoded, both notes played, and two blocks. *)
Lemma kit_calls_return_witness :
  let calls :=
    [MapSample (inr "C4") (inr "samples/drum/biab_trance_kick_4.wav")
               (Some (11 # 5));
     MapSample (inr "C#4") (inr "samples/drum/biab_trance_snare_2.wav")
               (Some 2);
     SampleDecoded 0%nat [1; 2; 3];
     KitEvent (NoteOnEvt 0 61%Z 1); KitEvent (NoteOnEvt 0 60%Z 1);
     KitUpdate; KitUpdate]%string in
  exists kit' st' heap',
    for_each kit_step calls (new_SampleKit 0%nat, example_store, []) =
      Returned (kit', st', heap') /\
    playing (buffers_of heap') kit'.
Proof.
  intros calls.
  assert (Hplaying : playing (buffers_of []) (new_SampleKit 0%nat))
    by (intros a []).
  destruct (@kit_calls_return calls (new_SampleKit 0%nat) example_store []
              Hplaying)
    as [(kit' & st' & heap' & Hrun & Hp & _) _].
  - cbn. discriminate.
  - intros name sample volume Hin. subst calls.
    repeat (destruct Hin as [Hin|Hin]; [try discriminate Hin|]);
      try contradiction;
      inversion Hin; subst; eexists; reflexivity.
  - cbn. repeat constructor. intros [].
  - intros s [<-|[]]. reflexivity.
  - exists kit', st', heap'. split; assumption.
Defined.

(** *** The pitch-shifting instrument *)

Lemma shift_loop_length (inBuf : buffer) (disp : Q) (outBuf : buffer)
  (p : Q) :
  List.length (fst (shift_loop inBuf disp outBuf p)) = List.length outBuf.
Proof.
  revert p. induction outBuf as [|y outBuf IH]; intros p; cbn [shift_loop];
    [reflexivity|].
  cbv zeta. destruct (_ <=? _)%Z; [reflexivity|].
  cbn [fst List.length]. rewrite IH. reflexivity.
Qed.

(** With a displacement of at most a sample, a position below the length
    of the sample stays below it: the loop stops one sample before the
    end. *)
Lemma shift_loop_stays (inBuf : buffer) (disp : Q) (outBuf : buffer)
  (p : Q) :
  disp <= 1 -> p < inject_Z (Z.of_nat (List.length inBuf)) ->
  snd (shift_loop inBuf disp outBuf p)
  < inject_Z (Z.of_nat (List.length inBuf)).
Proof.
  intros Hd. revert p. induction outBuf as [|y outBuf IH]; intros p Hp;
    cbn [shift_loop]; [exact Hp|].
  cbv zeta.
  destruct (Z.of_nat (List.length inBuf) <=? Qfloor p + 1)%Z eqn:E;
    [exact Hp|].
  apply Z.leb_gt in E. cbn [snd]. apply IH.
  pose proof (Qlt_floor p) as Hfl.
  assert (Hle : inject_Z (Qfloor p + 1 + 1)
                <= inject_Z (Z.of_nat (List.length inBuf))).
  { rewrite <- Zle_Qle. lia. }
  rewrite inject_Z_plus in Hle. cbn [inject_Z] in Hle.
  change (inject_Z 1) with 1 in *. lra.
Qed.

Lemma notes_loop_keeps (inBuf : buffer) (notes : list ActNote)
  (outBuf : buffer) :
  (forall n, In n notes ->
     freqRatio n <= 1 /\
     note_pos n < inject_Z (Z.of_nat (List.length inBuf))) ->
  map freqRatio (fst (notes_loop inBuf notes outBuf)) = map freqRatio notes /\
  forall n, In n (fst (notes_loop inBuf notes outBuf)) ->
    freqRatio n <= 1 /\
    note_pos n < inject_Z (Z.of_nat (List.length inBuf)).
Proof.
  revert outBuf. induction notes as [|n notes IH]; intros outBuf Hok.
  - cbn. split; [reflexivity | intros n []].
  - destruct (Hok n (or_introl eq_refl)) as [Hd Hp].
    pose proof (@shift_loop_stays inBuf (freqRatio n) outBuf (note_pos n)
                  Hd Hp) as Hstay.
    cbn [notes_loop]. cbv zeta.
    destruct (Qle_bool _ (snd (shift_loop inBuf (freqRatio n) outBuf
                                           (note_pos n)))) eqn:E.
    { apply Qle_bool_iff in E. lra. }
    destruct (IH (fst (shift_loop inBuf (freqRatio n) outBuf (note_pos n))))
      as [IH1 IH2].
    { intros n' Hn'. apply Hok. right. exact Hn'. }
    cbn [fst map]. rewrite IH1. split; [reflexivity|].
    intros n' [<-|Hn']; [|exact (IH2 n' Hn')].
    cbn [freqRatio note_pos]. split; assumption.
Qed.

(** X24.  Notes of the pitch-shifting instrument that never end.
    An active note whose frequency ratio is at most 1 (a note at or
    below the centre note) and whose position is below the length of the
    sample is never removed by an update: the inner loop stops when the
    sample after the position would be past the end, one sample before
    the position could reach the length that the removal test asks for.
    So with such notes the update keeps every one of them, with a
    position that is still below the length, and marks the output as
    having data in every block. *)
Theorem instr_update_keeps_low_notes (bufs : sample_buffers)
  (instr : SampleInstr) (st : store) (inBuf outBuf : buffer)
  (outs : list buffer)
  (Hloaded : bufs (instr_sample instr) = Some inBuf)
  (Hbuf : buffers (output st (instr_output instr)) = outBuf :: outs)
  (Hnotes : instr_actNotes instr <> [])
  (Hlow : forall n, In n (instr_actNotes instr) ->
     freqRatio n <= 1 /\
     note_pos n < inject_Z (Z.of_nat (List.length inBuf))) :
  exists instr' st',
    instr_update bufs instr st = Returned (instr', st') /\
    map freqRatio (instr_actNotes instr') =
      map freqRatio (instr_actNotes instr) /\
    (forall n, In n (instr_actNotes instr') ->
       freqRatio n <= 1 /\
       note_pos n < inject_Z (Z.of_nat (List.length inBuf))) /\
    instr_actNotes instr' <> [] /\
    hasData (output st' (instr_output instr')) = true.
Proof.
  unfold instr_update.
  destruct (instr_actNotes instr) as [|n0 notes0] eqn:En; [congruence|].
  cbn [List.length Nat.eqb]. rewrite <- En in *.
  unfold SynthOutput_getBuffer.
  cbn [is_undefined andb negb assert bind fst snd].
  assert (Hb : buffers (output (set_hasData (instr_output instr) true st)
                               (instr_output instr)) = outBuf :: outs).
  { cbn. rewrite Nat.eqb_refl. cbn. exact Hbuf. }
  rewrite Hb. cbn [nth_error]. rewrite Hloaded. cbv zeta.
  destruct (@notes_loop_keeps inBuf (instr_actNotes instr)
              (map (fun _ => 0) outBuf) Hlow) as [Hratio Hkept].
  eexists. eexists. split; [reflexivity|].
  cbn [instr_actNotes set_instr_actNotes instr_output].
  split; [exact Hratio|]. split; [exact Hkept|]. split.
  - intros Hnil. rewrite Hnil in Hratio. rewrite En in Hratio. discriminate.
  - cbn [set_channel output]. unfold upd. rewrite Nat.eqb_refl.
    cbn. rewrite Nat.eqb_refl. reflexivity.
Qed.

(** A note at the centre pitch, at position 3 of a sample of four frames,
    is still active after the update. *)
Lemma instr_update_keeps_low_notes_witness :
  let bufs := fun _ : SampleId => Some [1; 2; 3; 4] in
  let instr := {| instr_sample := 0%nat; centerNote := 60%Z;
                  instr_actNotes := [{| note_pos := 3; freqRatio := 1 |}];
                  instr_output := 0%nat |} in
  exists instr' st',
    instr_update bufs instr example_store = Returned (instr', st') /\
    instr_actNotes instr' <> [].
Proof.
  intros bufs instr.
  destruct (@instr_update_keeps_low_notes bufs instr example_store
              [1; 2; 3; 4] (repeat 1 256) [] eq_refl eq_refl)
    as (instr' & st' & Hrun & _ & _ & Hne & _).
  - discriminate.
  - intros n [<-|[]]. cbn. split; [lra|]. reflexivity.
  - exists instr', st'. split; assumption.
Defined.

End SamplingFacts.

(** ** vanalog: the active list under events and updates *)

Module VoiceFacts.

Import Music Timeline Envelope Synth VAnalog Voice.
Import JsFacts VAnalogFacts EnvelopeRange.
#[local] Open Scope Q_scope.

Lemma find_note_None (n : Note) (l : list VNote) :
  find_note n l = None <-> ~ In n (map note l).
Proof.
  induction l as [|s l IH]; cbn.
  - split; [intros _ [] | reflexivity].
  - destruct (note s =? n)%Z eqn:E.
    + apply Z.eqb_eq in E. split; [discriminate | intros H; exfalso; auto].
    + apply Z.eqb_neq in E.
      destruct (find_note n l) as [[idx found]|].
      * split; [discriminate|]. intros H. exfalso. apply H. right.
        destruct IH as [_ IH].
        destruct (in_dec Z.eq_dec n (map note l)) as [Hin|Hin];
          [exact Hin | specialize (IH Hin); discriminate].
      * split; [|reflexivity]. intros _ [H|H]; [congruence|].
        destruct IH as [IH _]. exact (IH eq_refl H).
Qed.

Lemma find_note_Some (n : Note) (l : list VNote) (idx : nat) (state : VNote) :
  find_note n l = Some (idx, state) ->
  exists pre post,
    l = pre ++ state :: post /\ idx = List.length pre /\ note state = n /\
    forall s, In s pre -> note s <> n.
Proof.
  revert idx. induction l as [|s l IH]; cbn; intros idx H; [discriminate|].
  destruct (note s =? n)%Z eqn:E.
  - apply Z.eqb_eq in E. inversion H; subst.
    exists [], l. repeat split. intros s' [].
  - apply Z.eqb_neq in E.
    destruct (find_note n l) as [[idx' found]|]; [|discriminate].
    inversion H; subst.
    destruct (IH idx' eq_refl) as (pre & post & -> & -> & Hn & Hpre).
    exists (s :: pre), post. repeat split; [exact Hn|].
    intros s' [<-|Hin]; [exact E | exact (Hpre s' Hin)].
Qed.

(** The loop that stores envelope values, on a note with one state per
    oscillator. *)
Lemma store_amps_spec (store : Q -> OSCState -> OSCState)
  (params : list OSC) (states : list OSCState) (time onT offT : Q) :
  List.length states = List.length params ->
  store_amps store params states time onT offT =
  Returned (map (fun ps => store
                             (getValue (env (fst ps)) time onT offT
                                       (onAmp (snd ps)) (offAmp (snd ps)))
                             (snd ps))
                (combine params states)).
Proof.
  revert states. induction params as [|p params IH]; intros [|st states] Hlen;
    cbn in *; try discriminate; try reflexivity.
  rewrite IH by lia. reflexivity.
Qed.

Lemma length_stored (A : Type) (f : OSC * OSCState -> A)
  (params : list OSC) (states : list OSCState) :
  List.length states = List.length params ->
  List.length (map f (combine params states)) = List.length params.
Proof.
  intros H. rewrite length_map, length_combine. lia.
Qed.

Lemma NoDup_map_filter (A B : Type) (g : A -> B) (f : A -> bool) (l : list A) :
  NoDup (map g l) -> NoDup (map g (filter f l)).
Proof.
  induction l as [|x l IH]; cbn; intros H; [constructor|].
  inversion H as [|? ? Hnin Hnd]; subst.
  destruct (f x); cbn; [|exact (IH Hnd)].
  constructor; [|exact (IH Hnd)].
  intros Hin. apply Hnin.
  apply in_map_iff in Hin. destruct Hin as (y & Hy & Hin).
  apply filter_In in Hin. apply in_map_iff. exists y. tauto.
Qed.

Lemma same_params_refl (va : VAnalog) : same_params va va.
Proof. repeat split. Qed.

Lemma same_params_set_actNotes (notes : list VNote) (va : VAnalog) :
  same_params va (set_actNotes notes va).
Proof. repeat split. Qed.

Lemma same_params_trans (va1 va2 va3 : VAnalog) :
  same_params va1 va2 -> same_params va2 va3 -> same_params va1 va3.
Proof.
  unfold same_params. intros H1 H2.
  destruct H1 as (?&?&?&?&?&?&?), H2 as (?&?&?&?&?&?&?).
  repeat split; congruence.
Qed.

(** Replacing a voice by one for the same note with as many oscillator
    states keeps the active list well formed. *)
Lemma voices_ok_replace (va : VAnalog) (pre post : list VNote)
  (state state' : VNote) :
  voices_ok va -> actNotes va = pre ++ state :: post ->
  note state' = note state ->
  List.length (note_oscs state') = List.length (oscs va) ->
  voices_ok (set_actNotes (pre ++ state' :: post) va).
Proof.
  intros [Hnd Hsz] Hact Hnote Hlen. split; cbn.
  - rewrite Hact in Hnd. rewrite map_app in *. cbn in *.
    rewrite Hnote. exact Hnd.
  - intros s Hin. apply in_app_iff in Hin.
    destruct Hin as [Hin|[<-|Hin]].
    + apply Hsz. rewrite Hact. apply in_app_iff. left. exact Hin.
    + exact Hlen.
    + apply Hsz. rewrite Hact. apply in_app_iff. right. right. exact Hin.
Qed.

Lemma processEvent_ok (va : VAnalog) (evt : SynthEvt) (time : Q) :
  voices_ok va ->
  exists va', processEvent va evt time = Returned va' /\
              voices_ok va' /\ same_params va va'.
Proof.
  intros Hok. pose proof Hok as [Hnd Hsz].
  destruct evt as [t n velocity | t n | t]; cbn [processEvent].
  - destruct (find_note n (actNotes va)) as [[idx state]|] eqn:Ef.
    + destruct (find_note_Some _ _ Ef) as (pre & post & Hact & -> & Hn & Hpre).
      assert (Hlen : List.length (note_oscs state) = List.length (oscs va)).
      { apply Hsz. rewrite Hact. apply in_app_iff. right. left. reflexivity. }
      unfold note_on_again. rewrite store_amps_spec by exact Hlen.
      cbn [bind]. rewrite Hact, replace_at_app.
      eexists. split; [reflexivity|]. split.
      * eapply voices_ok_replace; eauto. cbn. apply length_stored. exact Hlen.
      * apply same_params_set_actNotes.
    + apply find_note_None in Ef.
      eexists. split; [reflexivity|]. split.
      * split; cbn.
        -- rewrite map_app. cbn. apply NoDup_app.
           ++ exact Hnd.
           ++ constructor; [intros []|constructor].
           ++ intros x Hx [<-|[]]. exact (Ef Hx).
        -- intros s Hin. apply in_app_iff in Hin.
           destruct Hin as [Hin|[<-|[]]]; [exact (Hsz s Hin)|].
           cbn. apply length_map.
      * apply same_params_set_actNotes.
  - destruct (find_note n (actNotes va)) as [[idx state]|] eqn:Ef.
    + destruct (find_note_Some _ _ Ef) as (pre & post & Hact & -> & Hn & Hpre).
      assert (Hlen : List.length (note_oscs state) = List.length (oscs va)).
      { apply Hsz. rewrite Hact. apply in_app_iff. right. left. reflexivity. }
      unfold note_off. rewrite store_amps_spec by exact Hlen.
      cbn [bind]. rewrite Hact, replace_at_app.
      eexists. split; [reflexivity|]. split.
      * eapply voices_ok_replace; eauto. cbn. apply length_stored. exact Hlen.
      * apply same_params_set_actNotes.
    + exists va. split; [reflexivity|]. split; [exact Hok|].
      apply same_params_refl.
  - eexists. split; [reflexivity|]. split.
    + split; cbn; [constructor | intros s []].
    + apply same_params_set_actNotes.
Qed.

Lemma updated_note_note
  (gp : VAnalog -> Q -> OSC -> OSCState -> VNote -> Q -> Q * Q)
  (ar : VAnalog -> Q -> Q -> VNote -> Q * Q)
  (va : VAnalog) (time sampleRate : Q) (l : list VNote) :
  map note (map (updated_note gp ar va time sampleRate) l) = map note l.
Proof. rewrite map_map. reflexivity. Qed.

Lemma updated_note_length
  (gp : VAnalog -> Q -> OSC -> OSCState -> VNote -> Q -> Q * Q)
  (ar : VAnalog -> Q -> Q -> VNote -> Q * Q)
  (va : VAnalog) (time sampleRate : Q) (s : VNote) :
  List.length (note_oscs s) = List.length (oscs va) ->
  List.length (note_oscs (updated_note gp ar va time sampleRate s)) =
  List.length (oscs va).
Proof.
  intros H. cbn. rewrite length_app, length_map, length_combine, length_skipn.
  lia.
Qed.

Lemma update_ok
  (gp : VAnalog -> Q -> OSC -> OSCState -> VNote -> Q -> Q * Q)
  (ar : VAnalog -> Q -> Q -> VNote -> Q * Q)
  (va : VAnalog) (time sampleRate : Q) :
  voices_ok va ->
  0 <= cutoff va /\ cutoff va <= 1 ->
  0 <= resonance va /\ resonance va <= 1 ->
  (forall p, In p (oscs va) -> is_waveform (osc_type p) = true) ->
  update gp ar va time sampleRate =
    Returned
      (if (List.length (actNotes va) =? 0)%nat then va
       else set_actNotes
              (map (updated_note gp ar va time sampleRate)
                   (filter (fun s => negb (Qeq_bool
                              (maxEndAmp_of va (endTime_of time sampleRate) s)
                              0))
                           (actNotes va)))
              va) /\
  exists va', update gp ar va time sampleRate = Returned va' /\
              voices_ok va' /\ same_params va va'.
Proof.
  intros Hok Hc Hr Hw. pose proof Hok as [Hnd Hsz].
  unfold update.
  destruct (List.length (actNotes va) =? 0)%nat.
  - split; [reflexivity|]. exists va.
    split; [reflexivity|]. split; [exact Hok | apply same_params_refl].
  - rewrite (@notes_loop_spec gp ar va time sampleRate Hc Hr Hw (actNotes va)
               Hsz).
    cbn [bind]. split; [reflexivity|].
    eexists. split; [reflexivity|]. split.
    + split; cbn.
      * rewrite updated_note_note. apply NoDup_map_filter. exact Hnd.
      * intros s Hin. apply in_map_iff in Hin.
        destruct Hin as (s0 & <- & Hin). apply filter_In in Hin.
        apply updated_note_length. apply Hsz. tauto.
    + apply same_params_set_actNotes.
Qed.

Lemma new_VAnalog_ok (numOscs : nat) : voices_ok (new_VAnalog numOscs).
Proof. split; cbn; [constructor | intros s []]. Qed.

Lemma for_each_step_ok
  (gp : VAnalog -> Q -> OSC -> OSCState -> VNote -> Q -> Q * Q)
  (ar : VAnalog -> Q -> Q -> VNote -> Q * Q)
  (calls : list node_call) (va : VAnalog) :
  voices_ok va ->
  0 <= cutoff va /\ cutoff va <= 1 ->
  0 <= resonance va /\ resonance va <= 1 ->
  (forall p, In p (oscs va) -> is_waveform (osc_type p) = true) ->
  exists va', for_each (step gp ar) calls va = Returned va' /\
              voices_ok va' /\ same_params va va'.
Proof.
  revert va. induction calls as [|c calls IH]; intros va Hok Hc Hr Hw.
  - exists va. split; [reflexivity|]. split; [exact Hok|].
    apply same_params_refl.
  - assert (Hstep : exists va1, step gp ar va c = Returned va1 /\
                                voices_ok va1 /\ same_params va va1).
    { destruct c as [evt t | t sr]; cbn [step].
      - apply processEvent_ok. exact Hok.
      - apply update_ok; assumption. }
    destruct Hstep as (va1 & Hs & Hok1 & Hsame1).
    pose proof Hsame1 as (Ho1 & Hc1 & Hr1 & _).
    destruct (IH va1 Hok1) as (va' & Hrun & Hok' & Hsame').
    + rewrite Hc1. exact Hc.
    + rewrite Hr1. exact Hr.
    + rewrite Ho1. exact Hw.
    + exists va'. cbn [for_each]. rewrite Hs. cbn [bind].
      split; [exact Hrun|]. split; [exact Hok'|].
      eapply same_params_trans; eassumption.
Qed.

(** The update of a node with an active voice and an oscillator whose
    type is not a waveform throws the error of [genOsc]. *)
Lemma update_invalid_waveform
  (gp : VAnalog -> Q -> OSC -> OSCState -> VNote -> Q -> Q * Q)
  (ar : VAnalog -> Q -> Q -> VNote -> Q * Q)
  (va : VAnalog) (time sampleRate : Q) (pre post : list OSC) (p : OSC) :
  voices_ok va ->
  actNotes va <> [] ->
  oscs va = pre ++ p :: post ->
  (forall q, In q pre -> is_waveform (osc_type q) = true) ->
  is_waveform (osc_type p) = false ->
  update gp ar va time sampleRate =
    Threw (String.append "invalid waveform: " (osc_type p)).
Proof.
  intros [_ Hsz] Hne Hoscs Hpre Hp. unfold update.
  destruct (actNotes va) as [|s notes] eqn:E; [congruence|].
  cbn [List.length Nat.eqb notes_loop]. unfold update_note.
  rewrite Hoscs.
  rewrite (@oscs_loop_invalid_waveform gp va time
             (endTime_of time sampleRate) sampleRate s pre post p
             (note_oscs s) 0);
    [reflexivity | | exact Hpre | exact Hp].
  rewrite <- Hoscs. apply Hsz. left. reflexivity.
Qed.

(** X25.  Events and updates keep the active list of a voice node well
    formed, and throw only for an oscillator type that is not a
    waveform.  From a node with one voice per note and one oscillator
    state per oscillator, whose filter cutoff and resonance are between 0
    and 1: when every oscillator type is one of the waveforms of
    [genOsc], every sequence of [processEvent] and [update] calls
    returns, and leaves a node with the same parameters, one voice per
    note and one oscillator state per oscillator, so the [TypeError] of
    reading a missing oscillator state and the filter assertions cannot
    be reached; when some oscillator type is not a waveform and the node
    has an active voice, [update] throws 'invalid waveform: ' followed by
    the first such type. *)
Theorem run_keeps_voices_ok
  (genOsc_positions : VAnalog -> Q -> OSC -> OSCState -> VNote -> Q -> Q * Q)
  (applyFilter_registers : VAnalog -> Q -> Q -> VNote -> Q * Q)
  (calls : list node_call) (va : VAnalog)
  (Hok : voices_ok va)
  (Hcutoff : 0 <= cutoff va /\ cutoff va <= 1)
  (Hresonance : 0 <= resonance va /\ resonance va <= 1) :
  ((forall p, In p (oscs va) -> is_waveform (osc_type p) = true) ->
   exists va',
     run genOsc_positions applyFilter_registers calls va = Returned va' /\
     voices_ok va' /\ same_params va va') /\
  (forall pre p post time sampleRate,
     oscs va = pre ++ p :: post ->
     (forall q, In q pre -> is_waveform (osc_type q) = true) ->
     is_waveform (osc_type p) = false ->
     actNotes va <> [] ->
     update genOsc_positions applyFilter_registers va time sampleRate =
       Threw (String.append "invalid waveform: " (osc_type p))).
Proof.
  split.
  - intros Hw. apply for_each_step_ok; assumption.
  - intros pre p post time sampleRate Hoscs Hpre Hp Hne.
    apply (@update_invalid_waveform genOsc_positions applyFilter_registers
             va time sampleRate pre post p Hok Hne Hoscs Hpre Hp).
Qed.

(** A node of two sine oscillators played, retriggered, released and
    updated; and a node whose oscillator is set to the type 'square',
    which throws at the first update after a note-on. *)
Lemma run_keeps_voices_ok_witness :
  (exists va',
     run example_positions example_registers
         [Event (NoteOnEvt 0 60%Z 1) 0; Update 0 44100;
          Event (NoteOnEvt (1 # 2) 60%Z 1) (1 # 2);
          Event (NoteOffEvt 1 60%Z) 1; Update 1 44100]
         (new_VAnalog 2) = Returned va' /\
     voices_ok va' /\ same_params (new_VAnalog 2) va') /\
  let square :=
    {| osc_type := "square"; duty := 1 # 2; detune := 0;
       env := env new_OSC; volume := 1; sync := false; syncDetune := 0 |} in
  let va :=
    {| oscs := [square]; cutoff := 1; resonance := 0;
       filterEnv := filterEnv (new_VAnalog 1); filterEnvAmt := 1;
       pitchEnv := pitchEnv (new_VAnalog 1); pitchEnvAmt := 0;
       actNotes := [new_VNote (new_VAnalog 1) 60%Z 1 0] |} in
  update example_positions example_registers va 0 44100 =
    Threw "invalid waveform: square".
Proof.
  split.
  - assert (Hcutoff : 0 <= cutoff (new_VAnalog 2) /\
                      cutoff (new_VAnalog 2) <= 1) by (cbn; lra).
    assert (Hresonance : 0 <= resonance (new_VAnalog 2) /\
                         resonance (new_VAnalog 2) <= 1) by (cbn; lra).
    apply (proj1 (@run_keeps_voices_ok example_positions example_registers
                    _ (new_VAnalog 2) (new_VAnalog_ok 2) Hcutoff
                    Hresonance)).
    intros p [<-|[<-|[]]]; reflexivity.
  - intros square va.
    assert (Hok : voices_ok va).
    { split; cbn.
      - repeat constructor. intros [].
      - intros s [<-|[]]. reflexivity. }
    assert (Hcutoff : 0 <= cutoff va /\ cutoff va <= 1) by (cbn; lra).
    assert (Hresonance : 0 <= resonance va /\ resonance va <= 1)
      by (cbn; lra).
    apply (proj2 (@run_keeps_voices_ok example_positions example_registers
                    [] va Hok Hcutoff Hresonance) [] square []).
    + reflexivity.
    + intros q [].
    + reflexivity.
    + discriminate.
Defined.

(** *** Note-off *)

Lemma nth_error_combine (A B : Type) (l : list A) (l' : list B) (k : nat)
  (x : A) (y : B) :
  nth_error l k = Some x -> nth_error l' k = Some y ->
  nth_error (combine l l') k = Some (x, y).
Proof.
  revert l' k. induction l as [|p l IH]; intros [|s l0] [|k]; cbn;
    intros Hp Hs; try discriminate.
  - inversion Hp. inversion Hs. reflexivity.
  - apply IH; assumption.
Qed.

(** The envelope evaluated at the note-off time itself returns the stored
    off-amplitude when the release takes time and its curve exponent is
    not 0. *)
Lemma getValue_at_offTime (e : ADSREnv) (time onT onA amp : Q) :
  ~ time == 0 -> lt_dur 0 (r e) = true -> (0 < rExp e)%N ->
  getValue e time onT time onA amp == amp.
Proof.
  intros Hne Hr He. unfold getValue.
  destruct (Qeq_bool time 0) eqn:E.
  { apply Qeq_bool_iff in E. contradiction. }
  assert (Hlt : lt_dur (time - time) (r e) = true).
  { destruct (r e) as [qr|]; [|reflexivity]. cbn in *.
    apply Qltb_lt. apply Qltb_lt in Hr. lra. }
  rewrite Hlt. apply interp_at_0; [|exact He].
  destruct (r e) as [qr|]; cbn; [|reflexivity].
  cbn in Hr. apply Qltb_lt in Hr. field. lra.
Qed.

(** X26.  A NoteOff for a note without a voice changes nothing.
    A NoteOff for a note with a voice stores, in the off-amplitude of
    every oscillator state, the oscillator's envelope value at the time
    [time] at which the event is processed, under the voice's previous
    times and amplitudes, likewise the filter and pitch envelope values,
    and sets the off-time to [time]; the on-time, the on-amplitudes and
    the velocity are kept.  When [time] is not 0, the release takes time
    and its exponent is not 0, the envelope evaluated at [time] under the
    new state is the stored off-amplitude: the release starts from the
    level the voice had.  A NoteOff processed at time 0 stores an off-time
    of 0, which is how a held note is marked: the envelope of the voice is
    then that of a held note. *)
Theorem processEvent_note_off (va : VAnalog) (pre post : list VNote)
  (state : VNote) (evtTime time : Q) (n : Note)
  (Hnotes : actNotes va = pre ++ state :: post)
  (Hpre : forall s, In s pre -> note s <> n)
  (Hnote : note state = n)
  (Hoscs : List.length (note_oscs state) = List.length (oscs va)) :
  let state' :=
    {| note := note state;
       vel := vel state;
       onTime := onTime state;
       offTime := time;
       note_oscs := released_oscs va state time;
       filterSt := filterSt state;
       filterOnEnv := filterOnEnv state;
       filterOffEnv := getValue (filterEnv va) time (onTime state)
                         (offTime state) (filterOnEnv state)
                         (filterOffEnv state);
       pitchOnEnv := pitchOnEnv state;
       pitchOffEnv := getValue (pitchEnv va) time (onTime state)
                        (offTime state) (pitchOnEnv state)
                        (pitchOffEnv state) |} in
  processEvent va (NoteOffEvt evtTime n) time =
    Returned (set_actNotes (pre ++ state' :: post) va) /\
  (forall n', ~ In n' (map note (actNotes va)) ->
     processEvent va (NoteOffEvt evtTime n') time = Returned va) /\
  (forall k oscParams oscState,
     nth_error (oscs va) k = Some oscParams ->
     nth_error (note_oscs state) k = Some oscState ->
     exists oscState',
       nth_error (note_oscs state') k = Some oscState' /\
       offAmp oscState' =
         getValue (env oscParams) time (onTime state) (offTime state)
                  (onAmp oscState) (offAmp oscState) /\
       onAmp oscState' = onAmp oscState /\
       (~ time == 0 -> lt_dur 0 (r (env oscParams)) = true ->
        (0 < rExp (env oscParams))%N ->
        getValue (env oscParams) time (onTime state') (offTime state')
                 (onAmp oscState') (offAmp oscState') == offAmp oscState') /\
       (time == 0 -> forall t,
        getValue (env oscParams) t (onTime state') (offTime state')
                 (onAmp oscState') (offAmp oscState') =
        getValue (env oscParams) t (onTime state) 0
                 (onAmp oscState) (offAmp oscState))).
Proof.
  cbv zeta. split; [|split].
  - unfold processEvent.
    rewrite Hnotes, (@find_note_app n pre post state Hpre Hnote).
    unfold note_off. rewrite store_amps_spec by exact Hoscs.
    cbn [bind]. rewrite replace_at_app. reflexivity.
  - intros n' Hn'. unfold processEvent.
    apply find_note_None in Hn'. rewrite Hn'. reflexivity.
  - intros k oscParams oscState Hp Hs. cbn [note_oscs onTime offTime].
    unfold released_oscs.
    eexists. split.
    + apply map_nth_error. apply nth_error_combine; eassumption.
    + cbn [fst snd set_offAmp onAmp offAmp].
      split; [reflexivity|]. split; [reflexivity|]. split.
      * intros Hne Hr He. apply getValue_at_offTime; assumption.
      * intros H0 t. unfold getValue.
        apply Qeq_bool_iff in H0. rewrite H0.
        replace (Qeq_bool 0 0) with true by reflexivity. reflexivity.
Qed.

Lemma processEvent_note_off_witness :
  let state := new_VNote (new_VAnalog 1) 60%Z 1 0 in
  let va := set_actNotes [state] (new_VAnalog 1) in
  exists state' oscState',
    processEvent va (NoteOffEvt 1 60%Z) 1 =
      Returned (set_actNotes [state'] va) /\
    onTime state' = 0 /\ offTime state' = 1 /\
    note_oscs state' = [oscState'] /\ offAmp oscState' == 1 # 5.
Proof.
  intros state va.
  assert (Hpre : forall s : VNote, In s [] -> note s <> 60%Z)
    by (intros s []).
  destruct (@processEvent_note_off va [] [] state 1 1 60%Z
              eq_refl Hpre eq_refl eq_refl) as [H _].
  eexists. eexists. split; [exact H|].
  cbn [onTime offTime note_oscs]. repeat split.
Defined.

(** *** Which voices an update removes *)

Lemma NoDup_map_inj (A B : Type) (g : A -> B) (l : list A) (x y : A) :
  NoDup (map g l) -> In x l -> In y l -> g x = g y -> x = y.
Proof.
  induction l as [|z l IH]; cbn; intros Hnd Hx Hy Hg; [contradiction|].
  inversion Hnd as [|? ? Hnin Hnd']; subst.
  destruct Hx as [<-|Hx], Hy as [<-|Hy].
  - reflexivity.
  - exfalso. apply Hnin. rewrite Hg. apply in_map. exact Hy.
  - exfalso. apply Hnin. rewrite <- Hg. apply in_map. exact Hx.
  - apply IH; assumption.
Qed.

(** The envelope of a released note is 0 once the release time has
    elapsed. *)
Lemma getValue_release_over (e : ADSREnv) (qr curTime onT offT onA offA : Q) :
  ~ offT == 0 -> r e = Finite qr -> offT + qr <= curTime ->
  getValue e curTime onT offT onA offA = 0.
Proof.
  intros Hne Hr Hover. unfold getValue.
  destruct (Qeq_bool offT 0) eqn:E.
  { apply Qeq_bool_iff in E. contradiction. }
  rewrite Hr. cbn [lt_dur]. rewrite Qltb_false_intro by lra. reflexivity.
Qed.

(** X27.  A released voice is removed by the update of the block at
    whose end every oscillator's release time has elapsed: on a node
    whose oscillator types are waveforms, the update returns and the
    active list has no voice for its note afterwards. *)
Theorem update_removes_released_voice
  (genOsc_positions : VAnalog -> Q -> OSC -> OSCState -> VNote -> Q -> Q * Q)
  (applyFilter_registers : VAnalog -> Q -> Q -> VNote -> Q * Q)
  (va : VAnalog) (time sampleRate : Q) (state : VNote)
  (Hok : voices_ok va)
  (Hcutoff : 0 <= cutoff va /\ cutoff va <= 1)
  (Hresonance : 0 <= resonance va /\ resonance va <= 1)
  (Hwaveforms : forall p, In p (oscs va) -> is_waveform (osc_type p) = true)
  (Hin : In state (actNotes va))
  (Hoff : ~ offTime state == 0)
  (Hover : forall p, In p (oscs va) ->
     exists qr, r (env p) = Finite qr /\
                offTime state + qr <= endTime_of time sampleRate) :
  maxEndAmp_of va (endTime_of time sampleRate) state == 0 /\
  exists va',
    update genOsc_positions applyFilter_registers va time sampleRate =
      Returned va' /\
    ~ In (note state) (map note (actNotes va')).
Proof.
  assert (Hzero : maxEndAmp_of va (endTime_of time sampleRate) state == 0).
  { unfold maxEndAmp_of. apply fold_max_zero; [lra|].
    split; [reflexivity|]. apply Forall_forall. intros [p os] Hps.
    apply in_combine_l in Hps. destruct (Hover p Hps) as (qr & Hr & Hle).
    unfold ampEnd. cbn [fst snd].
    rewrite (@getValue_release_over (env p) qr _ (onTime state)
               (offTime state) (onAmp os) (offAmp os) Hoff Hr Hle). lra. }
  split; [exact Hzero|].
  destruct (update_ok genOsc_positions applyFilter_registers time sampleRate
              Hok Hcutoff Hresonance Hwaveforms) as [Hupd _].
  rewrite Hupd. eexists. split; [reflexivity|].
  destruct (List.length (actNotes va) =? 0)%nat eqn:Elen.
  - apply Nat.eqb_eq in Elen.
    destruct (actNotes va); [contradiction | discriminate].
  - cbn [actNotes set_actNotes]. rewrite updated_note_note.
    intros Hmem. apply in_map_iff in Hmem.
    destruct Hmem as (s' & Hnote & Hs'). apply filter_In in Hs'.
    destruct Hs' as [Hs' Hkeep].
    assert (s' = state).
    { eapply NoDup_map_inj; [apply (one_voice_per_note Hok) | | | ];
        eassumption. }
    subst s'. apply negb_true_iff in Hkeep.
    apply Qeq_bool_iff in Hzero. congruence.
Qed.

Lemma update_removes_released_voice_witness :
  let released :=
    {| note := 62%Z; vel := 1; onTime := 0; offTime := 1;
       note_oscs := [{| cyclePos := 0; syncCyclePos := 0;
                        onAmp := 0; offAmp := 1 # 5 |}];
       filterSt := repeat 0 8;
       filterOnEnv := 0; filterOffEnv := 1;
       pitchOnEnv := 0; pitchOffEnv := 1 |} in
  let va := set_actNotes [released] (new_VAnalog 1) in
  exists va',
    update example_positions example_registers va 2 44100 = Returned va' /\
    ~ In 62%Z (map note (actNotes va')).
Proof.
  intros released va.
  assert (Hok : voices_ok va).
  { split; cbn.
    - constructor; [intros [] | constructor].
    - intros s [<-|[]]. reflexivity. }
  assert (Hover : forall p, In p (oscs va) ->
            exists qr, r (env p) = Finite qr /\
                       offTime released + qr <= endTime_of 2 44100).
  { intros p [<-|[]]. exists (1 # 10). split; [reflexivity|].
    vm_compute. discriminate. }
  apply (@update_removes_released_voice example_positions example_registers
           va 2 44100 released Hok); try (cbn; lra).
  - intros p [<-|[]]. reflexivity.
  - left. reflexivity.
  - exact Hover.
Defined.

Lemma fold_max_pos (A : Type) (f : A -> Q) (l : list A) (x : A) :
  In x l -> 0 < f x ->
  ~ fold_left (fun m y => Math_max m (f y)) l 0 == 0.
Proof.
  intros Hin Hpos H. apply fold_max_zero in H; [|lra].
  destruct H as [_ H]. rewrite Forall_forall in H.
  specialize (H x Hin). lra.
Qed.

Lemma fold_max_nonneg (A : Type) (f : A -> Q) (l : list A) (m : Q) :
  0 <= m -> 0 <= fold_left (fun m y => Math_max m (f y)) l m.
Proof.
  revert m. induction l as [|x l IH]; intros m Hm; cbn; [exact Hm|].
  apply IH. unfold Math_max.
  destruct (Qle_bool m (f x)) eqn:E; [|exact Hm].
  apply Qle_bool_iff in E. lra.
Qed.

(** The envelope of a held note is positive after the note-on when the
    attack is finite, the sustain level is positive and the stored
    on-amplitude is not negative. *)
Lemma getValue_held_pos (e : ADSREnv) (qa curTime onT offT onA offA : Q) :
  offT == 0 -> a e = Finite qa -> 0 < s e -> 0 <= onA -> onT < curTime ->
  0 < getValue e curTime onT offT onA offA.
Proof.
  intros Hoff Ha Hs HonA Ht. unfold getValue.
  apply Qeq_bool_iff in Hoff. rewrite Hoff.
  assert (Hnt : 0 <= curTime - onT) by lra.
  destruct (lt_dur (curTime - onT) (a e)) eqn:Ea.
  - pose proof (div_dur_unit _ Hnt Ea) as Hx.
    rewrite Ha in *. cbn [lt_dur div_dur] in *.
    apply Qltb_lt in Ea.
    assert (Hxpos : 0 < (curTime - onT) / qa).
    { apply Qlt_shift_div_l; lra. }
    unfold interp.
    destruct (Qltb onA 1) eqn:E.
    + apply Qltb_lt in E.
      assert (Hp : 0 < Math_pow ((curTime - onT) / qa) (aExp e))
        by (apply Qpower_0_lt; exact Hxpos).
      nra.
    + apply Qltb_ge in E.
      assert (Hx' : 0 <= 1 - (curTime - onT) / qa <= 1) by (split; lra).
      pose proof (Math_pow_unit (aExp e) Hx') as [Hp0 Hp1].
      nra.
  - destruct (lt_dur (curTime - onT) (add_dur (a e) (d e))) eqn:Ed.
    + destruct (decay_progress _ _ _ Ea Ed) as [Hsub Hlt].
      pose proof (div_dur_unit _ Hsub Hlt) as Hx.
      destruct (interp_between 1 (s e) (dExp e) Hx) as [Hup Hdown].
      destruct (Qlt_le_dec 1 (s e)) as [H1|H1].
      * assert (H1' : 1 <= s e) by lra. specialize (Hup H1'). lra.
      * specialize (Hdown H1). lra.
    + exact Hs.
Qed.

(** X28.  A held voice is never removed by an update: on a node whose
    oscillator types are waveforms, when the velocity is positive and
    some oscillator has a positive volume, a finite attack, a positive
    sustain level and a stored on-amplitude that is not negative, the
    voice sounds at the end of every block that ends after its on-time,
    and the update returns and keeps it. *)
Theorem update_keeps_held_voice
  (genOsc_positions : VAnalog -> Q -> OSC -> OSCState -> VNote -> Q -> Q * Q)
  (applyFilter_registers : VAnalog -> Q -> Q -> VNote -> Q * Q)
  (va : VAnalog) (time sampleRate : Q) (state : VNote)
  (k : nat) (oscParams : OSC) (oscState : OSCState) (qa : Q)
  (Hok : voices_ok va)
  (Hcutoff : 0 <= cutoff va /\ cutoff va <= 1)
  (Hresonance : 0 <= resonance va /\ resonance va <= 1)
  (Hwaveforms : forall p, In p (oscs va) -> is_waveform (osc_type p) = true)
  (Hin : In state (actNotes va))
  (Hheld : offTime state == 0)
  (Hvel : 0 < vel state)
  (Hparams : nth_error (oscs va) k = Some oscParams)
  (Hstate : nth_error (note_oscs state) k = Some oscState)
  (Hvolume : 0 < volume oscParams)
  (Hattack : a (env oscParams) = Finite qa)
  (Hsustain : 0 < s (env oscParams))
  (HonAmp : 0 <= onAmp oscState)
  (Htime : onTime state < endTime_of time sampleRate) :
  0 < maxEndAmp_of va (endTime_of time sampleRate) state /\
  exists va',
    update genOsc_positions applyFilter_registers va time sampleRate =
      Returned va' /\
    In (updated_note genOsc_positions applyFilter_registers va time
                     sampleRate state)
       (actNotes va').
Proof.
  assert (Hamp : 0 < ampEnd state (endTime_of time sampleRate)
                            oscParams oscState).
  { unfold ampEnd.
    pose proof (@getValue_held_pos (env oscParams) qa
                  (endTime_of time sampleRate) (onTime state) (offTime state)
                  (onAmp oscState) (offAmp oscState)
                  Hheld Hattack Hsustain HonAmp Htime) as Hpos.
    apply Qmult_lt_0_compat; [apply Qmult_lt_0_compat; assumption|].
    exact Hpos. }
  assert (Hmem : In (oscParams, oscState)
                    (combine (oscs va) (note_oscs state))).
  { eapply nth_error_In. apply nth_error_combine; eassumption. }
  assert (Hne : ~ maxEndAmp_of va (endTime_of time sampleRate) state == 0).
  { unfold maxEndAmp_of.
    apply (@fold_max_pos _
             (fun ps => ampEnd state (endTime_of time sampleRate)
                               (fst ps) (snd ps))
             _ (oscParams, oscState) Hmem).
    exact Hamp. }
  split.
  - assert (Hge : 0 <= maxEndAmp_of va (endTime_of time sampleRate) state).
    { unfold maxEndAmp_of. apply fold_max_nonneg. lra. }
    destruct (Qle_lt_or_eq _ _ Hge) as [H|H]; [exact H|].
    exfalso. apply Hne. symmetry. exact H.
  - destruct (update_ok genOsc_positions applyFilter_registers time sampleRate
                Hok Hcutoff Hresonance Hwaveforms) as [Hupd _].
    rewrite Hupd. eexists. split; [reflexivity|].
    destruct (List.length (actNotes va) =? 0)%nat eqn:Elen.
    + apply Nat.eqb_eq in Elen.
      destruct (actNotes va); [contradiction | discriminate].
    + cbn [actNotes set_actNotes]. apply in_map. apply filter_In.
      split; [exact Hin|]. apply negb_true_iff.
      destruct (Qeq_bool _ 0) eqn:E; [|reflexivity].
      apply Qeq_bool_iff in E. contradiction.
Qed.

(** A voice made by a note-on at the time of the block is kept by the
    update of that block. *)
Lemma update_keeps_held_voice_witness :
  let state := new_VNote (new_VAnalog 1) 60%Z 1 0 in
  let va := set_actNotes [state] (new_VAnalog 1) in
  exists va',
    update example_positions example_registers va 0 44100 = Returned va' /\
    In (updated_note example_positions example_registers va 0 44100 state)
       (actNotes va').
Proof.
  intros state va.
  assert (Hok : voices_ok va).
  { split; cbn.
    - constructor; [intros [] | constructor].
    - intros s [<-|[]]. reflexivity. }
  apply (@update_keeps_held_voice example_positions example_registers
           va 0 44100 state 0%nat new_OSC
           {| cyclePos := 0; syncCyclePos := 0; onAmp := 0; offAmp := 0 |}
           (1 # 20) Hok);
    try reflexivity; try (cbn; lra).
  - intros p [<-|[]]. reflexivity.
  - left. reflexivity.
Defined.

End VoiceFacts.

(** ** util/misc: random choices *)

Module MiscFacts.

Import Misc JsFacts.
#[local] Open Scope Q_scope.

Lemma isInt_true (val : Q) :
  isInt val = true <-> inject_Z (Qfloor val) == val.
Proof. unfold isInt. apply Qeq_bool_iff. Qed.

(** X29.  [randomInt(a, b)] returns an integer from [a] to
    [b]: for integers [a <= b] and a random number [r] with
    [0 <= r < 1] it returns an integer [x] with [a <= x <= b]; it
    throws when [a] or [b] is not an integer or [b < a]. *)
Theorem randomInt_range (a b r : Q)
  (Hr : 0 <= r /\ r < 1) :
  (isInt a = true -> isInt b = true -> a <= b ->
   exists x, randomInt a b r = Returned x /\
             isInt x = true /\ a <= x /\ x <= b) /\
  (isInt a = false \/ isInt b = false \/ b < a ->
   randomInt a b r = Threw "invalid params to randomInt").
Proof.
  split.
  - intros Ha Hb Hab. unfold randomInt.
    rewrite Ha, Hb. replace (Qle_bool a b) with true
      by (symmetry; apply Qle_bool_iff; exact Hab).
    cbn [andb assert bind]. eexists. split; [reflexivity|].
    apply isInt_true in Ha. apply isInt_true in Hb.
    set (k := Qfloor (r * (b - a + 1))).
    assert (Hk0 : (0 <= k)%Z).
    { subst k. change 0%Z with (Qfloor 0). apply Qfloor_resp_le. nra. }
    assert (Hk1 : (k <= Qfloor b - Qfloor a)%Z).
    { assert (Hlt : inject_Z k < inject_Z (Qfloor b - Qfloor a + 1)).
      { subst k. rewrite inject_Z_plus. unfold Zminus.
        rewrite inject_Z_plus, inject_Z_opp, Ha, Hb.
        change (inject_Z 1) with 1.
        pose proof (Qfloor_le (r * (b - a + 1))). nra. }
      rewrite <- Zlt_Qlt in Hlt. lia. }
    assert (Hx : a + inject_Z k == inject_Z (Qfloor a + k)).
    { rewrite inject_Z_plus, Ha. reflexivity. }
    split; [|split].
    + apply isInt_true. rewrite (Qfloor_comp _ _ Hx), Qfloor_Z.
      symmetry. exact Hx.
    + assert (H0 : inject_Z 0 <= inject_Z k) by (rewrite <- Zle_Qle; exact Hk0).
      change (inject_Z 0) with 0 in H0. lra.
    + assert (H1 : inject_Z k <= inject_Z (Qfloor b - Qfloor a))
        by (rewrite <- Zle_Qle; exact Hk1).
      unfold Zminus in H1. rewrite inject_Z_plus, inject_Z_opp, Ha, Hb in H1.
      lra.
  - intros H. unfold randomInt.
    replace (isInt a && isInt b && Qle_bool a b) with false; [reflexivity|].
    symmetry. destruct H as [H|[H|H]].
    + rewrite H. reflexivity.
    + rewrite H. apply andb_false_iff. left. apply andb_false_r.
    + apply andb_false_iff. right.
      destruct (Qle_bool a b) eqn:E; [|reflexivity].
      apply Qle_bool_iff in E. lra.
Qed.

Lemma randomInt_range_witness :
  exists x, randomInt 3 7 (9 # 10) = Returned x /\ 3 <= x /\ x <= 7.
Proof.
  destruct (@randomInt_range 3 7 (9 # 10)) as [H _]; [split; lra|].
  destruct H as (x & Hx & _ & Hlo & Hhi); try reflexivity; try lra.
  exists x. repeat split; assumption.
Defined.

(** *** Weighted choices *)

Lemma weightSum_fold (A : Type) (args : list (A * Q)) (s0 : Q) :
  fold_left (fun weightSum cw => weightSum + snd cw) args s0 ==
  s0 + fold_right (fun cw s => snd cw + s) 0 args.
Proof.
  revert s0. induction args as [|cw args IH]; intros s0; cbn.
  - ring.
  - rewrite IH. ring.
Qed.

Lemma choice_loop_positive (A : Type) (args : list (A * Q))
  (limitSum weightSum r : Q) :
  0 < weightSum ->
  limitSum <= r ->
  r < limitSum + fold_right (fun cw s => snd cw + s) 0 args / weightSum ->
  exists choice weight,
    choice_loop r (map fst args)
                (limits_from limitSum (map snd args) weightSum) =
      Some choice /\
    In (choice, weight) args /\ 0 < weight.
Proof.
  intros HS. revert limitSum.
  induction args as [|[c w] args IH]; intros limitSum Hlo Hhi.
  - cbn in Hhi. exfalso.
    assert (H0 : 0 / weightSum == 0) by (field; lra). rewrite H0 in Hhi.
    lra.
  - cbn [map fst snd limits_from choice_loop]. cbv zeta.
    destruct (Qltb r (limitSum + w / weightSum)) eqn:E.
    + apply Qltb_lt in E. exists c, w.
      split; [reflexivity|]. split; [left; reflexivity|].
      assert (Hw : 0 < w / weightSum) by lra.
      destruct (Qlt_le_dec 0 w) as [Hpos|Hneg]; [exact Hpos|].
      exfalso.
      assert (Hle : w / weightSum <= 0).
      { apply Qle_shift_div_r; [exact HS | lra]. }
      lra.
    + apply Qltb_ge in E.
      destruct (IH (limitSum + w / weightSum) E) as (c' & w' & Hc & Hin & Hw).
      { cbn [fold_right snd] in Hhi.
        assert (Hsplit : (w + fold_right (fun cw s => snd cw + s) 0 args)
                         / weightSum ==
                         w / weightSum +
                         fold_right (fun cw s => snd cw + s) 0 args
                         / weightSum) by (field; lra).
        rewrite Hsplit in Hhi. lra. }
      exists c', w'. split; [exact Hc|]. split; [right; exact Hin | exact Hw].
Qed.

(** X30.  The weighted choice.  [genChoiceFn] returns a choice
    function exactly when it is given at least one choice and the sum of
    the weights is positive.  For a random number [r] with [0 <= r < 1]
    the choice function returns one of the choices, and one whose weight
    is positive: with exact arithmetic the loop over the limits always
    returns, whatever the signs of the single weights, so the choice
    returned after the loop is not needed, and a choice of weight 0 or
    less is never made. *)
Theorem genChoiceFn_choice (A : Type) (args : list (A * Q)) (r : Q)
  (Hr : 0 <= r /\ r < 1) :
  ((exists f, genChoiceFn args = Returned f) <->
   args <> [] /\ 0 < weightSum_of args) /\
  forall f, genChoiceFn args = Returned f ->
    exists choice weight,
      f r = Some choice /\
      choice_loop r (map fst args)
                  (limits_from 0 (map snd args) (weightSum_of args)) =
        Some choice /\
      In (choice, weight) args /\ 0 < weight.
Proof.
  assert (Hret : forall f, genChoiceFn args = Returned f ->
            args <> [] /\ 0 < weightSum_of args /\
            f = choiceFn (map fst args)
                         (limits_from 0 (map snd args) (weightSum_of args))).
  { intros f. unfold genChoiceFn.
    destruct args as [|cw args]; [discriminate|].
    cbn [List.length Nat.ltb Nat.leb assert bind]. cbv zeta.
    destruct (Qltb 0 (weightSum_of (cw :: args))) eqn:E; [|discriminate].
    cbn [assert bind]. intros H. inversion H; subst.
    apply Qltb_lt in E. split; [discriminate|]. split; [exact E | reflexivity]. }
  split.
  - split.
    + intros [f Hf]. destruct (Hret f Hf) as (H1 & H2 & _). tauto.
    + intros [Hne Hpos]. unfold genChoiceFn.
      destruct args as [|cw args]; [congruence|].
      cbn [List.length Nat.ltb Nat.leb assert bind]. cbv zeta.
      replace (Qltb 0 (weightSum_of (cw :: args))) with true
        by (symmetry; apply Qltb_lt; exact Hpos).
      eexists. reflexivity.
  - intros f Hf. destruct (Hret f Hf) as (Hne & Hpos & ->).
    destruct (@choice_loop_positive A args 0 (weightSum_of args) r Hpos)
      as (c & w & Hc & Hin & Hw).
    + tauto.
    + pose proof (weightSum_fold args 0) as Hsum.
      fold (weightSum_of args) in Hsum.
      assert (H1 : fold_right (fun cw s => snd cw + s) 0 args
                   / weightSum_of args == 1).
      { rewrite Hsum. field. lra. }
      rewrite H1. lra.
    + exists c, w. unfold choiceFn. rewrite Hc. repeat split; assumption.
Qed.

Lemma genChoiceFn_choice_witness :
  exists f choice weight,
    genChoiceFn [(36%Z, 0); (38%Z, 3); (42%Z, 1)] = Returned f /\
    f (1 # 2) = Some choice /\
    In (choice, weight) [(36%Z, 0); (38%Z, 3); (42%Z, 1)] /\
    0 < weight.
Proof.
  destruct (@genChoiceFn_choice Z [(36%Z, 0); (38%Z, 3); (42%Z, 1)] (1 # 2))
    as [Hiff Hf]; [split; lra|].
  destruct (proj2 Hiff) as [f Hret].
  { split; [discriminate | reflexivity]. }
  destruct (Hf f Hret) as (c & w & H1 & _ & H2 & H3).
  exists f, c, w. repeat split; assumption.
Defined.

End MiscFacts.
